(** * A shallow embedding of the UI layout engine (scripts/ui_layout.js and
    scripts/ui_layout_debug.js) and the properties of its specification.

    Conventions of the embedding.

    - Numbers.  The engine computes on JavaScript numbers.  The model keeps
      the three special values that drive control flow in the source ([NaN]
      and the two infinities) and idealises every finite value as an exact
      rational: no rounding, no overflow, a single zero.
    - Style values are what [parseStyle] produces: a number or a string.
      Where the source does arithmetic on a style value the model reads it
      with [toNumber]; the statements below are about styles whose
      arithmetic properties hold numbers.
    - Host nodes live in a store indexed by position; a node handle is an
      index.  The store order is the order in which the host enumerates its
      instances.
    - The engine mutates nodes in place; the model threads the store through
      a small state monad. *)

From Stdlib Require Import QArith Qabs Qround Lqa Ascii String.
From stdpp Require Import gmap strings list fin_maps pretty.

Set Warnings "-register-all".

(* ===================================================================== *)
(** * JavaScript numbers *)
(* ===================================================================== *)

Inductive num : Type :=
| Fin (q : Q)
| PInf
| NInf
| NaN.

Coercion Fin : Q >-> num.

Definition Qltb (a b : Q) : bool := negb (Qle_bool b a).
Definition Qeqb (a b : Q) : bool := Qeq_bool a b.

Definition nneg (a : num) : num :=
  match a with
  | Fin q => Fin (- q)
  | PInf => NInf
  | NInf => PInf
  | NaN => NaN
  end.

Definition nadd (a b : num) : num :=
  match a, b with
  | NaN, _ | _, NaN => NaN
  | Fin x, Fin y => Fin (x + y)
  | PInf, NInf | NInf, PInf => NaN
  | PInf, _ | _, PInf => PInf
  | NInf, _ | _, NInf => NInf
  end.

Definition nsub (a b : num) : num :=
  match a, b with
  | Fin x, Fin y => Fin (x - y)
  | _, _ => nadd a (nneg b)
  end.

(** Sign of a number that is not [NaN]: [Lt] negative, [Eq] zero, [Gt]
    positive. *)
Definition nsign (a : num) : comparison :=
  match a with
  | Fin q => (q ?= 0)%Q
  | PInf => Gt
  | NInf => Lt
  | NaN => Eq
  end.

Definition inf_of_sign (s1 s2 : comparison) : num :=
  match s1, s2 with
  | Eq, _ | _, Eq => NaN
  | Gt, Gt | Lt, Lt => PInf
  | _, _ => NInf
  end.

Definition nmul (a b : num) : num :=
  match a, b with
  | NaN, _ | _, NaN => NaN
  | Fin x, Fin y => Fin (x * y)
  | _, _ => inf_of_sign (nsign a) (nsign b)
  end.

(** Division.  A zero divisor is the positive zero (the only zero of the
    model). *)
Definition ndiv (a b : num) : num :=
  match a, b with
  | NaN, _ | _, NaN => NaN
  | Fin x, Fin y =>
      if Qeqb y 0 then
        match (x ?= 0)%Q with Gt => PInf | Lt => NInf | Eq => NaN end
      else Fin (x / y)
  | Fin _, _ => Fin 0
  | _, Fin y => if Qltb y 0 then nneg a else a
  | _, _ => NaN
  end.

(** [a < b]; false as soon as one side is [NaN]. *)
Definition nlt (a b : num) : bool :=
  match a, b with
  | NaN, _ | _, NaN => false
  | Fin x, Fin y => Qltb x y
  | NInf, NInf | PInf, _ | _, NInf => false
  | _, _ => true
  end.

Definition ngt (a b : num) : bool := nlt b a.

(** [Math.max], [Math.min], [Math.abs]. *)
Definition nmax (a b : num) : num :=
  match a, b with
  | NaN, _ | _, NaN => NaN
  | _, _ => if nlt a b then b else a
  end.

Definition nmin (a b : num) : num :=
  match a, b with
  | NaN, _ | _, NaN => NaN
  | _, _ => if nlt b a then b else a
  end.

Definition nabs (a : num) : num :=
  match a with
  | Fin q => Fin (Qabs q)
  | PInf | NInf => PInf
  | NaN => NaN
  end.

Definition num_truthy (a : num) : bool :=
  match a with
  | Fin q => negb (Qeqb q 0)
  | PInf | NInf => true
  | NaN => false
  end.

(** Equality of numbers up to the representation of a rational. *)
Definition num_eq (a b : num) : Prop :=
  match a, b with
  | Fin x, Fin y => (x == y)%Q
  | PInf, PInf | NInf, NInf | NaN, NaN => True
  | _, _ => False
  end.


Definition is_fin (a : num) : Prop :=
  match a with Fin _ => True | _ => False end.

Declare Scope num_scope.
Delimit Scope num_scope with num.
Bind Scope num_scope with num.
Infix "+" := nadd : num_scope.
Infix "-" := nsub : num_scope.
Infix "*" := nmul : num_scope.
Infix "/" := ndiv : num_scope.
Infix "<?" := nlt : num_scope.
Infix ">?" := ngt : num_scope.
Infix "=n=" := num_eq (at level 70, no associativity).

Definition nat_num (n : nat) : num := Fin (inject_Z (Z.of_nat n)).

(* ===================================================================== *)
(** * Strings *)
(* ===================================================================== *)

Fixpoint str_drop_space (s : string) : string :=
  match s with
  | String a r => if Ascii.is_space a then str_drop_space r else s
  | EmptyString => EmptyString
  end.

(** [String.prototype.trim] over the ASCII white space. *)
Definition trim (s : string) : string :=
  String.rev (str_drop_space (String.rev (str_drop_space s))).

Definition startsWith (s p : string) : bool := String.prefix p s.

Definition endsWith (s p : string) : bool :=
  String.prefix (String.rev p) (String.rev s).

Fixpoint includes (s p : string) : bool :=
  String.prefix p s ||
  match s with
  | String _ r => includes r p
  | EmptyString => false
  end.

(** [String.prototype.split] on a one-character separator. *)
Fixpoint split_go (sep : ascii) (cur : string) (s : string) : list string :=
  match s with
  | EmptyString => [String.rev cur]
  | String a r =>
      if Ascii.eqb a sep then String.rev cur :: split_go sep EmptyString r
      else split_go sep (String a cur) r
  end.

Definition split (sep : ascii) (s : string) : list string :=
  split_go sep EmptyString s.

(** [indexOf] of a character, as the prefix before it and the suffix after
    it. *)
Fixpoint cut_at (c : ascii) (s : string) : option (string * string) :=
  match s with
  | EmptyString => None
  | String a r =>
      if Ascii.eqb a c then Some (EmptyString, r)
      else match cut_at c r with
           | Some (p, q) => Some (String a p, q)
           | None => None
           end
  end.

(* ===================================================================== *)
(** * Reading numbers from text *)
(* ===================================================================== *)

Definition digit_of (a : ascii) : option Z :=
  match Ascii.is_nat a with
  | Some n => Some (Z.of_nat n)
  | None => None
  end.

(** The longest run of decimal digits at the head of [s]: its value, its
    length and the rest of the string. *)
Fixpoint digits_go (acc : Z) (n : nat) (s : string) : Z * nat * string :=
  match s with
  | String a r =>
      match digit_of a with
      | Some d => digits_go (acc * 10 + d)%Z (S n) r
      | None => (acc, n, s)
      end
  | EmptyString => (acc, n, s)
  end.

Definition digits (s : string) : Z * nat * string := digits_go 0%Z 0%nat s.

Definition pow10 (n : nat) : positive := Pos.pow 10 (Pos.of_nat n).

Definition scale10 (q : Q) (e : Z) : Q :=
  match e with
  | Z0 => q
  | Zpos p => (q * inject_Z (Z.pow 10 (Zpos p)))%Q
  | Zneg p => (q / inject_Z (Z.pow 10 (Zpos p)))%Q
  end.

(** The exponent part [e[+-]digits], when it is complete. *)
Definition exponent_part (s : string) : Z * string :=
  match s with
  | String a r =>
      if Ascii.eqb a "e" || Ascii.eqb a "E" then
        let '(neg, r1) :=
          match r with
          | String "-" r' => (true, r')
          | String "+" r' => (false, r')
          | _ => (false, r)
          end in
        let '(e, n, r2) := digits r1 in
        match n with
        | O => (0%Z, s)
        | S _ => ((if neg then - e else e)%Z, r2)
        end
      else (0%Z, s)
  | EmptyString => (0%Z, s)
  end.

(** The longest prefix of [s] that is a decimal literal, with the rest of
    the string; [None] when no prefix is one. *)
Definition decimal_prefix (s : string) : option (num * string) :=
  let '(neg, s1) :=
    match s with
    | String "-" r => (true, r)
    | String "+" r => (false, r)
    | _ => (false, s)
    end in
  let sign (n : num) := if neg then nneg n else n in
  if startsWith s1 "Infinity" then
    Some (sign PInf, String.substring 8 (String.length s1 - 8) s1)
  else
    let '(ip, n1, r1) := digits s1 in
    let '(fp, n2, r2) :=
      match r1 with
      | String "." r =>
          let '(fp, n2, r2) := digits r in
          match n1, n2 with
          | O, O => (0%Z, 0%nat, r1)
          | _, _ => (fp, n2, r2)
          end
      | _ => (0%Z, 0%nat, r1)
      end in
    match n1, n2 with
    | O, O => None
    | _, _ =>
        let m : Q :=
          match n2 with
          | O => inject_Z ip
          | S _ => Qmake (ip * Zpos (pow10 n2) + fp) (pow10 n2)
          end in
        let '(e, r3) := exponent_part r2 in
        Some (sign (Fin (scale10 m e)), r3)
    end.

(** [parseFloat] of a string.  The result is the rational the literal
    denotes: a literal too long for a double, which [parseFloat] rounds or
    turns into an infinity, is read exactly here. *)
Definition parseFloatStr (s : string) : num :=
  match decimal_prefix (str_drop_space s) with
  | Some (n, _) => n
  | None => NaN
  end.

(** The conversion of a string to a number ([ToNumber]): the whole trimmed
    string has to be a decimal literal; the empty string is [0].  Literals
    in another radix are not read. *)
Definition strToNumber (s : string) : num :=
  let t := trim s in
  if String.eqb t "" then Fin 0
  else match decimal_prefix t with
       | Some (n, EmptyString) => n
       | _ => NaN
       end.

(* ===================================================================== *)
(** * Style values *)
(* ===================================================================== *)

Inductive value : Type :=
| VNum (n : num)
| VStr (s : string).

Definition truthy (v : value) : bool :=
  match v with
  | VNum n => num_truthy n
  | VStr s => negb (String.eqb s "")
  end.

(** [a || b] on a possibly undefined [a]. *)
Definition or_else (a : option value) (b : value) : value :=
  match a with
  | Some v => if truthy v then v else b
  | None => b
  end.

Definition toNumber (v : value) : num :=
  match v with
  | VNum n => n
  | VStr s => strToNumber s
  end.

(** [parseFloat(v)] of a possibly undefined style value. *)
Definition parseFloat (v : option value) : num :=
  match v with
  | Some (VNum n) => n
  | Some (VStr s) => parseFloatStr s
  | None => NaN
  end.

(** [n || d] on numbers. *)
Definition num_or (n d : num) : num := if num_truthy n then n else d.

Definition is_str (v : option value) (s : string) : bool :=
  match v with
  | Some (VStr t) => String.eqb t s
  | _ => false
  end.

(** [typeof v === "string" && v.endsWith("%")] guarded by [v] being
    truthy. *)
Definition is_percent (v : option value) : bool :=
  match v with
  | Some (VStr s) => negb (String.eqb s "") && endsWith s "%"
  | _ => false
  end.

(* ===================================================================== *)
(** * Parsed styles and the style parser *)
(* ===================================================================== *)

(** What [parseStyle] returns and the registry stores. *)
Record StyleObj : Type := mkStyleObj {
  computedStyle : gmap string value;
  importantProperties : list string
}.

Definition is_lower (a : ascii) : bool :=
  let n := nat_of_ascii a in (97 <=? n)%nat && (n <=? 122)%nat.

Definition to_upper (a : ascii) : ascii :=
  if is_lower a then ascii_of_nat (nat_of_ascii a - 32) else a.

(** [str.replace(/-([a-z])/g, (m, g) => g.toUpperCase())] *)
Fixpoint kebabToCamel (str : string) : string :=
  match str with
  | String "-" (String b r as rest) =>
      if is_lower b then String (to_upper b) (kebabToCamel r)
      else String "-" (kebabToCamel rest)
  | String a r => String a (kebabToCamel r)
  | EmptyString => EmptyString
  end.

(** [/^\d+(\.\d+)?$/] *)
Definition is_unsigned_decimal (s : string) : bool :=
  let '(_, n1, r1) := digits s in
  match n1, r1 with
  | O, _ => false
  | S _, EmptyString => true
  | S _, String "." r =>
      let '(_, n2, r2) := digits r in
      match n2, r2 with
      | S _, EmptyString => true
      | _, _ => false
      end
  | S _, _ => false
  end.

(** [/^-?\d+(\.\d+)?$/] *)
Definition is_decimal (s : string) : bool :=
  match s with
  | String "-" r => is_unsigned_decimal r
  | _ => is_unsigned_decimal s
  end.

(** [/^0(px|%|em|rem|pt|vh|vw)$/] *)
Definition is_zero_with_unit (s : string) : bool :=
  match s with
  | String "0" u =>
      existsb (String.eqb u) ["px"; "%"; "em"; "rem"; "pt"; "vh"; "vw"]
  | _ => false
  end.

Definition convertValue (v : string) : value :=
  if is_decimal v then VNum (parseFloatStr v)
  else if is_zero_with_unit v then VNum (Fin 0)
  else VStr v.

(** [value.split(/\s+/)] *)
Definition split_ws (s : string) : list string :=
  let fix go (cur : string) (in_ws : bool) (s : string) : list string :=
    match s with
    | EmptyString => [String.rev cur]
    | String a r =>
        if Ascii.is_space a then
          if in_ws then go cur true r
          else String.rev cur :: go EmptyString true r
        else go (String a cur) false r
    end in
  go EmptyString false s.

Definition parseFlexShorthand (v : string) (cs : gmap string value)
  : gmap string value :=
  let set3 (g s b : value) :=
    <["flexBasis" := b]> (<["flexShrink" := s]> (<["flexGrow" := g]> cs)) in
  match split_ws v with
  | [p0] =>
      if String.eqb p0 "auto" then set3 (VNum (Fin 1)) (VNum (Fin 1)) (VStr "auto")
      else if String.eqb p0 "none" then
        set3 (VNum (Fin 0)) (VNum (Fin 0)) (VStr "auto")
      else if String.eqb p0 "initial" then
        set3 (VNum (Fin 0)) (VNum (Fin 1)) (VStr "auto")
      else set3 (convertValue p0) (VNum (Fin 1)) (VStr "0")
  | [p0; p1] =>
      if is_unsigned_decimal p1 then
        set3 (convertValue p0) (convertValue p1) (VStr "0")
      else set3 (convertValue p0) (VNum (Fin 1)) (VStr p1)
  | p0 :: p1 :: p2 :: _ =>
      set3 (convertValue p0) (convertValue p1) (VStr p2)
  | [] => cs
  end.

(** [value.replace(/\s*!important\s*$/, "").trim()] *)
Definition strip_important (v : string) : string :=
  let t := String.rev (str_drop_space (String.rev v)) in
  if endsWith t "!important" then
    trim (String.substring 0 (String.length t - 10) t)
  else trim v.

(** One line of the style text, added to the style under construction. *)
Definition parseLine (acc : StyleObj) (line : string) : StyleObj :=
  let line := trim line in
  if String.eqb line "" then acc else
  let line :=
    if endsWith line ";" then String.substring 0 (String.length line - 1) line
    else line in
  match cut_at ":" line with
  | None => acc
  | Some (p, v) =>
      let property := trim p in
      let v := trim v in
      if String.eqb property "" || String.eqb v "" then acc else
      let isImportant := includes v "!important" in
      let v := if isImportant then strip_important v else v in
      let imp :=
        if isImportant
        then importantProperties acc ++ [kebabToCamel property]
        else importantProperties acc in
      let camelProperty := kebabToCamel property in
      if String.eqb camelProperty "flex" then
        mkStyleObj (parseFlexShorthand v (computedStyle acc)) imp
      else
        mkStyleObj (<[camelProperty := convertValue v]> (computedStyle acc)) imp
  end.

Definition parseStyle (cssText : string) : StyleObj :=
  if String.eqb cssText "" then mkStyleObj ∅ []
  else fold_left parseLine (split "010" cssText) (mkStyleObj ∅ []).

(* ===================================================================== *)
(** * The cascade *)
(* ===================================================================== *)

(** The accumulator of [mergeStyles]: the final style and the properties
    applied as important so far. *)
Definition MergeAcc : Type := gmap string value * gset string.

(** The body of the inner loop of [mergeStyles], for one property of one
    style object. *)
Definition mergeProp (importantProps : list string)
    (prop : string) (v : value) (acc : MergeAcc) : MergeAcc :=
  let '(finalStyle, appliedImportantProps) := acc in
  let isCurrentPropImportant := bool_decide (prop ∈ importantProps) in
  if negb (bool_decide (prop ∈ appliedImportantProps)) || isCurrentPropImportant
  then (<[prop := v]> finalStyle,
        if isCurrentPropImportant
        then {[prop]} ∪ appliedImportantProps
        else appliedImportantProps)
  else acc.

Definition mergeOne (acc : MergeAcc) (styleObj : StyleObj) : MergeAcc :=
  map_fold (mergeProp (importantProperties styleObj)) acc
           (computedStyle styleObj).

Definition mergeAll (styleObjects : list StyleObj) : MergeAcc :=
  fold_left mergeOne styleObjects (∅, ∅).

Definition mergeStyles (styleObjects : list StyleObj) : gmap string value :=
  fst (mergeAll styleObjects).

(* ===================================================================== *)
(** * Host nodes and the engine state *)
(* ===================================================================== *)

(** A host node, as far as the engine reads and writes it.  [parent] and
    [children] are [getParent()] and [children()]; [classes], [style] and
    [doLayout] are the instance variables; [computedStyles] is the
    [_computedStyles] slot the engine attaches. *)
Record Instance : Type := mkInstance {
  x : num;
  y : num;
  width : num;
  height : num;
  isVisible : bool;
  tags : list string;
  parent : option nat;
  children : list nat;
  classes : string;
  style : string;
  doLayout : option bool;
  computedStyles : option (gmap string value)
}.

Definition set_x (v : num) (i : Instance) : Instance :=
  mkInstance v (y i) (width i) (height i) (isVisible i) (tags i) (parent i)
             (children i) (classes i) (style i) (doLayout i) (computedStyles i).
Definition set_y (v : num) (i : Instance) : Instance :=
  mkInstance (x i) v (width i) (height i) (isVisible i) (tags i) (parent i)
             (children i) (classes i) (style i) (doLayout i) (computedStyles i).
Definition set_width (v : num) (i : Instance) : Instance :=
  mkInstance (x i) (y i) v (height i) (isVisible i) (tags i) (parent i)
             (children i) (classes i) (style i) (doLayout i) (computedStyles i).
Definition set_height (v : num) (i : Instance) : Instance :=
  mkInstance (x i) (y i) (width i) v (isVisible i) (tags i) (parent i)
             (children i) (classes i) (style i) (doLayout i) (computedStyles i).
Definition set_computedStyles (v : gmap string value) (i : Instance)
  : Instance :=
  mkInstance (x i) (y i) (width i) (height i) (isVisible i) (tags i)
             (parent i) (children i) (classes i) (style i) (doLayout i)
             (Some v).

Definition blank : Instance :=
  mkInstance (Fin 0) (Fin 0) (Fin 0) (Fin 0) true [] None [] "" "" None None.

Global Instance Instance_inhabited : Inhabited Instance := populate blank.

(** The state of a [UILayout] object together with the host runtime it
    holds: the instances of the runtime and the class registry. *)
Record World : Type := mkWorld {
  objects : list Instance;
  registeredClasses : gmap string StyleObj
}.

Definition node (w : World) (i : nat) : Instance := objects w !!! i.

Definition update (i : nat) (f : Instance → Instance) (w : World) : World :=
  mkWorld (alter f i (objects w)) (registeredClasses w).

Definition registerClass (className styleString : string) (w : World)
  : World :=
  mkWorld (objects w)
          (<[className := parseStyle styleString]> (registeredClasses w)).

(** ** The state monad of the engine *)

Definition M (A : Type) : Type := World → A * World.

Definition ret {A} (a : A) : M A := λ w, (a, w).
Definition bind {A B} (m : M A) (f : A → M B) : M B :=
  λ w, let '(a, w') := m w in f a w'.
Definition get_node (i : nat) : M Instance := λ w, (node w i, w).
Definition modify (i : nat) (f : Instance → Instance) : M unit :=
  λ w, (tt, update i f w).
Definition exec {A} (m : M A) (w : World) : World := snd (m w).
Definition eval {A} (m : M A) (w : World) : A := fst (m w).

Global Instance M_ret : MRet M := @ret.
Global Instance M_bind : MBind M := λ A B f m, bind m f.

Definition when (b : bool) (m : M unit) : M unit := if b then m else ret tt.

(** [l.forEach(f)] *)
Fixpoint forEach {A} (l : list A) (f : A → M unit) : M unit :=
  match l with
  | [] => ret tt
  | a :: r => f a ;; forEach r f
  end.

(** [l.forEach((a, index) => f)] *)
Fixpoint forEachIdx_go {A} (n : nat) (l : list A) (f : A → nat → M unit)
  : M unit :=
  match l with
  | [] => ret tt
  | a :: r => f a n ;; forEachIdx_go (S n) r f
  end.
Definition forEachIdx {A} (l : list A) (f : A → nat → M unit) : M unit :=
  forEachIdx_go 0 l f.

(** A loop that threads a local accumulator next to the store. *)
Fixpoint foldM {A B} (l : list A) (f : B → A → M B) (b : B) : M B :=
  match l with
  | [] => ret b
  | a :: r => b' ← f b a; foldM r f b'
  end.

(* ===================================================================== *)
(** * Computed style of a node *)
(* ===================================================================== *)

Definition class_names (classString : string) : list string :=
  filter (λ c, trim c ≠ "") (split " " classString).

(** The ordered list [stylesToMerge] of [getInstanceStyles]. *)
Definition stylesToMerge (w : World) (inst : Instance) : list StyleObj :=
  omap (λ className, registeredClasses w !! className)
       (class_names (classes inst))
  ++ (if String.eqb (style inst) "" then [] else [parseStyle (style inst)]).

Definition getInstanceStyles (w : World) (i : nat) : gmap string value :=
  mergeStyles (stylesToMerge w (node w i)).

(** The guard [if (!instance._computedStyles) { ... }] that the getters
    share. *)
Definition ensureStyles (i : nat) : M unit :=
  λ w, match computedStyles (node w i) with
       | Some _ => (tt, w)
       | None => (tt, update i (set_computedStyles (getInstanceStyles w i)) w)
       end.

(** [instance._computedStyles || {}] *)
Definition stylesOf (inst : Instance) : gmap string value :=
  default ∅ (computedStyles inst).

Definition hasPercentageSizing (styles : gmap string value) : bool :=
  if bool_decide (is_Some (styles !! "percentWidth"))
     || bool_decide (is_Some (styles !! "percentHeight")) then true
  else if is_percent (styles !! "width") then true
  else if is_percent (styles !! "height") then true
  else if is_percent (styles !! "flexBasis") then true
  else false.

(* ===================================================================== *)
(** * Box model *)
(* ===================================================================== *)

Record Sides : Type := mkSides {
  top : num; right : num; bottom : num; left : num
}.

Record BoxModel : Type := mkBoxModel {
  margin : Sides; padding : Sides; border : Sides
}.

(** [a ?? b ?? 0] and [a ?? b ?? c ?? 0] *)
Definition nullish2 (a b : option value) : num :=
  match a, b with
  | Some v, _ => toNumber v
  | None, Some v => toNumber v
  | None, None => Fin 0
  end.

Definition nullish3 (a b c : option value) : num :=
  match a with
  | Some v => toNumber v
  | None => nullish2 b c
  end.

Definition boxModelOf (styles : gmap string value) : BoxModel :=
  let m := styles !! "margin" in
  let p := styles !! "padding" in
  let bw := styles !! "borderWidth" in
  let b := styles !! "border" in
  mkBoxModel
    (mkSides (nullish2 (styles !! "marginTop") m)
             (nullish2 (styles !! "marginRight") m)
             (nullish2 (styles !! "marginBottom") m)
             (nullish2 (styles !! "marginLeft") m))
    (mkSides (nullish2 (styles !! "paddingTop") p)
             (nullish2 (styles !! "paddingRight") p)
             (nullish2 (styles !! "paddingBottom") p)
             (nullish2 (styles !! "paddingLeft") p))
    (mkSides (nullish3 (styles !! "borderTopWidth") bw b)
             (nullish3 (styles !! "borderRightWidth") bw b)
             (nullish3 (styles !! "borderBottomWidth") bw b)
             (nullish3 (styles !! "borderLeftWidth") bw b)).

Definition getBoxModel (i : nat) : M BoxModel :=
  ensureStyles i ;;
  inst ← get_node i;
  ret (boxModelOf (stylesOf inst)).

Definition getOuterWidth (i : nat) : M num :=
  boxModel ← getBoxModel i;
  inst ← get_node i;
  ret (width inst + left (margin boxModel) + right (margin boxModel))%num.

Definition getOuterHeight (i : nat) : M num :=
  boxModel ← getBoxModel i;
  inst ← get_node i;
  ret (height inst + top (margin boxModel) + bottom (margin boxModel))%num.

(** A child takes part in layout unless it is invisible or its [doLayout]
    attribute is exactly [false]. *)
Definition skipped (c : Instance) : bool :=
  negb (isVisible c) || bool_decide (doLayout c = Some false).

Definition is_out_of_flow (styles : gmap string value) : bool :=
  let childPosition := or_else (styles !! "position") (VStr "relative") in
  match childPosition with
  | VStr s => String.eqb s "absolute" || String.eqb s "anchor"
  | VNum _ => false
  end.

(** [getLayoutChildren]: the in-flow children that take part in layout.
    The final sort is by [_layoutOrder], a field nothing assigns, so it
    keeps the order of [children()]. *)
Definition getLayoutChildren (i : nat) : M (list nat) :=
  inst ← get_node i;
  foldM (children inst) (λ acc c,
    child ← get_node c;
    if bool_decide (doLayout child = Some false) then ret acc
    else if negb (isVisible child) then ret acc
    else
      ensureStyles c ;;
      child ← get_node c;
      if is_out_of_flow (stylesOf child) then ret acc
      else ret (acc ++ [c])) [].

(* ===================================================================== *)
(** * Layout properties *)
(* ===================================================================== *)

Record LayoutProps : Type := mkLayoutProps {
  lp_display : value;
  lp_position : value;
  lp_gap : value;
  lp_padding : value;
  lp_alignItems : value;
  lp_justifyContent : value;
  lp_columns : value;
  lp_fitContent : bool;          (* only ever tested for truth *)
  lp_top : option value;
  lp_right : option value;
  lp_bottom : option value;
  lp_left : option value;
  lp_anchorTarget : option value;
  lp_anchorPoint : value;
  lp_selfAnchor : value;
  lp_anchorOffsetX : value;
  lp_anchorOffsetY : value
}.

Definition layoutPropsOf (styles : gmap string value) : LayoutProps :=
  mkLayoutProps
    (or_else (styles !! "display") (VStr "vertical"))
    (or_else (styles !! "position") (VStr "relative"))
    (or_else (styles !! "gap") (VNum (Fin 0)))
    (or_else (styles !! "padding") (VNum (Fin 0)))
    (match styles !! "alignItems" with
     | Some v => if truthy v then v
                 else or_else (styles !! "alignment") (VStr "start")
     | None => or_else (styles !! "alignment") (VStr "start")
     end)
    (or_else (styles !! "justifyContent") (VStr "start"))
    (or_else (styles !! "columns") (VNum (Fin 2)))
    (match styles !! "fitContent" with Some v => truthy v | None => false end)
    (styles !! "top") (styles !! "right") (styles !! "bottom")
    (styles !! "left")
    (styles !! "anchorTarget")
    (or_else (styles !! "anchorPoint") (VStr "center"))
    (or_else (styles !! "selfAnchor") (VStr "center"))
    (or_else (styles !! "anchorOffsetX") (VNum (Fin 0)))
    (or_else (styles !! "anchorOffsetY") (VNum (Fin 0))).

Definition getLayoutProperties (i : nat) : M LayoutProps :=
  ensureStyles i ;;
  inst ← get_node i;
  ret (layoutPropsOf (stylesOf inst)).

(** [layoutProps.position = "relative"] *)
Definition set_position (v : value) (lp : LayoutProps) : LayoutProps :=
  mkLayoutProps (lp_display lp) v (lp_gap lp) (lp_padding lp)
    (lp_alignItems lp) (lp_justifyContent lp) (lp_columns lp)
    (lp_fitContent lp) (lp_top lp) (lp_right lp) (lp_bottom lp) (lp_left lp)
    (lp_anchorTarget lp) (lp_anchorPoint lp) (lp_selfAnchor lp)
    (lp_anchorOffsetX lp) (lp_anchorOffsetY lp).

Definition value_is (v : value) (s : string) : bool :=
  match v with VStr t => String.eqb t s | VNum _ => false end.

(** The guard in front of every call of the flow layouter:
    [display && position !== "absolute" && position !== "anchor"]. *)
Definition flowAllowed (lp : LayoutProps) : bool :=
  truthy (lp_display lp)
  && negb (value_is (lp_position lp) "absolute")
  && negb (value_is (lp_position lp) "anchor").

(* ===================================================================== *)
(** * Sizing from the style *)
(* ===================================================================== *)

(** The width of the content box of a node: its width less its horizontal
    padding and border; and the same for the height. *)
Definition contentWidthOf (inst : Instance) (bm : BoxModel) : num :=
  (width inst - left (padding bm) - right (padding bm)
   - left (border bm) - right (border bm))%num.

Definition contentHeightOf (inst : Instance) (bm : BoxModel) : num :=
  (height inst - top (padding bm) - bottom (padding bm)
   - top (border bm) - bottom (border bm))%num.

Definition applyMinMaxConstraints (i : nat) (styles : gmap string value)
  : M (bool * bool) :=
  let minWidth := styles !! "minWidth" in
  let maxWidth := styles !! "maxWidth" in
  let minHeight := styles !! "minHeight" in
  let maxHeight := styles !! "maxHeight" in
  inst ← get_node i;
  w1 ← match minWidth with
       | Some v => if (width inst <? toNumber v)%num
                   then modify i (set_width (toNumber v)) ;; ret true
                   else ret false
       | None => ret false
       end;
  inst ← get_node i;
  w2 ← match maxWidth with
       | Some v => if (width inst >? toNumber v)%num
                   then modify i (set_width (toNumber v)) ;; ret true
                   else ret w1
       | None => ret w1
       end;
  inst ← get_node i;
  h1 ← match minHeight with
       | Some v => if (height inst <? toNumber v)%num
                   then modify i (set_height (toNumber v)) ;; ret true
                   else ret false
       | None => ret false
       end;
  inst ← get_node i;
  h2 ← match maxHeight with
       | Some v => if (height inst >? toNumber v)%num
                   then modify i (set_height (toNumber v)) ;; ret true
                   else ret h1
       | None => ret h1
       end;
  ret (w2, h2).

(** The percentage a style asks for on one axis:
    ["percentX" in styles ? styles.percentX : parseFloat(styles.x) || 0]. *)
Definition percentValueOf (pct dim : option value) : num :=
  match pct with
  | Some v => toNumber v
  | None => num_or (parseFloat dim) (Fin 0)
  end.

Definition display_isHorizontal (styles : gmap string value) : bool :=
  is_str (styles !! "display") "horizontal".

Definition display_isVertical (styles : gmap string value) : bool :=
  is_str (styles !! "display") "vertical"
  || match styles !! "display" with Some v => negb (truthy v) | None => true end.

(** Write [percent] of the parent's content width (height) to the node. *)
Definition setPercentWidth (i p : nat) (percentValue : num) : M unit :=
  when (percentValue >? Fin 0)%num (
    parentBoxModel ← getBoxModel p;
    par ← get_node p;
    let availableWidth := contentWidthOf par parentBoxModel in
    modify i (set_width (availableWidth * percentValue / Fin 100)%num)).

Definition setPercentHeight (i p : nat) (percentValue : num) : M unit :=
  when (percentValue >? Fin 0)%num (
    parentBoxModel ← getBoxModel p;
    par ← get_node p;
    let availableHeight := contentHeightOf par parentBoxModel in
    modify i (set_height (availableHeight * percentValue / Fin 100)%num)).

Definition applyPercentageSizing (i : nat) : M unit :=
  inst ← get_node i;
  match computedStyles inst, parent inst with
  | Some styles, Some p =>
      getBoxModel p ;;
      let isHorizontal := display_isHorizontal styles in
      let isVertical := display_isVertical styles in
      when (bool_decide (is_Some (styles !! "percentWidth"))
            || is_percent (styles !! "width"))
        (setPercentWidth i p
           (percentValueOf (styles !! "percentWidth") (styles !! "width"))) ;;
      when (bool_decide (is_Some (styles !! "percentHeight"))
            || is_percent (styles !! "height"))
        (setPercentHeight i p
           (percentValueOf (styles !! "percentHeight") (styles !! "height"))) ;;
      when (is_percent (styles !! "flexBasis"))
        (let percentValue := num_or (parseFloat (styles !! "flexBasis")) (Fin 0) in
         if isHorizontal then setPercentWidth i p percentValue
         else if isVertical then setPercentHeight i p percentValue
         else ret tt) ;;
      applyMinMaxConstraints i styles ;;
      ret tt
  | _, _ => ret tt
  end.

(** [instance.width = Math.max(instance.width, c)] and its three
    siblings, each under its ["k" in constraints] guard. *)
Definition clampMin (get : Instance → num) (set : num → Instance → Instance)
    (c : option value) (i : nat) : M unit :=
  match c with
  | Some v => modify i (λ inst, set (nmax (get inst) (toNumber v)) inst)
  | None => ret tt
  end.

Definition clampMax (get : Instance → num) (set : num → Instance → Instance)
    (c : option value) (i : nat) : M unit :=
  match c with
  | Some v => modify i (λ inst, set (nmin (get inst) (toNumber v)) inst)
  | None => ret tt
  end.

Definition applyStylesToInstance (i : nat) (styles0 : gmap string value)
  : M unit :=
  (* the numeric [flex] shorthand is written into the style object, which
     is the object stored on the node *)
  let styles :=
    match styles0 !! "flex" with
    | Some (VNum n) =>
        <["flexBasis" := VStr "0px"]>
          (<["flexShrink" := VNum (Fin 1)]> (<["flexGrow" := VNum n]> styles0))
    | _ => styles0
    end in
  modify i (set_computedStyles styles) ;;
  inst ← get_node i;
  match parent inst with
  | Some p =>
      when (bool_decide (is_Some (styles !! "percentWidth"))
            || is_percent (styles !! "width"))
        (setPercentWidth i p
           (percentValueOf (styles !! "percentWidth") (styles !! "width"))) ;;
      when (bool_decide (is_Some (styles !! "percentHeight"))
            || is_percent (styles !! "height"))
        (setPercentHeight i p
           (percentValueOf (styles !! "percentHeight") (styles !! "height")))
  | None => ret tt
  end ;;
  let isHorizontal := display_isHorizontal styles in
  let isVertical := display_isVertical styles in
  when (bool_decide (is_Some (parent inst)) && (isHorizontal || isVertical))
    (match styles !! "flexBasis" with
     | Some (VNum flexBasis) =>
         if num_truthy flexBasis then
           if isHorizontal then modify i (set_width flexBasis)
           else if isVertical then modify i (set_height flexBasis)
           else ret tt
         else ret tt
     | _ => ret tt
     end) ;;
  match styles !! "width" with
  | Some (VNum n) => modify i (set_width n)
  | _ => ret tt
  end ;;
  match styles !! "height" with
  | Some (VNum n) => modify i (set_height n)
  | _ => ret tt
  end ;;
  clampMin width set_width (styles !! "minWidth") i ;;
  clampMax width set_width (styles !! "maxWidth") i ;;
  clampMin height set_height (styles !! "minHeight") i ;;
  clampMax height set_height (styles !! "maxHeight") i.

(* ===================================================================== *)
(** * Flex distribution

    [layoutVertical] and [layoutHorizontal] run the same grow loop and the
    same shrink pass, on [Height] fields in one and [Width] fields in the
    other.  The item record and the two computations are written once,
    with the axis-neutral names [base], [target], [min] and [max]. *)
(* ===================================================================== *)

Record FlexItem : Type := mkFlexItem {
  fi_instance : nat;
  fi_boxModel : BoxModel;
  fi_flexGrow : num;
  fi_flexShrink : num;
  fi_base : num;                 (* baseHeight / baseWidth *)
  fi_initial : num;              (* initialHeight / initialWidth *)
  fi_min : option value;         (* minHeight / minWidth *)
  fi_max : option value;         (* maxHeight / maxWidth *)
  fi_target : num;               (* targetHeight / targetWidth *)
  fi_constrained : bool          (* membership in [constrainedItems] *)
}.

Definition set_target (t : num) (c : bool) (it : FlexItem) : FlexItem :=
  mkFlexItem (fi_instance it) (fi_boxModel it) (fi_flexGrow it)
             (fi_flexShrink it) (fi_base it) (fi_initial it) (fi_min it)
             (fi_max it) t c.

(** The base size of a child on the main axis: its current size unless a
    [flexBasis] overrides it. *)
Definition baseSize (current : num) (flexBasis : option value) : num :=
  match flexBasis with
  | None => current
  | Some (VNum n) => n
  | Some (VStr s) =>
      if String.eqb s "auto" then current
      else if negb (endsWith s "%") then num_or (parseFloatStr s) current
      else current
  end.

(** The locals of one pass of the grow loop that the [forEach] body
    updates. *)
Record PassState : Type := mkPassState {
  remainingFlexGrow : num;
  spaceConsumedThisPass : num;
  stillFlexing : bool
}.

(** The body of [flexItems.forEach] inside the grow loop. *)
Definition growItem (remainingSpace : num) (ps : PassState) (item : FlexItem)
  : PassState * FlexItem :=
  if fi_constrained item then (ps, item)
  else if (fi_flexGrow item >? Fin 0)%num then
    let extraSpace :=
      (fi_flexGrow item / remainingFlexGrow ps * remainingSpace)%num in
    let newTarget := (fi_target item + extraSpace)%num in
    let '(constrained1, was1) :=
      match fi_min item with
      | Some v => if (newTarget <? toNumber v)%num then (toNumber v, true)
                  else (newTarget, false)
      | None => (newTarget, false)
      end in
    let '(constrained2, was2) :=
      match fi_max item with
      | Some v => if (constrained1 >? toNumber v)%num then (toNumber v, true)
                  else (constrained1, was1)
      | None => (constrained1, was1)
      end in
    let actualExtraSpace := (constrained2 - fi_target item)%num in
    let consumed := (spaceConsumedThisPass ps + actualExtraSpace)%num in
    if was2 then
      (mkPassState (remainingFlexGrow ps - fi_flexGrow item)%num consumed
                   (stillFlexing ps),
       set_target constrained2 true item)
    else
      (mkPassState (remainingFlexGrow ps) consumed true,
       set_target constrained2 false item)
  else (ps, item).

(** One pass: the [forEach] over all flex items. *)
Fixpoint growPass (remainingSpace : num) (ps : PassState)
    (items : list FlexItem) : PassState * list FlexItem :=
  match items with
  | [] => (ps, [])
  | item :: rest =>
      let '(ps1, item') := growItem remainingSpace ps item in
      let '(ps2, rest') := growPass remainingSpace ps1 rest in
      (ps2, item' :: rest')
  end.

(** The [while] loop of the grow branch, entered with [remainingSpace],
    [remainingFlexGrow] and [stillFlexing] at [space], [grow] and
    [flexing].  [fuel] bounds the number of passes. *)
Fixpoint growLoop (fuel : nat) (space grow : num) (flexing : bool)
    (items : list FlexItem) : list FlexItem :=
  match fuel with
  | O => items
  | S fuel' =>
      if (space >? Fin 0.1)%num && (grow >? Fin 0)%num && flexing then
        let '(ps, items') :=
          growPass space (mkPassState grow (Fin 0) false) items in
        let space' := (space - spaceConsumedThisPass ps)%num in
        if (spaceConsumedThisPass ps <? Fin 0.01)%num then items'
        else growLoop fuel' space' (remainingFlexGrow ps) (stillFlexing ps)
                      items'
      else items
  end.

(** The body of [flexItems.forEach] in the shrink branch. *)
Definition shrinkItem (availableSpace totalFlexShrinkFactors : num)
    (item : FlexItem) : FlexItem :=
  if (fi_flexShrink item >? Fin 0)%num then
    let shrinkRatio :=
      (fi_flexShrink item * fi_base item / totalFlexShrinkFactors)%num in
    let reduction := (nabs availableSpace * shrinkRatio)%num in
    let target := nmax (Fin 0) (fi_base item - reduction)%num in
    match fi_min item with
    | Some v => if (target <? toNumber v)%num
                then set_target (toNumber v) (fi_constrained item) item
                else set_target target (fi_constrained item) item
    | None => set_target target (fi_constrained item) item
    end
  else set_target (fi_base item) (fi_constrained item) item.

(** The target sizes of the flex items: grow when there is room and some
    item grows, shrink when there is a deficit and some item shrinks, the
    base sizes otherwise.  Every pass of the grow loop that does not leave
    the loop constrains at least one more item, so one more pass than
    there are items is enough (lemma [flexTargets_fuel] below). *)
Definition flexTargets (availableSpace totalFlexGrow totalFlexShrinkFactors
    : num) (flexItems : list FlexItem) : list FlexItem :=
  if (availableSpace >? Fin 0)%num && (totalFlexGrow >? Fin 0)%num then
    growLoop (S (length flexItems)) availableSpace totalFlexGrow true
             flexItems
  else if (availableSpace <? Fin 0)%num
          && (totalFlexShrinkFactors >? Fin 0)%num then
    map (shrinkItem availableSpace totalFlexShrinkFactors) flexItems
  else flexItems.

(** The result of the first pass over the children. *)
Record Classified : Type := mkClassified {
  flexItems : list FlexItem;
  totalFixed : num;              (* totalFixedHeight / totalFixedWidth *)
  totalFlexGrow : num;
  totalFlexShrinkFactors : num
}.

(** One child of the first pass, given its current size on the main axis
    and its two margins on that axis. *)
Definition classify (acc : Classified) (child : nat)
    (childStyles : gmap string value) (childBoxModel : BoxModel)
    (current marginStart marginEnd : num) (minK maxK : string)
  : Classified :=
  let flexGrow := num_or (parseFloat (childStyles !! "flexGrow")) (Fin 0) in
  let flexShrink := parseFloat (childStyles !! "flexShrink") in
  (* [typeof flexShrink === "undefined" ? 1 : flexShrink]: the operand is
     the number [parseFloat] returned, so the test is false *)
  let actualFlexShrink := flexShrink in
  let base := baseSize current (childStyles !! "flexBasis") in
  if (flexGrow >? Fin 0)%num || (actualFlexShrink >? Fin 0)%num then
    mkClassified
      (flexItems acc ++
       [mkFlexItem child childBoxModel flexGrow actualFlexShrink base current
                   (childStyles !! minK) (childStyles !! maxK) base false])
      (totalFixed acc)
      (totalFlexGrow acc + flexGrow)%num
      (totalFlexShrinkFactors acc + actualFlexShrink * base)%num
  else
    mkClassified (flexItems acc)
      (totalFixed acc + (current + marginStart + marginEnd))%num
      (totalFlexGrow acc) (totalFlexShrinkFactors acc).

(** The three spacings of [justifyContent]. *)
Definition justifySpacing (justifyContent : value)
    (justifyRemainingSpace : num) (n : nat) : num * num * num :=
  let zero := Fin 0 in
  if value_is justifyContent "start" then (zero, zero, zero)
  else if value_is justifyContent "center" then
    ((justifyRemainingSpace / Fin 2)%num, zero, zero)
  else if value_is justifyContent "end" then
    (justifyRemainingSpace, zero, zero)
  else if value_is justifyContent "space-between" then
    (zero,
     if (1 <? n)%nat then (justifyRemainingSpace / nat_num (n - 1))%num
     else zero,
     zero)
  else if value_is justifyContent "space-around" then
    (zero, zero,
     if (0 <? n)%nat then (justifyRemainingSpace / nat_num n)%num else zero)
  else (zero, zero, zero).

(** [children.length > 1 ? (children.length - 1) * gap : 0] *)
Definition totalGapsOf (n : nat) (gap : num) : num :=
  if (1 <? n)%nat then (nat_num (n - 1) * gap)%num else Fin 0.

(** [layoutProps.gap || 0] as a number. *)
Definition gapOf (lp : LayoutProps) : num :=
  toNumber (if truthy (lp_gap lp) then lp_gap lp else VNum (Fin 0)).

(** [layoutProps.alignItems || "start"] *)
Definition alignmentOf (lp : LayoutProps) : value :=
  if truthy (lp_alignItems lp) then lp_alignItems lp else VStr "start".

(** [layoutProps.justifyContent || "start"] *)
Definition justifyOf (lp : LayoutProps) : value :=
  if truthy (lp_justifyContent lp) then lp_justifyContent lp
  else VStr "start".

(* ===================================================================== *)
(** * Vertical and horizontal flow *)
(* ===================================================================== *)

(** First pass of [layoutVertical]: fixed items and flex items. *)
Definition classifyVertical (children : list nat) : M Classified :=
  foldM children (λ acc child,
      c ← get_node child;
      let childStyles := stylesOf c in
      childBoxModel ← getBoxModel child;
      c ← get_node child;
      ret (classify acc child childStyles childBoxModel (height c)
             (top (margin childBoxModel)) (bottom (margin childBoxModel))
             "minHeight" "maxHeight"))
    (mkClassified [] (Fin 0) (Fin 0) (Fin 0)).

(** The space [layoutVertical] hands to the flex distribution. *)
Definition availableVertical (contentHeight totalGaps : num)
    (cl : Classified) : num :=
  let availableSpace := (contentHeight - totalFixed cl - totalGaps)%num in
  let totalAvailableHeight := (contentHeight - totalGaps)%num in
  let initialFlexHeight :=
    fold_left (λ acc item,
      (acc + (fi_base item + top (margin (fi_boxModel item))
              + bottom (margin (fi_boxModel item))))%num)
      (flexItems cl) (Fin 0) in
  if (initialFlexHeight + totalFixed cl >? totalAvailableHeight)%num
  then (totalAvailableHeight - totalFixed cl - initialFlexHeight)%num
  else nmin availableSpace
            (totalAvailableHeight - totalFixed cl - initialFlexHeight)%num.

(** Final sizes of the flex items. *)
Definition applyHeights (items : list FlexItem) : M unit :=
  forEach items (λ item,
    modify (fi_instance item) (set_height (fi_target item))).

(** The rest of [layoutVertical]: the spacing of [justifyContent] and the
    position of every child. *)
Definition positionVertical (container : nat) (layoutProps : LayoutProps)
    (containerBoxModel : BoxModel) (contentWidth contentHeight totalGaps : num)
    (children : list nat) : M unit :=
  let gap := gapOf layoutProps in
  let alignment := alignmentOf layoutProps in
  let n := length children in
  let justifyContent := justifyOf layoutProps in
  actualTotal ← foldM children (λ acc child,
         childBoxModel ← getBoxModel child;
         c ← get_node child;
         ret (acc + (height c + top (margin childBoxModel)
                     + bottom (margin childBoxModel)))%num)
       (Fin 0);
  let actualTotalHeight := (actualTotal + totalGaps)%num in
  let justifyRemainingSpace :=
    nmax (Fin 0) (contentHeight - actualTotalHeight)%num in
  let '(startOffset, spaceBetween, spaceAround) :=
    justifySpacing justifyContent justifyRemainingSpace n in
  let currentY0 :=
    (top (padding containerBoxModel) + top (border containerBoxModel)
     + startOffset)%num in
  let currentY1 :=
    if value_is justifyContent "space-around" && (0 <? n)%nat
    then (currentY0 + spaceAround / Fin 2)%num else currentY0 in
  foldM children (λ '(currentY, index) child,
      c ← get_node child;
      let childStyles := stylesOf c in
      childBoxModel ← getBoxModel child;
      let currentY := (currentY + top (margin childBoxModel))%num in
      cont ← get_node container;
      modify child (set_y (y cont + currentY)%num) ;;
      let alignSelf := or_else (childStyles !! "alignSelf") alignment in
      cont ← get_node container;
      c ← get_node child;
      modify child (set_x
        (if value_is alignSelf "center" then
           (x cont + left (padding containerBoxModel)
            + left (border containerBoxModel)
            + (contentWidth
               - (width c + left (margin childBoxModel)
                  + right (margin childBoxModel))) / Fin 2
            + left (margin childBoxModel))%num
         else if value_is alignSelf "end" then
           (x cont + width cont - right (padding containerBoxModel)
            - right (border containerBoxModel) - width c
            - right (margin childBoxModel))%num
         else
           (x cont + left (padding containerBoxModel)
            + left (border containerBoxModel)
            + left (margin childBoxModel))%num)) ;;
      c ← get_node child;
      let currentY :=
        (currentY + (height c + bottom (margin childBoxModel)))%num in
      let currentY :=
        if (index <? n - 1)%nat then
          let cy := (currentY + (gap + spaceBetween))%num in
          if value_is justifyContent "space-around"
          then (cy + spaceAround)%num else cy
        else currentY in
      ret (currentY, S index))
    (currentY1, 0%nat) ;;
  ret tt.

(** [layoutVertical], in the order of the source: the content box of the
    container, the first pass over the children, the flex distribution,
    the final sizes, the positions. *)
Definition layoutVertical (container : nat) (layoutProps : LayoutProps)
    (children : list nat) : M unit :=
  containerBoxModel ← getBoxModel container;
  cont ← get_node container;
  let contentHeight := contentHeightOf cont containerBoxModel in
  let contentWidth := contentWidthOf cont containerBoxModel in
  cl ← classifyVertical children;
  let totalGaps := totalGapsOf (length children) (gapOf layoutProps) in
  let items :=
    flexTargets (availableVertical contentHeight totalGaps cl)
                (totalFlexGrow cl) (totalFlexShrinkFactors cl)
                (flexItems cl) in
  applyHeights items ;;
  positionVertical container layoutProps containerBoxModel contentWidth
                   contentHeight totalGaps children.

(** First pass of [layoutHorizontal]. *)
Definition classifyHorizontal (children : list nat) : M Classified :=
  foldM children (λ acc child,
      c ← get_node child;
      let childStyles := stylesOf c in
      childBoxModel ← getBoxModel child;
      c ← get_node child;
      ret (classify acc child childStyles childBoxModel (width c)
             (left (margin childBoxModel)) (right (margin childBoxModel))
             "minWidth" "maxWidth"))
    (mkClassified [] (Fin 0) (Fin 0) (Fin 0)).

(** The space [layoutHorizontal] hands to the flex distribution. *)
Definition availableHorizontal (contentWidth totalGaps : num)
    (cl : Classified) : num :=
  let totalAvailableWidth := (contentWidth - totalGaps)%num in
  let initialFlexWidth :=
    fold_left (λ acc item,
      (acc + (fi_base item + left (margin (fi_boxModel item))
              + right (margin (fi_boxModel item))))%num)
      (flexItems cl) (Fin 0) in
  let availableSpace :=
    (contentWidth - totalFixed cl - initialFlexWidth - totalGaps)%num in
  if (initialFlexWidth + totalFixed cl >? totalAvailableWidth)%num
  then (totalAvailableWidth - totalFixed cl - initialFlexWidth)%num
  else nmin availableSpace
            (totalAvailableWidth - totalFixed cl - initialFlexWidth)%num.

Definition applyWidths (items : list FlexItem) : M unit :=
  forEach items (λ item,
    modify (fi_instance item) (set_width (fi_target item))).

Definition positionHorizontal (container : nat) (layoutProps : LayoutProps)
    (containerBoxModel : BoxModel) (contentWidth contentHeight totalGaps : num)
    (children : list nat) : M unit :=
  let gap := gapOf layoutProps in
  let alignment := alignmentOf layoutProps in
  let n := length children in
  let justifyContent := justifyOf layoutProps in
  actualTotal ← foldM children (λ acc child,
         childBoxModel ← getBoxModel child;
         c ← get_node child;
         ret (acc + (width c + left (margin childBoxModel)
                     + right (margin childBoxModel)))%num)
       (Fin 0);
  let actualTotalWidth := (actualTotal + totalGaps)%num in
  let justifyRemainingSpace :=
    nmax (Fin 0) (contentWidth - actualTotalWidth)%num in
  let '(startOffset, spaceBetween, spaceAround) :=
    justifySpacing justifyContent justifyRemainingSpace n in
  let currentX0 :=
    (left (padding containerBoxModel) + left (border containerBoxModel)
     + startOffset)%num in
  let currentX1 :=
    if value_is justifyContent "space-around" && (0 <? n)%nat
    then (currentX0 + spaceAround / Fin 2)%num else currentX0 in
  foldM children (λ '(currentX, index) child,
      c ← get_node child;
      let childStyles := stylesOf c in
      childBoxModel ← getBoxModel child;
      let currentX := (currentX + left (margin childBoxModel))%num in
      cont ← get_node container;
      modify child (set_x (x cont + currentX)%num) ;;
      let alignSelf := or_else (childStyles !! "alignSelf") alignment in
      cont ← get_node container;
      c ← get_node child;
      modify child (set_y
        (if value_is alignSelf "center" then
           (y cont + top (padding containerBoxModel)
            + top (border containerBoxModel)
            + (contentHeight
               - (height c + top (margin childBoxModel)
                  + bottom (margin childBoxModel))) / Fin 2
            + top (margin childBoxModel))%num
         else if value_is alignSelf "end" then
           (y cont + height cont - bottom (padding containerBoxModel)
            - bottom (border containerBoxModel) - height c
            - bottom (margin childBoxModel))%num
         else
           (y cont + top (padding containerBoxModel)
            + top (border containerBoxModel)
            + top (margin childBoxModel))%num)) ;;
      c ← get_node child;
      let currentX :=
        (currentX + (width c + right (margin childBoxModel)))%num in
      let currentX :=
        if (index <? n - 1)%nat then
          let cx := (currentX + (gap + spaceBetween))%num in
          if value_is justifyContent "space-around"
          then (cx + spaceAround)%num else cx
        else currentX in
      ret (currentX, S index))
    (currentX1, 0%nat) ;;
  ret tt.

Definition layoutHorizontal (container : nat) (layoutProps : LayoutProps)
    (children : list nat) : M unit :=
  containerBoxModel ← getBoxModel container;
  cont ← get_node container;
  let contentWidth := contentWidthOf cont containerBoxModel in
  let contentHeight := contentHeightOf cont containerBoxModel in
  cl ← classifyHorizontal children;
  let totalGaps := totalGapsOf (length children) (gapOf layoutProps) in
  let items :=
    flexTargets (availableHorizontal contentWidth totalGaps cl)
                (totalFlexGrow cl) (totalFlexShrinkFactors cl)
                (flexItems cl) in
  applyWidths items ;;
  positionHorizontal container layoutProps containerBoxModel contentWidth
                     contentHeight totalGaps children.

(* ===================================================================== *)
(** * Grid *)
(* ===================================================================== *)

Definition nfloor (a : num) : num :=
  match a with Fin q => Fin (inject_Z (Qfloor q)) | _ => a end.

Definition nceil (a : num) : num :=
  match a with Fin q => Fin (inject_Z (Qceiling q)) | _ => a end.

(** The remainder operator [%] of the source language. *)
Definition nmod (a b : num) : num :=
  match a, b with
  | Fin x, Fin y =>
      if Qeqb y 0 then NaN
      else
        let q := (x / y)%Q in
        let t := if Qle_bool 0 q then Qfloor q else Qceiling q in
        Fin (x - y * inject_Z t)
  | Fin x, (PInf | NInf) => Fin x
  | _, _ => NaN
  end.

(** [layoutProps.columns || 2] as a number. *)
Definition columnsOf (lp : LayoutProps) : num :=
  toNumber (if truthy (lp_columns lp) then lp_columns lp else VNum (Fin 2)).

(** The largest outer width and outer height among the children. *)
Definition maxCell (children : list nat) : M (num * num) :=
  foldM children (λ '(maxCellWidth, maxCellHeight) child,
      childBoxModel ← getBoxModel child;
      c ← get_node child;
      ret (nmax maxCellWidth
                (width c + left (margin childBoxModel)
                 + right (margin childBoxModel))%num,
           nmax maxCellHeight
                (height c + top (margin childBoxModel)
                 + bottom (margin childBoxModel))%num))
    (Fin 0, Fin 0).

Definition layoutGrid (container : nat) (layoutProps : LayoutProps)
    (children : list nat) : M unit :=
  containerBoxModel ← getBoxModel container;
  let columns := columnsOf layoutProps in
  let gap := gapOf layoutProps in
  let justifyContent := justifyOf layoutProps in
  cont ← get_node container;
  let contentWidth := contentWidthOf cont containerBoxModel in
  '(maxCellWidth, maxCellHeight) ← maxCell children;
  let totalCellWidth := (maxCellWidth * columns)%num in
  let totalGapWidth := ((columns - Fin 1) * gap)%num in
  let totalWidthNeeded := (totalCellWidth + totalGapWidth)%num in
  let extraWidth := nmax (Fin 0) (contentWidth - totalWidthNeeded)%num in
  let '(startOffsetX, extraColumnGap) :=
    if value_is justifyContent "start" then (Fin 0, Fin 0)
    else if value_is justifyContent "center" then
      ((extraWidth / Fin 2)%num, Fin 0)
    else if value_is justifyContent "end" then (extraWidth, Fin 0)
    else if value_is justifyContent "space-between" then
      (Fin 0,
       if (columns >? Fin 1)%num then (extraWidth / (columns - Fin 1))%num
       else Fin 0)
    else if value_is justifyContent "space-around" then
      ((extraWidth / columns / Fin 2)%num, (extraWidth / columns)%num)
    else (Fin 0, Fin 0) in
  foldM children (λ index child,
      c ← get_node child;
      let childStyles := stylesOf c in
      childBoxModel ← getBoxModel child;
      let row := nfloor (nat_num index / columns)%num in
      let col := nmod (nat_num index) columns in
      let baseX :=
        (left (padding containerBoxModel) + left (border containerBoxModel)
         + startOffsetX)%num in
      let baseY :=
        (top (padding containerBoxModel) + top (border containerBoxModel))%num in
      let alignSelf :=
        or_else (childStyles !! "alignSelf") (alignmentOf layoutProps) in
      let justifySelf := or_else (childStyles !! "justifySelf") (VStr "start") in
      let cellLeft :=
        (baseX + col * (maxCellWidth + gap + extraColumnGap))%num in
      let cellTop := (baseY + row * (maxCellHeight + gap))%num in
      let cellWidth := maxCellWidth in
      let cellHeight := maxCellHeight in
      c ← get_node child;
      let itemX :=
        if value_is justifySelf "center" then
          (cellLeft
           + (cellWidth - (width c + left (margin childBoxModel)
                           + right (margin childBoxModel))) / Fin 2
           + left (margin childBoxModel))%num
        else if value_is justifySelf "end" then
          (cellLeft + cellWidth - width c - right (margin childBoxModel))%num
        else (cellLeft + left (margin childBoxModel))%num in
      let itemY :=
        if value_is alignSelf "center" then
          (cellTop
           + (cellHeight - (height c + top (margin childBoxModel)
                            + bottom (margin childBoxModel))) / Fin 2
           + top (margin childBoxModel))%num
        else if value_is alignSelf "end" then
          (cellTop + cellHeight - height c - bottom (margin childBoxModel))%num
        else (cellTop + top (margin childBoxModel))%num in
      cont ← get_node container;
      modify child (set_x (x cont + itemX)%num) ;;
      cont ← get_node container;
      modify child (set_y (y cont + itemY)%num) ;;
      ret (S index))
    0%nat ;;
  ret tt.

Definition applyNormalFlowLayout (instance : nat) (layoutProps : LayoutProps)
    (children : list nat) : M unit :=
  if value_is (lp_display layoutProps) "vertical" then
    layoutVertical instance layoutProps children
  else if value_is (lp_display layoutProps) "horizontal" then
    layoutHorizontal instance layoutProps children
  else if value_is (lp_display layoutProps) "grid" then
    layoutGrid instance layoutProps children
  else ret tt.

(* ===================================================================== *)
(** * Fit-content *)
(* ===================================================================== *)

Definition applyFitContentSizing (instance : nat) (layoutProps : LayoutProps)
  : M unit :=
  children ← getLayoutChildren instance;
  containerBoxModel ← getBoxModel instance;
  let n := length children in
  let gap := toNumber (lp_gap layoutProps) in
  if value_is (lp_display layoutProps) "vertical" then
    '(totalHeightVertical, maxWidth, _) ←
      foldM children (λ '(total, maxWidth, index) child,
          oh ← getOuterHeight child;
          let total := (total + oh)%num in
          let total := if (index <? n - 1)%nat then (total + gap)%num
                       else total in
          ow ← getOuterWidth child;
          ret (total, nmax maxWidth ow, S index))
        ((top (padding containerBoxModel)
          + bottom (padding containerBoxModel))%num, Fin 0, 0%nat);
    modify instance (set_height
      (totalHeightVertical + top (border containerBoxModel)
       + bottom (border containerBoxModel))%num) ;;
    modify instance (set_width
      (maxWidth + left (padding containerBoxModel)
       + right (padding containerBoxModel)
       + left (border containerBoxModel)
       + right (border containerBoxModel))%num)
  else if value_is (lp_display layoutProps) "horizontal" then
    '(totalWidthHorizontal, maxHeight, _) ←
      foldM children (λ '(total, maxHeight, index) child,
          ow ← getOuterWidth child;
          let total := (total + ow)%num in
          let total := if (index <? n - 1)%nat then (total + gap)%num
                       else total in
          oh ← getOuterHeight child;
          ret (total, nmax maxHeight oh, S index))
        ((left (padding containerBoxModel)
          + right (padding containerBoxModel))%num, Fin 0, 0%nat);
    modify instance (set_width
      (totalWidthHorizontal + left (border containerBoxModel)
       + right (border containerBoxModel))%num) ;;
    modify instance (set_height
      (maxHeight + top (padding containerBoxModel)
       + bottom (padding containerBoxModel)
       + top (border containerBoxModel)
       + bottom (border containerBoxModel))%num)
  else if value_is (lp_display layoutProps) "grid" then
    let columns := columnsOf layoutProps in
    let rows := nceil (nat_num n / columns)%num in
    '(maxCellWidth, maxCellHeight) ← maxCell children;
    let totalWidthGrid :=
      (columns * maxCellWidth + (columns - Fin 1) * gap
       + left (padding containerBoxModel) + right (padding containerBoxModel)
       + left (border containerBoxModel)
       + right (border containerBoxModel))%num in
    let totalHeightGrid :=
      (rows * maxCellHeight + (rows - Fin 1) * gap
       + top (padding containerBoxModel) + bottom (padding containerBoxModel)
       + top (border containerBoxModel)
       + bottom (border containerBoxModel))%num in
    modify instance (set_width totalWidthGrid) ;;
    modify instance (set_height totalHeightGrid)
  else ret tt.

(* ===================================================================== *)
(** * Out-of-flow positioning *)
(* ===================================================================== *)

Definition positionAbsolute (instance : nat) (layoutProps : LayoutProps)
  : M unit :=
  inst ← get_node instance;
  match parent inst with
  | None => ret tt
  | Some p =>
      parentBoxModel ← getBoxModel p;
      instanceBoxModel ← getBoxModel instance;
      par ← get_node p;
      let contentLeft :=
        (x par + left (padding parentBoxModel)
         + left (border parentBoxModel))%num in
      let contentTop :=
        (y par + top (padding parentBoxModel)
         + top (border parentBoxModel))%num in
      let contentRight :=
        (x par + width par - right (padding parentBoxModel)
         - right (border parentBoxModel))%num in
      let contentBottom :=
        (y par + height par - bottom (padding parentBoxModel)
         - bottom (border parentBoxModel))%num in
      inst ← get_node instance;
      let x' :=
        match lp_left layoutProps, lp_right layoutProps with
        | Some l, _ =>
            (contentLeft + toNumber l + left (margin instanceBoxModel))%num
        | None, Some r =>
            (contentRight - toNumber r - width inst
             - right (margin instanceBoxModel))%num
        | None, None => (contentLeft + left (margin instanceBoxModel))%num
        end in
      let y' :=
        match lp_top layoutProps, lp_bottom layoutProps with
        | Some t, _ =>
            (contentTop + toNumber t + top (margin instanceBoxModel))%num
        | None, Some b =>
            (contentBottom - toNumber b - height inst
             - bottom (margin instanceBoxModel))%num
        | None, None => (contentTop + top (margin instanceBoxModel))%num
        end in
      modify instance (set_x x') ;;
      modify instance (set_y y')
  end.

(** The offset of a named anchor point from the origin of a rectangle. *)
Definition anchorOffset (inst : Instance) (anchor : value) : num * num :=
  let w := width inst in
  let h := height inst in
  let named s := value_is anchor s in
  if named "top-left" then (Fin 0, Fin 0)
  else if named "top" || named "top-center" then ((w / Fin 2)%num, Fin 0)
  else if named "top-right" then (w, Fin 0)
  else if named "left" || named "center-left" then (Fin 0, (h / Fin 2)%num)
  else if named "center" then ((w / Fin 2)%num, (h / Fin 2)%num)
  else if named "right" || named "center-right" then (w, (h / Fin 2)%num)
  else if named "bottom-left" then (Fin 0, h)
  else if named "bottom" || named "bottom-center" then ((w / Fin 2)%num, h)
  else if named "bottom-right" then (w, h)
  else ((w / Fin 2)%num, (h / Fin 2)%num).

(** [getAnchorPoint]: the offsets when [returnOffset] is set, the absolute
    coordinates otherwise. *)
Definition getAnchorPoint (inst : Instance) (anchor : value)
    (returnOffset : bool) : num * num :=
  let '(offsetX, offsetY) := anchorOffset inst anchor in
  if returnOffset then (offsetX, offsetY)
  else ((x inst + offsetX)%num, (y inst + offsetY)%num).

(** The first instance of the runtime that carries the tag. *)
Definition findByTag (w : World) (tag : string) : option nat :=
  fst <$> list_find (λ inst, tag ∈ tags inst) (objects w).

(** The target of an anchored node.  A style value is a number or a
    string, so the branch of the source for a direct instance reference
    is never taken. *)
Definition anchorTargetOf (w : World) (inst : Instance)
    (layoutProps : LayoutProps) : option nat :=
  match lp_anchorTarget layoutProps with
  | None => parent inst
  | Some v =>
      if negb (truthy v) then parent inst
      else match v with
           | VStr s => if String.eqb s "parent" then parent inst
                       else findByTag w s
           | VNum _ => None
           end
  end.

Definition positionAnchor (instance : nat) (layoutProps : LayoutProps)
  : M unit :=
  λ w,
    let inst := node w instance in
    match anchorTargetOf w inst layoutProps with
    | None => (tt, w)
    | Some t =>
        let originalX := x inst in
        let originalY := y inst in
        let targetPoint :=
          getAnchorPoint (node w t) (lp_anchorPoint layoutProps) false in
        let selfPoint :=
          getAnchorPoint inst (lp_selfAnchor layoutProps) true in
        let offsetX :=
          (fst targetPoint - (originalX + fst selfPoint)
           + toNumber (lp_anchorOffsetX layoutProps))%num in
        let offsetY :=
          (snd targetPoint - (originalY + snd selfPoint)
           + toNumber (lp_anchorOffsetY layoutProps))%num in
        (tt, update instance (set_y (originalY + offsetY)%num)
               (update instance (set_x (originalX + offsetX)%num) w))
    end.

Definition applyOutOfFlowLayout (instance : nat) : M unit :=
  ensureStyles instance ;;
  layoutProps ← getLayoutProperties instance;
  if value_is (lp_position layoutProps) "absolute" then
    positionAbsolute instance layoutProps
  else if value_is (lp_position layoutProps) "anchor" then
    positionAnchor instance layoutProps
  else ret tt.

(* ===================================================================== *)
(** * The tree driver *)
(* ===================================================================== *)

(** The predicate of [hasFlexChildren] on the computed style of one
    child. *)
Definition hasFlexProps (styles : gmap string value) : bool :=
  match styles !! "flexGrow" with
  | Some v => truthy v && (toNumber v >? Fin 0)%num
  | None => false
  end
  || bool_decide (is_Some (styles !! "flexShrink"))
  || match styles !! "flexBasis" with
     | Some v => truthy v && negb (value_is v "auto")
     | None => false
     end.

Definition hasFlexChildren (children : list nat) : M bool :=
  λ w, (existsb (λ child, hasFlexProps (stylesOf (node w child))) children, w).

(** The three lists the driver builds from the children of a node. *)
Record Partition : Type := mkPartition {
  inFlowChildren : list nat;
  outOfFlowChildren : list nat;
  percentSizedChildren : list nat
}.

(** Step 3 of the driver: compute and cache the style of every child that
    takes part in layout and sort the children into the three lists. *)
Definition partitionChildren (children : list nat) : M Partition :=
  foldM children (λ acc child,
      c ← get_node child;
      if skipped c then ret acc
      else
        childStyles ← (λ w, (getInstanceStyles w child, w));
        modify child (set_computedStyles childStyles) ;;
        let pct :=
          if hasPercentageSizing childStyles
          then percentSizedChildren acc ++ [child]
          else percentSizedChildren acc in
        if is_out_of_flow childStyles then
          ret (mkPartition (inFlowChildren acc)
                           (outOfFlowChildren acc ++ [child]) pct)
        else
          ret (mkPartition (inFlowChildren acc ++ [child])
                           (outOfFlowChildren acc) pct))
    (mkPartition [] [] []).

(** Steps 1 and 2 of [processInstance]: the style of the node is computed
    and applied, and its layout properties are read; a node without a
    parent is laid out as [relative]. *)
Definition prepareInstance (instance : nat) : M LayoutProps :=
  styles ← (λ w, (getInstanceStyles w instance, w));
  applyStylesToInstance instance styles ;;
  layoutProps ← getLayoutProperties instance;
  inst ← get_node instance;
  ret (match parent inst with
       | None => set_position (VStr "relative") layoutProps
       | Some _ => layoutProps
       end).

(** Step 6 of [processInstance]. *)
Definition fitContentPhase (instance : nat) (layoutProps : LayoutProps)
    (p : Partition) : M unit :=
  when (lp_fitContent layoutProps) (
    applyFitContentSizing instance layoutProps ;;
    if (0 <? length (percentSizedChildren p))%nat then
      forEach (percentSizedChildren p) applyPercentageSizing ;;
      when (flowAllowed layoutProps)
        (applyNormalFlowLayout instance layoutProps (inFlowChildren p))
    else
      flex ← hasFlexChildren (inFlowChildren p);
      when (flowAllowed layoutProps && flex)
        (applyNormalFlowLayout instance layoutProps (inFlowChildren p))).

(** [processInstance].  The recursion follows the tree; [fuel] bounds its
    depth. *)
Fixpoint processInstance (fuel : nat) (instance : nat) : M unit :=
  match fuel with
  | O => ret tt
  | S fuel' =>
      layoutProps ← prepareInstance instance;
      inst ← get_node instance;
      p ← partitionChildren (children inst);
      forEach (inFlowChildren p) (processInstance fuel') ;;
      when (flowAllowed layoutProps)
        (applyNormalFlowLayout instance layoutProps (inFlowChildren p)) ;;
      fitContentPhase instance layoutProps p ;;
      forEach (outOfFlowChildren p) (λ child,
        processInstance fuel' child ;;
        applyOutOfFlowLayout child)
  end.

(* ===================================================================== *)
(** * The step-by-step driver (ui_layout_debug.js) *)
(* ===================================================================== *)

(** What [getInstanceInfo] returns. *)
Record InstanceInfo : Type := mkInstanceInfo {
  info_id : string;
  info_classes : string;
  info_position : num * num;
  info_size : num * num;
  info_styles : gmap string value
}.

Definition join_tags (l : list string) : string :=
  match l with
  | [] => ""
  | t :: r => fold_left (λ acc s, acc +:+ " " +:+ s) r t
  end.

Definition getInstanceInfo (inst : Instance) : InstanceInfo :=
  mkInstanceInfo
    (let id := join_tags (tags inst) in
     if String.eqb id "" then "<anonymous>" else id)
    (classes inst)
    (x inst, y inst)
    (width inst, height inst)
    (stylesOf inst).

(** A record the generator yields: its label, and the snapshots of the
    nodes it names ([instance], or [parent] and [child]).  The other
    payload of the source records (counts, sizes before and after) is
    derived from the same store and is left out. *)
Record StepInfo : Type := mkStepInfo {
  step : string;
  step_instance : option InstanceInfo;
  step_parent : option InstanceInfo;
  step_child : option InstanceInfo
}.

(** A suspended generator: run from the current store, it either returns
    or yields a record together with the generator to resume. *)
Inductive Res (A : Type) : Type :=
| Ret (a : A)
| Yield (s : StepInfo) (k : World → Res A * World).
Arguments Ret {A} a.
Arguments Yield {A} s k.

Definition Gen (A : Type) : Type := World → Res A * World.

Fixpoint bindRes {A B} (r : Res A) (f : A → Gen B) (w : World)
  : Res B * World :=
  match r with
  | Ret a => f a w
  | Yield s k =>
      (Yield s (λ w1, let '(r', w2) := k w1 in bindRes r' f w2), w)
  end.

Definition gret {A} (a : A) : Gen A := λ w, (Ret a, w).
Definition gbind {A B} (g : Gen A) (f : A → Gen B) : Gen B :=
  λ w, let '(r, w') := g w in bindRes r f w'.

Global Instance Gen_ret : MRet Gen := @gret.
Global Instance Gen_bind : MBind Gen := λ A B f g, gbind g f.

(** Code of the generator between two yields. *)
Definition run {A} (m : M A) : Gen A := λ w, let '(a, w') := m w in (Ret a, w').

(** [yield s] *)
Definition yield (s : StepInfo) : Gen unit :=
  λ w, (Yield s (λ w', (Ret tt, w')), w).

Definition yieldInstance (label : string) (instance : nat) : Gen unit :=
  inst ← run (get_node instance);
  yield (mkStepInfo label (Some (getInstanceInfo inst)) None None).

Definition yieldChild (label : string) (instance child : nat) : Gen unit :=
  inst ← run (get_node instance);
  c ← run (get_node child);
  yield (mkStepInfo label None (Some (getInstanceInfo inst))
                    (Some (getInstanceInfo c))).

Fixpoint gforEachIdx_go {A} (n : nat) (l : list A) (f : A → nat → Gen unit)
  : Gen unit :=
  match l with
  | [] => mret tt
  | a :: r => f a n ;; gforEachIdx_go (S n) r f
  end.
Definition gforEachIdx {A} (l : list A) (f : A → nat → Gen unit) : Gen unit :=
  gforEachIdx_go 0 l f.

Definition gwhen (b : bool) (g : Gen unit) : Gen unit :=
  if b then g else mret tt.

(** The label ["4.i. <text> i/n"] of the per-child records. *)
Definition childLabel (phase text : string) (i n : nat) : string :=
  phase +:+ "." +:+ pretty (S i) +:+ ". " +:+ text +:+ " " +:+ pretty (S i)
  +:+ "/" +:+ pretty n.

(** The generator [processInstanceStepByStep].  [yield*] of the generator
    of a child is the sequencing of the two generators. *)
Fixpoint processInstanceStepByStep (fuel : nat) (instance : nat)
  : Gen unit :=
  match fuel with
  | O => mret tt
  | S fuel' =>
      styles ← run (λ w, (getInstanceStyles w instance, w));
      run (applyStylesToInstance instance styles) ;;
      yieldInstance "1. Applied styles to instance" instance ;;
      layoutProps ← run (getLayoutProperties instance);
      yieldInstance "2. Retrieved layout properties" instance ;;
      inst ← run (get_node instance);
      p ← run (partitionChildren (children inst));
      yieldInstance "3. Separated children into flow types" instance ;;
      yieldInstance "4. Processing in-flow children first" instance ;;
      let nIn := length (inFlowChildren p) in
      gforEachIdx (inFlowChildren p) (λ child i,
        yieldChild (childLabel "4" "Processing in-flow child" i nIn)
                   instance child ;;
        processInstanceStepByStep fuel' child ;;
        yieldChild (childLabel "4" "Completed in-flow child" i nIn)
                   instance child) ;;
      gwhen (flowAllowed layoutProps) (
        yieldInstance "5. Applying normal flow layout" instance ;;
        run (applyNormalFlowLayout instance layoutProps (inFlowChildren p)) ;;
        yieldInstance "5. Normal flow layout applied" instance) ;;
      gwhen (lp_fitContent layoutProps) (
        yieldInstance "6. Applying fit-content sizing" instance ;;
        run (applyFitContentSizing instance layoutProps) ;;
        yieldInstance "6. Fit-content sizing applied" instance ;;
        gwhen (0 <? length (percentSizedChildren p))%nat (
          yieldInstance "6.1. Reapplying percentage sizing for children"
                        instance ;;
          gforEachIdx (percentSizedChildren p) (λ child _,
            run (applyPercentageSizing child) ;;
            yieldChild "6.1. Percentage sizing reapplied to child"
                       instance child) ;;
          gwhen (flowAllowed layoutProps) (
            yieldInstance
              "6.2. Reapplying layout with updated percentage-sized children"
              instance ;;
            run (applyNormalFlowLayout instance layoutProps
                                       (inFlowChildren p)) ;;
            yieldInstance "6.2. Layout reapplied" instance))) ;;
      yieldInstance "7. Processing out-of-flow children" instance ;;
      let nOut := length (outOfFlowChildren p) in
      gforEachIdx (outOfFlowChildren p) (λ child i,
        yieldChild (childLabel "7" "Processing out-of-flow child" i nOut)
                   instance child ;;
        processInstanceStepByStep fuel' child ;;
        run (applyOutOfFlowLayout child) ;;
        yieldChild (childLabel "7" "Positioned out-of-flow child" i nOut)
                   instance child) ;;
      yieldInstance "Layout complete for instance" instance
  end.

Module UILayoutDebug.

(** The state of a [UILayoutDebug] object.  [layout] is the state of the
    [UILayout] it extends.  The generator is one mutable object that
    [debugGenerator] and the only entry of [pendingGenerators] both
    refer to; its state is kept in [pendingGenerators] (top of the stack
    first) and [debugGenerator] records whether the reference is set.
    The highlighter rectangle that [nextStep] moves is an object of the
    host outside the laid-out tree and is not part of the state. *)
Record t : Type := mk {
  layout : World;
  debugMode : bool;
  debugGenerator : bool;
  pendingGenerators : list (Gen unit);
  debugInfo : option StepInfo;
  lastDebugInfo : option StepInfo
}.

Definition create (w : World) : t := mk w false false [] None None.

(** The body of [nextStep] once the guard has passed: advance the
    generator on top of the stack; when it is done, pop it and go on
    with the one below. *)
Fixpoint advance (pending : list (Gen unit)) (d : t)
  : option StepInfo * t :=
  match pending with
  | [] => (None, d)
  | currentGenerator :: rest =>
      match currentGenerator (layout d) with
      | (Ret _, w') =>
          match rest with
          | [] =>
              (None, mk w' false (debugGenerator d) [] None (debugInfo d))
          | _ :: _ =>
              advance rest
                (mk w' (debugMode d) (debugGenerator d) rest (debugInfo d)
                    (lastDebugInfo d))
          end
      | (Yield s k, w') =>
          (Some s,
           mk w' (debugMode d) (debugGenerator d) (k :: rest) (Some s)
              (debugInfo d))
      end
  end.

Definition nextStep (d : t) : option StepInfo * t :=
  if negb (debugMode d) || (length (pendingGenerators d) =? 0)%nat
  then (None, d)
  else advance (pendingGenerators d) d.

(** [fuel] bounds the depth of the tree the generator walks. *)
Definition enableDebugMode (fuel : nat) (rootInstance : nat) (d : t) : t :=
  let g := processInstanceStepByStep fuel rootInstance in
  snd (nextStep (mk (layout d) true true [g] (debugInfo d)
                    (lastDebugInfo d))).

Definition disableDebugMode (d : t) : t :=
  mk (layout d) false false [] None (lastDebugInfo d).

(** The override of [processInstance]. *)
Definition processInstance (fuel : nat) (instance : nat) (d : t) : t :=
  if negb (debugMode d) then
    mk (exec (processInstance fuel instance) (layout d)) (debugMode d)
       (debugGenerator d) (pendingGenerators d) (debugInfo d)
       (lastDebugInfo d)
  else d.

(** Drive the generator until it is exhausted, at most [n] steps. *)
Fixpoint runSteps (n : nat) (d : t) : t :=
  match n with
  | O => d
  | S n' =>
      match nextStep d with
      | (Some _, d') => runSteps n' d'
      | (None, d') => d'
      end
  end.

End UILayoutDebug.

(** ** The cascade as the specification words it

    A later write overwrites an earlier one unless the earlier was marked
    [!important] and the later is not; two important writes resolve by
    list order.  So the winner for a property is its last important
    write when there is one, and its last write otherwise. *)

Definition writes (P : string) (s : StyleObj) : option value :=
  computedStyle s !! P.

Definition importantWrites (P : string) (s : StyleObj) : option value :=
  if bool_decide (P ∈ importantProperties s) then computedStyle s !! P
  else None.

Definition lastWrite (P : string) (l : list StyleObj) : option value :=
  last (omap (writes P) l).

Definition lastImportantWrite (P : string) (l : list StyleObj)
  : option value :=
  last (omap (importantWrites P) l).

Definition spec_cascade (P : string) (l : list StyleObj) : option value :=
  match lastImportantWrite P l with
  | Some v => Some v
  | None => lastWrite P l
  end.

(** The styles of the registered classes of a node, in the order of its
    class list, and its inline style. *)
Definition classStyles (w : World) (inst : Instance) : list StyleObj :=
  omap (λ className, registeredClasses w !! className)
       (class_names (classes inst)).

Definition inlineStyle (inst : Instance) : list StyleObj :=
  if String.eqb (style inst) "" then [] else [parseStyle (style inst)].

(** A node with two classes and an inline style.  The first class writes
    [width] as important; the three styles all write [color]. *)
Definition theme_a : string := "color: red
width: 10 !important".

Definition theme_b : string := "color: blue
width: 20".

Definition theme_inline : string := "color: green
width: 30".

Definition themed : World :=
  registerClass "b" theme_b
    (registerClass "a" theme_a
       (mkWorld [mkInstance (Fin 0) (Fin 0) (Fin 0) (Fin 0) true [] None []
                            "a b" theme_inline None None] ∅)).

(* ===================================================================== *)
(** * Scenes of the end-to-end scenarios *)
(* ===================================================================== *)

(** A node at [(a, b)] of size [c] by [d], visible, without tags or
    classes. *)
Definition plain (g : num * num * num * num) (parent : option nat)
    (children : list nat) (style : string) : Instance :=
  let '(a, b, c, d) := g in
  mkInstance a b c d true [] parent children "" style None None.

(** Scenario 1: a vertical stack that fits its content.  The root is at
    [(100, 100)]; its size and the geometry of the three children before
    the pass are arbitrary. *)
Definition vstack_root : string := "display: vertical
padding: 20
gap: 10
fit-content: true
border: 2".

Definition vstack_child : string := "width: 200
height: 80
margin: 5".

Definition vstack (rw rh : num) (g1 g2 g3 : num * num * num * num) : World :=
  mkWorld
    [ plain (Fin 100, Fin 100, rw, rh) None [1; 2; 3] vstack_root;
      plain g1 (Some 0) [] vstack_child;
      plain g2 (Some 0) [] vstack_child;
      plain g3 (Some 0) [] vstack_child ] ∅.

(** Scenario 5: an absolutely positioned child in the bottom right corner
    of its parent. *)
Definition corner_parent : string := "width: 500
height: 400
padding: 15
border: 2".

Definition corner_child : string := "position: absolute
right: 10
bottom: 10
width: 50
height: 50".

Definition corner (pw ph : num) (g : num * num * num * num) : World :=
  mkWorld
    [ plain (Fin 0, Fin 0, pw, ph) None [1] corner_parent;
      plain g (Some 0) [] corner_child ] ∅.

(** Scenario 3: two children that grow in a row.  The container is at
    [(cx, cy)]; the children start with width [0]. *)
Definition row_container : string := "display: horizontal
width: 500
padding: 0
gap: 0".

Definition row (cx cy rw rh : num) (a1 b1 h1 a2 b2 h2 : num) : World :=
  mkWorld
    [ plain (cx, cy, rw, rh) None [1; 2] row_container;
      plain (a1, b1, Fin 0, h1) (Some 0) [] "flex-grow: 1";
      plain (a2, b2, Fin 0, h2) (Some 0) [] "flex-grow: 2" ] ∅.

(** A tooltip that names its own tag as anchor target: the first instance
    of the runtime that carries the tag is the tooltip itself. *)
Definition self_anchored : World :=
  mkWorld
    [ plain (Fin 0, Fin 0, Fin 300, Fin 200) None [1] "";
      mkInstance (Fin 50) (Fin 50) (Fin 0) (Fin 0) true ["tip"] (Some 0) []
        "" "position: anchor
anchor-target: tip
anchor-point: top-left
self-anchor: center
width: 100
height: 40" None None ] ∅.

(** Scenario 6: a tooltip anchored above a tagged panel. *)
Definition tooltip_scene : World :=
  mkWorld
    [ plain (Fin 0, Fin 0, Fin 800, Fin 600) None [1; 2] "";
      mkInstance (Fin 50) (Fin 50) (Fin 200) (Fin 150) true ["mainPanel"]
        (Some 0) [] "" "position: absolute
left: 50
top: 50" None None;
      plain (Fin 0, Fin 0, Fin 0, Fin 0) (Some 0) [] "width: 120
height: 40
position: anchor
anchor-target: mainPanel
anchor-point: top
self-anchor: bottom
anchor-offset-y: -5" ] ∅.

(** ** Auxiliary notions of the statements *)

(** Every operation of the engine keeps the nodes of the store in place:
    the store neither grows nor shrinks, and the registry is not
    touched. *)
Definition stable {A} (m : M A) : Prop :=
  ∀ w, length (objects (exec m w)) = length (objects w)
       ∧ registeredClasses (exec m w) = registeredClasses w.

Definition geometry (inst : Instance) : num * num * num * num :=
  (x inst, y inst, width inst, height inst).

(** The world-space coordinates of a named anchor point of a node. *)
Definition anchorPointOf (w : World) (i : nat) (anchor : value) : num * num :=
  getAnchorPoint (node w i) anchor false.

(** A node alone in the store, with the given inline style. *)
Definition single (style : string) (w h : Q) : World :=
  mkWorld [mkInstance (Fin 0) (Fin 0) (Fin w) (Fin h) true [] None [] ""
                      style None None] ∅.

Definition crossed_style : string := "width: 70
height: 70
min-width: 100
max-width: 50
min-height: 100
max-height: 50".

(** A flex item whose bounds cross. *)
Definition crossed_item : FlexItem :=
  mkFlexItem 1 (boxModelOf ∅) (Fin 1) NaN (Fin 0) (Fin 0)
             (Some (VNum (Fin 100))) (Some (VNum (Fin 50))) (Fin 0) false.

(** A root whose own style asks for absolute positioning, with one child
    to lay out. *)
Definition absolute_root : World :=
  mkWorld
    [ plain (Fin 20, Fin 30, Fin 0, Fin 0) None [1] "position: absolute
display: vertical
padding: 10
width: 300
height: 200";
      plain (Fin 0, Fin 0, Fin 0, Fin 0) (Some 0) [] "width: 100
height: 50" ] ∅.

(** The labels of the steps a debug run hands out, at most [n] of them,
    and the state it ends in. *)
Fixpoint debugRun (n : nat) (d : UILayoutDebug.t)
  : list string * UILayoutDebug.t :=
  match n with
  | O => ([], d)
  | S n' =>
      match UILayoutDebug.nextStep d with
      | (Some s, d') =>
          let '(labels, d'') := debugRun n' d' in (step s :: labels, d'')
      | (None, d') => ([], d')
      end
  end.

(** The states in which the debug driver is armed: [enableDebugMode] has
    been called, and every [nextStep] since has handed out a step. *)
Inductive armed : UILayoutDebug.t → Prop :=
| armed_enable (fuel root : nat) (d : UILayoutDebug.t) :
    armed (UILayoutDebug.enableDebugMode (S fuel) root d)
| armed_step (d d' : UILayoutDebug.t) (s : StepInfo) :
    armed d → UILayoutDebug.nextStep d = (Some s, d') → armed d'.

(** A container that fits its content and centres its only child, which
    declares [flex-basis: 0]. *)
Definition centred_basis : World :=
  mkWorld
    [ plain (Fin 0, Fin 0, Fin 1000, Fin 0) None [1] "display: vertical
fit-content: true
align-items: center";
      plain (Fin 0, Fin 0, Fin 0, Fin 0) (Some 0) [] "width: 100
height: 50
flex-basis: 0" ] ∅.

(** What claim C10 says makes a child a flex child, in its own words: a
    [flexGrow] greater than 0, a defined [flexShrink], or a [flexBasis]
    other than ["auto"]. *)
Definition spec_declaresFlex (styles : gmap string value) : bool :=
  match styles !! "flexGrow" with
  | Some v => (toNumber v >? Fin 0)%num
  | None => false
  end
  || bool_decide (is_Some (styles !! "flexShrink"))
  || match styles !! "flexBasis" with
     | Some v => negb (value_is v "auto")
     | None => false
     end.

(** The position test of the guard in front of the flow layouter. *)
Definition inFlowPosition (lp : LayoutProps) : bool :=
  negb (value_is (lp_position lp) "absolute")
  && negb (value_is (lp_position lp) "anchor").

(** A container that fits its content and centres its only child, which
    declares [flex-shrink: 0]. *)
Definition centred_shrink : World :=
  mkWorld
    [ plain (Fin 0, Fin 0, Fin 1000, Fin 0) None [1] "display: vertical
fit-content: true
align-items: center";
      plain (Fin 0, Fin 0, Fin 0, Fin 0) (Some 0) [] "width: 100
height: 50
flex-shrink: 0" ] ∅.

(** ** Well-formed flex items (claim C7) *)

(** [totalFlexGrow] as the first pass accumulates it. *)
Definition sumGrow (items : list FlexItem) : num :=
  fold_left (λ acc it, (acc + fi_flexGrow it)%num) items (Fin 0).

(** A declared lower bound that is a finite number or reads as no number
    at all, and a declared upper bound that is a non-negative finite
    number or reads as no number at all.  (A bound that reads as no number
    never passes the comparisons of the loop.) *)
Definition min_ok (c : option value) : Prop :=
  ∀ v, c = Some v → toNumber v = NaN ∨ ∃ q, v = VNum (Fin q).

Definition max_ok (c : option value) : Prop :=
  ∀ v, c = Some v → toNumber v = NaN ∨ ∃ q, v = VNum (Fin q) ∧ (0 <= q)%Q.

(** A flex item as the first pass builds it, with a finite non-negative
    base size and grow factor. *)
Definition item_wf (it : FlexItem) : Prop :=
  fi_constrained it = false ∧ fi_target it = fi_base it
  ∧ (∃ b, fi_base it = Fin b ∧ (0 <= b)%Q)
  ∧ (∃ g, fi_flexGrow it = Fin g ∧ (0 <= g)%Q)
  ∧ (fi_flexShrink it = NaN ∨ is_fin (fi_flexShrink it))
  ∧ min_ok (fi_min it) ∧ max_ok (fi_max it).

(** The invariant of the grow loop on one item. *)
Definition item_inv (it : FlexItem) : Prop :=
  (∃ g, fi_flexGrow it = Fin g ∧ (0 <= g)%Q)
  ∧ (∃ t, fi_target it = Fin t ∧ (0 <= t)%Q)
  ∧ min_ok (fi_min it) ∧ max_ok (fi_max it).

(** The grow factor of an item that is still in the distribution. *)
Definition activeGrow (it : FlexItem) : Q :=
  if fi_constrained it then 0%Q
  else match fi_flexGrow it with Fin g => g | _ => 0%Q end.

Definition sumActive (items : list FlexItem) : Q :=
  fold_right (λ it acc, (activeGrow it + acc)%Q) 0%Q items.

(** The items a pass of the grow loop gives space to, and their number. *)
Definition isActive (it : FlexItem) : bool :=
  negb (fi_constrained it) && (fi_flexGrow it >? Fin 0)%num.

Definition countActive (items : list FlexItem) : nat :=
  fold_right (λ it n, if isActive it then S n else n) 0%nat items.



(** ** The tree and the fuel of the driver *)

(** A computation that leaves the [children] of every node alone. *)
Definition keeps_tree {A} (m : M A) : Prop :=
  ∀ w j, children (node (exec m w) j) = children (node w j).

(** The tree below node [i] has at most [n] levels. *)
Fixpoint shallow (n : nat) (w : World) (i : nat) : bool :=
  match n with
  | O => false
  | S n' => forallb (shallow n' w) (children (node w i))
  end.

(* ===================================================================== *)
(** * Notions of the further properties *)
(* ===================================================================== *)

(** An observation of the store that a computation leaves as it is. *)
Definition keeps {A B} (obs : World → B) (m : M A) : Prop :=
  ∀ w, obs (exec m w) = obs w.

(** What the host, not the engine, owns of a node. *)
Definition attrs (inst : Instance)
  : bool * list string * option nat * list nat * string * string
    * option bool :=
  (isVisible inst, tags inst, parent inst, children inst, classes inst,
   style inst, doLayout inst).

(** A node of class [card] without inline style, in an empty registry. *)
Definition card_text : string := "min-width: 200
padding: 10".

Definition card_world : World :=
  mkWorld [mkInstance (Fin 0) (Fin 0) (Fin 0) (Fin 0) true [] None []
                      "card" "" None None] ∅.

(** ** Which children take part, read off the host's data *)

(** Two stores with the same registry and the same host data on every
    node: they differ at most in cached styles, positions and sizes. *)
Definition same_source (w w' : World) : Prop :=
  registeredClasses w' = registeredClasses w
  ∧ ∀ j, attrs (node w' j) = attrs (node w j).

Definition takesPart (w : World) (c : nat) : bool :=
  negb (skipped (node w c)).

Definition inFlowNow (w : World) (c : nat) : bool :=
  takesPart w c && negb (is_out_of_flow (getInstanceStyles w c)).

Definition outOfFlowNow (w : World) (c : nat) : bool :=
  takesPart w c && is_out_of_flow (getInstanceStyles w c).

Definition percentSizedNow (w : World) (c : nat) : bool :=
  takesPart w c && hasPercentageSizing (getInstanceStyles w c).

(** The bodies of the loops of step 3 and of [getLayoutChildren], named
    so that the loops can be followed from any accumulator. *)
Definition partitionStep (acc : Partition) (child : nat) : M Partition :=
  c ← get_node child;
  if skipped c then ret acc
  else
    childStyles ← (λ w, (getInstanceStyles w child, w));
    modify child (set_computedStyles childStyles) ;;
    let pct :=
      if hasPercentageSizing childStyles
      then percentSizedChildren acc ++ [child]
      else percentSizedChildren acc in
    if is_out_of_flow childStyles then
      ret (mkPartition (inFlowChildren acc)
                       (outOfFlowChildren acc ++ [child]) pct)
    else
      ret (mkPartition (inFlowChildren acc ++ [child])
                       (outOfFlowChildren acc) pct).

Definition layoutChildStep (acc : list nat) (c : nat) : M (list nat) :=
  child ← get_node c;
  if bool_decide (doLayout child = Some false) then ret acc
  else if negb (isVisible child) then ret acc
  else
    ensureStyles c ;;
    child ← get_node c;
    if is_out_of_flow (stylesOf child) then ret acc
    else ret (acc ++ [c]).

(** The style of a child is in the cache of [w'] wherever the child is a
    node of the store and takes part in layout. *)
Definition cached (w w' : World) (l : list nat) : Prop :=
  ∀ c, c ∈ l → c < length (objects w') → takesPart w c = true →
       computedStyles (node w' c) = Some (getInstanceStyles w c).

(** ** Bounds of a size *)

(** A minimum and a maximum that are not crossed: where both are
    declared, the maximum does not compare below the minimum. *)
Definition uncrossed (mn mx : option value) : Prop :=
  ∀ a b, mn = Some a → mx = Some b → (toNumber b <? toNumber a)%num = false.

(** A bound that, where it is declared, is a number. *)
Definition numeric (c : option value) : Prop :=
  ∀ v, c = Some v → ∃ n, v = VNum n.

(** A size that passes both comparisons of [applyMinMaxConstraints]. *)
Definition within (mn mx : option value) (n : num) : Prop :=
  (∀ a, mn = Some a → (n <? toNumber a)%num = false)
  ∧ (∀ b, mx = Some b → (n >? toNumber b)%num = false).

Definition bounded_style : string := "min-width: 100
max-width: 200
min-height: 20".

(** ** Flex items without bounds *)

Definition unbounded (it : FlexItem) : Prop :=
  fi_min it = None ∧ fi_max it = None.

(** Two growing items without bounds, with grow factors 1 and 2. *)
Definition free_items : list FlexItem :=
  [ mkFlexItem 1 (boxModelOf ∅) (Fin 1) (Fin 1) (Fin 100) (Fin 100)
               None None (Fin 100) false;
    mkFlexItem 2 (boxModelOf ∅) (Fin 2) (Fin 1) (Fin 50) (Fin 50)
               None None (Fin 50) false ].

(** ** Totals over the flex items *)

Definition totalOf (f : FlexItem → num) (items : list FlexItem) : num :=
  fold_right (λ it acc, (f it + acc)%num) (Fin 0) items.

(** [totalFlexShrinkFactors] as the first pass accumulates it. *)
Definition sumShrink (items : list FlexItem) : num :=
  fold_left (λ acc it, (acc + fi_flexShrink it * fi_base it)%num) items
            (Fin 0).

(** An item whose share of a deficit [a] is not more than its base size:
    its shrink factor times the deficit is at most the total [T]. *)
Definition shrinkFits (a T : Q) (it : FlexItem) : Prop :=
  ∃ s, fi_flexShrink it = Fin s ∧ (0 <= s)%Q ∧ (Qabs a * s <= T)%Q.

(** Two items that shrink with factors 1 and 3. *)
Definition shrink_items : list FlexItem :=
  [ mkFlexItem 1 (boxModelOf ∅) (Fin 0) (Fin 1) (Fin 100) (Fin 100)
               None None (Fin 100) false;
    mkFlexItem 2 (boxModelOf ∅) (Fin 0) (Fin 3) (Fin 100) (Fin 100)
               None None (Fin 100) false ].

(** ** The generator run without pauses *)

(** Resume a suspended generator until it returns, dropping the records
    it yields on the way. *)
Fixpoint finishRes {A} (r : Res A) (w : World) : A * World :=
  match r with
  | Ret a => (a, w)
  | Yield _ k => let '(r', w') := k w in finishRes r' w'
  end.

Definition finish {A} (g : Gen A) : M A :=
  λ w, let '(r, w') := g w in finishRes r w'.

(** The number of records a suspended generator yields before it
    returns. *)
Fixpoint yieldsLeft {A} (r : Res A) (w : World) : nat :=
  match r with
  | Ret _ => 0
  | Yield _ k => let '(r', w') := k w in S (yieldsLeft r' w')
  end.

Definition yields {A} (g : Gen A) (w : World) : nat :=
  let '(r, w') := g w in yieldsLeft r w'.

(** Induction on a suspended generator: what it resumes to, from any
    store, comes before it. *)
Fixpoint Res_resume_ind {A} (P : Res A → Prop)
    (HRet : ∀ a, P (Ret a))
    (HYield : ∀ s k, (∀ w, P (let '(r', _) := k w in r')) → P (Yield s k))
    (r : Res A) : P r :=
  match r with
  | Ret a => HRet a
  | Yield s k =>
      HYield s k
        (λ w, match k w as p return P (let '(r', _) := p in r') with
              | (r', _) => Res_resume_ind P HRet HYield r'
              end)
  end.

(** The states of a [UILayoutDebug] object that its methods reach from
    the constructor, whatever happens to the store in between. *)
Inductive reachable : UILayoutDebug.t → Prop :=
| reach_create (w : World) : reachable (UILayoutDebug.create w)
| reach_enable (fuel root : nat) (d : UILayoutDebug.t) :
    reachable d → reachable (UILayoutDebug.enableDebugMode fuel root d)
| reach_disable (d : UILayoutDebug.t) :
    reachable d → reachable (UILayoutDebug.disableDebugMode d)
| reach_step (d : UILayoutDebug.t) :
    reachable d → reachable (UILayoutDebug.nextStep d).2
| reach_process (fuel instance : nat) (d : UILayoutDebug.t) :
    reachable d → reachable (UILayoutDebug.processInstance fuel instance d)
| reach_store (f : World → World) (d : UILayoutDebug.t) :
    reachable d →
    reachable (UILayoutDebug.mk (f (UILayoutDebug.layout d))
                 (UILayoutDebug.debugMode d) (UILayoutDebug.debugGenerator d)
                 (UILayoutDebug.pendingGenerators d)
                 (UILayoutDebug.debugInfo d)
                 (UILayoutDebug.lastDebugInfo d)).

(** A computation that keeps an invariant of the store. *)
Definition preserves {A} (I : World → Prop) (m : M A) : Prop :=
  ∀ w, I w → I (exec m w).

(** The style object [applyStylesToInstance] stores on a node: the style
    it is given, with a numeric [flex] written out into the three
    longhands. *)
Definition expandFlex (styles0 : gmap string value) : gmap string value :=
  match styles0 !! "flex" with
  | Some (VNum n) =>
      <["flexBasis" := VStr "0px"]>
        (<["flexShrink" := VNum (Fin 1)]> (<["flexGrow" := VNum n]> styles0))
  | _ => styles0
  end.

Definition styleNow (w : World) (j : nat) : gmap string value :=
  expandFlex (getInstanceStyles w j).

(** ** Where the debug generator and the pass agree *)

(** A node without a parent whose style does not take it out of the
    flow. *)
Definition rootInFlow (w : World) (j : nat) : bool :=
  match parent (node w j) with
  | None => negb (is_out_of_flow (styleNow w j))
  | Some _ => true
  end.

(** A node that does not fit its content, or has a child sized in
    percent, or has no in-flow child with flex properties. *)
Definition fitsPlainly (w : World) (j : nat) : bool :=
  negb (lp_fitContent (layoutPropsOf (styleNow w j)))
  || (0 <? length (List.filter (percentSizedNow w)
                               (children (node w j))))%nat
  || forallb (λ c, negb (hasFlexProps (styleNow w c)))
             (List.filter (inFlowNow w) (children (node w j))).

Definition agrees (w : World) (j : nat) : bool :=
  rootInFlow w j && fitsPlainly w j.

(** The children in [L] that are nodes of the store carry a style the
    engine computed for them from the source of [w]. *)
Definition stylesCached (w : World) (L : list nat) (w' : World) : Prop :=
  same_source w w'
  ∧ ∀ c, c ∈ L → c < length (objects w') →
         computedStyles (node w' c) = Some (getInstanceStyles w c)
         ∨ computedStyles (node w' c) = Some (styleNow w c).

(** The vertical stack of scenario 1, with everything at zero. *)
Definition stack_world : World :=
  vstack (Fin 0) (Fin 0) (Fin 0, Fin 0, Fin 0, Fin 0)
         (Fin 0, Fin 0, Fin 0, Fin 0) (Fin 0, Fin 0, Fin 0, Fin 0).

(* ===================================================================== *)
(** * The application script (main.js) *)
(* ===================================================================== *)

(** [registerClasses]: the eleven classes the script registers, in the
    order and with the text of the source. *)
Definition registerClasses (w : World) : World :=
  let w1 := registerClass "vertical" "
        display: vertical
        gap: 10
        padding: 20
        align-items: center
        fit-content: true
    " w in
  let w2 := registerClass "horizontal" "
        display: horizontal
        gap: 10
        padding: 15
        align-items: center
        fit-content: true
    " w1 in
  let w3 := registerClass "grid" "
        display: grid
        columns: 3
        gap: 15
        padding: 20
    " w2 in
  let w4 := registerClass "card" "
        min-width: 200
        min-height: 100
        padding: 10
        border: 2
        margin: 8
    " w3 in
  let w5 := registerClass "primary-button" "
        width: 120
        height: 40
        min-width: 100
        max-width: 200
        margin: 4
    " w4 in
  let w6 := registerClass "absolute-overlay" "
        position: absolute
        top: 10
        right: 10
        padding: 5
        border: 1
    " w5 in
  let w7 := registerClass "centered-modal" "
        position: absolute
        top: 50
        left: 50
        width: 300
        height: 200
        margin: -100 0 0 -150
    " w6 in
  let w8 := registerClass "bottom-bar" "
        position: absolute
        bottom: 0
        left: 0
        right: 0
        height: 50
        padding: 10
    " w7 in
  let w9 := registerClass "tooltip" "
        position: anchor
        anchor-point: bottom
        self-anchor: top
        anchor-offset-y: 5
        padding: 5
        border: 1
    " w8 in
  let w10 := registerClass "dropdown" "
        position: anchor
        anchor-point: bottom-left
        self-anchor: top-left
        anchor-offset-y: 2
        min-width: 150
        padding: 10
    " w9 in
  let w11 := registerClass "popup-menu" "
        position: anchor
        anchor-point: top-right
        self-anchor: top-left
        anchor-offset-x: 5
        min-width: 120
        padding: 8
    " w10 in
  w11.

Module App.

(** The state of the script: the [layout] object of the closure, the
    instances of the [Panel] object type, and the two globals
    [window.layoutDebugEnabled] and [window.layoutDebugRoot]. *)
Record t : Type := mk {
  layout : UILayoutDebug.t;
  panels : list nat;
  layoutDebugEnabled : bool;
  layoutDebugRoot : option nat
}.

(** The body of [runOnStartup] up to the handlers: the driver is
    created on the store of the host and the classes are registered
    with it. *)
Definition startup (w : World) (panels : list nat) : t :=
  mk (UILayoutDebug.create (registerClasses w)) panels false None.

(** [window.startLayoutDebug(rootInstanceId)]: the first panel that has
    the tag becomes the root of a debug session; without one the call
    reports an error and returns. *)
Definition startLayoutDebug (fuel : nat) (rootInstanceId : string) (a : t)
  : t :=
  match find (λ inst,
                bool_decide
                  (rootInstanceId
                   ∈ tags (node (UILayoutDebug.layout (layout a)) inst)))
             (panels a) with
  | None => a
  | Some rootInstance =>
      mk (UILayoutDebug.enableDebugMode fuel rootInstance (layout a))
         (panels a) true (Some rootInstance)
  end.

(** [window.nextLayoutStep()] *)
Definition nextLayoutStep (a : t) : option StepInfo * t :=
  let '(r, d) := UILayoutDebug.nextStep (layout a) in
  (r, mk d (panels a) (layoutDebugEnabled a) (layoutDebugRoot a)).

(** [window.stopLayoutDebug()] *)
Definition stopLayoutDebug (a : t) : t :=
  mk (UILayoutDebug.disableDebugMode (layout a)) (panels a) false None.

(** The [keydown] handler. *)
Definition keydown (key : string) (a : t) : t :=
  if layoutDebugEnabled a && String.eqb key "n"
  then (nextLayoutStep a).2 else a.

(** The body of the loop of the [tick2] handler. *)
Definition tickInstance (fuel : nat) (d : UILayoutDebug.t) (instance : nat)
  : UILayoutDebug.t :=
  match parent (node (UILayoutDebug.layout d) instance) with
  | Some _ => d
  | None => UILayoutDebug.processInstance fuel instance d
  end.

(** The [tick2] handler.  [fuel] bounds the depth of the trees. *)
Definition tick (fuel : nat) (a : t) : t :=
  if layoutDebugEnabled a then a
  else mk (fold_left (tickInstance fuel) (panels a) (layout a))
          (panels a) (layoutDebugEnabled a) (layoutDebugRoot a).

(** The states the script reaches from its start through its handlers
    and the three functions it publishes. *)
Inductive running : t → Prop :=
| reach_startup (w : World) (panels : list nat) :
    running (startup w panels)
| reach_start (fuel : nat) (tag : string) (a : t) :
    running a → running (startLayoutDebug fuel tag a)
| reach_next (a : t) : running a → running (nextLayoutStep a).2
| reach_stop (a : t) : running a → running (stopLayoutDebug a)
| reach_keydown (key : string) (a : t) :
    running a → running (keydown key a)
| reach_tick (fuel : nat) (a : t) : running a → running (tick fuel a).

End App.

(** What a tick does to the store outside a debug session: one pass on
    every panel without a parent. *)
Definition tickPass (fuel : nat) (panels : list nat) : M unit :=
  forEach panels (λ instance,
    inst ← get_node instance;
    match parent inst with
    | Some _ => ret tt
    | None => processInstance fuel instance
    end).

(** ** Numbers of a vertical stack *)

(** The rational a finite number stands for. *)
Definition qval (n : num) : Q := match n with Fin q => q | _ => 0%Q end.

(** The style gives finite numbers to the keys of [ks], where it has
    them. *)
Definition finiteKeys (ks : list string) (s : gmap string value) : Prop :=
  ∀ k v, k ∈ ks → s !! k = Some v → ∃ q, v = VNum (Fin q).

(** The two margins of a node on the vertical axis, from the style it
    carries. *)
Definition marginTopOf (inst : Instance) : num :=
  top (margin (boxModelOf (stylesOf inst))).

Definition marginBottomOf (inst : Instance) : num :=
  bottom (margin (boxModelOf (stylesOf inst))).

(** A child ready to be placed on the vertical axis: a node of the store
    with a cached style whose vertical margins are finite numbers, and
    with a finite height. *)
Definition placeable (w : World) (c : nat) : Prop :=
  c < length (objects w)
  ∧ is_Some (computedStyles (node w c))
  ∧ finiteKeys ["marginTop"; "marginBottom"; "margin"] (stylesOf (node w c))
  ∧ is_fin (height (node w c)).

(** The bodies of the two loops of the positioning part of
    [layoutVertical], named so that the loops can be followed from any
    state. *)
Definition outerHeightStep (acc : num) (child : nat) : M num :=
  childBoxModel ← getBoxModel child;
  c ← get_node child;
  ret (acc + (height c + top (margin childBoxModel)
              + bottom (margin childBoxModel)))%num.

Definition placeVertical (container : nat) (layoutProps : LayoutProps)
    (containerBoxModel : BoxModel) (contentWidth : num) (n : nat)
    (spaceBetween spaceAround : num)
  : num * nat → nat → M (num * nat) :=
  let gap := gapOf layoutProps in
  let alignment := alignmentOf layoutProps in
  let justifyContent := justifyOf layoutProps in
  λ '(currentY, index) child,
      c ← get_node child;
      let childStyles := stylesOf c in
      childBoxModel ← getBoxModel child;
      let currentY := (currentY + top (margin childBoxModel))%num in
      cont ← get_node container;
      modify child (set_y (y cont + currentY)%num) ;;
      let alignSelf := or_else (childStyles !! "alignSelf") alignment in
      cont ← get_node container;
      c ← get_node child;
      modify child (set_x
        (if value_is alignSelf "center" then
           (x cont + left (padding containerBoxModel)
            + left (border containerBoxModel)
            + (contentWidth
               - (width c + left (margin childBoxModel)
                  + right (margin childBoxModel))) / Fin 2
            + left (margin childBoxModel))%num
         else if value_is alignSelf "end" then
           (x cont + width cont - right (padding containerBoxModel)
            - right (border containerBoxModel) - width c
            - right (margin childBoxModel))%num
         else
           (x cont + left (padding containerBoxModel)
            + left (border containerBoxModel)
            + left (margin childBoxModel))%num)) ;;
      c ← get_node child;
      let currentY :=
        (currentY + (height c + bottom (margin childBoxModel)))%num in
      let currentY :=
        if (index <? n - 1)%nat then
          let cy := (currentY + (gap + spaceBetween))%num in
          if value_is justifyContent "space-around"
          then (cy + spaceAround)%num else cy
        else currentY in
      ret (currentY, S index).

(** The outer heights of the children of a stack, added up. *)
Definition outerHeightSum (w : World) (l : list nat) : Q :=
  fold_right (λ c acc,
      (qval (marginTopOf (node w c)) + qval (height (node w c))
       + qval (marginBottomOf (node w c)) + acc)%Q) 0%Q l.

(** The body of the loop of the vertical case of [applyFitContentSizing],
    for a container with [n] layout children. *)
Definition fitVerticalStep (n : nat) (gap : num)
  : num * num * nat → nat → M (num * num * nat) :=
  λ '(total, maxWidth, index) child,
    oh ← getOuterHeight child;
    let total := (total + oh)%num in
    let total := if (index <? n - 1)%nat then (total + gap)%num
                 else total in
    ow ← getOuterWidth child;
    ret (total, nmax maxWidth ow, S index).

(** A child that takes part in layout and whose cached style keeps it
    in the flow. *)
Definition inFlowCached (w : World) (c : nat) : bool :=
  negb (skipped (node w c)) && negb (is_out_of_flow (stylesOf (node w c))).

(** The box of a container has finite padding and border above and
    below. *)
Definition finiteBoxV (bm : BoxModel) : Prop :=
  is_fin (top (padding bm)) ∧ is_fin (bottom (padding bm))
  ∧ is_fin (top (border bm)) ∧ is_fin (bottom (border bm)).

(** The two margins of a node on the horizontal axis, from the style it
    carries. *)
Definition marginLeftOf (inst : Instance) : num :=
  left (margin (boxModelOf (stylesOf inst))).

Definition marginRightOf (inst : Instance) : num :=
  right (margin (boxModelOf (stylesOf inst))).

(** A child ready to be placed on the horizontal axis: a node of the store
    with a cached style whose horizontal margins are finite numbers, and
    with a finite width. *)
Definition placeableH (w : World) (c : nat) : Prop :=
  c < length (objects w)
  ∧ is_Some (computedStyles (node w c))
  ∧ finiteKeys ["marginLeft"; "marginRight"; "margin"] (stylesOf (node w c))
  ∧ is_fin (width (node w c)).

(** The bodies of the two loops of the positioning part of
    [layoutHorizontal], named so that the loops can be followed from any
    state. *)
Definition outerWidthStep (acc : num) (child : nat) : M num :=
  childBoxModel ← getBoxModel child;
  c ← get_node child;
  ret (acc + (width c + left (margin childBoxModel)
              + right (margin childBoxModel)))%num.

Definition placeHorizontal (container : nat) (layoutProps : LayoutProps)
    (containerBoxModel : BoxModel) (contentHeight : num) (n : nat)
    (spaceBetween spaceAround : num)
  : num * nat → nat → M (num * nat) :=
  let gap := gapOf layoutProps in
  let alignment := alignmentOf layoutProps in
  let justifyContent := justifyOf layoutProps in
  λ '(currentX, index) child,
      c ← get_node child;
      let childStyles := stylesOf c in
      childBoxModel ← getBoxModel child;
      let currentX := (currentX + left (margin childBoxModel))%num in
      cont ← get_node container;
      modify child (set_x (x cont + currentX)%num) ;;
      let alignSelf := or_else (childStyles !! "alignSelf") alignment in
      cont ← get_node container;
      c ← get_node child;
      modify child (set_y
        (if value_is alignSelf "center" then
           (y cont + top (padding containerBoxModel)
            + top (border containerBoxModel)
            + (contentHeight
               - (height c + top (margin childBoxModel)
                  + bottom (margin childBoxModel))) / Fin 2
            + top (margin childBoxModel))%num
         else if value_is alignSelf "end" then
           (y cont + height cont - bottom (padding containerBoxModel)
            - bottom (border containerBoxModel) - height c
            - bottom (margin childBoxModel))%num
         else
           (y cont + top (padding containerBoxModel)
            + top (border containerBoxModel)
            + top (margin childBoxModel))%num)) ;;
      c ← get_node child;
      let currentX :=
        (currentX + (width c + right (margin childBoxModel)))%num in
      let currentX :=
        if (index <? n - 1)%nat then
          let cx := (currentX + (gap + spaceBetween))%num in
          if value_is justifyContent "space-around"
          then (cx + spaceAround)%num else cx
        else currentX in
      ret (currentX, S index).


(** The vertical stack of scenario 1 after a pass. *)
Definition stacked_world : World := exec (processInstance 2 0) stack_world.

(* ===================================================================== *)
(** * Properties *)
(* ===================================================================== *)

(** ** Numbers *)

Lemma Qltb_lt (a b : Q) : Qltb a b = true ↔ (a < b)%Q.
Proof.
  unfold Qltb. rewrite negb_true_iff.
  destruct (Qle_bool b a) eqn:E.
  - apply Qle_bool_iff in E. split; [discriminate | intros H; exfalso; lra].
  - split; [intros _ | reflexivity].
    destruct (Qlt_le_dec a b) as [H | H]; [exact H |].
    apply Qle_bool_iff in H. congruence.
Qed.

Lemma Qltb_ge (a b : Q) : Qltb a b = false ↔ (b <= a)%Q.
Proof.
  destruct (Qltb a b) eqn:E.
  - apply Qltb_lt in E. split; [discriminate | intros H; exfalso; lra].
  - split; [intros _ | reflexivity].
    destruct (Qlt_le_dec a b) as [H | H]; [| exact H].
    apply Qltb_lt in H. congruence.
Qed.

Lemma nlt_irrefl (a : num) : (a <? a)%num = false.
Proof. destruct a; simpl; try reflexivity. apply Qltb_ge. lra. Qed.

Lemma nlt_not_NaN_l (a b : num) : (a <? b)%num = true → a ≠ NaN.
Proof. destruct a; [discriminate.. | destruct b; discriminate]. Qed.

Lemma nlt_not_NaN_r (a b : num) : (a <? b)%num = true → b ≠ NaN.
Proof. destruct a, b; simpl; discriminate. Qed.

Lemma nlt_trans (a b c : num) :
  (a <? b)%num = true → (b <? c)%num = true → (a <? c)%num = true.
Proof.
  destruct a, b, c; simpl; try (discriminate || reflexivity).
  rewrite !Qltb_lt. lra.
Qed.

Lemma nlt_asym (a b : num) : (a <? b)%num = true → (b <? a)%num = false.
Proof.
  destruct a, b; simpl; try (discriminate || reflexivity).
  rewrite Qltb_lt, Qltb_ge. lra.
Qed.

(** A number that is not below [b] and is not [NaN] is above everything
    [b] is above. *)
Lemma nlt_ge_trans (a b c : num) :
  a ≠ NaN → (a <? b)%num = false → (c <? b)%num = true →
  (c <? a)%num = true.
Proof.
  destruct a, b, c; simpl; try (discriminate || reflexivity || congruence).
  rewrite Qltb_ge, !Qltb_lt. lra.
Qed.

(** The clamp of the source, [min] first and [max] second, when the two
    bounds cross: the result is the upper bound. *)
Lemma clamp_crossed (n mn mx : num) :
  n ≠ NaN → (mx <? mn)%num = true → nmin (nmax n mn) mx = mx.
Proof.
  intros Hn Hlt.
  pose proof (nlt_not_NaN_l _ _ Hlt) as Hmx.
  pose proof (nlt_not_NaN_r _ _ Hlt) as Hmn.
  assert (Hmax : (mx <? nmax n mn)%num = true).
  { unfold nmax. destruct (n <? mn)%num eqn:E.
    - destruct n, mn; try congruence.
    - assert ((mx <? n)%num = true) by (eapply nlt_ge_trans; eauto).
      destruct n, mn; congruence. }
  unfold nmin. rewrite Hmax.
  destruct (nmax n mn) eqn:E, mx; try reflexivity; try congruence;
    simpl in Hmax; discriminate.
Qed.

(** ** The store and the state monad *)

Lemma node_update_eq (i : nat) (f : Instance → Instance) (w : World) :
  i < length (objects w) → node (update i f w) i = f (node w i).
Proof. intros H. unfold node, update. simpl. by apply list_lookup_total_alter_eq. Qed.

Lemma node_update_ne (i j : nat) (f : Instance → Instance) (w : World) :
  i ≠ j → node (update i f w) j = node w j.
Proof. intros H. unfold node, update. simpl. by apply list_lookup_total_alter_ne. Qed.

Lemma alter_out_of_range {A} (f : A → A) (l : list A) (i : nat) :
  length l ≤ i → alter f i l = l.
Proof.
  revert i. induction l as [| a l IH]; intros [| i] H; simpl in *;
    try done; try lia.
  f_equal. apply IH. lia.
Qed.

Lemma update_out_of_range (i : nat) (f : Instance → Instance) (w : World) :
  length (objects w) ≤ i → objects (update i f w) = objects w.
Proof. intros H. unfold update. simpl. by apply alter_out_of_range. Qed.

Lemma length_update (i : nat) (f : Instance → Instance) (w : World) :
  length (objects (update i f w)) = length (objects w).
Proof. unfold update. simpl. apply length_alter. Qed.

Lemma registry_update (i : nat) (f : Instance → Instance) (w : World) :
  registeredClasses (update i f w) = registeredClasses w.
Proof. reflexivity. Qed.

Lemma exec_bind {A B} (m : M A) (f : A → M B) (w : World) :
  exec (m ≫= f) w = exec (f (eval m w)) (exec m w).
Proof. unfold exec, eval, mbind, M_bind, bind. by destruct (m w). Qed.

Lemma eval_bind {A B} (m : M A) (f : A → M B) (w : World) :
  eval (m ≫= f) w = eval (f (eval m w)) (exec m w).
Proof. unfold exec, eval, mbind, M_bind, bind. by destruct (m w). Qed.

Lemma exec_ret {A} (a : A) (w : World) : exec (ret a) w = w.
Proof. reflexivity. Qed.

Lemma exec_modify (i : nat) (f : Instance → Instance) (w : World) :
  exec (modify i f) w = update i f w.
Proof. reflexivity. Qed.

(** A step of a computation whose head has been run. *)
Lemma exec_bind_eq {A B} (m : M A) (f : A → M B) w a w1 r :
  m w = (a, w1) → exec (f a) w1 = r → exec (m ≫= f) w = r.
Proof. unfold exec, mbind, M_bind, bind. intros ->. auto. Qed.

Lemma exec_seq_eq {B} (m : M unit) (k : M B) w w1 r :
  exec m w = w1 → exec k w1 = r → exec (m ;; k) w = r.
Proof. intros <- <-. apply exec_bind. Qed.


Lemma stable_ret {A} (a : A) : stable (ret a).
Proof. by intros w. Qed.

Lemma stable_bind {A B} (m : M A) (f : A → M B) :
  stable m → (∀ a, stable (f a)) → stable (m ≫= f).
Proof.
  intros Hm Hf w. rewrite exec_bind.
  destruct (Hf (eval m w) (exec m w)) as [-> ->]. apply Hm.
Qed.

Lemma stable_modify (i : nat) (f : Instance → Instance) : stable (modify i f).
Proof. intros w. rewrite exec_modify. split; [apply length_update | reflexivity]. Qed.

Lemma stable_get_node (i : nat) : stable (get_node i).
Proof. by intros w. Qed.

Lemma stable_when (b : bool) (m : M unit) : stable m → stable (when b m).
Proof. destruct b; [done | intros _; apply stable_ret]. Qed.

Lemma stable_ensureStyles (i : nat) : stable (ensureStyles i).
Proof.
  intros w. unfold ensureStyles, exec.
  destruct (computedStyles (node w i)); simpl; [done |].
  split; [apply length_update | reflexivity].
Qed.

Lemma stable_forEach {A} (l : list A) (f : A → M unit) :
  (∀ a, stable (f a)) → stable (forEach l f).
Proof.
  intros Hf. induction l as [| a l IH]; simpl; [apply stable_ret |].
  apply stable_bind; [apply Hf | intros _; apply IH].
Qed.

Lemma stable_foldM {A B} (l : list A) (f : B → A → M B) (b : B) :
  (∀ b a, stable (f b a)) → stable (foldM l f b).
Proof.
  intros Hf. revert b. induction l as [| a l IH]; intros b; simpl;
    [apply stable_ret |].
  apply stable_bind; [apply Hf | intros b'; apply IH].
Qed.

Create HintDb stable discriminated.
#[export] Hint Resolve stable_ret stable_modify stable_get_node
  stable_ensureStyles : stable.

Ltac stable_tac :=
  repeat first
    [ apply stable_ret | apply stable_modify | apply stable_get_node
    | apply stable_ensureStyles
    | apply stable_when
    | apply stable_forEach; intros ?
    | apply stable_foldM; intros ? ?
    | apply stable_bind; [| intros ?]
    | progress auto with stable
    | match goal with
      | |- stable (match ?x with _ => _ end) => destruct x
      | |- stable (if ?b then _ else _) => destruct b
      | |- stable (let '(_, _) := ?x in _) => destruct x
      end ].

Lemma stable_getBoxModel (i : nat) : stable (getBoxModel i).
Proof. unfold getBoxModel. stable_tac. Qed.
#[export] Hint Resolve stable_getBoxModel : stable.

Lemma stable_setPercentWidth i p v : stable (setPercentWidth i p v).
Proof. unfold setPercentWidth. stable_tac. Qed.

Lemma stable_setPercentHeight i p v : stable (setPercentHeight i p v).
Proof. unfold setPercentHeight. stable_tac. Qed.
#[export] Hint Resolve stable_setPercentWidth stable_setPercentHeight : stable.

Lemma stable_clampMin g s c i : stable (clampMin g s c i).
Proof. unfold clampMin. stable_tac. Qed.

Lemma stable_clampMax g s c i : stable (clampMax g s c i).
Proof. unfold clampMax. stable_tac. Qed.
#[export] Hint Resolve stable_clampMin stable_clampMax : stable.

(** ** The tree is not touched, and the fuel of the driver *)

Lemma processInstance_S (fuel instance : nat) :
  processInstance (S fuel) instance =
      (layoutProps ← prepareInstance instance;
      inst ← get_node instance;
      p ← partitionChildren (children inst);
      forEach (inFlowChildren p) (processInstance fuel) ;;
      when (flowAllowed layoutProps)
        (applyNormalFlowLayout instance layoutProps (inFlowChildren p)) ;;
      fitContentPhase instance layoutProps p ;;
      forEach (outOfFlowChildren p) (λ child,
        processInstance fuel child ;;
        applyOutOfFlowLayout child)).
Proof. reflexivity. Qed.

(** [processInstance] phase by phase. *)
Lemma processInstance_phases (fuel i : nat) (w : World) :
  exec (processInstance (S fuel) i) w
  = let lp := eval (prepareInstance i) w in
    let w1 := exec (prepareInstance i) w in
    let p := eval (partitionChildren (children (node w1 i))) w1 in
    let w2 := exec (partitionChildren (children (node w1 i))) w1 in
    let w3 := exec (forEach (inFlowChildren p) (processInstance fuel)) w2 in
    let w4 :=
      exec (when (flowAllowed lp)
              (applyNormalFlowLayout i lp (inFlowChildren p))) w3 in
    exec (forEach (outOfFlowChildren p) (λ child,
            processInstance fuel child ;; applyOutOfFlowLayout child))
         (exec (fitContentPhase i lp p) w4).
Proof.
  rewrite processInstance_S. repeat (rewrite exec_bind; cbv beta).
  reflexivity.
Qed.

Lemma children_update (i j : nat) (f : Instance → Instance) (w : World) :
  (∀ inst, children (f inst) = children inst) →
  children (node (update i f w) j) = children (node w j).
Proof.
  intros Hf. destruct (decide (i = j)) as [-> | Hne].
  - destruct (decide (j < length (objects w))) as [Hlt | Hge].
    + rewrite node_update_eq by done. apply Hf.
    + unfold node. rewrite update_out_of_range by lia. done.
  - by rewrite node_update_ne.
Qed.

Lemma keeps_ret {A} (a : A) : keeps_tree (ret a).
Proof. by intros w j. Qed.

Lemma keeps_read {A} (f : World → A) : keeps_tree (λ w, (f w, w)).
Proof. by intros w j. Qed.

Lemma keeps_get_node (i : nat) : keeps_tree (get_node i).
Proof. by intros w j. Qed.

Lemma keeps_bind {A B} (m : M A) (f : A → M B) :
  keeps_tree m → (∀ a, keeps_tree (f a)) → keeps_tree (m ≫= f).
Proof. intros Hm Hf w j. rewrite exec_bind. by rewrite Hf, Hm. Qed.

Lemma keeps_modify (i : nat) (f : Instance → Instance) :
  (∀ inst, children (f inst) = children inst) → keeps_tree (modify i f).
Proof. intros Hf w j. rewrite exec_modify. by apply children_update. Qed.

Lemma keeps_when (b : bool) (m : M unit) :
  keeps_tree m → keeps_tree (when b m).
Proof. destruct b; [done | intros _; apply keeps_ret]. Qed.

Lemma keeps_ensureStyles (i : nat) : keeps_tree (ensureStyles i).
Proof.
  intros w j. unfold ensureStyles, exec.
  destruct (computedStyles (node w i)); simpl; [done |].
  by apply children_update.
Qed.

Lemma keeps_forEach {A} (l : list A) (f : A → M unit) :
  (∀ a, keeps_tree (f a)) → keeps_tree (forEach l f).
Proof.
  intros Hf. induction l as [| a l IH]; simpl; [apply keeps_ret |].
  apply keeps_bind; [apply Hf | intros _; apply IH].
Qed.

Lemma keeps_foldM {A B} (l : list A) (f : B → A → M B) (b : B) :
  (∀ b a, keeps_tree (f b a)) → keeps_tree (foldM l f b).
Proof.
  intros Hf. revert b. induction l as [| a l IH]; intros b; simpl;
    [apply keeps_ret |].
  apply keeps_bind; [apply Hf | intros b'; apply IH].
Qed.

Create HintDb keeps discriminated.
#[export] Hint Resolve keeps_ret keeps_get_node keeps_ensureStyles
  keeps_read : keeps.

Ltac keeps_tac :=
  repeat first
    [ solve [auto with keeps]
    | apply keeps_ret | apply keeps_get_node | apply keeps_ensureStyles
    | apply keeps_read
    | apply keeps_modify; intros ?; reflexivity
    | apply keeps_when
    | apply keeps_forEach; intros ?
    | apply keeps_foldM; intros ? ?
    | apply keeps_bind; [| intros ?]
    | progress cbv zeta
    | match goal with
      | |- keeps_tree (match ?x with _ => _ end) => destruct x
      | |- keeps_tree (if ?b then _ else _) => destruct b
      | |- keeps_tree (let '(_, _) := ?x in _) => destruct x
      | |- keeps_tree ((let '(_, _) := ?x in _) _) => destruct x
      end ].

Lemma keeps_getBoxModel (i : nat) : keeps_tree (getBoxModel i).
Proof. unfold getBoxModel. keeps_tac. Qed.
#[export] Hint Resolve keeps_getBoxModel : keeps.

Lemma keeps_getOuterWidth (i : nat) : keeps_tree (getOuterWidth i).
Proof. unfold getOuterWidth. keeps_tac. Qed.

Lemma keeps_getOuterHeight (i : nat) : keeps_tree (getOuterHeight i).
Proof. unfold getOuterHeight. keeps_tac. Qed.
#[export] Hint Resolve keeps_getOuterWidth keeps_getOuterHeight : keeps.

Lemma keeps_getLayoutChildren (i : nat) : keeps_tree (getLayoutChildren i).
Proof. unfold getLayoutChildren. keeps_tac. Qed.

Lemma keeps_getLayoutProperties (i : nat) :
  keeps_tree (getLayoutProperties i).
Proof. unfold getLayoutProperties. keeps_tac. Qed.
#[export] Hint Resolve keeps_getLayoutChildren keeps_getLayoutProperties
  : keeps.

Lemma keeps_setPercentWidth i p v : keeps_tree (setPercentWidth i p v).
Proof. unfold setPercentWidth. keeps_tac. Qed.

Lemma keeps_setPercentHeight i p v : keeps_tree (setPercentHeight i p v).
Proof. unfold setPercentHeight. keeps_tac. Qed.
#[export] Hint Resolve keeps_setPercentWidth keeps_setPercentHeight : keeps.

Lemma keeps_applyMinMaxConstraints i styles :
  keeps_tree (applyMinMaxConstraints i styles).
Proof. unfold applyMinMaxConstraints. keeps_tac. Qed.
#[export] Hint Resolve keeps_applyMinMaxConstraints : keeps.

Lemma keeps_applyPercentageSizing i : keeps_tree (applyPercentageSizing i).
Proof. unfold applyPercentageSizing. keeps_tac. Qed.
#[export] Hint Resolve keeps_applyPercentageSizing : keeps.

Lemma keeps_applyStylesToInstance i styles :
  keeps_tree (applyStylesToInstance i styles).
Proof. unfold applyStylesToInstance, clampMin, clampMax. keeps_tac. Qed.
#[export] Hint Resolve keeps_applyStylesToInstance : keeps.

Lemma keeps_classifyVertical l : keeps_tree (classifyVertical l).
Proof. unfold classifyVertical. keeps_tac. Qed.

Lemma keeps_classifyHorizontal l : keeps_tree (classifyHorizontal l).
Proof. unfold classifyHorizontal. keeps_tac. Qed.

Lemma keeps_applyHeights items : keeps_tree (applyHeights items).
Proof. unfold applyHeights. keeps_tac. Qed.

Lemma keeps_applyWidths items : keeps_tree (applyWidths items).
Proof. unfold applyWidths. keeps_tac. Qed.

Lemma keeps_positionVertical c lp bm cw ch tg l :
  keeps_tree (positionVertical c lp bm cw ch tg l).
Proof. unfold positionVertical. keeps_tac. Qed.

Lemma keeps_positionHorizontal c lp bm cw ch tg l :
  keeps_tree (positionHorizontal c lp bm cw ch tg l).
Proof. unfold positionHorizontal. keeps_tac. Qed.
#[export] Hint Resolve keeps_classifyVertical keeps_classifyHorizontal
  keeps_applyHeights keeps_applyWidths keeps_positionVertical
  keeps_positionHorizontal : keeps.

Lemma keeps_layoutVertical c lp l : keeps_tree (layoutVertical c lp l).
Proof. unfold layoutVertical. keeps_tac. Qed.

Lemma keeps_layoutHorizontal c lp l : keeps_tree (layoutHorizontal c lp l).
Proof. unfold layoutHorizontal. keeps_tac. Qed.

Lemma keeps_maxCell l : keeps_tree (maxCell l).
Proof. unfold maxCell. keeps_tac. Qed.
#[export] Hint Resolve keeps_layoutVertical keeps_layoutHorizontal
  keeps_maxCell : keeps.

Lemma keeps_layoutGrid c lp l : keeps_tree (layoutGrid c lp l).
Proof. unfold layoutGrid. keeps_tac. Qed.
#[export] Hint Resolve keeps_layoutGrid : keeps.

Lemma keeps_applyNormalFlowLayout i lp l :
  keeps_tree (applyNormalFlowLayout i lp l).
Proof. unfold applyNormalFlowLayout. keeps_tac. Qed.

Lemma keeps_applyFitContentSizing i lp :
  keeps_tree (applyFitContentSizing i lp).
Proof. unfold applyFitContentSizing. keeps_tac. Qed.

Lemma keeps_positionAbsolute i lp : keeps_tree (positionAbsolute i lp).
Proof. unfold positionAbsolute. keeps_tac. Qed.

Lemma keeps_positionAnchor i lp : keeps_tree (positionAnchor i lp).
Proof.
  intros w j. unfold positionAnchor, exec.
  destruct (anchorTargetOf w (node w i) lp); simpl; [| done].
  by rewrite !children_update.
Qed.
#[export] Hint Resolve keeps_applyNormalFlowLayout
  keeps_applyFitContentSizing keeps_positionAbsolute keeps_positionAnchor
  : keeps.

Lemma keeps_applyOutOfFlowLayout i : keeps_tree (applyOutOfFlowLayout i).
Proof. unfold applyOutOfFlowLayout. keeps_tac. Qed.

Lemma keeps_hasFlexChildren l : keeps_tree (hasFlexChildren l).
Proof. by intros w j. Qed.

Lemma keeps_partitionChildren l : keeps_tree (partitionChildren l).
Proof. unfold partitionChildren. keeps_tac. Qed.

Lemma keeps_prepareInstance i : keeps_tree (prepareInstance i).
Proof. unfold prepareInstance. keeps_tac. Qed.
#[export] Hint Resolve keeps_applyOutOfFlowLayout keeps_hasFlexChildren
  keeps_partitionChildren keeps_prepareInstance : keeps.

Lemma keeps_fitContentPhase i lp p : keeps_tree (fitContentPhase i lp p).
Proof. unfold fitContentPhase. keeps_tac. Qed.
#[export] Hint Resolve keeps_fitContentPhase : keeps.

(** No pass of the driver changes the tree. *)
Lemma keeps_processInstance (fuel : nat) :
  ∀ i, keeps_tree (processInstance fuel i).
Proof.
  induction fuel as [| fuel IH]; intros i; [apply keeps_ret |].
  rewrite processInstance_S. keeps_tac; apply IH.
Qed.

(** The in-flow and the out-of-flow children of step 3 are children of
    the node. *)
Lemma partitionChildren_subset (l : list nat) (w : World) (c : nat) :
  c ∈ inFlowChildren (eval (partitionChildren l) w)
  ∨ c ∈ outOfFlowChildren (eval (partitionChildren l) w) →
  c ∈ l.
Proof.
  unfold partitionChildren.
  match goal with |- context [foldM l ?f _] => set (step := f) end.
  assert (H : ∀ acc w,
    (c ∈ inFlowChildren (eval (foldM l step acc) w)
     → c ∈ inFlowChildren acc ∨ c ∈ l)
    ∧ (c ∈ outOfFlowChildren (eval (foldM l step acc) w)
       → c ∈ outOfFlowChildren acc ∨ c ∈ l)).
  { clear w. induction l as [| a l IH]; intros acc w.
    - unfold eval. simpl. auto.
    - cbn [foldM]. rewrite eval_bind.
      destruct (IH (eval (step acc a) w) (exec (step acc a) w)) as [H1 H2].
      assert (Hstep :
        (c ∈ inFlowChildren (eval (step acc a) w)
         → c ∈ inFlowChildren acc ∨ c = a)
        ∧ (c ∈ outOfFlowChildren (eval (step acc a) w)
           → c ∈ outOfFlowChildren acc ∨ c = a)).
      { unfold step, eval, mbind, M_bind, bind, get_node, modify, ret.
        simpl. destruct (skipped (node w a)); simpl; [auto |].
        destruct (is_out_of_flow (getInstanceStyles w a)); simpl;
          rewrite ?elem_of_app, ?list_elem_of_singleton; auto. }
      destruct Hstep as [S1 S2].
      rewrite elem_of_cons. split; intros Hc.
      + destruct (H1 Hc) as [Hc' | Hc']; [| auto].
        destruct (S1 Hc'); auto.
      + destruct (H2 Hc) as [Hc' | Hc']; [| auto].
        destruct (S2 Hc'); auto. }
  destruct (H (mkPartition [] [] []) w) as [H1 H2].
  intros [Hc | Hc]; [destruct (H1 Hc) as [Hn | Hn] | destruct (H2 Hc) as [Hn | Hn]];
    try done; by apply elem_of_nil in Hn.
Qed.

Lemma shallow_ext (n : nat) (w w' : World) :
  (∀ j, children (node w' j) = children (node w j)) →
  ∀ i, shallow n w' i = shallow n w i.
Proof.
  intros H. induction n as [| n IH]; intros i; simpl; [done |].
  rewrite H. induction (children (node w i)) as [| c l IHl]; simpl; [done |].
  by rewrite IH, IHl.
Qed.

(** Two loops whose bodies agree on every store the loop can reach. *)
Lemma forEach_agree {A} (P : World → Prop) (l : list A)
    (f1 f2 : A → M unit) :
  (∀ a w, a ∈ l → P w →
          exec (f1 a) w = exec (f2 a) w ∧ P (exec (f2 a) w)) →
  ∀ w, P w → exec (forEach l f1) w = exec (forEach l f2) w.
Proof.
  induction l as [| a l IH]; intros H w Hw; [done |].
  cbn [forEach]. rewrite !exec_bind. cbv beta.
  destruct (H a w) as [E HP]; [by left | done |].
  rewrite E. apply IH; [| done].
  intros a' w' Ha'. apply H. by right.
Qed.

(** The fuel of the driver bounds the depth of the tree it walks: on a
    tree of at most [n] levels, [n] is enough, and more fuel gives the
    same pass. *)
Lemma processInstance_fuel (n : nat) :
  ∀ (k i : nat) (w : World),
    shallow n w i = true →
    exec (processInstance (n + k) i) w = exec (processInstance n i) w.
Proof.
  induction n as [| n IH]; intros k i w Hs; [discriminate |].
  change (S n + k)%nat with (S (n + k)).
  rewrite !processInstance_phases. cbv zeta.
  set (lp := eval (prepareInstance i) w).
  set (w1 := exec (prepareInstance i) w).
  set (p := eval (partitionChildren (children (node w1 i))) w1).
  set (w2 := exec (partitionChildren (children (node w1 i))) w1).
  set (P := λ w' : World, ∀ j, children (node w' j) = children (node w j)).
  assert (Hchild : ∀ c w', P w' →
            c ∈ inFlowChildren p ∨ c ∈ outOfFlowChildren p →
            shallow n w' c = true).
  { intros c w' Hw' Hc. rewrite (shallow_ext n w w' Hw').
    apply partitionChildren_subset in Hc.
    unfold w1 in Hc. rewrite keeps_prepareInstance in Hc.
    simpl in Hs. rewrite forallb_forall in Hs. apply Hs.
    by apply list_elem_of_In. }
  assert (P1 : P w1) by (intros j; apply keeps_prepareInstance).
  assert (P2 : P w2).
  { intros j. unfold w2. by rewrite keeps_partitionChildren. }
  assert (E3 : exec (forEach (inFlowChildren p) (processInstance (n + k))) w2
               = exec (forEach (inFlowChildren p) (processInstance n)) w2).
  { apply (forEach_agree P); [| exact P2].
    intros c w' Hc Hw'. split.
    - apply IH. apply Hchild; auto.
    - intros j. by rewrite keeps_processInstance. }
  rewrite E3.
  set (w3 := exec (forEach (inFlowChildren p) (processInstance n)) w2).
  assert (P3 : P w3).
  { intros j. unfold w3.
    rewrite (keeps_forEach _ _ (keeps_processInstance n)). apply P2. }
  apply (forEach_agree P).
  - intros c w' Hc Hw'. rewrite !exec_bind. cbv beta.
    rewrite IH by (apply Hchild; auto). split; [done |].
    intros j. rewrite keeps_applyOutOfFlowLayout.
    by rewrite keeps_processInstance.
  - intros j. rewrite keeps_fitContentPhase.
    rewrite (keeps_when _ _ (keeps_applyNormalFlowLayout _ _ _)). apply P3.
Qed.

(* ===================================================================== *)
(** * What the engine leaves alone *)
(* ===================================================================== *)

Lemma node_update_proj {B} (p : Instance → B) (i j : nat)
    (f : Instance → Instance) (w : World) :
  (∀ inst, p (f inst) = p inst) →
  p (node (update i f w) j) = p (node w j).
Proof.
  intros Hf. destruct (decide (i = j)) as [-> | Hne].
  - destruct (decide (j < length (objects w))) as [Hlt | Hge].
    + rewrite node_update_eq by done. apply Hf.
    + unfold node. rewrite update_out_of_range by lia. done.
  - by rewrite node_update_ne.
Qed.

Section Frame.

Context {B : Type} (obs : World → B).

(** The observation survives the five writes of the engine: the cached
    style, the position and the size of a node. *)
Hypothesis Hcs : ∀ i (g : Instance → gmap string value) w,
  obs (update i (λ inst, set_computedStyles (g inst) inst) w) = obs w.
Hypothesis Hx : ∀ i (g : Instance → num) w,
  obs (update i (λ inst, set_x (g inst) inst) w) = obs w.
Hypothesis Hy : ∀ i (g : Instance → num) w,
  obs (update i (λ inst, set_y (g inst) inst) w) = obs w.
Hypothesis Hw : ∀ i (g : Instance → num) w,
  obs (update i (λ inst, set_width (g inst) inst) w) = obs w.
Hypothesis Hh : ∀ i (g : Instance → num) w,
  obs (update i (λ inst, set_height (g inst) inst) w) = obs w.

Lemma frame_ret {A} (a : A) : keeps obs (ret a).
Proof. by intros w. Qed.

Lemma frame_read {A} (f : World → A) : keeps obs (λ w, (f w, w)).
Proof. by intros w. Qed.

Lemma frame_get_node (i : nat) : keeps obs (get_node i).
Proof. by intros w. Qed.

Lemma frame_bind {A C} (m : M A) (f : A → M C) :
  keeps obs m → (∀ a, keeps obs (f a)) → keeps obs (m ≫= f).
Proof. intros Hm Hf w. rewrite exec_bind. by rewrite Hf, Hm. Qed.

Lemma frame_when (b : bool) (m : M unit) :
  keeps obs m → keeps obs (when b m).
Proof. destruct b; [done | intros _; apply frame_ret]. Qed.

Lemma frame_forEach {A} (l : list A) (f : A → M unit) :
  (∀ a, keeps obs (f a)) → keeps obs (forEach l f).
Proof.
  intros Hf. induction l as [| a l IH]; simpl; [apply frame_ret |].
  apply frame_bind; [apply Hf | intros _; apply IH].
Qed.

Lemma frame_foldM {A C} (l : list A) (f : C → A → M C) (c : C) :
  (∀ c a, keeps obs (f c a)) → keeps obs (foldM l f c).
Proof.
  intros Hf. revert c. induction l as [| a l IH]; intros c; simpl;
    [apply frame_ret |].
  apply frame_bind; [apply Hf | intros c'; apply IH].
Qed.

Lemma frame_ensureStyles (i : nat) : keeps obs (ensureStyles i).
Proof.
  intros w. unfold ensureStyles, exec.
  destruct (computedStyles (node w i)); simpl; [done |].
  apply (Hcs i (λ _, getInstanceStyles w i)).
Qed.

Create HintDb frame discriminated.
#[local] Hint Resolve frame_ret frame_read frame_get_node
  frame_ensureStyles : frame.

Ltac frame_write :=
  let w := fresh "w" in
  intros w; rewrite exec_modify;
  first [ apply Hcs | apply Hx | apply Hy | apply Hw | apply Hh ].

Ltac frame_tac :=
  repeat first
    [ solve [auto with frame]
    | apply frame_ret | apply frame_get_node | apply frame_ensureStyles
    | apply frame_read
    | frame_write
    | apply frame_when
    | apply frame_forEach; intros ?
    | apply frame_foldM; intros ? ?
    | apply frame_bind; [| intros ?]
    | progress cbv zeta
    | match goal with
      | |- keeps _ (match ?x with _ => _ end) => destruct x
      | |- keeps _ (if ?b then _ else _) => destruct b
      | |- keeps _ (let '(_, _) := ?x in _) => destruct x
      | |- keeps _ ((let '(_, _) := ?x in _) _) => destruct x
      end ].

Lemma frame_getBoxModel (i : nat) : keeps obs (getBoxModel i).
Proof. unfold getBoxModel. frame_tac. Qed.
#[local] Hint Resolve frame_getBoxModel : frame.

Lemma frame_getOuterWidth (i : nat) : keeps obs (getOuterWidth i).
Proof. unfold getOuterWidth. frame_tac. Qed.

Lemma frame_getOuterHeight (i : nat) : keeps obs (getOuterHeight i).
Proof. unfold getOuterHeight. frame_tac. Qed.
#[local] Hint Resolve frame_getOuterWidth frame_getOuterHeight : frame.

Lemma frame_getLayoutChildren (i : nat) : keeps obs (getLayoutChildren i).
Proof. unfold getLayoutChildren. frame_tac. Qed.

Lemma frame_getLayoutProperties (i : nat) :
  keeps obs (getLayoutProperties i).
Proof. unfold getLayoutProperties. frame_tac. Qed.
#[local] Hint Resolve frame_getLayoutChildren frame_getLayoutProperties
  : frame.

Lemma frame_partitionChildren l : keeps obs (partitionChildren l).
Proof. unfold partitionChildren. frame_tac. Qed.

Lemma frame_hasFlexChildren l : keeps obs (hasFlexChildren l).
Proof. by intros w. Qed.

Lemma frame_classifyVertical l : keeps obs (classifyVertical l).
Proof. unfold classifyVertical. frame_tac. Qed.

Lemma frame_classifyHorizontal l : keeps obs (classifyHorizontal l).
Proof. unfold classifyHorizontal. frame_tac. Qed.

Lemma frame_maxCell l : keeps obs (maxCell l).
Proof. unfold maxCell. frame_tac. Qed.
#[local] Hint Resolve frame_partitionChildren frame_hasFlexChildren
  frame_classifyVertical frame_classifyHorizontal frame_maxCell : frame.

Lemma frame_setPercentWidth i p v : keeps obs (setPercentWidth i p v).
Proof. unfold setPercentWidth. frame_tac. Qed.

Lemma frame_setPercentHeight i p v : keeps obs (setPercentHeight i p v).
Proof. unfold setPercentHeight. frame_tac. Qed.
#[local] Hint Resolve frame_setPercentWidth frame_setPercentHeight : frame.

Lemma frame_applyMinMaxConstraints i styles :
  keeps obs (applyMinMaxConstraints i styles).
Proof. unfold applyMinMaxConstraints. frame_tac. Qed.
#[local] Hint Resolve frame_applyMinMaxConstraints : frame.

Lemma frame_applyPercentageSizing i : keeps obs (applyPercentageSizing i).
Proof. unfold applyPercentageSizing. frame_tac. Qed.

Lemma frame_applyStylesToInstance i styles :
  keeps obs (applyStylesToInstance i styles).
Proof. unfold applyStylesToInstance, clampMin, clampMax. frame_tac. Qed.
#[local] Hint Resolve frame_applyPercentageSizing
  frame_applyStylesToInstance : frame.

Lemma frame_applyHeights items : keeps obs (applyHeights items).
Proof. unfold applyHeights. frame_tac. Qed.

Lemma frame_applyWidths items : keeps obs (applyWidths items).
Proof. unfold applyWidths. frame_tac. Qed.

Lemma frame_positionVertical c lp bm cw ch tg l :
  keeps obs (positionVertical c lp bm cw ch tg l).
Proof. unfold positionVertical. frame_tac. Qed.

Lemma frame_positionHorizontal c lp bm cw ch tg l :
  keeps obs (positionHorizontal c lp bm cw ch tg l).
Proof. unfold positionHorizontal. frame_tac. Qed.
#[local] Hint Resolve frame_applyHeights frame_applyWidths
  frame_positionVertical frame_positionHorizontal : frame.

Lemma frame_layoutVertical c lp l : keeps obs (layoutVertical c lp l).
Proof. unfold layoutVertical. frame_tac. Qed.

Lemma frame_layoutHorizontal c lp l : keeps obs (layoutHorizontal c lp l).
Proof. unfold layoutHorizontal. frame_tac. Qed.

Lemma frame_layoutGrid c lp l : keeps obs (layoutGrid c lp l).
Proof. unfold layoutGrid. frame_tac. Qed.
#[local] Hint Resolve frame_layoutVertical frame_layoutHorizontal
  frame_layoutGrid : frame.

Lemma frame_applyNormalFlowLayout i lp l :
  keeps obs (applyNormalFlowLayout i lp l).
Proof. unfold applyNormalFlowLayout. frame_tac. Qed.

Lemma frame_applyFitContentSizing i lp :
  keeps obs (applyFitContentSizing i lp).
Proof. unfold applyFitContentSizing. frame_tac. Qed.

Lemma frame_positionAbsolute i lp : keeps obs (positionAbsolute i lp).
Proof. unfold positionAbsolute. frame_tac. Qed.

Lemma frame_positionAnchor i lp : keeps obs (positionAnchor i lp).
Proof.
  intros w. unfold positionAnchor, exec.
  destruct (anchorTargetOf w (node w i) lp); simpl; [| done].
  rewrite (Hy i (λ _, _)). apply (Hx i (λ _, _)).
Qed.
#[local] Hint Resolve frame_applyNormalFlowLayout
  frame_applyFitContentSizing frame_positionAbsolute frame_positionAnchor
  : frame.

Lemma frame_applyOutOfFlowLayout i : keeps obs (applyOutOfFlowLayout i).
Proof. unfold applyOutOfFlowLayout. frame_tac. Qed.

Lemma frame_prepareInstance i : keeps obs (prepareInstance i).
Proof. unfold prepareInstance. frame_tac. Qed.

Lemma frame_fitContentPhase i lp p : keeps obs (fitContentPhase i lp p).
Proof. unfold fitContentPhase. frame_tac. Qed.
#[local] Hint Resolve frame_applyOutOfFlowLayout frame_prepareInstance
  frame_fitContentPhase : frame.

Lemma frame_processInstance (fuel : nat) :
  ∀ i, keeps obs (processInstance fuel i).
Proof.
  induction fuel as [| fuel IH]; intros i; [apply frame_ret |].
  rewrite processInstance_S. frame_tac; apply IH.
Qed.

End Frame.
(* ===================================================================== *)
(** * Invariants of the store *)
(* ===================================================================== *)

Section Preserve.

Context (I : World → Prop).

(** The invariant survives the writes of a position and of a size, and
    the caching of a style by the getters. *)
Hypothesis HIx : ∀ i (g : Instance → num) w,
  I w → I (update i (λ inst, set_x (g inst) inst) w).
Hypothesis HIy : ∀ i (g : Instance → num) w,
  I w → I (update i (λ inst, set_y (g inst) inst) w).
Hypothesis HIw : ∀ i (g : Instance → num) w,
  I w → I (update i (λ inst, set_width (g inst) inst) w).
Hypothesis HIh : ∀ i (g : Instance → num) w,
  I w → I (update i (λ inst, set_height (g inst) inst) w).
Hypothesis HIens : ∀ i w, I w → I (exec (ensureStyles i) w).
Hypothesis HIraw : ∀ i w,
  I w → I (update i (set_computedStyles (getInstanceStyles w i)) w).
Hypothesis HIexp : ∀ i w,
  I w → I (update i (set_computedStyles (styleNow w i)) w).

Lemma pres_ret {A} (a : A) : preserves I (ret a).
Proof. by intros w HI. Qed.

Lemma pres_read {A} (f : World → A) : preserves I (λ w, (f w, w)).
Proof. by intros w HI. Qed.

Lemma pres_get_node (i : nat) : preserves I (get_node i).
Proof. by intros w HI. Qed.

Lemma pres_bind {A C} (m : M A) (f : A → M C) :
  preserves I m → (∀ a, preserves I (f a)) → preserves I (m ≫= f).
Proof. intros Hm Hf w HI. rewrite exec_bind. by apply Hf, Hm. Qed.

Lemma pres_when (b : bool) (m : M unit) :
  preserves I m → preserves I (when b m).
Proof. destruct b; [done | intros _; apply pres_ret]. Qed.

Lemma pres_forEach {A} (l : list A) (f : A → M unit) :
  (∀ a, preserves I (f a)) → preserves I (forEach l f).
Proof.
  intros Hf. induction l as [| a l IH]; simpl; [apply pres_ret |].
  apply pres_bind; [apply Hf | intros _; apply IH].
Qed.

Lemma pres_foldM {A C} (l : list A) (f : C → A → M C) (c : C) :
  (∀ c a, preserves I (f c a)) → preserves I (foldM l f c).
Proof.
  intros Hf. revert c. induction l as [| a l IH]; intros c; simpl;
    [apply pres_ret |].
  apply pres_bind; [apply Hf | intros c'; apply IH].
Qed.

Lemma pres_ensureStyles (i : nat) : preserves I (ensureStyles i).
Proof. intros w HI. by apply HIens. Qed.

Create HintDb pres discriminated.
#[local] Hint Resolve pres_ret pres_read pres_get_node
  pres_ensureStyles : pres.

Ltac pres_write :=
  let w := fresh "w" in
  let HI := fresh "HI" in
  intros w HI; rewrite exec_modify;
  first [ apply HIx | apply HIy | apply HIw | apply HIh ]; exact HI.

Ltac pres_tac :=
  repeat first
    [ solve [auto with pres]
    | apply pres_ret | apply pres_get_node | apply pres_ensureStyles
    | apply pres_read
    | pres_write
    | apply pres_when
    | apply pres_forEach; intros ?
    | apply pres_foldM; intros ? ?
    | apply pres_bind; [| intros ?]
    | progress cbv zeta
    | match goal with
      | |- preserves _ (match ?x with _ => _ end) => destruct x
      | |- preserves _ (if ?b then _ else _) => destruct b
      | |- preserves _ (let '(_, _) := ?x in _) => destruct x
      | |- preserves _ ((let '(_, _) := ?x in _) _) => destruct x
      end ].

Lemma pres_getBoxModel (i : nat) : preserves I (getBoxModel i).
Proof. unfold getBoxModel. pres_tac. Qed.
#[local] Hint Resolve pres_getBoxModel : pres.

Lemma pres_getOuterWidth (i : nat) : preserves I (getOuterWidth i).
Proof. unfold getOuterWidth. pres_tac. Qed.

Lemma pres_getOuterHeight (i : nat) : preserves I (getOuterHeight i).
Proof. unfold getOuterHeight. pres_tac. Qed.
#[local] Hint Resolve pres_getOuterWidth pres_getOuterHeight : pres.

Lemma pres_getLayoutChildren (i : nat) : preserves I (getLayoutChildren i).
Proof. unfold getLayoutChildren. pres_tac. Qed.

Lemma pres_getLayoutProperties (i : nat) :
  preserves I (getLayoutProperties i).
Proof. unfold getLayoutProperties. pres_tac. Qed.
#[local] Hint Resolve pres_getLayoutChildren pres_getLayoutProperties
  : pres.

Lemma pres_partitionChildren l : preserves I (partitionChildren l).
Proof.
  unfold partitionChildren. apply pres_foldM. intros acc c w HI.
  unfold exec, mbind, M_bind, bind, get_node, modify, ret.
  destruct (skipped (node w c)); simpl; [exact HI |].
  destruct (is_out_of_flow _); simpl; by apply HIraw.
Qed.

Lemma pres_hasFlexChildren l : preserves I (hasFlexChildren l).
Proof. by intros w HI. Qed.

Lemma pres_classifyVertical l : preserves I (classifyVertical l).
Proof. unfold classifyVertical. pres_tac. Qed.

Lemma pres_classifyHorizontal l : preserves I (classifyHorizontal l).
Proof. unfold classifyHorizontal. pres_tac. Qed.

Lemma pres_maxCell l : preserves I (maxCell l).
Proof. unfold maxCell. pres_tac. Qed.
#[local] Hint Resolve pres_partitionChildren pres_hasFlexChildren
  pres_classifyVertical pres_classifyHorizontal pres_maxCell : pres.

Lemma pres_setPercentWidth i p v : preserves I (setPercentWidth i p v).
Proof. unfold setPercentWidth. pres_tac. Qed.

Lemma pres_setPercentHeight i p v : preserves I (setPercentHeight i p v).
Proof. unfold setPercentHeight. pres_tac. Qed.
#[local] Hint Resolve pres_setPercentWidth pres_setPercentHeight : pres.

Lemma pres_applyMinMaxConstraints i styles :
  preserves I (applyMinMaxConstraints i styles).
Proof. unfold applyMinMaxConstraints. pres_tac. Qed.
#[local] Hint Resolve pres_applyMinMaxConstraints : pres.

Lemma pres_applyPercentageSizing i : preserves I (applyPercentageSizing i).
Proof. unfold applyPercentageSizing. pres_tac. Qed.

(** [applyStylesToInstance] after its first assignment, the one that
    stores the style object on the node. *)
Lemma pres_applyStyles_from i styles0 w :
  I (update i (set_computedStyles (expandFlex styles0)) w) →
  I (exec (applyStylesToInstance i styles0) w).
Proof.
  intros HI. unfold applyStylesToInstance. cbv zeta.
  rewrite exec_bind, exec_modify.
  match goal with
  | |- I (exec ?m _) => assert (Hm : preserves I m)
  end.
  { cbv beta. unfold clampMin, clampMax. pres_tac. }
  apply Hm. exact HI.
Qed.

(** [applyStylesToInstance] on the style of the node itself. *)
Lemma pres_applyStylesToInstance i w :
  I w → I (exec (applyStylesToInstance i (getInstanceStyles w i)) w).
Proof. intros HI. apply pres_applyStyles_from. exact (HIexp i w HI). Qed.
#[local] Hint Resolve pres_applyPercentageSizing : pres.

Lemma pres_applyHeights items : preserves I (applyHeights items).
Proof. unfold applyHeights. pres_tac. Qed.

Lemma pres_applyWidths items : preserves I (applyWidths items).
Proof. unfold applyWidths. pres_tac. Qed.

Lemma pres_positionVertical c lp bm cw ch tg l :
  preserves I (positionVertical c lp bm cw ch tg l).
Proof. unfold positionVertical. pres_tac. Qed.

Lemma pres_positionHorizontal c lp bm cw ch tg l :
  preserves I (positionHorizontal c lp bm cw ch tg l).
Proof. unfold positionHorizontal. pres_tac. Qed.
#[local] Hint Resolve pres_applyHeights pres_applyWidths
  pres_positionVertical pres_positionHorizontal : pres.

Lemma pres_layoutVertical c lp l : preserves I (layoutVertical c lp l).
Proof. unfold layoutVertical. pres_tac. Qed.

Lemma pres_layoutHorizontal c lp l : preserves I (layoutHorizontal c lp l).
Proof. unfold layoutHorizontal. pres_tac. Qed.

Lemma pres_layoutGrid c lp l : preserves I (layoutGrid c lp l).
Proof. unfold layoutGrid. pres_tac. Qed.
#[local] Hint Resolve pres_layoutVertical pres_layoutHorizontal
  pres_layoutGrid : pres.

Lemma pres_applyNormalFlowLayout i lp l :
  preserves I (applyNormalFlowLayout i lp l).
Proof. unfold applyNormalFlowLayout. pres_tac. Qed.

Lemma pres_applyFitContentSizing i lp :
  preserves I (applyFitContentSizing i lp).
Proof. unfold applyFitContentSizing. pres_tac. Qed.

Lemma pres_positionAbsolute i lp : preserves I (positionAbsolute i lp).
Proof. unfold positionAbsolute. pres_tac. Qed.

Lemma pres_positionAnchor i lp : preserves I (positionAnchor i lp).
Proof.
  intros w HI. unfold positionAnchor, exec.
  destruct (anchorTargetOf w (node w i) lp); simpl; [| done].
  by apply (HIy i (λ _, _)), (HIx i (λ _, _)).
Qed.
#[local] Hint Resolve pres_applyNormalFlowLayout
  pres_applyFitContentSizing pres_positionAbsolute pres_positionAnchor
  : pres.

Lemma pres_applyOutOfFlowLayout i : preserves I (applyOutOfFlowLayout i).
Proof. unfold applyOutOfFlowLayout. pres_tac. Qed.

Lemma pres_prepareInstance i : preserves I (prepareInstance i).
Proof.
  intros w HI. unfold prepareInstance. rewrite exec_bind.
  change (eval (λ w0, (getInstanceStyles w0 i, w0)) w)
    with (getInstanceStyles w i).
  change (exec (λ w0, (getInstanceStyles w0 i, w0)) w) with w.
  cbv beta. rewrite exec_bind.
  match goal with
  | |- I (exec ?m _) => assert (Hm : preserves I m)
  end.
  { cbv beta. pres_tac. }
  apply Hm. by apply pres_applyStylesToInstance.
Qed.

Lemma pres_fitContentPhase i lp p : preserves I (fitContentPhase i lp p).
Proof. unfold fitContentPhase. pres_tac. Qed.
#[local] Hint Resolve pres_applyOutOfFlowLayout pres_prepareInstance
  pres_fitContentPhase : pres.

Lemma pres_processInstance (fuel : nat) :
  ∀ i, preserves I (processInstance fuel i).
Proof.
  induction fuel as [| fuel IH]; intros i; [apply pres_ret |].
  rewrite processInstance_S. pres_tac; apply IH.
Qed.

End Preserve.

(** ** Clamping to crossed bounds (claim C1) *)

Lemma stable_applyStyles_prefix (styles : gmap string value) (i : nat)
    (inst : Instance) :
  stable (match parent inst with
          | Some p =>
              when (bool_decide (is_Some (styles !! "percentWidth"))
                    || is_percent (styles !! "width"))
                (setPercentWidth i p
                   (percentValueOf (styles !! "percentWidth")
                                   (styles !! "width"))) ;;
              when (bool_decide (is_Some (styles !! "percentHeight"))
                    || is_percent (styles !! "height"))
                (setPercentHeight i p
                   (percentValueOf (styles !! "percentHeight")
                                   (styles !! "height")))
          | None => ret tt
          end).
Proof. stable_tac. Qed.

Lemma flex_hack_lookup (styles0 : gmap string value) (k : string) :
  k ≠ "flexGrow" → k ≠ "flexShrink" → k ≠ "flexBasis" →
  match styles0 !! "flex" with
  | Some (VNum n) =>
      <["flexBasis" := VStr "0px"]>
        (<["flexShrink" := VNum (Fin 1)]> (<["flexGrow" := VNum n]> styles0))
  | _ => styles0
  end !! k = styles0 !! k.
Proof.
  intros H1 H2 H3. destruct (styles0 !! "flex") as [[n | s] |]; try done.
  by rewrite !lookup_insert_ne.
Qed.

Lemma width_set_height (i : nat) (v : num) (w : World) :
  width (node (update i (set_height v) w) i) = width (node w i).
Proof.
  destruct (decide (i < length (objects w))) as [H | H].
  - by rewrite node_update_eq.
  - unfold node. rewrite update_out_of_range; [done | lia].
Qed.

Lemma height_set_width (i : nat) (v : num) (w : World) :
  height (node (update i (set_width v) w) i) = height (node w i).
Proof.
  destruct (decide (i < length (objects w))) as [H | H].
  - by rewrite node_update_eq.
  - unfold node. rewrite update_out_of_range; [done | lia].
Qed.

Lemma width_clamp_height (i : nat) (c : option value) (w : World) :
  width (node (exec (clampMin height set_height c i) w) i) = width (node w i)
  ∧ width (node (exec (clampMax height set_height c i) w) i)
    = width (node w i).
Proof.
  destruct c as [v |]; simpl; [| done].
  rewrite !exec_modify.
  destruct (decide (i < length (objects w))) as [H | H].
  - by rewrite !node_update_eq.
  - unfold node. rewrite !update_out_of_range;
      rewrite ?update_out_of_range; [done | lia..].
Qed.

Lemma height_clamp_width (i : nat) (c : option value) (w : World) :
  height (node (exec (clampMin width set_width c i) w) i) = height (node w i)
  ∧ height (node (exec (clampMax width set_width c i) w) i)
    = height (node w i).
Proof.
  destruct c as [v |]; simpl; [| done].
  rewrite !exec_modify.
  destruct (decide (i < length (objects w))) as [H | H].
  - by rewrite !node_update_eq.
  - unfold node. rewrite !update_out_of_range;
      rewrite ?update_out_of_range; [done | lia..].
Qed.

(** Run a sequence of binds from the store at hand. *)
Ltac peel_binds := repeat (rewrite exec_bind; cbv beta).

Lemma applyStyles_explicit_width (w : World) (i : nat)
    (styles : gmap string value) (n mn mx : num) :
  i < length (objects w) → n ≠ NaN → (mx <? mn)%num = true →
  styles !! "width" = Some (VNum n) →
  styles !! "minWidth" = Some (VNum mn) →
  styles !! "maxWidth" = Some (VNum mx) →
  width (node (exec (applyStylesToInstance i styles) w) i) = mx.
Proof.
  intros Hi Hn Hlt Hw Hmin Hmax. unfold applyStylesToInstance.
  rewrite !flex_hack_lookup by done.
  rewrite Hw, Hmin, Hmax.
  set (styles' := match styles !! "flex" with Some (VNum _) => _ | _ => styles end).
  peel_binds.
  match goal with
  | |- context [exec (modify i (set_width n)) ?w0] => set (w1 := w0)
  end.
  assert (Hlen : i < length (objects w1)).
  { subst w1.
    repeat match goal with
    | |- _ < length (objects (exec ?m ?w0)) =>
        let H := fresh in
        assert (H : stable m) by (stable_tac);
        rewrite (proj1 (H w0)); clear H
    end. done. }
  destruct (width_clamp_height i (styles !! "maxHeight")
    (exec (clampMin height set_height (styles !! "minHeight") i)
      (exec (clampMax width set_width (Some (VNum mx)) i)
        (exec (clampMin width set_width (Some (VNum mn)) i)
          (exec match styles !! "height" with
                | Some (VNum n0) => modify i (set_height n0)
                | _ => ret tt
                end (exec (modify i (set_width n)) w1)))))) as [_ ->].
  destruct (width_clamp_height i (styles !! "minHeight")
      (exec (clampMax width set_width (Some (VNum mx)) i)
        (exec (clampMin width set_width (Some (VNum mn)) i)
          (exec match styles !! "height" with
                | Some (VNum n0) => modify i (set_height n0)
                | _ => ret tt
                end (exec (modify i (set_width n)) w1))))) as [-> _].
  simpl. rewrite !exec_modify.
  set (w2 := exec _ (update i (set_width n) w1)).
  assert (H2 : i < length (objects w2) ∧ width (node w2 i) = n).
  { subst w2. destruct (styles !! "height") as [[h | s] |];
      rewrite ?exec_modify, ?exec_ret, ?length_update, ?width_set_height,
              ?node_update_eq by done; (split; [assumption | reflexivity]). }
  destruct H2 as [Hl2 Hw2].
  rewrite !node_update_eq by (rewrite ?length_update; done).
  simpl. rewrite Hw2. by apply clamp_crossed.
Qed.

Lemma applyStyles_explicit_height (w : World) (i : nat)
    (styles : gmap string value) (n mn mx : num) :
  i < length (objects w) → n ≠ NaN → (mx <? mn)%num = true →
  styles !! "height" = Some (VNum n) →
  styles !! "minHeight" = Some (VNum mn) →
  styles !! "maxHeight" = Some (VNum mx) →
  height (node (exec (applyStylesToInstance i styles) w) i) = mx.
Proof.
  intros Hi Hn Hlt Hh Hmin Hmax. unfold applyStylesToInstance.
  rewrite !flex_hack_lookup by done.
  rewrite Hh, Hmin, Hmax.
  set (styles' := match styles !! "flex" with Some (VNum _) => _ | _ => styles end).
  peel_binds.
  match goal with
  | |- context [exec (modify i (set_height n)) ?w0] => set (w1 := w0)
  end.
  assert (Hlen : i < length (objects w1)).
  { subst w1.
    repeat match goal with
    | |- _ < length (objects (exec ?m ?w0)) =>
        let H := fresh in
        assert (H : stable m) by (stable_tac);
        rewrite (proj1 (H w0)); clear H
    end. done. }
  set (w2 := exec (modify i (set_height n)) w1).
  assert (H2 : i < length (objects w2) ∧ height (node w2 i) = n).
  { subst w2. rewrite exec_modify, length_update, node_update_eq by done.
    split; [assumption | reflexivity]. }
  destruct H2 as [Hl2 Hh2].
  set (w3 := exec (clampMax width set_width (styles !! "maxWidth") i)
               (exec (clampMin width set_width (styles !! "minWidth") i) w2)).
  assert (H3 : i < length (objects w3) ∧ height (node w3 i) = n).
  { subst w3. split.
    - rewrite (proj1 (stable_clampMax _ _ _ _ _)),
              (proj1 (stable_clampMin _ _ _ _ _)). done.
    - destruct (height_clamp_width i (styles !! "maxWidth")
        (exec (clampMin width set_width (styles !! "minWidth") i) w2))
        as [_ ->].
      destruct (height_clamp_width i (styles !! "minWidth") w2) as [-> _].
      done. }
  destruct H3 as [Hl3 Hh3].
  simpl. rewrite !exec_modify.
  rewrite !node_update_eq by (rewrite ?length_update; done).
  simpl. rewrite Hh3. by apply clamp_crossed.
Qed.

(** [applyMinMaxConstraints], one axis at a time. *)
Ltac unfold_monad :=
  unfold exec, eval, mbind, M_bind, bind, get_node, modify, ret, mret, M_ret.

Ltac split_guards :=
  repeat (match goal with
          | |- context [match ?s !! ?k with Some _ => _ | None => _ end] =>
              destruct (s !! k)
          | |- context [if (?a <? ?b)%num then _ else _] =>
              destruct (a <? b)%num
          | |- context [if (?a >? ?b)%num then _ else _] =>
              destruct (a >? b)%num
          end; cbv beta iota).

Lemma applyMinMax_width (w : World) (i : nat) (styles : gmap string value)
    (mn mx : num) :
  i < length (objects w) → width (node w i) ≠ NaN → (mx <? mn)%num = true →
  styles !! "minWidth" = Some (VNum mn) →
  styles !! "maxWidth" = Some (VNum mx) →
  width (node (exec (applyMinMaxConstraints i styles) w) i) = mx.
Proof.
  intros Hi Hn Hlt Hmin Hmax. unfold applyMinMaxConstraints.
  rewrite Hmin, Hmax. simpl toNumber. unfold_monad.
  destruct (width (node w i) <? mn)%num eqn:E1; cbv beta iota.
  - (* raised to the minimum, then lowered to the maximum *)
    rewrite node_update_eq by done. simpl width. unfold ngt at 1.
    rewrite Hlt. cbv beta iota.
    split_guards; simpl snd; rewrite ?width_set_height;
      rewrite node_update_eq by (rewrite ?length_update; done); done.
  - (* not below the minimum, so above the maximum *)
    unfold ngt at 1. rewrite (nlt_ge_trans _ _ _ Hn E1 Hlt). cbv beta iota.
    split_guards; simpl snd; rewrite ?width_set_height;
      rewrite node_update_eq by done; done.
Qed.

Lemma applyMinMax_height (w : World) (i : nat) (styles : gmap string value)
    (mn mx : num) :
  i < length (objects w) → height (node w i) ≠ NaN → (mx <? mn)%num = true →
  styles !! "minHeight" = Some (VNum mn) →
  styles !! "maxHeight" = Some (VNum mx) →
  height (node (exec (applyMinMaxConstraints i styles) w) i) = mx.
Proof.
  intros Hi Hn Hlt Hmin Hmax. unfold applyMinMaxConstraints.
  rewrite Hmin, Hmax. simpl toNumber. unfold_monad.
  (* the two width blocks leave the height alone *)
  match goal with
  | |- context [let '(_, _) := ?r in _] => set (r1 := r)
  end.
  assert (H1 : i < length (objects r1.2) ∧ height (node r1.2 i) ≠ NaN).
  { subst r1. split_guards; simpl snd;
      rewrite ?length_update, ?height_set_width; done. }
  destruct r1 as [a1 w1]. simpl in H1. destruct H1 as [Hl1 Hn1].
  match goal with
  | |- context [let '(_, _) := ?r in _] => set (r2 := r)
  end.
  assert (H2 : i < length (objects r2.2) ∧ height (node r2.2 i) ≠ NaN).
  { subst r2. split_guards; simpl snd;
      rewrite ?length_update, ?height_set_width; done. }
  destruct r2 as [a2 w2]. simpl in H2. destruct H2 as [Hl2 Hn2].
  destruct (height (node w2 i) <? mn)%num eqn:E1; cbv beta iota.
  - rewrite node_update_eq by done. simpl height. unfold ngt at 1.
    rewrite Hlt. cbv beta iota. simpl snd.
    rewrite node_update_eq by (rewrite ?length_update; done). done.
  - unfold ngt at 1. rewrite (nlt_ge_trans _ _ _ Hn2 E1 Hlt). cbv beta iota.
    simpl snd. rewrite node_update_eq by done. done.
Qed.

(** The size a grow pass proposes for an item is a number as soon as its
    ingredients are finite and there is space left. *)
Lemma grow_proposal_not_NaN (target g remG space : num) :
  is_fin target → is_fin g → is_fin remG → is_fin space →
  (g >? Fin 0)%num = true → (space >? Fin 0.1)%num = true →
  (target + g / remG * space)%num ≠ NaN.
Proof.
  destruct target as [t | | |], g as [g | | |], remG as [r | | |],
    space as [s | | |]; simpl; try done.
  intros _ _ _ _ Hg Hs. unfold ngt in *. simpl in Hg, Hs.
  apply Qltb_lt in Hg. apply Qltb_lt in Hs.
  destruct (Qeqb r 0); [| done].
  assert (Hc : (g ?= 0)%Q = Gt) by (apply Qgt_alt; lra).
  rewrite Hc. simpl.
  assert (Hc' : (s ?= 0)%Q = Gt) by (apply Qgt_alt; lra).
  rewrite Hc'. done.
Qed.

(** One item of a grow pass whose bounds cross. *)
Lemma growItem_crossed (space : num) (ps : PassState) (item : FlexItem)
    (mn mx : num) :
  fi_constrained item = false →
  (fi_flexGrow item >? Fin 0)%num = true →
  (fi_target item + fi_flexGrow item / remainingFlexGrow ps * space)%num
    ≠ NaN →
  fi_min item = Some (VNum mn) → fi_max item = Some (VNum mx) →
  (mx <? mn)%num = true →
  fi_target (growItem space ps item).2 = mx
  ∧ fi_constrained (growItem space ps item).2 = true.
Proof.
  intros Hc Hg Hn Hmin Hmax Hlt. unfold growItem.
  rewrite Hc, Hg, Hmin, Hmax. simpl toNumber.
  set (nt := (fi_target item + _)%num) in *.
  destruct (nt <? mn)%num eqn:E1.
  - unfold ngt. rewrite Hlt. done.
  - unfold ngt. rewrite (nlt_ge_trans _ _ _ Hn E1 Hlt). done.
Qed.

Lemma growItem_remaining_fin (space : num) (ps : PassState)
    (item : FlexItem) :
  is_fin (remainingFlexGrow ps) → is_fin (fi_flexGrow item) →
  is_fin (remainingFlexGrow (growItem space ps item).1).
Proof.
  intros Hr Hg. unfold growItem.
  destruct (fi_constrained item); [done |].
  destruct (fi_flexGrow item >? Fin 0)%num; [| done].
  repeat match goal with
  | |- context [match ?c with Some _ => _ | None => _ end] => destruct c
  | |- context [if ?b then _ else _] => destruct b
  end; simpl; try done;
  destruct (remainingFlexGrow ps), (fi_flexGrow item); done.
Qed.

(** A pass of the grow loop clamps every item it distributes space to; an
    item whose bounds cross leaves the pass at its upper bound. *)
Lemma growPass_crossed (space : num) (items : list FlexItem) :
  is_fin space → (space >? Fin 0.1)%num = true →
  Forall (λ it, is_fin (fi_flexGrow it)) items →
  ∀ (ps : PassState) (k : nat) (item : FlexItem) (mn mx : num),
    is_fin (remainingFlexGrow ps) →
    items !! k = Some item →
    fi_constrained item = false →
    (fi_flexGrow item >? Fin 0)%num = true →
    is_fin (fi_target item) →
    fi_min item = Some (VNum mn) → fi_max item = Some (VNum mx) →
    (mx <? mn)%num = true →
    ∃ item', (growPass space ps items).2 !! k = Some item'
             ∧ fi_target item' = mx ∧ fi_constrained item' = true.
Proof.
  intros Hs Hs'. induction 1 as [| it items Hit Hall IH];
    intros ps k item mn mx Hr Hk Hc Hg Ht Hmin Hmax Hlt; [done |].
  simpl. destruct (growItem space ps it) as [ps1 it'] eqn:E1.
  destruct (growPass space ps1 items) as [ps2 rest'] eqn:E2.
  destruct k as [| k]; simpl in *.
  - injection Hk as ->. exists it'. split; [done |].
    replace it' with (growItem space ps item).2 by (by rewrite E1).
    apply (growItem_crossed space ps item mn mx); try done.
    by apply grow_proposal_not_NaN.
  - assert (Hr1 : is_fin (remainingFlexGrow ps1)).
    { replace ps1 with (growItem space ps it).1 by (by rewrite E1).
      by apply growItem_remaining_fin. }
    destruct (IH ps1 k item mn mx Hr1 Hk Hc Hg Ht Hmin Hmax Hlt)
      as (item' & Hk' & Hres).
    rewrite E2 in Hk'. eauto.
Qed.


(** Claim C1 as the spec states it fails: a node that declares
    [min-width: 100] and [max-width: 50] next to [width: 70] comes out of
    the pass 50 wide and 50 high, the two maxima, and not 100. *)
Lemma crossed_bounds_min_loses :
  let w := exec (processInstance 1 0) (single crossed_style 0 0) in
  width (node w 0) = Fin 50 ∧ height (node w 0) = Fin 50
  ∧ ¬ (width (node w 0) =n= Fin 100) ∧ ¬ (height (node w 0) =n= Fin 100).
Proof. vm_compute. repeat split; intros H; discriminate H. Qed.

(** Claim C1, amended: when a style declares a min and a max on one axis
    with min > max, the clamps of the engine let the max win.  After
    explicit sizing ([applyStylesToInstance] on a numeric [width] or
    [height]), after percentage sizing (the final clamp
    [applyMinMaxConstraints] of [applyPercentageSizing], on a size that is
    a number) and in every pass of the grow loop (for each item the pass
    distributes space to) the resulting size is the max value. *)
Theorem crossed_bounds_max_wins :
  (∀ (w : World) (i : nat) (styles : gmap string value) (n mn mx : num),
     i < length (objects w) → n ≠ NaN → (mx <? mn)%num = true →
     styles !! "width" = Some (VNum n) →
     styles !! "minWidth" = Some (VNum mn) →
     styles !! "maxWidth" = Some (VNum mx) →
     width (node (exec (applyStylesToInstance i styles) w) i) = mx)
  ∧ (∀ (w : World) (i : nat) (styles : gmap string value) (n mn mx : num),
     i < length (objects w) → n ≠ NaN → (mx <? mn)%num = true →
     styles !! "height" = Some (VNum n) →
     styles !! "minHeight" = Some (VNum mn) →
     styles !! "maxHeight" = Some (VNum mx) →
     height (node (exec (applyStylesToInstance i styles) w) i) = mx)
  ∧ (∀ (w : World) (i : nat) (styles : gmap string value) (mn mx : num),
     i < length (objects w) → width (node w i) ≠ NaN →
     (mx <? mn)%num = true →
     styles !! "minWidth" = Some (VNum mn) →
     styles !! "maxWidth" = Some (VNum mx) →
     width (node (exec (applyMinMaxConstraints i styles) w) i) = mx)
  ∧ (∀ (w : World) (i : nat) (styles : gmap string value) (mn mx : num),
     i < length (objects w) → height (node w i) ≠ NaN →
     (mx <? mn)%num = true →
     styles !! "minHeight" = Some (VNum mn) →
     styles !! "maxHeight" = Some (VNum mx) →
     height (node (exec (applyMinMaxConstraints i styles) w) i) = mx)
  ∧ (∀ (space : num) (ps : PassState) (items : list FlexItem) (k : nat)
       (item : FlexItem) (mn mx : num),
     is_fin space → (space >? Fin 0.1)%num = true →
     is_fin (remainingFlexGrow ps) →
     Forall (λ it, is_fin (fi_flexGrow it)) items →
     items !! k = Some item →
     fi_constrained item = false →
     (fi_flexGrow item >? Fin 0)%num = true →
     is_fin (fi_target item) →
     fi_min item = Some (VNum mn) → fi_max item = Some (VNum mx) →
     (mx <? mn)%num = true →
     ∃ item', (growPass space ps items).2 !! k = Some item'
              ∧ fi_target item' = mx ∧ fi_constrained item' = true).
Proof.
  split; [exact applyStyles_explicit_width |].
  split; [exact applyStyles_explicit_height |].
  split; [exact applyMinMax_width |].
  split; [exact applyMinMax_height |].
  intros space ps items k item mn mx Hs Hs' Hr Hall Hk Hc Hg Ht Hmin Hmax Hlt.
  by apply (growPass_crossed space items Hs Hs' Hall ps k item mn mx).
Qed.


Lemma crossed_bounds_max_wins_witness :
  let styles := computedStyle (parseStyle crossed_style) in
  let w := single "" 70 70 in
  width (node (exec (applyStylesToInstance 0 styles) w) 0) = Fin 50
  ∧ height (node (exec (applyStylesToInstance 0 styles) w) 0) = Fin 50
  ∧ width (node (exec (applyMinMaxConstraints 0 styles) w) 0) = Fin 50
  ∧ height (node (exec (applyMinMaxConstraints 0 styles) w) 0) = Fin 50
  ∧ ∃ item', (growPass (Fin 500) (mkPassState (Fin 1) (Fin 0) false)
                       [crossed_item]).2 !! 0%nat = Some item'
             ∧ fi_target item' = Fin 50 ∧ fi_constrained item' = true.
Proof.
  destruct crossed_bounds_max_wins as (H1 & H2 & H3 & H4 & H5).
  intros styles w.
  split; [apply (H1 w 0%nat styles (Fin 70) (Fin 100) (Fin 50));
          [simpl; lia | discriminate | reflexivity | reflexivity
          | reflexivity | reflexivity] |].
  split; [apply (H2 w 0%nat styles (Fin 70) (Fin 100) (Fin 50));
          [simpl; lia | discriminate | reflexivity | reflexivity
          | reflexivity | reflexivity] |].
  split; [apply (H3 w 0%nat styles (Fin 100) (Fin 50));
          [simpl; lia | discriminate | reflexivity | reflexivity
          | reflexivity] |].
  split; [apply (H4 w 0%nat styles (Fin 100) (Fin 50));
          [simpl; lia | discriminate | reflexivity | reflexivity
          | reflexivity] |].
  apply (H5 (Fin 500) (mkPassState (Fin 1) (Fin 0) false) [crossed_item]
            0%nat crossed_item (Fin 100) (Fin 50));
    try reflexivity; try exact I.
  repeat constructor.
Defined.

(** ** Running a pass on a scene *)

Lemma flexTargets_nil (a g s : num) : flexTargets a g s [] = [].
Proof.
  unfold flexTargets. simpl.
  destruct (_ && _); [destruct (_ && _); reflexivity |].
  destruct (_ && _); reflexivity.
Qed.

(** [layoutVertical] and [layoutHorizontal] phase by phase. *)
Lemma exec_layoutVertical (c : nat) (lp : LayoutProps) (ch : list nat)
    (w w1 w2 w3 r : World) (bm : BoxModel) (cl : Classified) :
  getBoxModel c w = (bm, w1) →
  classifyVertical ch w1 = (cl, w2) →
  exec (applyHeights
          (flexTargets
             (availableVertical (contentHeightOf (node w1 c) bm)
                (totalGapsOf (length ch) (gapOf lp)) cl)
             (totalFlexGrow cl) (totalFlexShrinkFactors cl) (flexItems cl)))
       w2 = w3 →
  exec (positionVertical c lp bm (contentWidthOf (node w1 c) bm)
          (contentHeightOf (node w1 c) bm)
          (totalGapsOf (length ch) (gapOf lp)) ch) w3 = r →
  exec (layoutVertical c lp ch) w = r.
Proof.
  intros H1 H2 H3 H4. unfold layoutVertical.
  eapply exec_bind_eq; [exact H1 |].
  eapply exec_bind_eq; [reflexivity |].
  eapply exec_bind_eq; [exact H2 |].
  rewrite exec_bind. cbv beta. rewrite H3. exact H4.
Qed.

Lemma exec_layoutHorizontal (c : nat) (lp : LayoutProps) (ch : list nat)
    (w w1 w2 w3 r : World) (bm : BoxModel) (cl : Classified) :
  getBoxModel c w = (bm, w1) →
  classifyHorizontal ch w1 = (cl, w2) →
  exec (applyWidths
          (flexTargets
             (availableHorizontal (contentWidthOf (node w1 c) bm)
                (totalGapsOf (length ch) (gapOf lp)) cl)
             (totalFlexGrow cl) (totalFlexShrinkFactors cl) (flexItems cl)))
       w2 = w3 →
  exec (positionHorizontal c lp bm (contentWidthOf (node w1 c) bm)
          (contentHeightOf (node w1 c) bm)
          (totalGapsOf (length ch) (gapOf lp)) ch) w3 = r →
  exec (layoutHorizontal c lp ch) w = r.
Proof.
  intros H1 H2 H3 H4. unfold layoutHorizontal.
  eapply exec_bind_eq; [exact H1 |].
  eapply exec_bind_eq; [reflexivity |].
  eapply exec_bind_eq; [exact H2 |].
  rewrite exec_bind. cbv beta. rewrite H3. exact H4.
Qed.

(** Run the head of a sequence on the current store. *)
Ltac mstep := eapply exec_bind_eq; [vm_compute; reflexivity | cbv beta].

(** ** A vertical stack that fits its content (claim C2) *)

(** The pass over the stack, with the fuel its two levels need. *)
Lemma vstack_pass (rw rh : num) (g1 g2 g3 : num * num * num * num) :
  map geometry (objects (exec (processInstance 2 0) (vstack rw rh g1 g2 g3)))
  = [ (Fin 100, Fin 100, Fin 254, Fin 334);
      (Fin 127, Fin 127, Fin 200, Fin 80);
      (Fin 127, Fin 227, Fin 200, Fin 80);
      (Fin 127, Fin 327, Fin 200, Fin 80) ].
Proof.
  destruct g1 as [[[a1 b1] c1] d1], g2 as [[[a2 b2] c2] d2],
    g3 as [[[a3 b3] c3] d3].
  assert (∃ wf, exec (processInstance 2 0)
                  (vstack rw rh (a1, b1, c1, d1) (a2, b2, c2, d2)
                          (a3, b3, c3, d3)) = wf
                ∧ map geometry (objects wf)
                  = [ (Fin 100, Fin 100, Fin 254, Fin 334);
                      (Fin 127, Fin 127, Fin 200, Fin 80);
                      (Fin 127, Fin 227, Fin 200, Fin 80);
                      (Fin 127, Fin 327, Fin 200, Fin 80) ])
    as (wf & -> & H); [| exact H].
  eexists. split.
  - rewrite processInstance_S. unfold vstack, plain.
    (* steps 1 to 4: styles, partition, the three children *)
    mstep. mstep. mstep. mstep.
    (* step 5: the children are fixed items, whatever the deficit *)
    eapply exec_seq_eq.
    { unfold when. simpl flowAllowed. cbv iota.
      unfold applyNormalFlowLayout. simpl value_is. cbv iota.
      eapply exec_layoutVertical.
      - vm_compute. reflexivity.
      - vm_compute. reflexivity.
      - simpl flexItems. rewrite flexTargets_nil. reflexivity.
      - vm_compute. reflexivity. }
    (* steps 6 and 7 *)
    mstep. vm_compute. reflexivity.
  - vm_compute. reflexivity.
Qed.

(** Claim C2 (scenario 1).  Whatever the size of the root and the geometry
    of the children before the pass, one pass (with any fuel that covers
    the two levels of the tree) leaves every child 200 wide and 80 high,
    at [y] 127, 227 and 327 (and [x] 127), and makes the root 254 wide
    and 334 high. *)
Theorem vertical_stack_fit_content (rw rh : num)
    (g1 g2 g3 : num * num * num * num) (k : nat) :
  map geometry
      (objects (exec (processInstance (2 + k) 0) (vstack rw rh g1 g2 g3)))
  = [ (Fin 100, Fin 100, Fin 254, Fin 334);
      (Fin 127, Fin 127, Fin 200, Fin 80);
      (Fin 127, Fin 227, Fin 200, Fin 80);
      (Fin 127, Fin 327, Fin 200, Fin 80) ].
Proof.
  rewrite processInstance_fuel; [apply vstack_pass |].
  by destruct g1 as [[[? ?] ?] ?], g2 as [[[? ?] ?] ?], g3 as [[[? ?] ?] ?].
Qed.

(** ** Flex grow in a row (claim C3) *)

(** A container without in-flow children: the flow layouts only read its
    box model. *)
Lemma layoutVertical_nil (c : nat) (lp : LayoutProps) (w : World) :
  exec (layoutVertical c lp []) w = exec (getBoxModel c) w.
Proof.
  unfold layoutVertical. rewrite exec_bind. cbv beta.
  rewrite exec_bind. cbv beta. unfold get_node at 2. unfold exec at 2.
  simpl snd. unfold classifyVertical. simpl foldM.
  rewrite exec_bind. cbv beta. rewrite exec_ret. unfold eval at 2.
  simpl fst. simpl flexItems. rewrite flexTargets_nil.
  rewrite exec_bind. cbv beta. unfold applyHeights. simpl forEach.
  rewrite exec_ret. unfold positionVertical. simpl foldM.
  rewrite exec_bind. cbv beta. rewrite exec_ret.
  destruct (justifySpacing _ _ _) as [[? ?] ?].
  rewrite exec_bind. cbv beta. rewrite !exec_ret. reflexivity.
Qed.

Lemma forEach_cons {A} (a : A) (l : list A) (f : A → M unit) :
  forEach (a :: l) f = (f a ;; forEach l f).
Proof. reflexivity. Qed.

Lemma forEach_nil {A} (f : A → M unit) : forEach [] f = ret tt.
Proof. reflexivity. Qed.

(** Decide the guards of the conditionals in front of the goal. *)
Ltac eval_guards :=
  repeat match goal with
  | |- context [if ?b then _ else _] =>
      let v := eval vm_compute in b in
      replace b with v by (vm_compute; reflexivity); cbv iota
  end.

(** A pass over a leaf whose style has no size constraint and whose
    display is the default: run the steps on the store at hand. *)
Ltac leaf_pass :=
  rewrite processInstance_S;
  mstep; mstep; mstep; mstep;
  eapply exec_seq_eq;
  [ unfold when, applyNormalFlowLayout; cbn [inFlowChildren];
    eval_guards;
    rewrite layoutVertical_nil; vm_compute; reflexivity
  | vm_compute; reflexivity ].

(** The pass over the row, with the fuel its two levels need. *)
Lemma row_pass (cx cy rw rh a1 b1 h1 a2 b2 h2 : num) :
  let w := exec (processInstance 2 0)
                (row cx cy rw rh a1 b1 h1 a2 b2 h2) in
  (width (node w 1) = Fin (500 # 3) ∧ width (node w 2) = Fin (1000 # 3))
  ∧ (x (node w 1) = (cx + Fin 0)%num
     ∧ x (node w 2) = (cx + Fin (500 # 3))%num)
  ∧ (Qabs ((500 # 3) - 166.67) <= 0.1
     ∧ Qabs ((1000 # 3) - 333.33) <= 0.1)%Q.
Proof.
  assert (∃ wf, exec (processInstance 2 0)
                  (row cx cy rw rh a1 b1 h1 a2 b2 h2) = wf
                ∧ (width (node wf 1) = Fin (500 # 3)
                   ∧ width (node wf 2) = Fin (1000 # 3))
                ∧ (x (node wf 1) = (cx + Fin 0)%num
                   ∧ x (node wf 2) = (cx + Fin (500 # 3))%num))
    as (wf & <- & H).
  { eexists. split.
    - rewrite processInstance_S. unfold row, plain.
      mstep. mstep. mstep.
      (* step 4: the two children are leaves of any height *)
      eapply exec_seq_eq.
      { cbn [inFlowChildren]. rewrite !forEach_cons, forEach_nil.
        eapply exec_seq_eq; [leaf_pass |].
        eapply exec_seq_eq; [leaf_pass |].
        reflexivity. }
      (* steps 5 to 7 *)
      vm_compute. reflexivity.
    - vm_compute. repeat split; reflexivity. }
  split; [exact (proj1 H) |]. split; [exact (proj2 H) |].
  split; apply Qabs_Qle_condition; split; vm_compute; discriminate.
Qed.

(** Claim C3 (scenario 3).  Two children of initial width [0] with grow
    factors 1 and 2 in a row 500 wide: one pass of the grow loop hands
    them 500/3 and 1000/3, which are 166.67 and 333.33 within 0.1, and
    places them at 0 and 500/3 from the left edge of the content box,
    wherever the container is and with any fuel that covers the two levels
    of the tree. *)
Theorem flex_grow_row (cx cy rw rh a1 b1 h1 a2 b2 h2 : num) (k : nat) :
  let w := exec (processInstance (2 + k) 0)
                (row cx cy rw rh a1 b1 h1 a2 b2 h2) in
  (width (node w 1) = Fin (500 # 3) ∧ width (node w 2) = Fin (1000 # 3))
  ∧ (x (node w 1) = (cx + Fin 0)%num
     ∧ x (node w 2) = (cx + Fin (500 # 3))%num)
  ∧ (Qabs ((500 # 3) - 166.67) <= 0.1
     ∧ Qabs ((1000 # 3) - 333.33) <= 0.1)%Q.
Proof.
  intros w. subst w.
  rewrite processInstance_fuel; [apply row_pass | reflexivity].
Qed.

(** ** Absolute positioning in a corner (claim C4) *)

(** Claim C4 as the spec states it fails: the corner child does not end
    at [(438, 338)]. *)
Lemma absolute_corner_not_438_338 :
  let w := exec (processInstance 2 0)
             (corner (Fin 0) (Fin 0) (Fin 0, Fin 0, Fin 0, Fin 0)) in
  ¬ (x (node w 1) =n= Fin 438) ∧ ¬ (y (node w 1) =n= Fin 338).
Proof. vm_compute. split; intros H; discriminate H. Qed.

(** Claim C4 (scenario 5), amended.  The right and bottom edges of the
    content rectangle of the parent lie inside its padding as well as its
    border, so the child ends at [x = 500 - 15 - 2 - 10 - 50 = 423] and
    [y = 400 - 15 - 2 - 10 - 50 = 323], whatever the geometry of the two
    nodes before the pass and with any fuel that covers the two levels of
    the tree. *)
Theorem absolute_corner (pw ph : num) (g : num * num * num * num)
    (k : nat) :
  map geometry (objects (exec (processInstance (2 + k) 0) (corner pw ph g)))
  = [ (Fin 0, Fin 0, Fin 500, Fin 400);
      (Fin 423, Fin 323, Fin 50, Fin 50) ].
Proof.
  destruct g as [[[a b] c] d].
  rewrite processInstance_fuel; [| reflexivity].
  vm_compute. reflexivity.
Qed.

(** ** Anchor positioning (claim C5) *)


Lemma anchorOffset_fin (inst : Instance) (anchor : value) (qw qh : Q) :
  width inst = Fin qw → height inst = Fin qh →
  ∃ ox oy, anchorOffset inst anchor = (Fin ox, Fin oy).
Proof.
  intros Hw Hh. unfold anchorOffset. rewrite Hw, Hh.
  repeat match goal with
  | |- context [if ?b then _ else _] => destruct b
  end; simpl; eauto.
Qed.

Lemma anchorOffset_size (i1 i2 : Instance) (anchor : value) :
  width i1 = width i2 → height i1 = height i2 →
  anchorOffset i1 anchor = anchorOffset i2 anchor.
Proof. intros Hw Hh. unfold anchorOffset. by rewrite Hw, Hh. Qed.

Lemma positionAnchor_self (w : World) (i t : nat) (lp : LayoutProps) :
  anchorTargetOf w (node w i) lp = Some t → i < length (objects w) →
  node (exec (positionAnchor i lp) w) i
  = set_y (y (node w i)
           + ((anchorPointOf w t (lp_anchorPoint lp)).2
              - (y (node w i) + (anchorOffset (node w i) (lp_selfAnchor lp)).2)
              + toNumber (lp_anchorOffsetY lp)))%num
      (set_x (x (node w i)
              + ((anchorPointOf w t (lp_anchorPoint lp)).1
                 - (x (node w i)
                    + (anchorOffset (node w i) (lp_selfAnchor lp)).1)
                 + toNumber (lp_anchorOffsetX lp)))%num
         (node w i)).
Proof.
  intros Ht Hi. unfold positionAnchor, exec. rewrite Ht. simpl snd.
  rewrite node_update_eq by (by rewrite length_update).
  rewrite node_update_eq by done.
  unfold anchorPointOf, getAnchorPoint.
  destruct (anchorOffset (node w t) (lp_anchorPoint lp)) as [tx ty].
  destruct (anchorOffset (node w i) (lp_selfAnchor lp)) as [sx sy].
  reflexivity.
Qed.

Lemma positionAnchor_other (w : World) (i j : nat) (lp : LayoutProps) :
  i ≠ j → node (exec (positionAnchor i lp) w) j = node w j.
Proof.
  intros Hne. unfold positionAnchor, exec.
  destruct (anchorTargetOf w (node w i) lp); simpl; [| done].
  by rewrite !node_update_ne.
Qed.

(** Claim C5 as the spec states it fails when the target that resolves is
    the node itself: the positioner reads the target point and then moves
    the node, and with it the target.  The centre of the tooltip ends at
    [(50, 50)], where its top left corner was, and its top left corner at
    [(0, 30)]. *)
Lemma self_anchor_misses_target :
  let w := exec (processInstance 2 0) self_anchored in
  anchorTargetOf w (node w 1) (layoutPropsOf (stylesOf (node w 1))) = Some 1
  ∧ (anchorPointOf w 1 (VStr "center")).1 =n= Fin 50
  ∧ (anchorPointOf w 1 (VStr "top-left")).1 =n= Fin 0
  ∧ ¬ ((anchorPointOf w 1 (VStr "center")).1
       =n= ((anchorPointOf w 1 (VStr "top-left")).1 + Fin 0)%num).
Proof.
  vm_compute. split; [reflexivity |]. split; [reflexivity |].
  split; [reflexivity |]. intros H. discriminate H.
Qed.

(** Claim C5, amended.  For a node whose anchor target resolves to another
    node, on finite geometry and finite numeric offsets: after
    [positionAnchor] the world-space coordinates of the [selfAnchor] point
    of the node are those of the [anchorPoint] of the target plus
    [(anchorOffsetX, anchorOffsetY)].  The anchor names are arbitrary
    values, so the statement covers the nine names, their aliases and the
    default, on both sides. *)
Theorem anchor_points_meet (w : World) (i t : nat) (lp : LayoutProps)
    (ox oy : Q) :
  anchorTargetOf w (node w i) lp = Some t →
  t ≠ i → i < length (objects w) →
  is_fin (x (node w i)) → is_fin (y (node w i)) →
  is_fin (width (node w i)) → is_fin (height (node w i)) →
  is_fin (x (node w t)) → is_fin (y (node w t)) →
  is_fin (width (node w t)) → is_fin (height (node w t)) →
  lp_anchorOffsetX lp = VNum (Fin ox) →
  lp_anchorOffsetY lp = VNum (Fin oy) →
  let w' := exec (positionAnchor i lp) w in
  (anchorPointOf w' i (lp_selfAnchor lp)).1
    =n= ((anchorPointOf w' t (lp_anchorPoint lp)).1 + Fin ox)%num
  ∧ (anchorPointOf w' i (lp_selfAnchor lp)).2
    =n= ((anchorPointOf w' t (lp_anchorPoint lp)).2 + Fin oy)%num.
Proof.
  intros Ht Hne Hi Hx Hy Hw Hh Htx Hty Htw Hth Hox Hoy w'.
  unfold anchorPointOf. subst w'.
  rewrite (positionAnchor_other w i t lp) by done.
  rewrite (positionAnchor_self w i t lp Ht Hi).
  unfold anchorPointOf, getAnchorPoint.
  rewrite (anchorOffset_size _ (node w i) (lp_selfAnchor lp)) by done.
  rewrite Hox, Hoy. cbn [toNumber].
  destruct (x (node w i)) as [xi | | |] eqn:Exi; try done.
  destruct (y (node w i)) as [yi | | |] eqn:Eyi; try done.
  destruct (width (node w i)) as [wi | | |] eqn:Ewi; try done.
  destruct (height (node w i)) as [hi | | |] eqn:Ehi; try done.
  destruct (x (node w t)) as [xt | | |] eqn:Ext; try done.
  destruct (y (node w t)) as [yt | | |] eqn:Eyt; try done.
  destruct (width (node w t)) as [wt | | |] eqn:Ewt; try done.
  destruct (height (node w t)) as [ht | | |] eqn:Eht; try done.
  destruct (anchorOffset_fin (node w i) (lp_selfAnchor lp) wi hi Ewi Ehi)
    as (sx & sy & ->).
  destruct (anchorOffset_fin (node w t) (lp_anchorPoint lp) wt ht Ewt Eht)
    as (tx & ty & ->).
  simpl. rewrite ?Exi, ?Eyi. simpl. split; ring.
Qed.

Lemma anchor_points_meet_witness :
  let w := exec (processInstance 2 0) tooltip_scene in
  let lp := layoutPropsOf (stylesOf (node w 2)) in
  anchorTargetOf w (node w 2) lp = Some 1
  ∧ (anchorPointOf (exec (positionAnchor 2 lp) w) 2 (lp_selfAnchor lp)).1
    =n= ((anchorPointOf (exec (positionAnchor 2 lp) w) 1 (lp_anchorPoint lp)).1
         + Fin 0)%num
  ∧ (anchorPointOf (exec (positionAnchor 2 lp) w) 2 (lp_selfAnchor lp)).2
    =n= ((anchorPointOf (exec (positionAnchor 2 lp) w) 1 (lp_anchorPoint lp)).2
         + Fin (-5))%num.
Proof.
  intros w lp. split; [vm_compute; reflexivity |].
  apply (anchor_points_meet w 2 1 lp 0 (-5));
    [ vm_compute; reflexivity | discriminate | vm_compute; lia
    | vm_compute; exact I | vm_compute; exact I | vm_compute; exact I
    | vm_compute; exact I | vm_compute; exact I | vm_compute; exact I
    | vm_compute; exact I | vm_compute; exact I
    | vm_compute; reflexivity | vm_compute; reflexivity ].
Defined.

(** ** The cascade (claim C6) *)

Lemma mergeOne_spec (fs : gmap string value) (ap : gset string)
    (s : StyleObj) (P : string) :
  (mergeOne (fs, ap) s).1 !! P
  = match computedStyle s !! P with
    | Some v =>
        if bool_decide (P ∈ ap)
           && negb (bool_decide (P ∈ importantProperties s))
        then fs !! P else Some v
    | None => fs !! P
    end
  ∧ (P ∈ (mergeOne (fs, ap) s).2
     ↔ P ∈ ap ∨ (is_Some (computedStyle s !! P)
                 ∧ P ∈ importantProperties s)).
Proof.
  unfold mergeOne. revert P.
  apply (map_fold_weak_ind
    (λ (r : MergeAcc) (m : gmap string value), ∀ P,
       r.1 !! P
       = match m !! P with
         | Some v =>
             if bool_decide (P ∈ ap)
                && negb (bool_decide (P ∈ importantProperties s))
             then fs !! P else Some v
         | None => fs !! P
         end
       ∧ (P ∈ r.2 ↔ P ∈ ap ∨ (is_Some (m !! P)
                               ∧ P ∈ importantProperties s)))).
  - intros P. simpl. rewrite lookup_empty. split; [done |].
    split; [auto | intros [H | [[v Hv] _]]; [done | done]].
  - intros i v m [fs' ap'] Hi IH P.
    destruct (IH i) as [IHi1 IHi2]. destruct (IH P) as [IHP1 IHP2].
    rewrite Hi in IHi1, IHi2. simpl in IHi1, IHi2, IHP1, IHP2.
    assert (Hap : i ∈ ap' ↔ i ∈ ap).
    { rewrite IHi2. split; [intros [Ha | [[? Ha] _]]; done | auto]. }
    unfold mergeProp.
    destruct (decide (i = P)) as [-> | Hne].
    + rewrite (lookup_insert_eq m).
      repeat case_bool_decide; simpl;
        rewrite ?lookup_insert_eq, ?elem_of_union, ?elem_of_singleton;
        (split; [try done; tauto |]); try tauto.
      all: split; [intros; right; eauto | tauto].
    + rewrite (lookup_insert_ne m) by done.
      repeat case_bool_decide; simpl;
        rewrite ?lookup_insert_ne, ?elem_of_union, ?elem_of_singleton
          by done;
        (split; [done |]); rewrite ?IHP2; try tauto.
      all: split; [intros [-> | Hq]; [done | tauto] | tauto].
Qed.

Lemma last_omap_snoc {A B} (f : A → option B) (l : list A) (a : A) :
  last (omap f (l ++ [a]))
  = match f a with Some b => Some b | None => last (omap f l) end.
Proof.
  rewrite omap_app. simpl. destruct (f a) as [b |]; simpl.
  - apply last_snoc.
  - by rewrite app_nil_r.
Qed.

(** The loop of [mergeStyles] computes the cascade of the specification,
    and tracks exactly the properties that have an important write. *)
Lemma mergeAll_spec (l : list StyleObj) (P : string) :
  (mergeAll l).1 !! P = spec_cascade P l
  ∧ (P ∈ (mergeAll l).2 ↔ is_Some (lastImportantWrite P l)).
Proof.
  induction l as [| s l IH] using rev_ind.
  - unfold mergeAll, spec_cascade, lastImportantWrite, lastWrite. simpl.
    rewrite lookup_empty. split; [done |].
    split; [done | intros [? ?]; done].
  - unfold mergeAll in *. rewrite fold_left_app. simpl.
    destruct (fold_left mergeOne l (∅, ∅)) as [fs ap] eqn:E.
    destruct IH as [IH1 IH2]. simpl in IH1, IH2.
    destruct (mergeOne_spec fs ap s P) as [H1 H2].
    rewrite H1, H2. clear H1 H2.
    unfold spec_cascade, lastImportantWrite, lastWrite in *.
    rewrite !last_omap_snoc. unfold importantWrites, writes.
    destruct (computedStyle s !! P) as [v |] eqn:Ev;
      destruct (bool_decide (P ∈ importantProperties s)) eqn:Ei;
      try apply bool_decide_eq_true in Ei;
      try apply bool_decide_eq_false in Ei; simpl.
    + rewrite andb_false_r. split; [done |].
      split; [eauto | intros _; right; eauto].
    + rewrite andb_true_r.
      destruct (last (omap _ l)) as [v' |] eqn:El.
      * rewrite bool_decide_eq_true_2 by (apply IH2; eauto).
        split; [done |]. split; [eauto | intros _; left; apply IH2; eauto].
      * rewrite bool_decide_eq_false_2.
        2: { intros H. apply IH2 in H. destruct H; done. }
        split; [done |].
        split; [intros [H | [_ H]]; [by apply IH2 | done] | intros [? ?]; done].
    + split; [done |].
      split; [intros [H | [[? ?] _]]; [by apply IH2 | done]
             | intros H; left; by apply IH2].
    + split; [done |].
      split; [intros [H | [[? ?] _]]; [by apply IH2 | done]
             | intros H; left; by apply IH2].
Qed.

Lemma mergeStyles_cascade (l : list StyleObj) (P : string) :
  mergeStyles l !! P = spec_cascade P l.
Proof. apply mergeAll_spec. Qed.

Lemma omap_all_None {A B} (f : A → option B) (l : list A) :
  (∀ a, a ∈ l → f a = None) → omap f l = [].
Proof.
  induction l as [| a l IH]; intros H; [done |]. simpl.
  rewrite (H a) by (by left). apply IH. intros b Hb. apply H. by right.
Qed.

Lemma last_omap_middle {A B} (f : A → option B) (pre post : list A) (a : A)
    (b : B) :
  f a = Some b → (∀ a', a' ∈ post → f a' = None) →
  last (omap f (pre ++ a :: post)) = Some b.
Proof.
  intros Ha Hpost. rewrite omap_app.
  replace (omap f (a :: post)) with [b]; [apply last_snoc |].
  pose proof (omap_all_None f post Hpost) as Hnil.
  simpl. rewrite Ha. simpl. f_equal. symmetry. exact Hnil.
Qed.

(** Without important writes the last style that sets a property wins: a
    later class beats an earlier one. *)
Lemma later_write_wins (pre post : list StyleObj) (s : StyleObj) (P : string)
    (v : value) :
  writes P s = Some v →
  (∀ s', s' ∈ post → writes P s' = None) →
  (∀ s', s' ∈ pre ++ s :: post → importantWrites P s' = None) →
  mergeStyles (pre ++ s :: post) !! P = Some v.
Proof.
  intros Hs Hpost Himp. rewrite mergeStyles_cascade. unfold spec_cascade.
  unfold lastImportantWrite. rewrite (omap_all_None _ _ Himp). simpl.
  by apply last_omap_middle.
Qed.

(** A value written with [!important] survives every later write that is
    not important; and of two important writes the later one wins. *)
Lemma important_survives (pre post : list StyleObj) (s : StyleObj)
    (P : string) (v : value) :
  importantWrites P s = Some v →
  (∀ s', s' ∈ post → importantWrites P s' = None) →
  mergeStyles (pre ++ s :: post) !! P = Some v.
Proof.
  intros Hs Hpost. rewrite mergeStyles_cascade. unfold spec_cascade.
  unfold lastImportantWrite. by rewrite (last_omap_middle _ _ _ _ _ Hs Hpost).
Qed.

(** The inline style of a node beats all its classes, short of an
    important write in a class. *)
Lemma inline_beats_classes (w : World) (i : nat) (P : string) (v : value) :
  style (node w i) ≠ "" →
  writes P (parseStyle (style (node w i))) = Some v →
  (∀ s', s' ∈ classStyles w (node w i) → importantWrites P s' = None) →
  getInstanceStyles w i !! P = Some v.
Proof.
  intros Hne Hs Hcls. unfold getInstanceStyles, stylesToMerge.
  fold (classStyles w (node w i)).
  destruct (String.eqb (style (node w i)) "") eqn:E.
  { apply String.eqb_eq in E. done. }
  destruct (importantWrites P (parseStyle (style (node w i)))) as [v' |]
    eqn:Ei.
  - assert (v' = v) as ->.
    { unfold importantWrites, writes in *. case_bool_decide; congruence. }
    apply important_survives; [done | intros s' Hs'; by apply elem_of_nil in Hs'].
  - apply later_write_wins; [done | intros s' Hs'; by apply elem_of_nil in Hs' |].
    intros s' Hs'. apply elem_of_app in Hs' as [Hs' | Hs']; [by apply Hcls |].
    apply list_elem_of_singleton in Hs' as ->. done.
Qed.

Lemma stylesToMerge_split (w : World) (inst : Instance) :
  stylesToMerge w inst = classStyles w inst ++ inlineStyle inst.
Proof. reflexivity. Qed.

(** Claim C6.  The computed style of a node is the cascade of the
    specification over the styles of its registered classes, in the order
    of its class list, followed by its inline style: for every property
    the last important write wins when there is one, and the last write
    otherwise.  In particular, in that list: without important writes of
    [P] the last style that sets [P] wins, so a later class beats an
    earlier one; an important write of [P] with no important write of [P]
    after it wins, so it survives every later write that is not important
    and beats every earlier important write; and the inline style beats
    the classes that do not write [P] as important. *)
Theorem computed_style_is_cascade (w : World) (i : nat) (P : string) :
  let l := classStyles w (node w i) ++ inlineStyle (node w i) in
  getInstanceStyles w i !! P = spec_cascade P l
  ∧ (∀ pre s post v,
       l = pre ++ s :: post →
       writes P s = Some v →
       (∀ s', s' ∈ post → writes P s' = None) →
       (∀ s', s' ∈ l → importantWrites P s' = None) →
       getInstanceStyles w i !! P = Some v)
  ∧ (∀ pre s post v,
       l = pre ++ s :: post →
       importantWrites P s = Some v →
       (∀ s', s' ∈ post → importantWrites P s' = None) →
       getInstanceStyles w i !! P = Some v)
  ∧ (∀ v,
       style (node w i) ≠ "" →
       writes P (parseStyle (style (node w i))) = Some v →
       (∀ s', s' ∈ classStyles w (node w i) → importantWrites P s' = None) →
       getInstanceStyles w i !! P = Some v).
Proof.
  intros l.
  assert (E : getInstanceStyles w i = mergeStyles l)
    by (unfold getInstanceStyles; by rewrite stylesToMerge_split).
  split; [rewrite E; apply mergeStyles_cascade |].
  split; [| split].
  - intros pre s post v Hl Hs Hpost Himp. rewrite E, Hl.
    apply later_write_wins; [done | done |]. by rewrite <- Hl.
  - intros pre s post v Hl Hs Hpost. rewrite E, Hl.
    by apply important_survives.
  - intros v. apply inline_beats_classes.
Qed.

Lemma computed_style_is_cascade_witness :
  getInstanceStyles themed 0 !! "width" = Some (VNum (Fin 10))
  ∧ getInstanceStyles themed 0 !! "color" = Some (VStr "green").
Proof.
  split.
  - destruct (computed_style_is_cascade themed 0 "width") as (_ & _ & H & _).
    apply (H [] (parseStyle theme_a)
             [parseStyle theme_b; parseStyle theme_inline]).
    + vm_compute. reflexivity.
    + vm_compute. reflexivity.
    + intros s' Hs'.
      apply elem_of_cons in Hs' as [-> | Hs']; [vm_compute; reflexivity |].
      apply elem_of_cons in Hs' as [-> | Hs']; [vm_compute; reflexivity |].
      by apply elem_of_nil in Hs'.
  - destruct (computed_style_is_cascade themed 0 "color") as (_ & _ & _ & H).
    apply H.
    + vm_compute. discriminate.
    + vm_compute. reflexivity.
    + intros s' Hs'. change (classStyles themed (node themed 0))
        with (omap (λ c, registeredClasses themed !! c)
                   (class_names (classes (node themed 0)))) in Hs'.
      assert (Hl : omap (λ c, registeredClasses themed !! c)
                        (class_names (classes (node themed 0)))
                   = [parseStyle theme_a; parseStyle theme_b])
        by (vm_compute; reflexivity).
      rewrite Hl in Hs'.
      apply elem_of_cons in Hs' as [-> | Hs']; [vm_compute; reflexivity |].
      apply elem_of_cons in Hs' as [-> | Hs']; [vm_compute; reflexivity |].
      by apply elem_of_nil in Hs'.
Defined.

(** ** Flex targets are not negative (claim C7) *)

Lemma Qeqb_pos (r : Q) : (0 < r)%Q → Qeqb r 0 = false.
Proof.
  intros H. unfold Qeqb. destruct (Qeq_bool r 0) eqn:E; [| reflexivity].
  apply Qeq_bool_iff in E. lra.
Qed.

Lemma Qdiv_nonneg (g r : Q) : (0 <= g)%Q → (0 < r)%Q → (0 <= g / r)%Q.
Proof.
  intros Hg Hr. unfold Qdiv. apply Qmult_le_0_compat; [exact Hg |].
  apply Qlt_le_weak, Qinv_lt_0_compat, Hr.
Qed.

Lemma activeGrow_nonneg (it : FlexItem) :
  item_inv it → (0 <= activeGrow it)%Q.
Proof.
  intros [(g & Hg & Hg0) _]. unfold activeGrow.
  destruct (fi_constrained it); [lra |]. rewrite Hg. exact Hg0.
Qed.

Lemma sumActive_nonneg (items : list FlexItem) :
  Forall item_inv items → (0 <= sumActive items)%Q.
Proof.
  induction 1 as [| it items Hit _ IH]; simpl; [lra |].
  pose proof (activeGrow_nonneg it Hit). lra.
Qed.

(** The lower clamp of the grow loop keeps a non-negative proposal finite
    and non-negative, and leaves it alone unless it reports a clamp. *)
Lemma grow_min_stage (mn : option value) (t : Q) :
  min_ok mn → (0 <= t)%Q →
  ∃ q b,
    match mn with
    | Some v => if (Fin t <? toNumber v)%num then (toNumber v, true)
                else (Fin t, false)
    | None => (Fin t, false)
    end = (Fin q, b) ∧ (0 <= q)%Q ∧ (b = false → q = t).
Proof.
  intros Hmn Ht. destruct mn as [v |]; [| eauto].
  destruct (Hmn v eq_refl) as [E | (m & ->)].
  - rewrite E. simpl. eauto.
  - simpl.
    destruct (Qltb t m) eqn:L; [| eauto].
    apply Qltb_lt in L. exists m, true.
    split; [reflexivity |]. split; [lra | discriminate].
Qed.

Lemma grow_max_stage (mx : option value) (t : Q) (b : bool) :
  max_ok mx → (0 <= t)%Q →
  ∃ q b',
    match mx with
    | Some v => if (Fin t >? toNumber v)%num then (toNumber v, true)
                else (Fin t, b)
    | None => (Fin t, b)
    end = (Fin q, b') ∧ (0 <= q)%Q ∧ (b' = false → q = t ∧ b = false).
Proof.
  intros Hmx Ht. destruct mx as [v |]; [| eauto 10].
  destruct (Hmx v eq_refl) as [E | (m & -> & Hm)].
  - rewrite E. simpl. eauto 10.
  - unfold ngt. simpl.
    destruct (Qltb m t) eqn:L; [| eauto 10].
    exists m, true. split; [reflexivity |]. split; [exact Hm | discriminate].
Qed.

(** One item of one pass.  While the remaining grow factor is at least the
    factor of the item, the share is not negative; the item stays finite
    and non-negative, and the remaining grow factor loses exactly the
    factor of an item that becomes constrained. *)
Lemma growItem_inv (s r c : Q) (ps ps' : PassState)
    (item item' : FlexItem) :
  (0 < s)%Q →
  remainingFlexGrow ps = Fin r → spaceConsumedThisPass ps = Fin c →
  item_inv item → (activeGrow item <= r)%Q →
  growItem (Fin s) ps item = (ps', item') →
  ∃ r' c',
    remainingFlexGrow ps' = Fin r'
    ∧ spaceConsumedThisPass ps' = Fin c'
    ∧ (r' == r - activeGrow item + activeGrow item')%Q
    ∧ item_inv item'.
Proof.
  intros Hs Hr Hc Hinv Hle.
  pose proof Hinv as ((g & Hg & Hg0) & (t & Ht & Ht0) & Hmn & Hmx).
  unfold growItem.
  destruct (fi_constrained item) eqn:Ec.
  { intros [= <- <-]. exists r, c. split; [exact Hr |]. split; [exact Hc |].
    split; [lra | exact Hinv]. }
  rewrite Hg. unfold ngt at 1. simpl nlt.
  destruct (Qltb 0 g) eqn:Lg;
    [| intros [= <- <-]; exists r, c; split; [exact Hr |];
       split; [exact Hc |]; split; [lra | exact Hinv]].
  apply Qltb_lt in Lg.
  assert (Hact : activeGrow item = g)
    by (unfold activeGrow; rewrite Ec, Hg; reflexivity).
  rewrite Hact in Hle. rewrite Hact.
  assert (Hr0 : (0 < r)%Q) by lra.
  rewrite Hr, Ht. simpl ndiv. rewrite (Qeqb_pos r Hr0). simpl nmul.
  simpl nadd.
  assert (Hnew : (0 <= t + g / r * s)%Q).
  { pose proof (Qdiv_nonneg g r Hg0 Hr0) as Hk.
    pose proof (Qmult_le_0_compat _ _ Hk (Qlt_le_weak _ _ Hs)). lra. }
  destruct (grow_min_stage (fi_min item) _ Hmn Hnew)
    as (q1 & b1 & E1 & Hq1 & _).
  rewrite E1.
  destruct (grow_max_stage (fi_max item) q1 b1 Hmx Hq1)
    as (q2 & b2 & E2 & Hq2 & _).
  rewrite E2, Hc. simpl nsub. simpl nadd.
  destruct b2; intros [= <- <-].
  - exists (r - g)%Q, (c + (q2 - t))%Q.
    split; [reflexivity |]. split; [reflexivity |]. split.
    + unfold activeGrow. simpl. lra.
    + unfold item_inv. simpl. eauto 10.
  - exists r, (c + (q2 - t))%Q.
    split; [reflexivity |]. split; [reflexivity |]. split.
    + unfold activeGrow. simpl. rewrite Hg. lra.
    + unfold item_inv. simpl. eauto 10.
Qed.

(** One pass over the items.  [A] is the grow factor that the remaining
    total still counts for the items already visited. *)
Lemma growPass_inv (s : Q) (items : list FlexItem) :
  (0 < s)%Q →
  ∀ (ps ps' : PassState) (items' : list FlexItem) (r c A : Q),
    remainingFlexGrow ps = Fin r → spaceConsumedThisPass ps = Fin c →
    (0 <= A)%Q → (r == A + sumActive items)%Q →
    Forall item_inv items →
    growPass (Fin s) ps items = (ps', items') →
    ∃ r' c',
      remainingFlexGrow ps' = Fin r'
      ∧ spaceConsumedThisPass ps' = Fin c'
      ∧ (r' == A + sumActive items')%Q
      ∧ Forall item_inv items'.
Proof.
  intros Hs. induction items as [| item rest IH];
    intros ps ps' items' r c A Hr Hc HA Hsum Hall; simpl.
  - intros [= <- <-]. exists r, c. simpl in Hsum. auto.
  - inversion Hall as [| ? ? Hit Hrest]; subst.
    destruct (growItem (Fin s) ps item) as [ps1 item1] eqn:E1.
    destruct (growPass (Fin s) ps1 rest) as [ps2 rest'] eqn:E2.
    intros [= <- <-].
    simpl in Hsum.
    pose proof (sumActive_nonneg rest Hrest) as Hrest0.
    assert (Hle : (activeGrow item <= r)%Q) by lra.
    destruct (growItem_inv s r c ps ps1 item item1 Hs Hr Hc Hit Hle E1)
      as (r1 & c1 & Hr1 & Hc1 & Hsum1 & Hit1).
    pose proof (activeGrow_nonneg item1 Hit1) as H1.
    assert (HA1 : (0 <= A + activeGrow item1)%Q) by lra.
    assert (Hs1 : (r1 == (A + activeGrow item1) + sumActive rest)%Q) by lra.
    destruct (IH ps1 ps2 rest' r1 c1 _ Hr1 Hc1 HA1 Hs1 Hrest E2)
      as (r2 & c2 & Hr2 & Hc2 & Hsum2 & Hrest').
    exists r2, c2. split; [exact Hr2 |]. split; [exact Hc2 |]. split.
    + simpl. lra.
    + constructor; assumption.
Qed.


(** The first pass gives the loop its invariant. *)
Lemma item_wf_inv (it : FlexItem) : item_wf it → item_inv it.
Proof.
  intros (_ & Ht & (b & Hb & Hb0) & Hg & _ & Hmn & Hmx).
  split; [exact Hg |]. split; [| split; assumption].
  exists b. rewrite Ht. auto.
Qed.

Lemma item_wf_active (it : FlexItem) :
  item_wf it → fi_flexGrow it = Fin (activeGrow it).
Proof.
  intros (Hc & _ & _ & (g & Hg & _) & _). unfold activeGrow.
  rewrite Hc, Hg. reflexivity.
Qed.

Lemma sumGrow_active (items : list FlexItem) :
  Forall item_wf items →
  ∀ a : Q, ∃ r,
    fold_left (λ acc it, (acc + fi_flexGrow it)%num) items (Fin a) = Fin r
    ∧ (r == a + sumActive items)%Q.
Proof.
  induction 1 as [| it items Hit _ IH]; intros a; simpl.
  - exists a. split; [reflexivity | lra].
  - rewrite (item_wf_active it Hit). simpl.
    destruct (IH (a + activeGrow it)%Q) as (r & Hr & Hsum).
    exists r. split; [exact Hr | lra].
Qed.


(** *** The grow loop ends within one pass per item *)

(** A pass changes neither the grow factor of an item nor, for a
    constrained item, its membership in [constrainedItems]: an item that is
    active after the pass was active before. *)
Lemma growItem_active (sp : num) (ps ps' : PassState)
    (item item' : FlexItem) :
  growItem sp ps item = (ps', item') →
  isActive item' = true → isActive item = true.
Proof.
  unfold growItem.
  destruct (fi_constrained item) eqn:Ec; [intros [= <- <-]; auto |].
  destruct (fi_flexGrow item >? Fin 0)%num eqn:Eg;
    [| intros [= <- <-]; auto].
  intros _ _. unfold isActive. rewrite Ec, Eg. reflexivity.
Qed.

Lemma growPass_count_le (sp : num) (items : list FlexItem) :
  ∀ ps ps' items',
    growPass sp ps items = (ps', items') →
    (countActive items' <= countActive items)%nat.
Proof.
  induction items as [| item rest IH]; intros ps ps' items'; simpl.
  - intros [= <- <-]. reflexivity.
  - destruct (growItem sp ps item) as [ps1 item1] eqn:E1.
    destruct (growPass sp ps1 rest) as [ps2 rest'] eqn:E2.
    intros [= <- <-]. simpl.
    pose proof (IH _ _ _ E2) as Hle.
    pose proof (growItem_active _ _ _ _ _ E1) as Hact.
    destruct (isActive item1); [rewrite Hact by reflexivity; lia |].
    destruct (isActive item); lia.
Qed.

(** An item that is as active after the pass as before took its whole
    share and left the remaining grow factor alone. *)
Lemma growItem_exact (s r c : Q) (ps ps' : PassState)
    (item item' : FlexItem) :
  (0 < s)%Q →
  remainingFlexGrow ps = Fin r → spaceConsumedThisPass ps = Fin c →
  item_inv item → (activeGrow item <= r)%Q →
  growItem (Fin s) ps item = (ps', item') →
  isActive item' = isActive item →
  remainingFlexGrow ps' = Fin r
  ∧ activeGrow item' = activeGrow item
  ∧ ∃ c', spaceConsumedThisPass ps' = Fin c'
          ∧ (c' == c + activeGrow item * s / r)%Q.
Proof.
  intros Hs Hr Hc Hinv Hle.
  pose proof Hinv as ((g & Hg & Hg0) & (t & Ht & Ht0) & Hmn & Hmx).
  unfold growItem.
  destruct (fi_constrained item) eqn:Ec.
  { intros [= <- <-] _. split; [exact Hr |]. split; [reflexivity |].
    exists c. split; [exact Hc |]. unfold activeGrow. rewrite Ec.
    unfold Qdiv. ring. }
  rewrite Hg. unfold ngt at 1. simpl nlt.
  assert (Hact : activeGrow item = g)
    by (unfold activeGrow; rewrite Ec, Hg; reflexivity).
  destruct (Qltb 0 g) eqn:Lg.
  2:{ intros [= <- <-] _. split; [exact Hr |]. split; [reflexivity |].
      exists c. split; [exact Hc |]. rewrite Hact.
      apply Qltb_ge in Lg. assert (E : (g == 0)%Q) by lra.
      rewrite E. unfold Qdiv. ring. }
  apply Qltb_lt in Lg.
  rewrite Hact in Hle. rewrite Hact.
  assert (Hr0 : (0 < r)%Q) by lra.
  rewrite Hr, Ht. simpl ndiv. rewrite (Qeqb_pos r Hr0). simpl nmul.
  simpl nadd.
  assert (Hnew : (0 <= t + g / r * s)%Q).
  { pose proof (Qdiv_nonneg g r Hg0 Hr0) as Hk.
    pose proof (Qmult_le_0_compat _ _ Hk (Qlt_le_weak _ _ Hs)). lra. }
  destruct (grow_min_stage (fi_min item) _ Hmn Hnew)
    as (q1 & b1 & E1 & Hq1 & Hb1).
  rewrite E1.
  destruct (grow_max_stage (fi_max item) q1 b1 Hmx Hq1)
    as (q2 & b2 & E2 & Hq2 & Hb2).
  rewrite E2, Hc. simpl nsub. simpl nadd.
  destruct b2; intros [= <- <-].
  - unfold isActive. simpl. rewrite Ec, Hg. unfold ngt. simpl.
    destruct (Qltb 0 g) eqn:L; [discriminate |].
    apply Qltb_ge in L. lra.
  - intros _. destruct (Hb2 eq_refl) as [-> ->].
    rewrite (Hb1 eq_refl).
    split; [reflexivity |]. split.
    + unfold activeGrow. simpl. rewrite Hg. reflexivity.
    + eexists. split; [reflexivity |]. unfold Qdiv. ring.
Qed.

(** A pass that constrains no item consumes the share of every active
    item and leaves the remaining grow factor alone. *)
Lemma growPass_exact (s : Q) (items : list FlexItem) :
  (0 < s)%Q →
  ∀ (ps ps' : PassState) (items' : list FlexItem) (r c A : Q),
    remainingFlexGrow ps = Fin r → spaceConsumedThisPass ps = Fin c →
    (0 <= A)%Q → (r == A + sumActive items)%Q →
    Forall item_inv items →
    growPass (Fin s) ps items = (ps', items') →
    countActive items' = countActive items →
    remainingFlexGrow ps' = Fin r
    ∧ ∃ c', spaceConsumedThisPass ps' = Fin c'
            ∧ (c' == c + sumActive items * s / r)%Q.
Proof.
  intros Hs. induction items as [| item rest IH];
    intros ps ps' items' r c A Hr Hc HA Hsum Hall; simpl.
  - intros [= <- <-] _. split; [exact Hr |]. exists c.
    split; [exact Hc |]. unfold Qdiv. ring.
  - inversion Hall as [| ? ? Hit Hrest]; subst.
    destruct (growItem (Fin s) ps item) as [ps1 item1] eqn:E1.
    destruct (growPass (Fin s) ps1 rest) as [ps2 rest'] eqn:E2.
    intros [= <- <-]. simpl. intros Hcount.
    pose proof (growPass_count_le _ _ _ _ _ E2) as Hle2.
    pose proof (growItem_active _ _ _ _ _ E1) as Hact.
    assert (Hsame : isActive item1 = isActive item
                    ∧ countActive rest' = countActive rest).
    { destruct (isActive item1).
      - rewrite Hact in * by reflexivity. split; [reflexivity | lia].
      - destruct (isActive item); [lia | split; [reflexivity | lia]]. }
    destruct Hsame as [Hsame Hcount'].
    simpl in Hsum.
    pose proof (sumActive_nonneg rest Hrest) as Hrest0.
    assert (Hle : (activeGrow item <= r)%Q) by lra.
    destruct (growItem_inv s r c ps ps1 item item1 Hs Hr Hc Hit Hle E1)
      as (_ & _ & _ & _ & _ & Hit1).
    destruct (growItem_exact s r c ps ps1 item item1 Hs Hr Hc Hit Hle E1
                Hsame) as (Hr1 & Hg1 & c1 & Hc1 & Hc1eq).
    pose proof (activeGrow_nonneg item Hit) as H0.
    assert (HA1 : (0 <= A + activeGrow item)%Q) by lra.
    assert (Hs1 : (r == (A + activeGrow item) + sumActive rest)%Q) by lra.
    destruct (IH ps1 ps2 rest' r c1 _ Hr1 Hc1 HA1 Hs1 Hrest E2 Hcount')
      as (Hr2 & c2 & Hc2 & Hc2eq).
    split; [exact Hr2 |]. exists c2. split; [exact Hc2 |].
    rewrite Hc2eq, Hc1eq. unfold Qdiv. ring.
Qed.

(** Without active items the remaining grow factor is zero. *)
Lemma sumActive_zero (items : list FlexItem) :
  Forall item_inv items → countActive items = 0%nat →
  (sumActive items == 0)%Q.
Proof.
  induction 1 as [| it items Hit _ IH]; simpl; [reflexivity |].
  destruct (isActive it) eqn:E; [discriminate |]. intros H0.
  rewrite (IH H0).
  destruct Hit as ((g & Hg & Hg0) & _).
  unfold isActive in E. unfold activeGrow.
  destruct (fi_constrained it); [lra |]. simpl in E.
  rewrite Hg in *. unfold ngt in E. simpl in E. apply Qltb_ge in E. lra.
Qed.

(** The loop does nothing once its test fails. *)
Lemma growLoop_exit (fuel : nat) (space grow : num) (flexing : bool)
    (items : list FlexItem) :
  (space >? Fin 0.1)%num && (grow >? Fin 0)%num && flexing = false →
  growLoop fuel space grow flexing items = items.
Proof. intros G. destruct fuel; cbn [growLoop]; [| rewrite G]; reflexivity. Qed.

(** As many passes as there are active items bring the loop to its end:
    more fuel does not change the result. *)
Lemma growLoop_stable (fuel : nat) :
  ∀ (k : nat) (space grow : num) (flexing : bool) (items : list FlexItem),
    is_fin space →
    (∃ r, grow = Fin r ∧ (r == sumActive items)%Q) →
    Forall item_inv items →
    (countActive items <= fuel)%nat →
    growLoop (fuel + k) space grow flexing items
    = growLoop fuel space grow flexing items.
Proof.
  induction fuel as [| fuel IH];
    intros k space grow flexing items Hsp Hgr Hall Hn.
  - destruct Hgr as (r & -> & Hr). cbn [growLoop].
    apply growLoop_exit.
    assert (H0 : (sumActive items == 0)%Q)
      by (apply sumActive_zero; [exact Hall | lia]).
    assert (G : (Fin r >? Fin 0)%num = false)
      by (unfold ngt; simpl; apply Qltb_ge; lra).
    rewrite G. apply andb_false_iff. left. apply andb_false_r.
  - change (S fuel + k)%nat with (S (fuel + k)). cbn [growLoop].
    destruct ((space >? Fin 0.1)%num && (grow >? Fin 0)%num && flexing) eqn:G;
      [| reflexivity].
    apply andb_true_iff in G as [G _]. apply andb_true_iff in G as [Gs _].
    destruct space as [s | | |]; try contradiction.
    destruct Hgr as (r & -> & Hr).
    unfold ngt in Gs. simpl in Gs. apply Qltb_lt in Gs.
    assert (Hs : (0 < s)%Q) by (revert Gs; unfold Qlt; simpl; lia).
    destruct (growPass (Fin s) (mkPassState (Fin r) (Fin 0) false) items)
      as [ps items'] eqn:E.
    assert (Hr0 : (r == 0 + sumActive items)%Q) by lra.
    destruct (growPass_inv s items Hs (mkPassState (Fin r) (Fin 0) false)
                ps items' r 0%Q 0%Q eq_refl eq_refl (Qle_refl 0) Hr0 Hall E)
      as (r' & c' & Hr' & Hc' & Hsum' & Hall').
    destruct (spaceConsumedThisPass ps <? Fin 0.01)%num eqn:Small;
      [reflexivity |].
    pose proof (growPass_count_le _ _ _ _ _ E) as Hle.
    destruct (Nat.eq_dec (countActive items') (countActive items))
      as [Heq | Hne].
    + (* no item was constrained: the pass took all the space *)
      destruct (growPass_exact s items Hs (mkPassState (Fin r) (Fin 0) false)
                  ps items' r 0%Q 0%Q eq_refl eq_refl (Qle_refl 0) Hr0 Hall E
                  Heq) as (_ & c2 & Hc2 & Hc2eq).
      rewrite Hc2.
      assert (Hpos : (0 < r)%Q).
      { destruct (Qlt_le_dec 0 r) as [H | H]; [exact H |].
        exfalso. rewrite Hc2 in Small. simpl in Small.
        apply Qltb_ge in Small.
        assert (Hz : (sumActive items == 0)%Q).
        { pose proof (sumActive_nonneg items Hall). lra. }
        rewrite Hz in Hc2eq. revert Hc2eq Small.
        unfold Qdiv. intros Hc2eq Small.
        assert (Hc0 : (c2 == 0)%Q) by (rewrite Hc2eq; ring).
        rewrite Hc0 in Small. revert Small. unfold Qle. simpl. lia. }
      assert (Hall_s : (c2 == s)%Q).
      { rewrite Hc2eq, <- Hr. field. lra. }
      assert (Gout : (Fin s - Fin c2 >? Fin 0.1)%num = false).
      { unfold ngt. simpl. apply Qltb_ge. rewrite Hall_s.
        unfold Qle, Qminus, Qplus, Qopp. simpl. lia. }
      rewrite !growLoop_exit by (rewrite Gout; reflexivity). reflexivity.
    + apply IH.
      * rewrite Hc'. exact I.
      * exists r'. split; [exact Hr' | lra].
      * exact Hall'.
      * lia.
Qed.

(** The fuel of [flexTargets] is enough: on items as the first pass builds
    them, any longer run of the grow loop gives the same targets. *)
Lemma flexTargets_fuel (k : nat) (avail : num) (items : list FlexItem) :
  is_fin avail → Forall item_wf items →
  growLoop (S (length items) + k) avail (sumGrow items) true items
  = growLoop (S (length items)) avail (sumGrow items) true items.
Proof.
  intros Hav Hall. apply growLoop_stable.
  - exact Hav.
  - destruct (sumGrow_active items Hall 0%Q) as (r & Hr & Hsum).
    exists r. split; [exact Hr | lra].
  - eapply Forall_impl; [exact Hall | exact item_wf_inv].
  - clear. induction items as [| it items IH]; simpl; [lia |].
    destruct (isActive it); lia.
Qed.

(** *** The targets reach the nodes *)







(** The first pass keeps [totalFlexGrow] equal to the sum of the grow
    factors of the flex items it has collected, and every item it collects
    starts unconstrained at its base size. *)
Lemma classify_totalFlexGrow (acc : Classified) (child : nat)
    (childStyles : gmap string value) (bm : BoxModel)
    (current ms me : num) (minK maxK : string) :
  totalFlexGrow acc = sumGrow (flexItems acc) →
  totalFlexGrow (classify acc child childStyles bm current ms me minK maxK)
  = sumGrow
      (flexItems (classify acc child childStyles bm current ms me minK maxK)).
Proof.
  intros H. unfold classify.
  destruct (_ || _); simpl; [| exact H].
  unfold sumGrow. rewrite fold_left_app. simpl.
  unfold sumGrow in H. rewrite <- H. reflexivity.
Qed.

Lemma classify_fresh (acc : Classified) (child : nat)
    (childStyles : gmap string value) (bm : BoxModel)
    (current ms me : num) (minK maxK : string) :
  Forall (λ it, fi_constrained it = false ∧ fi_target it = fi_base it)
         (flexItems acc) →
  Forall (λ it, fi_constrained it = false ∧ fi_target it = fi_base it)
    (flexItems (classify acc child childStyles bm current ms me minK maxK)).
Proof.
  intros H. unfold classify.
  destruct (_ || _); simpl; [| exact H].
  apply Forall_app. split; [exact H |]. constructor; [| constructor].
  simpl. auto.
Qed.




(** ** The root is laid out as [relative] (claim C8) *)

Lemma display_truthy (styles : gmap string value) :
  truthy (lp_display (layoutPropsOf styles)) = true.
Proof.
  simpl. unfold or_else. destruct (styles !! "display") as [v |]; [| done].
  by destruct (truthy v) eqn:E.
Qed.

(** [processInstance] does what the claim says: for a node without a
    parent the layout properties it works with have the position
    [relative], so the guard of the flow layout holds whatever the style
    of the node. *)
Lemma prepareInstance_root (w w' : World) (i : nat) (lp : LayoutProps) :
  prepareInstance i w = (lp, w') → parent (node w' i) = None →
  lp_position lp = VStr "relative" ∧ flowAllowed lp = true.
Proof.
  unfold prepareInstance, getLayoutProperties.
  unfold mbind, M_bind, bind, get_node, ret.
  destruct (applyStylesToInstance i (getInstanceStyles w i) w) as [[] w1].
  destruct (ensureStyles i w1) as [[] w2].
  intros [= <- <-] Hp. rewrite Hp.
  split; [reflexivity |].
  unfold flowAllowed, set_position. cbn [lp_display lp_position].
  rewrite display_truthy. reflexivity.
Qed.

(** Claim C8 holds of [processInstance] and fails of the debug driver.
    On a root whose style says [position: absolute], [processInstance]
    runs the flow layout and puts the child at [(30, 40)], inside the
    padding of the root.  The generator tests the position of the style
    as it stands.  [enableDebugMode] takes the record of step 1 of the
    root; the records [nextStep] hands out after it go from
    ["4.1. Completed in-flow child 1/1"] straight to step 7 of the root,
    without the two records of its step 5, and when the run is over the
    child is still at [(0, 0)]. *)
Theorem debug_driver_skips_root_flow :
  let w := exec (processInstance 2 0) absolute_root in
  let run := debugRun 100
               (UILayoutDebug.enableDebugMode 2 0
                  (UILayoutDebug.create absolute_root)) in
  (x (node w 1), y (node w 1)) = (Fin 30, Fin 40)
  ∧ UILayoutDebug.debugMode run.2 = false
  ∧ (x (node (UILayoutDebug.layout run.2) 1),
     y (node (UILayoutDebug.layout run.2) 1)) = (Fin 0, Fin 0)
  ∧ run.1 = [ "2. Retrieved layout properties";
              "3. Separated children into flow types";
              "4. Processing in-flow children first";
              "4.1. Processing in-flow child 1/1";
              "1. Applied styles to instance";
              "2. Retrieved layout properties";
              "3. Separated children into flow types";
              "4. Processing in-flow children first";
              "5. Applying normal flow layout";
              "5. Normal flow layout applied";
              "7. Processing out-of-flow children";
              "Layout complete for instance";
              "4.1. Completed in-flow child 1/1";
              "7. Processing out-of-flow children";
              "Layout complete for instance" ].
Proof. vm_compute. repeat split. Qed.

(** ** The armed debug driver (claim C9) *)


(** The generator yields before it returns: its first run from any store
    stops at the record of step 1. *)
Lemma generator_starts_with_a_yield (fuel : nat) (instance : nat) (w : World) :
  ∃ s k w', processInstanceStepByStep (S fuel) instance w = (Yield s k, w').
Proof.
  simpl. unfold mbind, Gen_bind, gbind, run, yieldInstance.
  unfold mbind, Gen_bind, gbind, run. simpl.
  destruct (applyStylesToInstance instance (getInstanceStyles w instance) w)
    as [[] w1].
  simpl. eauto.
Qed.

(** [UILayoutDebug.enableDebugMode] leaves the driver armed. *)
Lemma enableDebugMode_armed (fuel : nat) (root : nat) (d : UILayoutDebug.t) :
  UILayoutDebug.debugMode (UILayoutDebug.enableDebugMode (S fuel) root d) = true.
Proof.
  unfold UILayoutDebug.enableDebugMode.
  destruct (generator_starts_with_a_yield fuel root (UILayoutDebug.layout d))
    as (s & k & w' & E).
  set (g := processInstanceStepByStep (S fuel) root) in *.
  unfold UILayoutDebug.nextStep. simpl. rewrite E. reflexivity.
Qed.

Lemma advance_yields_armed (pending : list (Gen unit)) (d d' : UILayoutDebug.t)
    (s : StepInfo) :
  UILayoutDebug.debugMode d = true → UILayoutDebug.advance pending d = (Some s, d') →
  UILayoutDebug.debugMode d' = true.
Proof.
  revert d. induction pending as [| g rest IH]; intros d Hd H; [done |].
  simpl in H. destruct (g (UILayoutDebug.layout d)) as [[[] | s' k] w'].
  - destruct rest as [| g' rest']; [done |].
    eapply IH; [| exact H]. done.
  - injection H as _ <-. done.
Qed.

(** As long as [UILayoutDebug.nextStep] hands out a step the driver stays armed ... *)
Lemma nextStep_yields_armed (d d' : UILayoutDebug.t) (s : StepInfo) :
  UILayoutDebug.nextStep d = (Some s, d') → UILayoutDebug.debugMode d' = true.
Proof.
  unfold UILayoutDebug.nextStep. destruct (UILayoutDebug.debugMode d) eqn:Hd; [| done].
  destruct (length (UILayoutDebug.pendingGenerators d) =? 0)%nat; [done |].
  simpl. by apply advance_yields_armed.
Qed.

Lemma advance_done_disarmed (pending : list (Gen unit)) (d d' : UILayoutDebug.t) :
  pending ≠ [] → UILayoutDebug.advance pending d = (None, d') → UILayoutDebug.debugMode d' = false.
Proof.
  revert d. induction pending as [| g rest IH]; intros d Hne H; [done |].
  simpl in H. destruct (g (UILayoutDebug.layout d)) as [[[] | s' k] w'].
  - destruct rest as [| g' rest'].
    + by injection H as <-.
    + eapply IH; [done | exact H].
  - done.
Qed.


(** An armed driver has its [debugMode] flag set. *)
Lemma armed_debugMode (d : UILayoutDebug.t) :
  armed d → UILayoutDebug.debugMode d = true.
Proof.
  induction 1 as [fuel root d | d d' s _ _ Hstep].
  - apply enableDebugMode_armed.
  - by eapply nextStep_yields_armed.
Qed.

(** With the flag set the override of [processInstance] returns at
    once. *)
Lemma debugMode_processInstance (d : UILayoutDebug.t) (fuel instance : nat) :
  UILayoutDebug.debugMode d = true →
  UILayoutDebug.processInstance fuel instance d = d.
Proof.
  intros Hd. unfold UILayoutDebug.processInstance. by rewrite Hd.
Qed.

(** Claim C9.  While the driver is armed ([enableDebugMode] has been
    called and the steps are not exhausted), [processInstance] does
    nothing: the [debugMode] flag is set, the state the call returns is
    the state it was given, and so are the position and the size of every
    node. *)
Theorem armed_processInstance_is_noop (d : UILayoutDebug.t)
    (fuel instance : nat) :
  armed d →
  UILayoutDebug.debugMode d = true
  ∧ UILayoutDebug.processInstance fuel instance d = d
  ∧ ∀ j, geometry (node (UILayoutDebug.layout
                           (UILayoutDebug.processInstance fuel instance d)) j)
         = geometry (node (UILayoutDebug.layout d) j).
Proof.
  intros Ha. pose proof (armed_debugMode d Ha) as Hd.
  split; [exact Hd |].
  rewrite (debugMode_processInstance d fuel instance Hd).
  split; [reflexivity | intros j; reflexivity].
Qed.

Lemma armed_processInstance_is_noop_witness :
  let d := UILayoutDebug.enableDebugMode 3 0
             (UILayoutDebug.create
                (vstack (Fin 0) (Fin 0) (Fin 0, Fin 0, Fin 0, Fin 0)
                        (Fin 0, Fin 0, Fin 0, Fin 0)
                        (Fin 0, Fin 0, Fin 0, Fin 0))) in
  armed d ∧ UILayoutDebug.processInstance 3 0 d = d.
Proof.
  intros d. assert (Ha : armed d) by apply armed_enable.
  split; [exact Ha |].
  apply (armed_processInstance_is_noop d 3 0 Ha).
Defined.

(** ** Re-layout after fit-content (claim C10) *)

Lemma value_is_false (v : value) (s : string) :
  value_is v s = false ↔ v ≠ VStr s.
Proof.
  destruct v as [n | t]; simpl; [split; [intros _ H; discriminate H | done] |].
  rewrite String.eqb_neq. split; [congruence |].
  intros H E. apply H. by rewrite E.
Qed.

(** What [hasFlexChildren] looks for in the computed style of a child. *)
Lemma hasFlexProps_iff (styles : gmap string value) :
  hasFlexProps styles = true
  ↔ (∃ v, styles !! "flexGrow" = Some v ∧ truthy v = true
          ∧ (toNumber v >? Fin 0)%num = true)
    ∨ is_Some (styles !! "flexShrink")
    ∨ (∃ v, styles !! "flexBasis" = Some v ∧ truthy v = true
            ∧ v ≠ VStr "auto").
Proof.
  unfold hasFlexProps. rewrite !orb_true_iff, bool_decide_eq_true.
  split.
  - intros [[H | H] | H].
    + left. destruct (styles !! "flexGrow") as [v |]; [| done].
      apply andb_true_iff in H as [H1 H2]. eauto.
    + right. by left.
    + right. right. destruct (styles !! "flexBasis") as [v |]; [| done].
      apply andb_true_iff in H as [H1 H2]. apply negb_true_iff in H2.
      exists v. split; [done |]. split; [done |]. by apply value_is_false.
  - intros [(v & -> & H1 & H2) | [H | (v & -> & H1 & H2)]].
    + left. left. by rewrite H1, H2.
    + left. by right.
    + right. rewrite H1. apply value_is_false in H2. by rewrite H2.
Qed.

Lemma prepareInstance_flowAllowed (w : World) (i : nat) :
  flowAllowed (eval (prepareInstance i) w)
  = inFlowPosition (eval (prepareInstance i) w).
Proof.
  unfold eval, prepareInstance, getLayoutProperties.
  unfold mbind, M_bind, bind, get_node, ret.
  destruct (applyStylesToInstance i (getInstanceStyles w i) w) as [[] w1].
  destruct (ensureStyles i w1) as [[] w2]. simpl fst.
  unfold flowAllowed, inFlowPosition.
  destruct (parent (node w2 i)); unfold set_position;
    cbn [lp_display lp_position]; by rewrite display_truthy.
Qed.

(** Step 6 on a container that fits its content and has no
    percentage-sized child: fit-content, then the flow layout again when
    the guard holds and some in-flow child has flex properties. *)
Lemma fitContentPhase_flex (i : nat) (lp : LayoutProps) (p : Partition)
    (w : World) :
  lp_fitContent lp = true → percentSizedChildren p = [] →
  exec (fitContentPhase i lp p) w
  = let w5 := exec (applyFitContentSizing i lp) w in
    if flowAllowed lp
       && existsb (λ c, hasFlexProps (stylesOf (node w5 c))) (inFlowChildren p)
    then exec (applyNormalFlowLayout i lp (inFlowChildren p)) w5
    else w5.
Proof.
  intros Hfit Hpct. unfold fitContentPhase. rewrite Hfit, Hpct. simpl.
  rewrite exec_bind. cbv beta. rewrite exec_bind. cbv beta.
  unfold hasFlexChildren at 2. unfold exec at 2. simpl snd.
  unfold hasFlexChildren, eval. simpl fst.
  destruct (flowAllowed lp && _); reflexivity.
Qed.

(** A child that declares no flex property is a fixed item of the flow
    layouts: its shrink factor is the [NaN] that [parseFloat] makes of
    the missing declaration, not the default 1 the source reaches for. *)
Lemma undeclared_flex_is_fixed (acc : Classified) (child : nat)
    (styles : gmap string value) (bm : BoxModel) (current ms me : num)
    (minK maxK : string) :
  styles !! "flexGrow" = None → styles !! "flexShrink" = None →
  flexItems (classify acc child styles bm current ms me minK maxK)
  = flexItems acc.
Proof. intros Hg Hs. unfold classify. rewrite Hg, Hs. reflexivity. Qed.

(** Claim C10: the code diverges from the claim and from its own
    description.  [hasFlexChildren] is documented to answer true if any
    child has flex properties, and the flow layouts take every
    [flexBasis] that is defined and not ["auto"] as set; but
    [hasFlexChildren] tests [flexBasis] for truthiness first, so the
    number 0 that [flex-basis: 0] stores counts as no flex property.  The
    child of [centred_basis] declares a [flexBasis] other than ["auto"],
    [hasFlexChildren] answers false, and the pass does not run the flow
    layout again after fit-content has shrunk the root from 1000 to 100:
    the child stays at [x = 450], where the first layout centred it;
    another run of the flow layouter would move it to [0]. *)
Lemma flex_basis_zero_no_relayout :
  let w := exec (processInstance 2 0) centred_basis in
  let lp := layoutPropsOf (stylesOf (node w 0)) in
  stylesOf (node w 1) !! "flexBasis" = Some (VNum (Fin 0))
  ∧ existsb (λ c, spec_declaresFlex (stylesOf (node w c))) [1] = true
  ∧ existsb (λ c, hasFlexProps (stylesOf (node w c))) [1] = false
  ∧ width (node w 0) =n= Fin 100
  ∧ x (node w 1) =n= Fin 450
  ∧ x (node (exec (applyNormalFlowLayout 0 lp [1]) w) 1) =n= Fin 0.
Proof. vm_compute. repeat split. Qed.

(** Step 6.3 as the code has it.  On a container with [fitContent] and
    without percentage-sized children, [processInstance] runs the flow
    layouter again after fit-content exactly when the position it laid
    the container out with is neither [absolute] nor [anchor] and some
    in-flow child has, in its computed style, a truthy [flexGrow] greater
    than 0, or a defined [flexShrink], or a truthy [flexBasis] other than
    ["auto"]. *)
Theorem relayout_after_fit_content (fuel i : nat) (w : World) :
  let lp := eval (prepareInstance i) w in
  let w1 := exec (prepareInstance i) w in
  let p := eval (partitionChildren (children (node w1 i))) w1 in
  let w2 := exec (partitionChildren (children (node w1 i))) w1 in
  let w3 := exec (forEach (inFlowChildren p) (processInstance fuel)) w2 in
  let w4 :=
    exec (when (flowAllowed lp)
            (applyNormalFlowLayout i lp (inFlowChildren p))) w3 in
  let w5 := exec (applyFitContentSizing i lp) w4 in
  let outOfFlow :=
    forEach (outOfFlowChildren p) (λ child,
      processInstance fuel child ;; applyOutOfFlowLayout child) in
  lp_fitContent lp = true → percentSizedChildren p = [] →
  exec (processInstance (S fuel) i) w
  = exec outOfFlow
      (if inFlowPosition lp
          && existsb (λ c, hasFlexProps (stylesOf (node w5 c)))
                     (inFlowChildren p)
       then exec (applyNormalFlowLayout i lp (inFlowChildren p)) w5
       else w5)
  ∧ ∀ c, hasFlexProps (stylesOf (node w5 c)) = true
         ↔ (∃ v, stylesOf (node w5 c) !! "flexGrow" = Some v
                 ∧ truthy v = true ∧ (toNumber v >? Fin 0)%num = true)
           ∨ is_Some (stylesOf (node w5 c) !! "flexShrink")
           ∨ (∃ v, stylesOf (node w5 c) !! "flexBasis" = Some v
                   ∧ truthy v = true ∧ v ≠ VStr "auto").
Proof.
  intros lp w1 p w2 w3 w4 w5 outOfFlow Hfit Hpct.
  split; [| intros c; apply hasFlexProps_iff].
  rewrite processInstance_phases. cbv zeta.
  fold lp. fold w1. fold p. fold w2. fold w3. fold w4. fold outOfFlow.
  rewrite (fitContentPhase_flex i lp p w4 Hfit Hpct). cbv zeta. fold w5.
  unfold lp at 1. rewrite prepareInstance_flowAllowed. reflexivity.
Qed.

Lemma relayout_after_fit_content_witness :
  let w := centred_shrink in
  let lp := eval (prepareInstance 0) w in
  lp_fitContent lp = true
  ∧ x (node (exec (processInstance 2 0) w) 1) =n= Fin 0.
Proof.
  intros w lp. split; [vm_compute; reflexivity |].
  destruct (relayout_after_fit_content 1 0 w) as [H _];
    [vm_compute; reflexivity | vm_compute; reflexivity |].
  rewrite H. vm_compute. reflexivity.
Defined.

(** ** The host's data and the sizes the positioners leave alone *)

(** A pass of the engine never adds or removes an instance, never touches
    the class registry, and leaves to every node its visibility, tags,
    parent, children, classes, inline style and [doLayout] flag: all it
    writes is the cached style, the position and the size of nodes. *)
Theorem processInstance_keeps_host_data (fuel i : nat) (w : World) :
  length (objects (exec (processInstance fuel i) w)) = length (objects w)
  ∧ registeredClasses (exec (processInstance fuel i) w)
    = registeredClasses w
  ∧ ∀ j, attrs (node (exec (processInstance fuel i) w) j)
         = attrs (node w j).
Proof.
  split; [| split].
  - apply (frame_processInstance (λ w, length (objects w)));
      intros; apply length_update.
  - by apply (frame_processInstance registeredClasses).
  - intros j. apply (frame_processInstance (λ w, attrs (node w j)));
      intros; by apply node_update_proj.
Qed.

(** Positioning never resizes.  The grid layout and the two out-of-flow
    positioners leave the width and the height of every node as they
    are; the vertical flow never changes a width and the horizontal flow
    never changes a height (there is no stretch on the cross axis). *)
Theorem positioning_never_resizes (c : nat) (lp : LayoutProps)
    (l : list nat) (w : World) (j : nat) :
  (width (node (exec (layoutGrid c lp l) w) j),
   height (node (exec (layoutGrid c lp l) w) j))
  = (width (node w j), height (node w j))
  ∧ (width (node (exec (positionAbsolute c lp) w) j),
     height (node (exec (positionAbsolute c lp) w) j))
    = (width (node w j), height (node w j))
  ∧ (width (node (exec (positionAnchor c lp) w) j),
     height (node (exec (positionAnchor c lp) w) j))
    = (width (node w j), height (node w j))
  ∧ (width (node (exec (applyOutOfFlowLayout c) w) j),
     height (node (exec (applyOutOfFlowLayout c) w) j))
    = (width (node w j), height (node w j))
  ∧ width (node (exec (layoutVertical c lp l) w) j) = width (node w j)
  ∧ height (node (exec (layoutHorizontal c lp l) w) j) = height (node w j).
Proof.
  repeat split.
  - apply (frame_layoutGrid (λ w, (width (node w j), height (node w j))));
      intros; f_equal; by apply node_update_proj.
  - apply (frame_positionAbsolute
             (λ w, (width (node w j), height (node w j))));
      intros; f_equal; by apply node_update_proj.
  - apply (frame_positionAnchor
             (λ w, (width (node w j), height (node w j))));
      intros; f_equal; by apply node_update_proj.
  - apply (frame_applyOutOfFlowLayout
             (λ w, (width (node w j), height (node w j))));
      intros; f_equal; by apply node_update_proj.
  - apply (frame_layoutVertical (λ w, width (node w j)));
      intros; by apply node_update_proj.
  - apply (frame_layoutHorizontal (λ w, height (node w j)));
      intros; by apply node_update_proj.
Qed.

(* ===================================================================== *)
(** * The style parser *)
(* ===================================================================== *)

(** ** [kebabToCamel] *)

Lemma kebab_other (a : ascii) (r : string) :
  a ≠ "-"%char → kebabToCamel (String a r) = String a (kebabToCamel r).
Proof.
  intros Ha.
  destruct a as [[] [] [] [] [] [] [] []]; try reflexivity; congruence.
Qed.

Lemma kebab_dash_lower (b : ascii) (r : string) :
  is_lower b = true →
  kebabToCamel (String "-" (String b r)) = String (to_upper b) (kebabToCamel r).
Proof. intros H. cbn [kebabToCamel]. by rewrite H. Qed.

Lemma kebab_dash_other (b : ascii) (r : string) :
  is_lower b = false →
  kebabToCamel (String "-" (String b r))
  = String "-" (kebabToCamel (String b r)).
Proof. intros H. cbn [kebabToCamel]. by rewrite H. Qed.

Lemma upper_not_lower (b : ascii) :
  is_lower b = true →
  is_lower (to_upper b) = false ∧ to_upper b ≠ "-"%char.
Proof.
  destruct b as [[] [] [] [] [] [] [] []]; vm_compute;
    intros H; try discriminate H; (split; [reflexivity | discriminate]).
Qed.

Lemma dash_not_lower : is_lower "-" = false.
Proof. reflexivity. Qed.

(** The conversion never starts its result with a lower-case letter
    unless its argument does. *)
Lemma kebab_head (a : ascii) (r : string) :
  is_lower a = false →
  ∃ c t, kebabToCamel (String a r) = String c t ∧ is_lower c = false.
Proof.
  intros Ha. destruct (decide (a = "-"%char)) as [-> | Hne].
  - destruct r as [| b r'].
    + exists "-"%char, EmptyString. done.
    + destruct (is_lower b) eqn:Hb.
      * rewrite kebab_dash_lower by done.
        eexists _, _. split; [done |]. by apply upper_not_lower.
      * rewrite kebab_dash_other by done. eauto.
  - rewrite kebab_other by done. eauto.
Qed.

Lemma kebabToCamel_fix_length (n : nat) :
  ∀ s, String.length s ≤ n →
       kebabToCamel (kebabToCamel s) = kebabToCamel s.
Proof.
  induction n as [| n IH]; intros s Hl.
  - destruct s; [done | simpl in Hl; lia].
  - destruct s as [| a r]; [done |]. simpl in Hl.
    destruct (decide (a = "-"%char)) as [-> | Hne].
    + destruct r as [| b r']; [done |].
      destruct (is_lower b) eqn:Hb.
      * rewrite kebab_dash_lower by done.
        destruct (upper_not_lower b Hb) as [_ Hu].
        rewrite kebab_other by done. f_equal. apply IH.
        simpl in Hl. lia.
      * rewrite kebab_dash_other by done.
        destruct (kebab_head b r' Hb) as (c & t & E & Hc).
        rewrite E. rewrite kebab_dash_other by done. f_equal.
        rewrite <- E. apply IH. simpl in *. lia.
    + rewrite !kebab_other by done. f_equal. apply IH. lia.
Qed.

Lemma kebabToCamel_fix (s : string) :
  kebabToCamel (kebabToCamel s) = kebabToCamel s.
Proof. by apply (kebabToCamel_fix_length (String.length s)). Qed.

(** Converting a property name twice is converting it once: a converted
    name has no ["-x"] left to convert. *)
Theorem kebabToCamel_idempotent (s : string) :
  kebabToCamel (kebabToCamel s) = kebabToCamel s.
Proof. apply kebabToCamel_fix. Qed.

(** ** [convertValue] *)

Lemma digits_go_count (s : string) :
  ∀ acc n, n ≤ (digits_go acc n s).1.2.
Proof.
  induction s as [| a r IH]; intros acc n; simpl; [done |].
  destruct (digit_of a) as [d |]; simpl; [| done].
  specialize (IH (acc * 10 + d)%Z (S n)). lia.
Qed.

Lemma digit_char (a : ascii) (d : Z) :
  digit_of a = Some d →
  Ascii.is_space a = false ∧ a ≠ "-"%char ∧ a ≠ "+"%char ∧ a ≠ "I"%char.
Proof.
  destruct a as [[] [] [] [] [] [] [] []]; vm_compute;
    intros H; try discriminate H; (repeat split; discriminate).
Qed.

Lemma decimal_tail_fin (X : Z * nat * string) (ip : Z) :
  ∃ q rest,
    (let '(fp, n2, r2) := X in
     let '(e, r3) := exponent_part r2 in
     Some (Fin (scale10
                  match n2 with
                  | O => inject_Z ip
                  | S _ => Qmake (ip * Zpos (pow10 n2) + fp) (pow10 n2)
                  end e), r3))
    = Some (Fin q, rest).
Proof.
  destruct X as [[fp n2] r2]. destruct (exponent_part r2). eauto.
Qed.

Lemma decimal_tail_neg (X : Z * nat * string) (ip : Z) :
  ∃ q rest,
    (let '(fp, n2, r2) := X in
     let '(e, r3) := exponent_part r2 in
     Some (nneg (Fin (scale10
                  match n2 with
                  | O => inject_Z ip
                  | S _ => Qmake (ip * Zpos (pow10 n2) + fp) (pow10 n2)
                  end e)), r3))
    = Some (Fin q, rest).
Proof.
  destruct X as [[fp n2] r2]. destruct (exponent_part r2). simpl. eauto.
Qed.

(** A string that starts with a digit reads as a finite number. *)
Lemma decimal_prefix_digit (a : ascii) (r : string) (d : Z) :
  digit_of a = Some d →
  ∃ q rest, decimal_prefix (String a r) = Some (Fin q, rest).
Proof.
  intros Hd. unfold decimal_prefix.
  pose proof (digits_go_count r (0 * 10 + d)%Z 1) as Hn.
  assert (Hdig : digits (String a r) = digits_go (0 * 10 + d)%Z 1 r)
    by (unfold digits; simpl; by rewrite Hd).
  destruct a as [[] [] [] [] [] [] [] []];
    try (vm_compute in Hd; discriminate Hd);
    cbv iota beta; cbn [startsWith String.prefix];
    (destruct (ascii_dec _ _) as [E | _]; [discriminate E |];
     rewrite Hdig;
     destruct (digits_go (0 * 10 + d)%Z 1 r) as [[ip n1] r1];
     simpl in Hn; destruct n1 as [| n1]; [lia |];
     apply (decimal_tail_fin _ ip)).
Qed.

(** And so does a minus sign followed by a digit. *)
Lemma decimal_prefix_minus (a : ascii) (r : string) (d : Z) :
  digit_of a = Some d →
  ∃ q rest, decimal_prefix (String "-" (String a r)) = Some (Fin q, rest).
Proof.
  intros Hd. unfold decimal_prefix.
  pose proof (digits_go_count r (0 * 10 + d)%Z 1) as Hn.
  assert (Hdig : digits (String a r) = digits_go (0 * 10 + d)%Z 1 r)
    by (unfold digits; simpl; by rewrite Hd).
  cbv iota beta.
  assert (Hinf : startsWith (String a r) "Infinity" = false).
  { unfold startsWith. cbn [String.prefix].
    destruct (ascii_dec "I" a) as [<- | _]; [| done].
    vm_compute in Hd. discriminate Hd. }
  rewrite Hinf, Hdig.
  destruct (digits_go (0 * 10 + d)%Z 1 r) as [[ip n1] r1].
  simpl in Hn. destruct n1 as [| n1]; [lia |].
  apply (decimal_tail_neg _ ip).
Qed.

Lemma unsigned_decimal_head (s : string) :
  is_unsigned_decimal s = true →
  ∃ a r d, s = String a r ∧ digit_of a = Some d.
Proof.
  unfold is_unsigned_decimal, digits. destruct s as [| a r]; [done |].
  simpl. destruct (digit_of a) as [d |] eqn:E; [eauto | done].
Qed.

(** [parseFloat] of a decimal literal is a finite number. *)
Lemma parseFloat_decimal (v : string) :
  is_decimal v = true → ∃ q, parseFloatStr v = Fin q.
Proof.
  intros H. unfold parseFloatStr.
  assert (Hcase : (∃ a r d, v = String a r ∧ digit_of a = Some d)
                  ∨ (∃ a r d, v = String "-" (String a r)
                              ∧ digit_of a = Some d)).
  { unfold is_decimal in H. destruct v as [| c v']; [done |].
    destruct (decide (c = "-"%char)) as [-> | Hne].
    - right. destruct (unsigned_decimal_head v' H) as (a & r & d & -> & Hd).
      eauto.
    - left. apply unsigned_decimal_head.
      destruct c as [[] [] [] [] [] [] [] []]; try exact H; congruence. }
  destruct Hcase as [(a & r & d & -> & Hd) | (a & r & d & -> & Hd)].
  - destruct (digit_char a d Hd) as (Hsp & _).
    cbn [str_drop_space]. rewrite Hsp.
    destruct (decimal_prefix_digit a r d Hd) as (q & rest & ->). eauto.
  - cbn [str_drop_space]. change (Ascii.is_space "-") with false. cbv iota.
    destruct (decimal_prefix_minus a r d Hd) as (q & rest & ->). eauto.
Qed.

(** What [convertValue] returns: a finite number for a decimal literal
    and for a zero with a unit, and the text itself for everything
    else. *)
Lemma convertValue_cases (v : string) :
  match convertValue v with
  | VNum n => is_fin n
  | VStr s => s = v ∧ is_decimal v = false
  end.
Proof.
  unfold convertValue. destruct (is_decimal v) eqn:E.
  - destruct (parseFloat_decimal v E) as (q & ->). exact I.
  - destruct (is_zero_with_unit v); [exact I | done].
Qed.

(** ** [parseFlexShorthand] and [parseStyle] *)

Lemma split_ws_nonempty (s : string) : split_ws s ≠ [].
Proof.
  unfold split_ws.
  match goal with |- ?g _ _ s ≠ [] => set (go := g) end.
  assert (H : ∀ s cur b, go cur b s ≠ []); [| apply H].
  clear s. induction s as [| a r IH]; intros cur b; [done |].
  unfold go. simpl. fold go.
  destruct (Ascii.is_space a); [destruct b; [apply IH | done] | apply IH].
Qed.

(** A style value that is not [NaN] or infinite when it is a number. *)
Lemma parseFlexShorthand_sets (v : string) (cs : gmap string value) :
  ∃ g s b,
    parseFlexShorthand v cs
    = <["flexBasis" := b]> (<["flexShrink" := s]> (<["flexGrow" := g]> cs))
    ∧ (∀ n, g = VNum n → is_fin n)
    ∧ (∀ n, s = VNum n → is_fin n)
    ∧ (∀ n, b = VNum n → is_fin n).
Proof.
  assert (Hc : ∀ p n, convertValue p = VNum n → is_fin n).
  { intros p n E. pose proof (convertValue_cases p) as H.
    by rewrite E in H. }
  assert (H1 : ∀ n : num, VNum (Fin 1) = VNum n → is_fin n)
    by (by intros n [= <-]).
  assert (H0 : ∀ n : num, VNum (Fin 0) = VNum n → is_fin n)
    by (by intros n [= <-]).
  assert (Hs : ∀ (t : string) (n : num), VStr t = VNum n → is_fin n)
    by (intros t n E; discriminate E).
  unfold parseFlexShorthand.
  pose proof (split_ws_nonempty v) as Hne.
  destruct (split_ws v) as [| p0 [| p1 [| p2 rest]]]; [done | | |].
  - repeat case_match; eauto 10.
  - case_match; eauto 10.
  - eauto 10.
Qed.

(** What one line adds to the style under construction. *)
Lemma parseLine_cases (acc : StyleObj) (line : string) :
  parseLine acc line = acc
  ∨ ∃ prop v imp,
      (imp = importantProperties acc
       ∨ imp = importantProperties acc ++ [kebabToCamel prop])
      ∧ ((kebabToCamel prop = "flex"
          ∧ parseLine acc line
            = mkStyleObj (parseFlexShorthand v (computedStyle acc)) imp)
         ∨ (kebabToCamel prop ≠ "flex"
            ∧ parseLine acc line
              = mkStyleObj (<[kebabToCamel prop := convertValue v]>
                              (computedStyle acc)) imp)).
Proof.
  unfold parseLine.
  destruct (String.eqb (trim line) ""); [by left |].
  destruct (cut_at ":" _) as [[p v] |]; [| by left].
  destruct (_ || _); [by left |].
  right. exists (trim p).
  destruct (includes (trim v) "!important");
    (destruct (String.eqb (kebabToCamel (trim p)) "flex") eqn:E;
     [ apply String.eqb_eq in E | apply String.eqb_neq in E ];
     eexists _, _; (split; [| eauto]); eauto).
Qed.

Lemma parseStyle_inv (P : StyleObj → Prop) :
  P (mkStyleObj ∅ []) →
  (∀ acc line, P acc → P (parseLine acc line)) →
  ∀ cssText, P (parseStyle cssText).
Proof.
  intros H0 Hstep cssText. unfold parseStyle.
  destruct (String.eqb cssText ""); [done |].
  generalize (split "010" cssText), (mkStyleObj ∅ []), H0.
  induction l as [| line l IH]; intros acc Hacc; simpl; [done |].
  apply IH, Hstep, Hacc.
Qed.

Lemma flex_keys_camel (k : string) :
  k = "flexBasis" ∨ k = "flexShrink" ∨ k = "flexGrow" →
  kebabToCamel k = k.
Proof. intros [-> | [-> | ->]]; reflexivity. Qed.

(** The keys of a parsed style are in camel case: converting a key
    again gives the key, so a style is read under the names the engine
    asks for, however the text spells them. *)
Theorem parseStyle_keys_camel (cssText k : string) :
  is_Some (computedStyle (parseStyle cssText) !! k) →
  kebabToCamel k = k.
Proof.
  revert k. apply (parseStyle_inv
    (λ acc, ∀ k, is_Some (computedStyle acc !! k) → kebabToCamel k = k)).
  - intros k [v Hv]. cbn [computedStyle] in Hv.
    by rewrite lookup_empty in Hv.
  - intros acc line IH k Hk.
    destruct (parseLine_cases acc line) as
      [E | (prop & v & imp & _ & [[_ E] | [_ E]])]; rewrite E in Hk;
      clear E; [by apply IH | |]; cbn [computedStyle] in Hk.
    + destruct (parseFlexShorthand_sets v (computedStyle acc))
        as (g & s & b & E & _).
      rewrite E in Hk.
      destruct (decide (k = "flexBasis")) as [-> | H1]; [done |].
      destruct (decide (k = "flexShrink")) as [-> | H2]; [done |].
      destruct (decide (k = "flexGrow")) as [-> | H3]; [done |].
      rewrite !lookup_insert_ne in Hk by done. by apply IH.
    + destruct (decide (k = kebabToCamel prop)) as [-> | Hne].
      * apply kebabToCamel_fix.
      * rewrite lookup_insert_ne in Hk by done. by apply IH.
Qed.

Lemma parseStyle_keys_camel_witness :
  is_Some (computedStyle (parseStyle "min-width: 10") !! "minWidth")
  ∧ kebabToCamel "minWidth" = "minWidth".
Proof.
  assert (H : is_Some (computedStyle (parseStyle "min-width: 10")
                         !! "minWidth"))
    by (vm_compute; eauto).
  split; [exact H |].
  exact (parseStyle_keys_camel "min-width: 10" "minWidth" H).
Defined.

(** A string that [convertValue] keeps is one it keeps again. *)
Lemma convertValue_kept (v s : string) :
  convertValue v = VStr s → convertValue s = VStr s.
Proof.
  unfold convertValue.
  destruct (is_decimal v) eqn:E1; [done |].
  destruct (is_zero_with_unit v) eqn:E2; [done |].
  intros [= <-]. by rewrite E1, E2.
Qed.

Lemma convertValue_not_NaN (v : string) : convertValue v ≠ VNum NaN.
Proof.
  intros E. pose proof (convertValue_cases v) as H. by rewrite E in H.
Qed.

(** The three values the shorthand writes: the grow and the shrink
    factor are a constant or a result of [convertValue]; the basis is a
    string, whatever its text. *)
Lemma parseFlexShorthand_values (v : string) (cs : gmap string value) :
  ∃ g s b,
    parseFlexShorthand v cs
    = <["flexBasis" := VStr b]>
        (<["flexShrink" := s]> (<["flexGrow" := g]> cs))
    ∧ g ≠ VNum NaN ∧ s ≠ VNum NaN
    ∧ (∀ t, g = VStr t → convertValue t = VStr t)
    ∧ (∀ t, s = VStr t → convertValue t = VStr t).
Proof.
  pose proof convertValue_not_NaN as Hn.
  pose proof convertValue_kept as Hk.
  assert (H1 : ∀ q : Q, VNum (Fin q) ≠ VNum NaN) by done.
  assert (H2 : ∀ (q : Q) (t : string),
             VNum (Fin q) = VStr t → convertValue t = VStr t) by done.
  unfold parseFlexShorthand.
  pose proof (split_ws_nonempty v) as Hne.
  destruct (split_ws v) as [| p0 [| p1 [| p2 rest]]]; [done | | |].
  - repeat case_match; eauto 12.
  - case_match; eauto 12.
  - eauto 12.
Qed.

(** What [parseStyle] stores.  A number in a parsed style is never
    [NaN]: a value is turned into a number only when it has the form of
    a decimal or is a zero with a unit.  Under every key but
    [flexBasis], a value that is kept as a string is one [convertValue]
    leaves as a string: neither a decimal nor a zero with a unit.  The
    basis is the exception: the shorthand [flex] stores it as text. *)
Theorem parseStyle_values_converted (cssText k : string) :
  (∀ n, computedStyle (parseStyle cssText) !! k = Some (VNum n) → n ≠ NaN)
  ∧ (k ≠ "flexBasis" →
     ∀ s, computedStyle (parseStyle cssText) !! k = Some (VStr s) →
          convertValue s = VStr s).
Proof.
  revert k. apply (parseStyle_inv
    (λ acc, ∀ k,
       (∀ n, computedStyle acc !! k = Some (VNum n) → n ≠ NaN)
       ∧ (k ≠ "flexBasis" →
          ∀ s, computedStyle acc !! k = Some (VStr s) →
               convertValue s = VStr s))).
  - intros k. cbn [computedStyle]. split; [intros n Hk | intros _ s Hk];
      by rewrite lookup_empty in Hk.
  - intros acc line IH k.
    destruct (parseLine_cases acc line) as
      [E | (prop & v & imp & _ & [[_ E] | [_ E]])]; rewrite E; clear E;
      [apply IH | |]; cbn [computedStyle].
    + destruct (parseFlexShorthand_values v (computedStyle acc))
        as (g & s & b & -> & Hg & Hs & Hgs & Hss).
      destruct (decide (k = "flexBasis")) as [-> | H1].
      { rewrite lookup_insert_eq. split; [intros n [=] | done]. }
      rewrite lookup_insert_ne by done.
      destruct (decide (k = "flexShrink")) as [-> | H2].
      { rewrite lookup_insert_eq. split.
        - intros n [= ->] ->. by apply Hs.
        - intros _ t [= ->]. by apply Hss. }
      rewrite lookup_insert_ne by done.
      destruct (decide (k = "flexGrow")) as [-> | H3].
      { rewrite lookup_insert_eq. split.
        - intros n [= ->] ->. by apply Hg.
        - intros _ t [= ->]. by apply Hgs. }
      rewrite lookup_insert_ne by done. apply IH.
    + destruct (decide (k = kebabToCamel prop)) as [-> | Hne].
      * rewrite lookup_insert_eq. split.
        -- intros n [= Hv] ->. by apply (convertValue_not_NaN v).
        -- intros _ s [= Hv]. by apply (convertValue_kept v).
      * rewrite lookup_insert_ne by done. apply IH.
Qed.

Lemma parseStyle_values_converted_witness :
  computedStyle (parseStyle "flex: auto 1px") !! "flexGrow"
  = Some (VStr "auto")
  ∧ "flexGrow" ≠ "flexBasis"
  ∧ convertValue "auto" = VStr "auto".
Proof.
  assert (H : computedStyle (parseStyle "flex: auto 1px") !! "flexGrow"
              = Some (VStr "auto"))
    by (vm_compute; reflexivity).
  assert (Hk : "flexGrow" ≠ "flexBasis") by discriminate.
  split; [exact H |]. split; [exact Hk |].
  exact (proj2 (parseStyle_values_converted "flex: auto 1px" "flexGrow")
               Hk "auto" H).
Defined.

(** Keys are only added: a line of the text never removes one. *)
Lemma parseLine_keeps_keys (acc : StyleObj) (line k : string) :
  is_Some (computedStyle acc !! k) →
  is_Some (computedStyle (parseLine acc line) !! k).
Proof.
  intros Hk.
  destruct (parseLine_cases acc line) as
    [E | (prop & v & imp & _ & [[_ E] | [_ E]])]; rewrite E; clear E;
    [done | |]; cbn [computedStyle].
  - destruct (parseFlexShorthand_sets v (computedStyle acc))
      as (g & s & b & -> & _).
    destruct (decide (k = "flexBasis")) as [-> | H1];
      [by rewrite lookup_insert_eq |].
    rewrite lookup_insert_ne by done.
    destruct (decide (k = "flexShrink")) as [-> | H2];
      [by rewrite lookup_insert_eq |].
    rewrite lookup_insert_ne by done.
    destruct (decide (k = "flexGrow")) as [-> | H3];
      [by rewrite lookup_insert_eq |].
    by rewrite lookup_insert_ne.
  - destruct (decide (k = kebabToCamel prop)) as [-> | Hne];
      [by rewrite lookup_insert_eq | by rewrite lookup_insert_ne].
Qed.

(** The important list against the keys.  The shorthand [flex] is never
    a key of a parsed style.  A property the parser lists as important
    is a key of the style, unless it is [flex]; when [flex] is listed,
    its three longhands are keys. *)
Theorem parseStyle_important_keys (cssText P : string) :
  computedStyle (parseStyle cssText) !! "flex" = None
  ∧ (P ∈ importantProperties (parseStyle cssText) →
     if decide (P = "flex")
     then is_Some (computedStyle (parseStyle cssText) !! "flexGrow")
          ∧ is_Some (computedStyle (parseStyle cssText) !! "flexShrink")
          ∧ is_Some (computedStyle (parseStyle cssText) !! "flexBasis")
     else is_Some (computedStyle (parseStyle cssText) !! P)).
Proof.
  revert P. apply (parseStyle_inv
    (λ acc, ∀ P,
       computedStyle acc !! "flex" = None
       ∧ (P ∈ importantProperties acc →
          if decide (P = "flex")
          then is_Some (computedStyle acc !! "flexGrow")
               ∧ is_Some (computedStyle acc !! "flexShrink")
               ∧ is_Some (computedStyle acc !! "flexBasis")
          else is_Some (computedStyle acc !! P)))).
  - intros P. split; [done |]. intros HP. by apply elem_of_nil in HP.
  - intros acc line IH P. destruct (IH P) as [Hflex Hold]. split.
    { destruct (parseLine_cases acc line) as
        [E | (prop & v & imp & _ & [[_ E] | [Hne E]])]; rewrite E; clear E;
        [done | |]; cbn [computedStyle].
      - destruct (parseFlexShorthand_sets v (computedStyle acc))
          as (g & s & b & -> & _).
        by rewrite !lookup_insert_ne.
      - by rewrite lookup_insert_ne. }
    intros HP.
    assert (Hnew : ∀ k, is_Some (computedStyle acc !! k) →
                        is_Some (computedStyle (parseLine acc line) !! k))
      by (intros k; apply parseLine_keeps_keys).
    assert (Hcarry : P ∈ importantProperties acc →
              if decide (P = "flex")
              then is_Some (computedStyle (parseLine acc line) !! "flexGrow")
                   ∧ is_Some (computedStyle (parseLine acc line)
                                !! "flexShrink")
                   ∧ is_Some (computedStyle (parseLine acc line)
                                !! "flexBasis")
              else is_Some (computedStyle (parseLine acc line) !! P)).
    { intros HP'. specialize (Hold HP'). destruct (decide (P = "flex"));
        [destruct Hold as (G1 & G2 & G3); auto | auto]. }
    destruct (parseLine_cases acc line) as
      [E | (prop & v & imp & Himp & Hres)];
      [apply Hcarry; by rewrite E in HP |].
    assert (Himp' : P ∈ importantProperties acc ∨ P = kebabToCamel prop).
    { destruct Hres as [[_ E] | [_ E]]; rewrite E in HP;
        cbn [importantProperties] in HP;
        (destruct Himp as [-> | ->];
         [by left | apply elem_of_app in HP as [HP | HP];
                    [by left | right; by apply list_elem_of_singleton]]). }
    destruct Himp' as [HP' | ->]; [by apply Hcarry |].
    destruct Hres as [[Ef E] | [Hne E]]; rewrite E; cbn [computedStyle].
    + rewrite Ef. rewrite decide_True by done.
      destruct (parseFlexShorthand_sets v (computedStyle acc))
        as (g & s & b & -> & _).
      split; [by rewrite lookup_insert_ne, lookup_insert_ne,
                         lookup_insert_eq |].
      split; [by rewrite lookup_insert_ne, lookup_insert_eq |].
      by rewrite lookup_insert_eq.
    + rewrite decide_False by done. by rewrite lookup_insert_eq.
Qed.

Lemma parseStyle_important_keys_witness :
  let cs := computedStyle (parseStyle "flex: 2 !important
min-width: 10 !important") in
  "flex" ∈ importantProperties (parseStyle "flex: 2 !important
min-width: 10 !important")
  ∧ cs !! "flex" = None
  ∧ is_Some (cs !! "flexGrow") ∧ is_Some (cs !! "flexShrink")
  ∧ is_Some (cs !! "flexBasis").
Proof.
  intros cs.
  assert (H : "flex" ∈ importantProperties (parseStyle "flex: 2 !important
min-width: 10 !important"))
    by (vm_compute; by left).
  split; [exact H |].
  destruct (parseStyle_important_keys "flex: 2 !important
min-width: 10 !important" "flex") as [H0 H1].
  split; [exact H0 |]. exact (H1 H).
Defined.

(** The shorthand [flex] always defines the three longhands, whatever
    its value, and writes nothing else. *)
Theorem flex_shorthand_total (v : string) (cs : gmap string value)
    (k : string) :
  is_Some (parseFlexShorthand v cs !! "flexGrow")
  ∧ is_Some (parseFlexShorthand v cs !! "flexShrink")
  ∧ is_Some (parseFlexShorthand v cs !! "flexBasis")
  ∧ (if bool_decide (k ∈ ["flexGrow"; "flexShrink"; "flexBasis"])
     then True
     else parseFlexShorthand v cs !! k = cs !! k).
Proof.
  destruct (parseFlexShorthand_sets v cs) as (g & s & b & -> & _).
  split; [by rewrite lookup_insert_ne, lookup_insert_ne, lookup_insert_eq |].
  split; [by rewrite lookup_insert_ne, lookup_insert_eq |].
  split; [by rewrite lookup_insert_eq |].
  case_bool_decide as Hk; [done |].
  rewrite !lookup_insert_ne; [done | | |];
    intros <-; apply Hk; set_solver.
Qed.

(* ===================================================================== *)
(** * The cascade and the registry *)
(* ===================================================================== *)

Lemma last_omap_Some {A B} (f : A → option B) (l : list A) (b : B) :
  last (omap f l) = Some b → ∃ a, a ∈ l ∧ f a = Some b.
Proof.
  induction l as [| a l IH] using rev_ind; [done |].
  rewrite last_omap_snoc. destruct (f a) as [b' |] eqn:E.
  - intros [= <-]. exists a. split; [| done].
    apply elem_of_app. right. by left.
  - intros H. destruct (IH H) as (a' & Ha' & E').
    exists a'. split; [| done]. apply elem_of_app. by left.
Qed.

Lemma last_omap_None {A B} (f : A → option B) (l : list A) :
  last (omap f l) = None → ∀ a, a ∈ l → f a = None.
Proof.
  induction l as [| a l IH] using rev_ind; [by intros _ a Ha; apply elem_of_nil in Ha |].
  rewrite last_omap_snoc. destruct (f a) as [b' |] eqn:E; [done |].
  intros H a' Ha'. apply elem_of_app in Ha' as [Ha' | Ha'].
  - by apply IH.
  - apply list_elem_of_singleton in Ha' as ->. done.
Qed.

(** The merge invents nothing and loses no key: a property of the merged
    style has the value some style object of the list gives it, and a
    property is missing from the merged style only when no style object
    of the list writes it. *)
Theorem mergeStyles_from_the_list (l : list StyleObj) (P : string) :
  match mergeStyles l !! P with
  | Some v => ∃ s, s ∈ l ∧ computedStyle s !! P = Some v
  | None => ∀ s, s ∈ l → computedStyle s !! P = None
  end.
Proof.
  rewrite mergeStyles_cascade. unfold spec_cascade.
  destruct (lastImportantWrite P l) as [v |] eqn:Ei.
  - apply last_omap_Some in Ei as (s & Hs & E). exists s. split; [done |].
    unfold importantWrites in E. by case_bool_decide.
  - destruct (lastWrite P l) as [v |] eqn:Ew.
    + apply last_omap_Some in Ew as (s & Hs & E). by exists s.
    + intros s Hs. by apply (last_omap_None _ _ Ew).
Qed.

(** A single style object merges to its own style, important or not. *)
Lemma mergeStyles_single (s : StyleObj) :
  mergeStyles [s] = computedStyle s.
Proof.
  apply map_eq. intros P. rewrite mergeStyles_cascade.
  unfold spec_cascade, lastImportantWrite, lastWrite, importantWrites, writes.
  simpl. case_bool_decide; destruct (computedStyle s !! P); done.
Qed.

(** Registering a class and reading it back: a node whose class list
    names the class alone and that has no inline style gets the parsed
    style of the class, and registering the name again replaces the
    style. *)
Theorem registerClass_round_trip (w : World) (i : nat)
    (c text text' : string) :
  class_names (classes (node w i)) = [c] → style (node w i) = "" →
  getInstanceStyles (registerClass c text w) i
  = computedStyle (parseStyle text)
  ∧ getInstanceStyles (registerClass c text' (registerClass c text w)) i
    = computedStyle (parseStyle text').
Proof.
  intros Hc Hs.
  assert (H : ∀ w' t, node w' i = node w i →
            getInstanceStyles (registerClass c t w') i
            = computedStyle (parseStyle t)).
  { intros w' t Hn. unfold getInstanceStyles, stylesToMerge.
    change (node (registerClass c t w') i) with (node w' i).
    rewrite Hn, Hc, Hs. simpl. rewrite lookup_insert_eq. simpl.
    apply mergeStyles_single. }
  split; by apply H.
Qed.

Lemma registerClass_round_trip_witness :
  class_names (classes (node card_world 0)) = ["card"]
  ∧ getInstanceStyles (registerClass "card" card_text card_world) 0
    = computedStyle (parseStyle card_text).
Proof.
  assert (H1 : class_names (classes (node card_world 0)) = ["card"])
    by (vm_compute; reflexivity).
  assert (H2 : style (node card_world 0) = "") by reflexivity.
  split; [exact H1 |].
  exact (proj1 (registerClass_round_trip card_world 0 "card" card_text ""
                  H1 H2)).
Defined.

(* ===================================================================== *)
(** * The children that take part in layout *)
(* ===================================================================== *)

Lemma node_out_of_range (w : World) (c : nat) :
  length (objects w) ≤ c → node w c = blank.
Proof.
  intros H. unfold node. rewrite list_lookup_total_alt.
  by rewrite lookup_ge_None_2.
Qed.

Lemma update_out_of_range_eq (c : nat) (f : Instance → Instance)
    (w : World) :
  length (objects w) ≤ c → update c f w = w.
Proof.
  intros H. pose proof (update_out_of_range c f w H) as E.
  destruct w as [objs reg]. unfold update in *. simpl in *. by rewrite E.
Qed.

Lemma same_source_refl (w : World) : same_source w w.
Proof. by split. Qed.

Lemma same_source_styles (w w' : World) (c : nat) :
  same_source w w' → getInstanceStyles w' c = getInstanceStyles w c.
Proof.
  intros [Hr Ha]. specialize (Ha c). unfold attrs in Ha.
  injection Ha as _ _ _ _ Hc Hs _.
  unfold getInstanceStyles, stylesToMerge. by rewrite Hr, Hc, Hs.
Qed.

Lemma same_source_skipped (w w' : World) (c : nat) :
  same_source w w' → skipped (node w' c) = skipped (node w c).
Proof.
  intros [_ Ha]. specialize (Ha c). unfold attrs in Ha.
  injection Ha as Hv _ _ _ _ _ Hd. unfold skipped. by rewrite Hv, Hd.
Qed.

Lemma same_source_cache (w w' : World) (c : nat)
    (s : gmap string value) :
  same_source w w' → same_source w (update c (set_computedStyles s) w').
Proof.
  intros [Hr Ha]. split; [done |]. intros j. rewrite <- Ha.
  by apply node_update_proj.
Qed.

Lemma partitionChildren_loop (l : list nat) :
  partitionChildren l = foldM l partitionStep (mkPartition [] [] []).
Proof. reflexivity. Qed.

Lemma getLayoutChildren_loop (i : nat) (w : World) :
  getLayoutChildren i w = foldM (children (node w i)) layoutChildStep [] w.
Proof. reflexivity. Qed.

Lemma takesPart_filters (w : World) (a : nat) :
  takesPart w a = false →
  inFlowNow w a = false ∧ outOfFlowNow w a = false
  ∧ percentSizedNow w a = false.
Proof.
  intros H. unfold inFlowNow, outOfFlowNow, percentSizedNow.
  by rewrite H.
Qed.

(** The walk of step 3, from any accumulator and any store with the
    source of [w]: the three lists grow by the filtered children, and
    every child that takes part has its style cached afterwards. *)
Lemma partition_walk (w : World) (l : list nat) :
  ∀ (acc : Partition) (w' : World),
    same_source w w' →
    ∃ r w'',
      foldM l partitionStep acc w' = (r, w'')
      ∧ inFlowChildren r = inFlowChildren acc ++ List.filter (inFlowNow w) l
      ∧ outOfFlowChildren r
        = outOfFlowChildren acc ++ List.filter (outOfFlowNow w) l
      ∧ percentSizedChildren r
        = percentSizedChildren acc ++ List.filter (percentSizedNow w) l
      ∧ same_source w w''
      ∧ length (objects w'') = length (objects w')
      ∧ (∀ c, c < length (objects w') →
              (c ∈ l ∧ takesPart w c = true
               ∨ computedStyles (node w' c) = Some (getInstanceStyles w c)) →
              computedStyles (node w'' c) = Some (getInstanceStyles w c)).
Proof.
  induction l as [| a l IH]; intros acc w' Hs.
  - exists acc, w'. cbn [foldM List.filter]. rewrite !app_nil_r.
    do 6 (split; [done |]).
    intros c _ [[Hc _] | Hc]; [by apply elem_of_nil in Hc | done].
  - cbn [foldM]. unfold mbind at 1, M_bind at 1, bind at 1.
    unfold partitionStep at 1.
    unfold mbind at 1, M_bind at 1, bind at 1, get_node at 1.
    pose proof (same_source_skipped w w' a Hs) as Hsk.
    destruct (skipped (node w' a)) eqn:E.
    + assert (Ht : takesPart w a = false)
        by (unfold takesPart; by rewrite <- Hsk).
      destruct (takesPart_filters w a Ht) as (F1 & F2 & F3).
      destruct (IH acc w' Hs) as (r & w'' & Er & H1 & H2 & H3 & H4 & H5 & H6).
      exists r, w''. cbn [List.filter]. rewrite F1, F2, F3.
      unfold ret at 1. rewrite Er.
      do 6 (split; [done |]).
      intros c Hlt [[Hc Hp] | Hc]; apply H6; try done.
      * apply elem_of_cons in Hc as [-> | Hc]; [congruence | by left].
      * by right.
    + assert (Ht : takesPart w a = true)
        by (unfold takesPart; by rewrite <- Hsk).
      unfold mbind at 1, M_bind at 1, bind at 1.
      unfold mbind at 1, M_bind at 1, bind at 1, modify at 1.
      rewrite (same_source_styles w w' a Hs).
      set (s := getInstanceStyles w a).
      set (w1 := update a (set_computedStyles s) w').
      assert (Hs1 : same_source w w1) by by apply same_source_cache.
      assert (Hlen : length (objects w1) = length (objects w'))
        by apply length_alter.
      assert (Hcache : ∀ c, c < length (objects w') →
                (c ∈ l ∧ takesPart w c = true
                 ∨ c = a
                 ∨ computedStyles (node w' c) = Some (getInstanceStyles w c)) →
                c ∈ l ∧ takesPart w c = true
                ∨ computedStyles (node w1 c) = Some (getInstanceStyles w c)).
      { intros c Hlt [Hc | [-> | Hc]]; [by left | right | ].
        - unfold w1, node, update. cbn [objects].
          by rewrite list_lookup_total_alter_eq.
        - destruct (decide (c = a)) as [-> | Hne].
          + right. unfold w1, node, update. cbn [objects].
            by rewrite list_lookup_total_alter_eq.
          + right. unfold w1, node, update. cbn [objects].
            by rewrite list_lookup_total_alter_ne. }
      cbn [List.filter]. unfold inFlowNow at 1, outOfFlowNow at 1,
        percentSizedNow at 1. rewrite Ht. fold s. cbn [andb].
      destruct (is_out_of_flow s) eqn:Eo;
        destruct (hasPercentageSizing s) eqn:Ep; cbv zeta; cbn [negb];
        unfold ret at 1;
        match goal with
        | |- ∃ r w'', foldM l partitionStep ?acc1 w1 = _ ∧ _ =>
            destruct (IH acc1 w1 Hs1)
              as (r & w'' & Er & H1 & H2 & H3 & H4 & H5 & H6);
            exists r, w''; rewrite Er; cbn in H1, H2, H3
        end;
        (split; [done |]);
        (split; [by rewrite H1, <- ?app_assoc |]);
        (split; [by rewrite H2, <- ?app_assoc |]);
        (split; [by rewrite H3, <- ?app_assoc |]);
        (split; [done |]);
        (split; [congruence |]);
        (intros c Hlt Hc; apply H6; [lia |]; apply Hcache; [done |];
         destruct Hc as [[Hc Hp] | Hc]; [| by right; right];
         apply elem_of_cons in Hc as [-> | Hc];
           [by right; left | by left]).
Qed.

(** X: the three lists of step 3 are the children filtered by what the
    host's data says about each one. *)
Theorem partitionChildren_filters (l : list nat) (w : World) :
  let p := eval (partitionChildren l) w in
  inFlowChildren p = List.filter (inFlowNow w) l
  ∧ outOfFlowChildren p = List.filter (outOfFlowNow w) l
  ∧ percentSizedChildren p = List.filter (percentSizedNow w) l.
Proof.
  cbv zeta. rewrite partitionChildren_loop. unfold eval.
  destruct (partition_walk w l (mkPartition [] [] []) w (same_source_refl w))
    as (r & w'' & Er & H1 & H2 & H3 & _).
  rewrite Er. cbn [fst]. by rewrite H1, H2, H3.
Qed.

Lemma stylesToMerge_plain (w : World) (inst : Instance) :
  classes inst = "" → style inst = "" → stylesToMerge w inst = [].
Proof. intros Hc Hs. unfold stylesToMerge. by rewrite Hc, Hs. Qed.

Lemma same_source_blank (w w' : World) (c : nat) :
  same_source w w' → length (objects w') ≤ c →
  getInstanceStyles w c = ∅.
Proof.
  intros [_ Ha] Hlen. specialize (Ha c).
  rewrite (node_out_of_range w' c Hlen) in Ha. unfold attrs in Ha.
  injection Ha as _ _ _ _ Hc Hs _. unfold getInstanceStyles.
  by rewrite (stylesToMerge_plain w (node w c)).
Qed.

(** The walk of [getLayoutChildren] over a store whose cache is filled:
    it collects the in-flow children and writes nothing. *)
Lemma layout_walk (w : World) (l : list nat) :
  ∀ (acc : list nat) (w1 : World),
    same_source w w1 → cached w w1 l →
    foldM l layoutChildStep acc w1
    = (acc ++ List.filter (inFlowNow w) l, w1).
Proof.
  induction l as [| a l IH]; intros acc w1 Hs Hc.
  - cbn [foldM List.filter]. by rewrite app_nil_r.
  - assert (Hc' : cached w w1 l).
    { intros c Hin. apply Hc. by apply elem_of_cons; right. }
    cbn [foldM List.filter]. unfold mbind at 1, M_bind at 1, bind at 1.
    unfold layoutChildStep at 1.
    unfold mbind at 1, M_bind at 1, bind at 1, get_node at 1.
    pose proof (same_source_skipped w w1 a Hs) as Hsk.
    unfold skipped in Hsk at 1.
    unfold inFlowNow at 1, takesPart at 1. rewrite <- Hsk.
    destruct (bool_decide (doLayout (node w1 a) = Some false)) eqn:Ed.
    { rewrite orb_true_r. cbn [negb andb]. unfold ret at 1.
      by apply IH. }
    destruct (isVisible (node w1 a)) eqn:Ev; cbn [negb orb andb].
    2: { unfold ret at 1. by apply IH. }
    assert (Ht : takesPart w a = true).
    { unfold takesPart. rewrite <- (same_source_skipped w w1 a Hs).
      unfold skipped. by rewrite Ed, Ev. }
    unfold mbind at 1, M_bind at 1, bind at 1.
    assert (He : ensureStyles a w1 = (tt, w1)
                 ∧ stylesOf (node w1 a) = getInstanceStyles w a).
    { destruct (decide (a < length (objects w1))) as [Hlt | Hge].
      - assert (E : computedStyles (node w1 a)
                    = Some (getInstanceStyles w a)).
        { apply Hc; [by apply elem_of_cons; left | done | done]. }
        unfold ensureStyles, stylesOf. by rewrite E.
      - assert (Hge' : length (objects w1) ≤ a) by lia.
        unfold ensureStyles, stylesOf.
        rewrite (node_out_of_range w1 a Hge'). cbn [computedStyles default].
        rewrite (update_out_of_range_eq a _ w1 Hge').
        by rewrite (same_source_blank w w1 a Hs Hge'). }
    destruct He as [He1 He2]. rewrite He1.
    unfold mbind at 1, M_bind at 1, bind at 1, get_node at 1.
    rewrite He2.
    destruct (is_out_of_flow (getInstanceStyles w a)); cbn [negb];
      unfold ret at 1; rewrite (IH _ w1 Hs Hc'); [done |].
    by rewrite <- app_assoc.
Qed.

(** X: once step 3 has run on the children of a node, [getLayoutChildren]
    of that node returns the in-flow list of step 3 and writes nothing. *)
Theorem getLayoutChildren_after_partition (i : nat) (w : World) :
  let p := eval (partitionChildren (children (node w i))) w in
  let w1 := exec (partitionChildren (children (node w i))) w in
  getLayoutChildren i w1 = (inFlowChildren p, w1).
Proof.
  cbv zeta. rewrite partitionChildren_loop. unfold eval, exec.
  destruct (partition_walk w (children (node w i)) (mkPartition [] [] []) w
              (same_source_refl w))
    as (r & w'' & Er & H1 & _ & _ & H4 & H5 & H6).
  rewrite Er. cbn [fst snd]. rewrite getLayoutChildren_loop.
  assert (Hch : children (node w'' i) = children (node w i)).
  { destruct H4 as [_ Ha]. specialize (Ha i). unfold attrs in Ha.
    by injection Ha as _ _ _ Hch _ _ _. }
  rewrite Hch, H1. cbn [inFlowChildren app].
  apply (layout_walk w _ [] w'' H4).
  intros c Hin Hlt Ht. apply H6; [lia | by left].
Qed.

(* ===================================================================== *)
(** * The final clamp of percentage sizing *)
(* ===================================================================== *)

Ltac run_monad :=
  unfold exec, eval, mbind, M_bind, bind, get_node, modify, ret, mret, M_ret;
  cbv beta iota.

Ltac at_node Hi :=
  rewrite ?node_update_eq by (rewrite ?length_update; exact Hi);
  cbn [width height set_width set_height fst snd].

(** A size inside its bounds is left alone, and the call says so. *)
Lemma applyMinMax_fixed (w : World) (i : nat) (styles : gmap string value) :
  within (styles !! "minWidth") (styles !! "maxWidth") (width (node w i)) →
  within (styles !! "minHeight") (styles !! "maxHeight")
         (height (node w i)) →
  applyMinMaxConstraints i styles w = ((false, false), w).
Proof.
  intros [W1 W2] [H1 H2]. unfold applyMinMaxConstraints. run_monad.
  destruct (styles !! "minWidth") as [a |];
    [rewrite (W1 a eq_refl) |];
    (destruct (styles !! "maxWidth") as [b |];
       [rewrite (W2 b eq_refl) |]);
    (destruct (styles !! "minHeight") as [c |];
       [rewrite (H1 c eq_refl) |]);
    (destruct (styles !! "maxHeight") as [d |];
       [rewrite (H2 d eq_refl) |]);
    reflexivity.
Qed.

Lemma ngt_irrefl (a : num) : (a >? a)%num = false.
Proof. apply nlt_irrefl. Qed.

(** After the call both sizes are inside their bounds, as long as the
    bounds are not crossed. *)
Lemma applyMinMax_within (w : World) (i : nat)
    (styles : gmap string value) :
  i < length (objects w) →
  uncrossed (styles !! "minWidth") (styles !! "maxWidth") →
  uncrossed (styles !! "minHeight") (styles !! "maxHeight") →
  let w' := exec (applyMinMaxConstraints i styles) w in
  within (styles !! "minWidth") (styles !! "maxWidth") (width (node w' i))
  ∧ within (styles !! "minHeight") (styles !! "maxHeight")
           (height (node w' i)).
Proof.
  intros Hi Uw Uh. cbv zeta. unfold applyMinMaxConstraints, within.
  unfold uncrossed in Uw, Uh. run_monad.
  destruct (styles !! "minWidth") as [a |];
    [specialize (λ b, Uw a b eq_refl);
     destruct (width (node w i) <? toNumber a)%num eqn:E1 | clear Uw];
    at_node Hi;
    (destruct (styles !! "maxWidth") as [b |];
     [try specialize (Uw b eq_refl);
      match goal with
      | |- context [if (?p >? ?q)%num then _ else _] =>
          destruct (p >? q)%num eqn:E2
      end |]);
    at_node Hi;
    (destruct (styles !! "minHeight") as [c |];
     [specialize (λ d, Uh c d eq_refl);
      match goal with
      | |- context [if (?p <? ?q)%num then _ else _] =>
          destruct (p <? q)%num eqn:E3
      end | clear Uh]);
    at_node Hi;
    (destruct (styles !! "maxHeight") as [d |];
     [try specialize (Uh d eq_refl);
      match goal with
      | |- context [if (?p >? ?q)%num then _ else _] =>
          destruct (p >? q)%num eqn:E4
      end |]);
    at_node Hi.
  all: repeat split; intros v Hv; try discriminate Hv;
    injection Hv as <-; at_node Hi; unfold ngt in *;
    rewrite ?nlt_irrefl; done.
Qed.

(** [applyMinMaxConstraints] with numeric bounds that are not crossed:
    the width and the height it leaves pass both of their comparisons,
    and a second call finds nothing to do: it reports no constraint and
    returns the store as it is. *)
Theorem applyMinMaxConstraints_settles (w : World) (i : nat)
    (styles : gmap string value) :
  i < length (objects w) →
  numeric (styles !! "minWidth") → numeric (styles !! "maxWidth") →
  numeric (styles !! "minHeight") → numeric (styles !! "maxHeight") →
  uncrossed (styles !! "minWidth") (styles !! "maxWidth") →
  uncrossed (styles !! "minHeight") (styles !! "maxHeight") →
  let w' := exec (applyMinMaxConstraints i styles) w in
  within (styles !! "minWidth") (styles !! "maxWidth") (width (node w' i))
  ∧ within (styles !! "minHeight") (styles !! "maxHeight")
           (height (node w' i))
  ∧ applyMinMaxConstraints i styles w' = ((false, false), w').
Proof.
  intros Hi _ _ _ _ Uw Uh w'.
  destruct (applyMinMax_within w i styles Hi Uw Uh) as [Hw Hh].
  split; [exact Hw |]. split; [exact Hh |].
  by apply applyMinMax_fixed.
Qed.

Lemma applyMinMaxConstraints_settles_witness :
  let styles := computedStyle (parseStyle bounded_style) in
  let w' := exec (applyMinMaxConstraints 0 styles) (single "" 50 10) in
  0 < length (objects (single "" 50 10))
  ∧ applyMinMaxConstraints 0 styles w' = ((false, false), w').
Proof.
  intros styles w'.
  assert (H0 : 0 < length (objects (single "" 50 10))) by (simpl; lia).
  assert (H1 : uncrossed (styles !! "minWidth") (styles !! "maxWidth")).
  { intros a b Ha Hb. vm_compute in Ha, Hb.
    injection Ha as <-. injection Hb as <-. vm_compute. reflexivity. }
  assert (H2 : uncrossed (styles !! "minHeight") (styles !! "maxHeight")).
  { intros a b Ha Hb. vm_compute in Hb. discriminate Hb. }
  assert (N1 : numeric (styles !! "minWidth")).
  { intros v Hv. vm_compute in Hv. injection Hv as <-. by eexists. }
  assert (N2 : numeric (styles !! "maxWidth")).
  { intros v Hv. vm_compute in Hv. injection Hv as <-. by eexists. }
  assert (N3 : numeric (styles !! "minHeight")).
  { intros v Hv. vm_compute in Hv. injection Hv as <-. by eexists. }
  assert (N4 : numeric (styles !! "maxHeight")).
  { intros v Hv. vm_compute in Hv. discriminate Hv. }
  split; [exact H0 |].
  exact (proj2 (proj2 (applyMinMaxConstraints_settles
                         (single "" 50 10) 0 styles H0 N1 N2 N3 N4
                         H1 H2))).
Defined.

(* ===================================================================== *)
(** * The grow loop hands out the free space in proportion *)
(* ===================================================================== *)

Lemma set_target_same (it : FlexItem) :
  set_target (fi_target it) (fi_constrained it) it = it.
Proof. by destruct it. Qed.

(** One item without bounds in one pass: it takes its whole share. *)
Lemma growItem_free (s r c g t : Q) (ps : PassState) (item : FlexItem) :
  (0 < r)%Q →
  remainingFlexGrow ps = Fin r → spaceConsumedThisPass ps = Fin c →
  fi_constrained item = false → fi_flexGrow item = Fin g → (0 <= g)%Q →
  fi_target item = Fin t → unbounded item →
  ∃ c' t' fl,
    growItem (Fin s) ps item
    = (mkPassState (Fin r) (Fin c') fl, set_target (Fin t') false item)
    ∧ (c' == c + g / r * s)%Q ∧ (t' == t + g / r * s)%Q.
Proof.
  intros Hr0 Hr Hc Ec Hg Hg0 Ht [Hmn Hmx]. unfold growItem.
  rewrite Ec, Hg. unfold ngt at 1. simpl nlt.
  destruct (Qltb 0 g) eqn:Lg.
  - rewrite Hr, Ht, Hmn, Hmx, Hc. simpl ndiv. rewrite (Qeqb_pos r Hr0).
    simpl. eexists _, _, _. split; [reflexivity |]. split; ring.
  - apply Qltb_ge in Lg. assert (E : (g == 0)%Q) by lra.
    exists c, t, (stillFlexing ps). split.
    + f_equal; [destruct ps; simpl in *; congruence |].
      rewrite <- Ht, <- Ec. symmetry. apply set_target_same.
    + rewrite E. unfold Qdiv. split; ring.
Qed.

(** A flex item as the first pass builds it, without bounds. *)
Lemma growPass_free (s r : Q) (items : list FlexItem) :
  (0 < r)%Q →
  Forall item_wf items → Forall unbounded items →
  ∀ (ps : PassState) (c : Q),
    remainingFlexGrow ps = Fin r → spaceConsumedThisPass ps = Fin c →
    ∃ c' fl items',
      growPass (Fin s) ps items = (mkPassState (Fin r) (Fin c') fl, items')
      ∧ (c' == c + sumActive items / r * s)%Q
      ∧ Forall2 (λ it it',
           ∃ b, fi_base it = Fin b
                ∧ fi_target it' =n= Fin (b + activeGrow it / r * s))
         items items'.
Proof.
  intros Hr0 Hwf. induction Hwf as [| it items Hit _ IH];
    intros Hub ps c Hr Hc.
  - exists c, (stillFlexing ps), []. split.
    + simpl. f_equal. destruct ps; simpl in *; congruence.
    + split; [simpl; unfold Qdiv; ring | constructor].
  - apply Forall_cons in Hub as [Hu Hub].
    destruct Hit as (Ec & Et & (b & Hb & Hb0) & (g & Hg & Hg0) & _).
    rewrite Hb in Et.
    destruct (growItem_free s r c g b ps it Hr0 Hr Hc Ec Hg Hg0 Et Hu)
      as (c1 & t1 & fl1 & E1 & Hc1 & Ht1).
    destruct (IH Hub (mkPassState (Fin r) (Fin c1) fl1) c1 eq_refl eq_refl)
      as (c2 & fl2 & items' & E2 & Hc2 & HF).
    exists c2, fl2, (set_target (Fin t1) false it :: items').
    assert (Ha : activeGrow it = g)
      by (unfold activeGrow; by rewrite Ec, Hg).
    split; [simpl; by rewrite E1, E2 |]. split.
    + simpl. rewrite Hc2, Hc1, Ha. unfold Qdiv. ring.
    + constructor; [| exact HF]. exists b. split; [exact Hb |].
      simpl. by rewrite Ha.
Qed.

Lemma Forall2_target_eq (r r' s : Q) (items items' : list FlexItem) :
  (r == r')%Q →
  Forall2 (λ it it',
     ∃ b, fi_base it = Fin b
          ∧ fi_target it' =n= Fin (b + activeGrow it / r * s))
    items items' →
  Forall2 (λ it it',
     ∃ b, fi_base it = Fin b
          ∧ fi_target it' =n= Fin (b + activeGrow it / r' * s))
    items items'.
Proof.
  intros E. induction 1 as [| it it' l l' (b & Hb & Ht) _ IH];
    constructor; [| exact IH].
  exists b. split; [exact Hb |].
  destruct (fi_target it'); simpl in *; try done. by rewrite Ht, E.
Qed.

Lemma flex_grow_shares (a : Q) (total : num)
    (items : list FlexItem) :
  (1 # 10 < a)%Q → Forall item_wf items → Forall unbounded items →
  (0 < sumActive items)%Q →
  Forall2 (λ it it',
     ∃ b, fi_base it = Fin b
          ∧ fi_target it'
            =n= Fin (b + activeGrow it / sumActive items * a))
    items (flexTargets (Fin a) (sumGrow items) total items).
Proof.
  intros Ha Hwf Hub HG.
  destruct (sumGrow_active items Hwf 0) as (r & Hr & Er).
  fold (sumGrow items) in Hr.
  assert (Er' : (r == sumActive items)%Q) by (rewrite Er; ring).
  assert (Hr0 : (0 < r)%Q) by (rewrite Er'; exact HG).
  unfold flexTargets. rewrite Hr. unfold ngt. simpl nlt.
  assert (L1 : Qltb 0 a = true) by (apply Qltb_lt; lra).
  assert (L2 : Qltb 0 r = true) by (by apply Qltb_lt).
  rewrite L1, L2. simpl andb.
  destruct (growPass_free a r items Hr0 Hwf Hub
              (mkPassState (Fin r) (Fin 0) false) 0 eq_refl eq_refl)
    as (c' & fl & items' & Ep & Hc' & HF).
  assert (Ec : (c' == a)%Q).
  { rewrite Hc', <- Er'. field. lra. }
  cbn [growLoop]. unfold ngt. simpl nlt.
  assert (L3 : Qltb 0.1 a = true)
    by (apply Qltb_lt; unfold Qlt in *; simpl in *; lia).
  rewrite L3, L2. simpl andb. rewrite Ep.
  cbn [spaceConsumedThisPass remainingFlexGrow stillFlexing]. simpl nlt.
  assert (L4 : Qltb c' 0.01 = false).
  { apply Qltb_ge. rewrite Ec. unfold Qlt, Qle in *; simpl in *; lia. }
  rewrite L4.
  assert (Hexit : ∀ fuel,
            growLoop fuel (Fin a - Fin c')%num (Fin r) fl items' = items').
  { intros fuel. apply growLoop_exit. unfold ngt. simpl nlt.
    assert (L5 : Qltb 0.1 (a - c') = false).
    { apply Qltb_ge. rewrite Ec. unfold Qle; simpl; lia. }
    by rewrite L5. }
  rewrite Hexit. by apply (Forall2_target_eq r).
Qed.

Lemma shares_total (r s : Q) (items items' : list FlexItem) :
  Forall2 (λ it it',
     ∃ b, fi_base it = Fin b
          ∧ fi_target it' =n= Fin (b + activeGrow it / r * s))
    items items' →
  ∃ B T, totalOf fi_base items = Fin B ∧ totalOf fi_target items' = Fin T
         ∧ (T == B + sumActive items / r * s)%Q.
Proof.
  induction 1 as [| it it' l l' (b & Hb & Ht) _ (B & T & HB & HT & E)].
  - exists 0%Q, 0%Q. split; [done |]. split; [done |].
    simpl. unfold Qdiv. ring.
  - destruct (fi_target it') as [t | | |] eqn:Et; try done. simpl in Ht.
    exists (b + B)%Q, (t + T)%Q. simpl. rewrite Hb, Et.
    fold (totalOf fi_base l). fold (totalOf fi_target l').
    rewrite HB, HT. split; [done |]. split; [done |].
    rewrite Ht, E. unfold Qdiv. ring.
Qed.

(** Free space above the threshold of the loop, grow factors that add up
    to more than nothing, no bounds: every flex item ends at its base
    size plus its share [grow / total grow] of the free space, and the
    sizes add up to the base sizes plus the free space. *)
Theorem flex_grow_proportional (a : Q) (total : num)
    (items : list FlexItem) :
  (1 # 10 < a)%Q → Forall item_wf items → Forall unbounded items →
  (0 < sumActive items)%Q →
  let targets := flexTargets (Fin a) (sumGrow items) total items in
  Forall2 (λ it it',
     ∃ b, fi_base it = Fin b
          ∧ fi_target it'
            =n= Fin (b + activeGrow it / sumActive items * a))
    items targets
  ∧ totalOf fi_target targets =n= (totalOf fi_base items + Fin a)%num.
Proof.
  intros Ha Hwf Hub HG targets.
  pose proof (flex_grow_shares a total items Ha Hwf Hub HG) as HF.
  split; [exact HF |].
  destruct (shares_total _ _ _ _ HF) as (B & T & HB & HT & E).
  fold targets in HT. rewrite HB, HT. simpl. rewrite E. field. lra.
Qed.

Lemma flex_grow_proportional_witness :
  Forall item_wf free_items
  ∧ totalOf fi_target
       (flexTargets (Fin 300) (sumGrow free_items) (Fin 0) free_items)
     =n= (totalOf fi_base free_items + Fin 300)%num.
Proof.
  assert (H : Forall item_wf free_items).
  { unfold free_items, item_wf, min_ok, max_ok.
    constructor; [| constructor; [| constructor]]; simpl.
    - split; [reflexivity |]. split; [reflexivity |].
      split; [exists 100%Q; split; [reflexivity | lra] |].
      split; [exists 1%Q; split; [reflexivity | lra] |].
      split; [right; exact I |].
      split; intros v; discriminate.
    - split; [reflexivity |]. split; [reflexivity |].
      split; [exists 50%Q; split; [reflexivity | lra] |].
      split; [exists 2%Q; split; [reflexivity | lra] |].
      split; [right; exact I |].
      split; intros v; discriminate. }
  assert (H1 : (1 # 10 < 300)%Q) by reflexivity.
  assert (H2 : Forall unbounded free_items)
    by (repeat constructor).
  assert (H3 : (0 < sumActive free_items)%Q) by reflexivity.
  split; [exact H |].
  exact (proj2 (flex_grow_proportional 300 (Fin 0) free_items H1 H H2 H3)).
Defined.

(* ===================================================================== *)
(** * The shrink pass takes back the deficit in proportion *)
(* ===================================================================== *)

Lemma shrinkItem_share (a T b : Q) (it : FlexItem) :
  (0 < T)%Q → fi_base it = Fin b → (0 <= b)%Q → fi_min it = None →
  shrinkFits a T it →
  ∃ s t, fi_flexShrink it = Fin s
         ∧ fi_target (shrinkItem (Fin a) (Fin T) it) = Fin t
         ∧ (t == b - Qabs a * (s * b / T))%Q.
Proof.
  intros HT Hb Hb0 Hmn (s & Hs & Hs0 & Hfit). exists s.
  unfold shrinkItem. rewrite Hs, Hb, Hmn. unfold ngt at 1. simpl nlt.
  destruct (Qltb 0 s) eqn:L.
  - simpl ndiv. rewrite (Qeqb_pos T HT). simpl nabs. simpl nmul.
    simpl nsub. simpl nmax.
    assert (Hx : (0 <= b - Qabs a * (s * b / T))%Q).
    { assert (E : (b - Qabs a * (s * b / T)
                   == b * ((T - Qabs a * s) / T))%Q) by (field; lra).
      rewrite E. apply Qmult_le_0_compat; [exact Hb0 |].
      apply Qdiv_nonneg; lra. }
    destruct (Qltb 0 (b - Qabs a * (s * b / T))) eqn:L2.
    + eexists. split; [reflexivity |]. split; reflexivity.
    + apply Qltb_ge in L2. exists 0%Q. split; [reflexivity |].
      split; [reflexivity | lra].
  - apply Qltb_ge in L. assert (E : (s == 0)%Q) by lra.
    exists b. split; [reflexivity |]. split; [reflexivity |].
    rewrite E. unfold Qdiv. ring.
Qed.

Lemma shrink_total (a T : Q) (items : list FlexItem) :
  (0 < T)%Q →
  Forall item_wf items → Forall (λ it, fi_min it = None) items →
  Forall (shrinkFits a T) items →
  ∀ acc : Q, ∃ B S R t,
    totalOf fi_base items = Fin B
    ∧ fold_left (λ acc it, (acc + fi_flexShrink it * fi_base it)%num)
                items (Fin acc) = Fin R
    ∧ (R == acc + S)%Q
    ∧ totalOf fi_target (map (shrinkItem (Fin a) (Fin T)) items) = Fin t
    ∧ (t == B - Qabs a * (S / T))%Q.
Proof.
  intros HT Hwf. induction Hwf as [| it items Hit _ IH];
    intros Hmn Hfit acc.
  - exists 0%Q, 0%Q, acc, 0%Q. simpl.
    repeat (split; [try reflexivity |]); [ring |]. unfold Qdiv. ring.
  - apply Forall_cons in Hmn as [Hm Hmn].
    apply Forall_cons in Hfit as [Hf Hfit].
    destruct Hit as (_ & _ & (b & Hb & Hb0) & _).
    destruct (shrinkItem_share a T b it HT Hb Hb0 Hm Hf)
      as (s & t1 & Hs & Ht1 & E1).
    destruct (IH Hmn Hfit (acc + s * b)%Q)
      as (B & S & R & t & HB & HR & ER & Ht & Et).
    exists (b + B)%Q, (s * b + S)%Q, R, (t1 + t)%Q. simpl.
    fold (totalOf fi_base items).
    fold (totalOf fi_target (map (shrinkItem (Fin a) (Fin T)) items)).
    rewrite Hb, HB, Hs, Ht1, Ht. simpl. rewrite HR.
    split; [reflexivity |]. split; [reflexivity |].
    split; [rewrite ER; ring |]. split; [reflexivity |].
    rewrite E1, Et. field. lra.
Qed.

(** A deficit, shrink factors weighted by the base sizes that add up to
    [T > 0], no minimum, and no item whose share exceeds its base size:
    every flex item gives up [shrink * base / T] of the deficit, and the
    sizes add up to the base sizes less the deficit. *)
Theorem flex_shrink_proportional (a T : Q) (grow : num)
    (items : list FlexItem) :
  (a < 0)%Q → (0 < T)%Q → sumShrink items = Fin T →
  Forall item_wf items → Forall (λ it, fi_min it = None) items →
  Forall (shrinkFits a T) items →
  let targets := flexTargets (Fin a) grow (sumShrink items) items in
  Forall2 (λ it it',
     ∃ b s, fi_base it = Fin b ∧ fi_flexShrink it = Fin s
            ∧ fi_target it' =n= Fin (b - Qabs a * (s * b / T)))
    items targets
  ∧ totalOf fi_target targets =n= (totalOf fi_base items + Fin a)%num.
Proof.
  intros Ha HT HS Hwf Hmn Hfit targets.
  assert (Et : targets = map (shrinkItem (Fin a) (Fin T)) items).
  { unfold targets, flexTargets. rewrite HS. unfold ngt. simpl nlt.
    assert (L1 : Qltb 0 a = false) by (apply Qltb_ge; lra).
    assert (L2 : Qltb a 0 = true) by (by apply Qltb_lt).
    assert (L3 : Qltb 0 T = true) by (by apply Qltb_lt).
    rewrite L1, L2, L3. by destruct grow. }
  rewrite Et. split.
  - clear Et targets HS.
    induction Hwf as [| it items Hit _ IH]; [constructor |].
    apply Forall_cons in Hmn as [Hm Hmn].
    apply Forall_cons in Hfit as [Hf Hfit].
    destruct Hit as (_ & _ & (b & Hb & Hb0) & _).
    destruct (shrinkItem_share a T b it HT Hb Hb0 Hm Hf)
      as (s & t1 & Hs & Ht1 & E1).
    simpl. constructor; [| by apply IH].
    exists b, s. split; [exact Hb |]. split; [exact Hs |].
    rewrite Ht1. exact E1.
  - destruct (shrink_total a T items HT Hwf Hmn Hfit 0)
      as (B & S & R & t & HB & HR & ER & Ht & E).
    fold (sumShrink items) in HR. rewrite HS in HR.
    injection HR as <-. rewrite HB, Ht. simpl. rewrite E.
    assert (ES : (S == T)%Q) by (rewrite ER; ring).
    rewrite ES. rewrite (Qabs_neg a) by lra. field. lra.
Qed.

Lemma flex_shrink_proportional_witness :
  Forall item_wf shrink_items
  ∧ totalOf fi_target
       (flexTargets (Fin (-40)) (Fin 0) (sumShrink shrink_items)
                    shrink_items)
     =n= (totalOf fi_base shrink_items + Fin (-40))%num.
Proof.
  assert (H : Forall item_wf shrink_items).
  { unfold shrink_items, item_wf, min_ok, max_ok.
    constructor; [| constructor; [| constructor]]; simpl.
    - split; [reflexivity |]. split; [reflexivity |].
      split; [exists 100%Q; split; [reflexivity | lra] |].
      split; [exists 0%Q; split; [reflexivity | lra] |].
      split; [right; exact I |].
      split; intros v; discriminate.
    - split; [reflexivity |]. split; [reflexivity |].
      split; [exists 100%Q; split; [reflexivity | lra] |].
      split; [exists 0%Q; split; [reflexivity | lra] |].
      split; [right; exact I |].
      split; intros v; discriminate. }
  assert (H1 : (-40 < 0)%Q) by reflexivity.
  assert (H2 : (0 < 0 + 1 * 100 + 3 * 100)%Q) by reflexivity.
  assert (H3 : sumShrink shrink_items = Fin (0 + 1 * 100 + 3 * 100))
    by reflexivity.
  assert (H4 : Forall (λ it, fi_min it = None) shrink_items)
    by (repeat constructor).
  assert (H5 : Forall (shrinkFits (-40) (0 + 1 * 100 + 3 * 100))
                      shrink_items).
  { constructor; [| constructor; [| constructor]].
    - exists 1%Q. split; [reflexivity |]. split; [lra |].
      vm_compute. discriminate.
    - exists 3%Q. split; [reflexivity |]. split; [lra |].
      vm_compute. discriminate. }
  split; [exact H |].
  exact (proj2 (flex_shrink_proportional (-40) _ (Fin 0) shrink_items
                  H1 H2 H3 H H4 H5)).
Defined.

(* ===================================================================== *)
(** * The life of a debug session *)
(* ===================================================================== *)

Lemma nextStep_stack (d : UILayoutDebug.t) :
  length (UILayoutDebug.pendingGenerators d)
  = (if UILayoutDebug.debugMode d then 1 else 0) →
  length (UILayoutDebug.pendingGenerators (UILayoutDebug.nextStep d).2)
  = if UILayoutDebug.debugMode (UILayoutDebug.nextStep d).2 then 1 else 0.
Proof.
  intros H. unfold UILayoutDebug.nextStep.
  destruct (UILayoutDebug.debugMode d) eqn:Em; simpl.
  2: { by rewrite Em. }
  destruct (UILayoutDebug.pendingGenerators d) as [| g [| g' l]] eqn:Ep;
    try discriminate H.
  simpl. destruct (g (UILayoutDebug.layout d)) as [[a | s k] w']; simpl;
    [reflexivity | by rewrite Em].
Qed.

(** The stack of generators of [nextStep] holds one generator while the
    driver is in debug mode and none otherwise: the branch of [nextStep]
    that pops a finished generator and goes on with the one below is
    never taken. *)
Theorem driver_stack_invariant (d : UILayoutDebug.t) :
  reachable d →
  length (UILayoutDebug.pendingGenerators d)
  = if UILayoutDebug.debugMode d then 1 else 0.
Proof.
  induction 1 as [w | fuel root d _ IH | d _ IH | d _ IH
                 | fuel i d _ IH | f d _ IH].
  - reflexivity.
  - unfold UILayoutDebug.enableDebugMode. by apply nextStep_stack.
  - reflexivity.
  - by apply nextStep_stack.
  - unfold UILayoutDebug.processInstance.
    destruct (UILayoutDebug.debugMode d) eqn:Em; simpl; rewrite ?Em;
      exact IH.
  - exact IH.
Qed.

Lemma driver_stack_invariant_witness :
  reachable (UILayoutDebug.enableDebugMode 2 0
               (UILayoutDebug.create absolute_root))
  ∧ length (UILayoutDebug.pendingGenerators
              (UILayoutDebug.enableDebugMode 2 0
                 (UILayoutDebug.create absolute_root)))
    = if UILayoutDebug.debugMode
           (UILayoutDebug.enableDebugMode 2 0
              (UILayoutDebug.create absolute_root))
      then 1 else 0.
Proof.
  assert (H : reachable (UILayoutDebug.enableDebugMode 2 0
                           (UILayoutDebug.create absolute_root)))
    by (apply reach_enable, reach_create).
  split; [exact H |].
  exact (driver_stack_invariant _ H).
Defined.

Lemma runSteps_S (n : nat) (d : UILayoutDebug.t) :
  UILayoutDebug.runSteps (S n) d
  = match UILayoutDebug.nextStep d with
    | (Some _, d') => UILayoutDebug.runSteps n d'
    | (None, d') => d'
    end.
Proof. reflexivity. Qed.

Lemma nextStep_yield (k k2 : Gen unit) (w w' : World) (s : StepInfo)
    (dg : bool) (di ldi : option StepInfo) :
  k w = (Yield s k2, w') →
  UILayoutDebug.nextStep (UILayoutDebug.mk w true dg [k] di ldi)
  = (Some s, UILayoutDebug.mk w' true dg [k2] (Some s) di).
Proof.
  intros Hk. unfold UILayoutDebug.nextStep. simpl. by rewrite Hk.
Qed.

Lemma nextStep_return (k : Gen unit) (w w' : World) (a : unit)
    (dg : bool) (di ldi : option StepInfo) :
  k w = (Ret a, w') →
  UILayoutDebug.nextStep (UILayoutDebug.mk w true dg [k] di ldi)
  = (None, UILayoutDebug.mk w' false dg [] None di).
Proof.
  intros Hk. unfold UILayoutDebug.nextStep. simpl. by rewrite Hk.
Qed.

(** Stepping a suspended generator to its end. *)
Lemma runSteps_resume (r : Res unit) :
  ∀ (k : Gen unit) (w w' : World) (dg : bool) (di ldi : option StepInfo)
    (m : nat),
    k w = (r, w') →
    let d := UILayoutDebug.runSteps (S (yieldsLeft r w') + m)
               (UILayoutDebug.mk w true dg [k] di ldi) in
    UILayoutDebug.debugMode d = false
    ∧ UILayoutDebug.pendingGenerators d = []
    ∧ UILayoutDebug.layout d = exec (finish k) w.
Proof.
  induction r as [a | s k2 IH] using Res_resume_ind;
    intros k w w' dg di ldi m Hk; cbv zeta.
  - cbn [yieldsLeft Nat.add]. rewrite runSteps_S.
    rewrite (nextStep_return k w w' a dg di ldi Hk).
    unfold exec, finish. rewrite Hk. done.
  - cbn [yieldsLeft]. specialize (IH w').
    destruct (k2 w') as [r2 w2] eqn:E2.
    change (S (S (yieldsLeft r2 w2)) + m)
      with (S (S (yieldsLeft r2 w2) + m)).
    rewrite runSteps_S.
    rewrite (nextStep_yield k k2 w w' s dg di ldi Hk).
    specialize (IH k2 w' w2 dg (Some s) di m E2). cbv zeta in IH.
    destruct IH as (H1 & H2 & H3). split; [exact H1 |].
    split; [exact H2 |]. rewrite H3. unfold exec, finish.
    rewrite Hk, E2. simpl. by rewrite E2.
Qed.

Lemma runSteps_enable (fuel root : nat) (d0 : UILayoutDebug.t) :
  ∃ n, ∀ m,
    let d := UILayoutDebug.runSteps (n + m)
               (UILayoutDebug.enableDebugMode fuel root d0) in
    UILayoutDebug.debugMode d = false
    ∧ UILayoutDebug.pendingGenerators d = []
    ∧ UILayoutDebug.layout d
      = exec (finish (processInstanceStepByStep fuel root))
             (UILayoutDebug.layout d0).
Proof.
  unfold UILayoutDebug.enableDebugMode.
  set (g := processInstanceStepByStep fuel root).
  set (w := UILayoutDebug.layout d0).
  destruct (g w) as [[a | s k] w'] eqn:Eg.
  - rewrite (nextStep_return g w w' a true _ _ Eg). cbn [snd].
    exists 0. intros m. cbv zeta.
    assert (E : ∀ n d, UILayoutDebug.debugMode d = false →
                       UILayoutDebug.runSteps n d = d).
    { intros [| n] d Hd; [reflexivity |]. simpl.
      unfold UILayoutDebug.nextStep. by rewrite Hd. }
    rewrite E by reflexivity. simpl. unfold exec, finish.
    by rewrite Eg.
  - rewrite (nextStep_yield g k w w' s true _ _ Eg). cbn [snd].
    destruct (k w') as [r2 w2] eqn:E2.
    exists (S (yieldsLeft r2 w2)). intros m.
    pose proof (runSteps_resume r2 k w' w2 true (Some s)
                  (UILayoutDebug.debugInfo d0) m E2) as H.
    cbv zeta in H. cbv zeta. destruct H as (H1 & H2 & H3).
    split; [exact H1 |]. split; [exact H2 |]. rewrite H3.
    unfold exec, finish. rewrite Eg, E2. simpl. by rewrite E2.
Qed.

(** A call of [nextStep] outside debug mode returns nothing and leaves
    the driver as it is. *)
Lemma nextStep_idle (d : UILayoutDebug.t) :
  UILayoutDebug.debugMode d = false → UILayoutDebug.nextStep d = (None, d).
Proof. intros Hd. unfold UILayoutDebug.nextStep. by rewrite Hd. Qed.

Lemma nextSteps_idle (m : nat) (d : UILayoutDebug.t) :
  UILayoutDebug.debugMode d = false →
  Nat.iter m (λ d, (UILayoutDebug.nextStep d).2) d = d.
Proof.
  intros Hd. induction m as [| m IH]; [reflexivity |].
  rewrite Nat.iter_succ, IH. by rewrite nextStep_idle.
Qed.

(** Calling [nextStep] on a suspended generator: the driver stays in
    debug mode for as many calls as the generator has yields left, and
    the call after them ends the session. *)
Lemma nextSteps_resume (r : Res unit) :
  ∀ (k : Gen unit) (w w' : World) (dg : bool) (di ldi : option StepInfo),
    k w = (r, w') →
    let press := λ d, (UILayoutDebug.nextStep d).2 in
    let d0 := UILayoutDebug.mk w true dg [k] di ldi in
    let n := S (yieldsLeft r w') in
    (∀ j, j < n → UILayoutDebug.debugMode (Nat.iter j press d0) = true)
    ∧ UILayoutDebug.debugMode (Nat.iter n press d0) = false
    ∧ UILayoutDebug.pendingGenerators (Nat.iter n press d0) = []
    ∧ UILayoutDebug.layout (Nat.iter n press d0) = exec (finish k) w.
Proof.
  induction r as [a | s k2 IH] using Res_resume_ind;
    intros k w w' dg di ldi Hk; cbv zeta.
  - cbn [yieldsLeft]. split.
    { intros j Hj. assert (j = 0) as -> by lia. reflexivity. }
    rewrite Nat.iter_succ. change (Nat.iter 0 ?f ?x) with x.
    rewrite (nextStep_return k w w' a dg di ldi Hk).
    unfold exec, finish. rewrite Hk. done.
  - cbn [yieldsLeft]. specialize (IH w').
    destruct (k2 w') as [r2 w2] eqn:E2.
    specialize (IH k2 w' w2 dg (Some s) di E2). cbv zeta in IH.
    destruct IH as (H0 & H1 & H2 & H3).
    assert (Ei : ∀ j, Nat.iter (S j) (λ d, (UILayoutDebug.nextStep d).2)
                        (UILayoutDebug.mk w true dg [k] di ldi)
                      = Nat.iter j (λ d, (UILayoutDebug.nextStep d).2)
                          (UILayoutDebug.mk w' true dg [k2] (Some s) di)).
    { intros j. rewrite Nat.iter_succ_r.
      by rewrite (nextStep_yield k k2 w w' s dg di ldi Hk). }
    split.
    { intros [| j] Hj; [reflexivity |]. rewrite Ei. apply H0. lia. }
    rewrite Ei. split; [exact H1 |]. split; [exact H2 |].
    etrans; [exact H3 |].
    unfold exec, finish. rewrite Hk, E2. simpl. by rewrite E2.
Qed.

(** A debug session ends, and then stays ended.  After [enableDebugMode]
    there is a number [n] of calls of [nextStep] such that the driver is
    in debug mode before each of them and out of it after them, with an
    empty stack.  Every later call returns nothing and leaves the driver
    as it is.  The store is then the one the body of the generator
    computes when it runs from beginning to end. *)
Theorem debug_session_ends (fuel root : nat) (d0 : UILayoutDebug.t) :
  let press := λ d, (UILayoutDebug.nextStep d).2 in
  let e := UILayoutDebug.enableDebugMode fuel root d0 in
  ∃ n,
    (∀ j, j < n → UILayoutDebug.debugMode (Nat.iter j press e) = true)
    ∧ ∀ m,
        let d := Nat.iter (n + m) press e in
        d = Nat.iter n press e
        ∧ UILayoutDebug.nextStep d = (None, d)
        ∧ UILayoutDebug.debugMode d = false
        ∧ UILayoutDebug.pendingGenerators d = []
        ∧ UILayoutDebug.layout d
          = exec (finish (processInstanceStepByStep fuel root))
                 (UILayoutDebug.layout d0).
Proof.
  cbv zeta.
  set (press := λ d, (UILayoutDebug.nextStep d).2).
  assert (Hend : ∀ n d w,
            UILayoutDebug.debugMode (Nat.iter n press d) = false →
            UILayoutDebug.pendingGenerators (Nat.iter n press d) = [] →
            UILayoutDebug.layout (Nat.iter n press d) = w →
            ∀ m, Nat.iter (n + m) press d = Nat.iter n press d
                 ∧ UILayoutDebug.nextStep (Nat.iter (n + m) press d)
                   = (None, Nat.iter (n + m) press d)
                 ∧ UILayoutDebug.debugMode (Nat.iter (n + m) press d) = false
                 ∧ UILayoutDebug.pendingGenerators
                     (Nat.iter (n + m) press d) = []
                 ∧ UILayoutDebug.layout (Nat.iter (n + m) press d) = w).
  { intros n d w H1 H2 H3 m.
    assert (E : Nat.iter (n + m) press d = Nat.iter n press d).
    { rewrite Nat.add_comm, Nat.iter_add. by apply nextSteps_idle. }
    rewrite E. split; [reflexivity |].
    split; [by apply nextStep_idle |]. done. }
  unfold UILayoutDebug.enableDebugMode.
  set (g := processInstanceStepByStep fuel root).
  set (w := UILayoutDebug.layout d0).
  destruct (g w) as [[a | s k] w'] eqn:Eg.
  - rewrite (nextStep_return g w w' a true _ _ Eg). cbn [snd].
    exists 0. split; [intros j Hj; lia |].
    apply Hend; [reflexivity | reflexivity |].
    change (Nat.iter 0 ?f ?x) with x. cbn [UILayoutDebug.layout].
    unfold exec, finish. by rewrite Eg.
  - rewrite (nextStep_yield g k w w' s true _ _ Eg). cbn [snd].
    destruct (k w') as [r2 w2] eqn:E2.
    pose proof (nextSteps_resume r2 k w' w2 true (Some s)
                  (UILayoutDebug.debugInfo d0) E2) as H.
    cbv zeta in H. fold press in H. destruct H as (H0 & H1 & H2 & H3).
    exists (S (yieldsLeft r2 w2)). split; [exact H0 |].
    apply Hend; [exact H1 | exact H2 |]. rewrite H3.
    unfold exec, finish. rewrite Eg, E2. simpl. by rewrite E2.
Qed.

(* ===================================================================== *)
(** * The debug generator against the pass *)
(* ===================================================================== *)

(** ** Running a generator to its end *)

Lemma finish_bindRes {A B} (r : Res A) (f : A → Gen B) :
  ∀ w, (let '(r2, w2) := bindRes r f w in finishRes r2 w2)
       = (let '(a, w1) := finishRes r w in finish (f a) w1).
Proof.
  induction r as [a | s k IH] using Res_resume_ind; intros w.
  - reflexivity.
  - cbn [bindRes finishRes]. specialize (IH w).
    destruct (k w) as [r' w']. exact (IH w').
Qed.

Lemma finish_bind {A B} (g : Gen A) (f : A → Gen B) (w : World) :
  finish (g ≫= f) w = (let '(a, w1) := finish g w in finish (f a) w1).
Proof.
  unfold mbind, Gen_bind, gbind, finish. destruct (g w) as [r w'].
  apply finish_bindRes.
Qed.

Lemma exec_finish_bind {A B} (g : Gen A) (f : A → Gen B) (w : World) :
  exec (finish (g ≫= f)) w
  = exec (finish (f (eval (finish g) w))) (exec (finish g) w).
Proof.
  unfold exec, eval. rewrite finish_bind. by destruct (finish g w).
Qed.

Lemma finish_run {A} (m : M A) (w : World) : finish (run m) w = m w.
Proof. unfold finish, run. by destruct (m w). Qed.

Lemma exec_finish_run {A} (m : M A) (w : World) :
  exec (finish (run m)) w = exec m w.
Proof. unfold exec. by rewrite finish_run. Qed.

Lemma eval_finish_run {A} (m : M A) (w : World) :
  eval (finish (run m)) w = eval m w.
Proof. unfold eval. by rewrite finish_run. Qed.

Lemma exec_finish_mret (w : World) :
  exec (finish (mret tt : Gen unit)) w = w.
Proof. reflexivity. Qed.

Lemma exec_finish_yieldInstance (label : string) (i : nat) (w : World) :
  exec (finish (yieldInstance label i)) w = w.
Proof. reflexivity. Qed.

Lemma exec_finish_yieldChild (label : string) (i c : nat) (w : World) :
  exec (finish (yieldChild label i c)) w = w.
Proof. reflexivity. Qed.

Lemma exec_finish_gwhen (b : bool) (g : Gen unit) (w : World) :
  exec (finish (gwhen b g)) w = if b then exec (finish g) w else w.
Proof. by destruct b. Qed.

Lemma exec_finish_gforEachIdx_go {A} (l : list A) (F : A → nat → Gen unit)
    (f : A → M unit) :
  (∀ a n w, exec (finish (F a n)) w = exec (f a) w) →
  ∀ n w, exec (finish (gforEachIdx_go n l F)) w = exec (forEach l f) w.
Proof.
  intros H. induction l as [| a l IH]; intros n w; [reflexivity |].
  cbn [gforEachIdx_go forEach]. rewrite exec_finish_bind, exec_bind.
  by rewrite IH, H.
Qed.

Lemma exec_when (b : bool) (m : M unit) (w : World) :
  exec (when b m) w = if b then exec m w else w.
Proof. by destruct b. Qed.

(** The generator phase by phase, without its records. *)
Lemma generator_phases (fuel i : nat) (w : World) :
  exec (finish (processInstanceStepByStep (S fuel) i)) w
  = let w1 := exec (applyStylesToInstance i (getInstanceStyles w i)) w in
    let lp := eval (getLayoutProperties i) w1 in
    let w1' := exec (getLayoutProperties i) w1 in
    let p := eval (partitionChildren (children (node w1' i))) w1' in
    let w2 := exec (partitionChildren (children (node w1' i))) w1' in
    let w3 :=
      exec (forEach (inFlowChildren p)
              (λ child, finish (processInstanceStepByStep fuel child))) w2 in
    let w4 :=
      exec (when (flowAllowed lp)
              (applyNormalFlowLayout i lp (inFlowChildren p))) w3 in
    let w5 :=
      if lp_fitContent lp then
        let w41 := exec (applyFitContentSizing i lp) w4 in
        if (0 <? length (percentSizedChildren p))%nat then
          exec (when (flowAllowed lp)
                  (applyNormalFlowLayout i lp (inFlowChildren p)))
               (exec (forEach (percentSizedChildren p)
                        applyPercentageSizing) w41)
        else w41
      else w4 in
    exec (forEach (outOfFlowChildren p) (λ child,
            finish (processInstanceStepByStep fuel child) ;;
            applyOutOfFlowLayout child)) w5.
Proof.
  cbn [processInstanceStepByStep]. unfold gforEachIdx.
  repeat first
    [ rewrite exec_finish_bind
    | rewrite exec_finish_run
    | rewrite eval_finish_run
    | rewrite exec_finish_yieldInstance
    | rewrite exec_finish_gwhen
    | progress cbv beta ].
  rewrite (exec_finish_gforEachIdx_go _ _ (λ child,
             finish (processInstanceStepByStep fuel child) ;;
             applyOutOfFlowLayout child)).
  2: { intros a n w0.
       repeat first
         [ rewrite exec_finish_bind | rewrite exec_finish_run
         | rewrite exec_finish_yieldChild | progress cbv beta ].
       by rewrite exec_bind. }
  rewrite (exec_finish_gforEachIdx_go _ _ applyPercentageSizing).
  2: { intros a n w0.
       repeat first
         [ rewrite exec_finish_bind | rewrite exec_finish_run
         | rewrite exec_finish_yieldChild | progress cbv beta ].
       reflexivity. }
  rewrite (exec_finish_gforEachIdx_go _ _ (λ child,
             finish (processInstanceStepByStep fuel child))).
  2: { intros a n w0.
       repeat first
         [ rewrite exec_finish_bind | rewrite exec_finish_run
         | rewrite exec_finish_yieldChild | progress cbv beta ].
       reflexivity. }
  cbv zeta. rewrite !exec_when.
  reflexivity.
Qed.

(** ** The pass phase by phase *)

Lemma prepare_exec (i : nat) (w : World) :
  exec (prepareInstance i) w
  = exec (getLayoutProperties i)
         (exec (applyStylesToInstance i (getInstanceStyles w i)) w).
Proof.
  unfold prepareInstance. repeat (rewrite exec_bind; cbv beta).
  reflexivity.
Qed.

Lemma prepare_eval (i : nat) (w : World) :
  eval (prepareInstance i) w
  = let w1 := exec (applyStylesToInstance i (getInstanceStyles w i)) w in
    let lp := eval (getLayoutProperties i) w1 in
    match parent (node (exec (getLayoutProperties i) w1) i) with
    | None => set_position (VStr "relative") lp
    | Some _ => lp
    end.
Proof.
  unfold prepareInstance. repeat (rewrite eval_bind; cbv beta).
  repeat (rewrite exec_bind; cbv beta). reflexivity.
Qed.

Lemma fitContentPhase_exec (i : nat) (lp : LayoutProps) (p : Partition)
    (w : World) :
  exec (fitContentPhase i lp p) w
  = if lp_fitContent lp then
      let w1 := exec (applyFitContentSizing i lp) w in
      if (0 <? length (percentSizedChildren p))%nat then
        exec (when (flowAllowed lp)
                (applyNormalFlowLayout i lp (inFlowChildren p)))
             (exec (forEach (percentSizedChildren p) applyPercentageSizing)
                   w1)
      else
        exec (when (flowAllowed lp
                    && eval (hasFlexChildren (inFlowChildren p)) w1)
                (applyNormalFlowLayout i lp (inFlowChildren p))) w1
    else w.
Proof.
  unfold fitContentPhase. destruct (lp_fitContent lp); [| reflexivity].
  cbn [when]. rewrite exec_bind. cbv beta zeta.
  destruct (0 <? length (percentSizedChildren p))%nat.
  - by rewrite exec_bind.
  - rewrite exec_bind. reflexivity.
Qed.

(** The position of the layout properties is read by the guards of the
    driver alone. *)
Lemma flow_position (i : nat) (v : value) (lp : LayoutProps)
    (l : list nat) :
  applyNormalFlowLayout i (set_position v lp) l
  = applyNormalFlowLayout i lp l.
Proof. reflexivity. Qed.

Lemma fit_position (i : nat) (v : value) (lp : LayoutProps) :
  applyFitContentSizing i (set_position v lp)
  = applyFitContentSizing i lp.
Proof. reflexivity. Qed.

(** ** The source of the styles is an invariant of the engine *)

Lemma same_source_write (w0 : World) (i : nat) (f : Instance → Instance)
    (w : World) :
  (∀ inst, attrs (f inst) = attrs inst) →
  same_source w0 w → same_source w0 (update i f w).
Proof.
  intros Hf [Hr Ha]. split; [exact Hr |]. intros j. rewrite <- Ha.
  by apply node_update_proj.
Qed.

Lemma same_source_ensure (w0 : World) (i : nat) (w : World) :
  same_source w0 w → same_source w0 (exec (ensureStyles i) w).
Proof.
  intros H. unfold ensureStyles, exec.
  destruct (computedStyles (node w i)); simpl; [exact H |].
  by apply same_source_write.
Qed.

Create HintDb inv discriminated.

Lemma ss_x w0 i (g : Instance → num) w :
  same_source w0 w →
  same_source w0 (update i (λ inst, set_x (g inst) inst) w).
Proof. by apply same_source_write. Qed.

Lemma ss_y w0 i (g : Instance → num) w :
  same_source w0 w →
  same_source w0 (update i (λ inst, set_y (g inst) inst) w).
Proof. by apply same_source_write. Qed.

Lemma ss_w w0 i (g : Instance → num) w :
  same_source w0 w →
  same_source w0 (update i (λ inst, set_width (g inst) inst) w).
Proof. by apply same_source_write. Qed.

Lemma ss_h w0 i (g : Instance → num) w :
  same_source w0 w →
  same_source w0 (update i (λ inst, set_height (g inst) inst) w).
Proof. by apply same_source_write. Qed.

Lemma ss_raw w0 i w :
  same_source w0 w →
  same_source w0 (update i (set_computedStyles (getInstanceStyles w i)) w).
Proof. by apply same_source_write. Qed.

Lemma ss_exp w0 i w :
  same_source w0 w →
  same_source w0 (update i (set_computedStyles (styleNow w i)) w).
Proof. by apply same_source_write. Qed.

#[local] Hint Resolve ss_x ss_y ss_w ss_h ss_raw ss_exp same_source_ensure
  : inv.

Lemma same_source_processInstance (w0 : World) (fuel i : nat) :
  preserves (same_source w0) (processInstance fuel i).
Proof. apply pres_processInstance; auto with inv. Qed.

(** ** Styles the engine has cached stay engine-made *)

Lemma styleNow_same (w0 w : World) (c : nat) :
  same_source w0 w → styleNow w c = styleNow w0 c.
Proof. intros H. unfold styleNow. by rewrite (same_source_styles w0 w). Qed.

Lemma stylesCached_write (w0 : World) (L : list nat) (i : nat)
    (f : Instance → Instance) (w : World) :
  (∀ inst, attrs (f inst) = attrs inst) →
  (∀ inst, computedStyles (f inst) = computedStyles inst) →
  stylesCached w0 L w → stylesCached w0 L (update i f w).
Proof.
  intros Hf Hc [Hs Hk]. split; [by apply same_source_write |].
  intros c Hin Hlt. rewrite length_update in Hlt.
  rewrite (node_update_proj computedStyles) by exact Hc. by apply Hk.
Qed.

Lemma stylesCached_store (w0 : World) (L : list nat) (i : nat)
    (s : gmap string value) (w : World) :
  s = getInstanceStyles w0 i ∨ s = styleNow w0 i →
  stylesCached w0 L w →
  stylesCached w0 L (update i (set_computedStyles s) w).
Proof.
  intros Hs [Hsrc Hk]. split; [by apply same_source_write |].
  intros c Hin Hlt. rewrite length_update in Hlt.
  destruct (decide (i = c)) as [-> | Hne].
  - rewrite node_update_eq by done. simpl.
    destruct Hs as [-> | ->]; [by left | by right].
  - rewrite node_update_ne by done. by apply Hk.
Qed.

Lemma sc_x w0 L i (g : Instance → num) w :
  stylesCached w0 L w →
  stylesCached w0 L (update i (λ inst, set_x (g inst) inst) w).
Proof. by apply stylesCached_write. Qed.

Lemma sc_y w0 L i (g : Instance → num) w :
  stylesCached w0 L w →
  stylesCached w0 L (update i (λ inst, set_y (g inst) inst) w).
Proof. by apply stylesCached_write. Qed.

Lemma sc_w w0 L i (g : Instance → num) w :
  stylesCached w0 L w →
  stylesCached w0 L (update i (λ inst, set_width (g inst) inst) w).
Proof. by apply stylesCached_write. Qed.

Lemma sc_h w0 L i (g : Instance → num) w :
  stylesCached w0 L w →
  stylesCached w0 L (update i (λ inst, set_height (g inst) inst) w).
Proof. by apply stylesCached_write. Qed.

Lemma sc_raw w0 L i w :
  stylesCached w0 L w →
  stylesCached w0 L
    (update i (set_computedStyles (getInstanceStyles w i)) w).
Proof.
  intros H. apply stylesCached_store; [| exact H]. left.
  apply same_source_styles, H.
Qed.

Lemma sc_exp w0 L i w :
  stylesCached w0 L w →
  stylesCached w0 L (update i (set_computedStyles (styleNow w i)) w).
Proof.
  intros H. apply stylesCached_store; [| exact H]. right.
  apply styleNow_same, H.
Qed.

Lemma sc_ens w0 L i w :
  stylesCached w0 L w → stylesCached w0 L (exec (ensureStyles i) w).
Proof.
  intros H. unfold ensureStyles, exec.
  destruct (computedStyles (node w i)); simpl; [exact H |].
  by apply sc_raw.
Qed.

#[local] Hint Resolve sc_x sc_y sc_w sc_h sc_raw sc_exp sc_ens : inv.

Lemma stylesCached_processInstance (w0 : World) (L : list nat)
    (fuel i : nat) :
  preserves (stylesCached w0 L) (processInstance fuel i).
Proof. apply pres_processInstance; auto with inv. Qed.

(** A style without flex properties once its [flex] is written out has
    none before, and none when it is empty. *)
Lemma hasFlexProps_raw (s : gmap string value) :
  hasFlexProps (expandFlex s) = false → hasFlexProps s = false.
Proof.
  unfold expandFlex. destruct (s !! "flex") as [[n | t] |]; try done.
  unfold hasFlexProps.
  rewrite (lookup_insert_ne _ "flexBasis" "flexShrink") by done.
  rewrite lookup_insert_eq.
  rewrite (bool_decide_eq_true_2 _ (mk_is_Some _ _ eq_refl)).
  by rewrite orb_true_r.
Qed.

Lemma hasFlexChildren_none (w0 : World) (L : list nat) (w : World) :
  stylesCached w0 L w →
  forallb (λ c, negb (hasFlexProps (styleNow w0 c))) L = true →
  eval (hasFlexChildren L) w = false.
Proof.
  intros [Hs Hk] Hall. unfold hasFlexChildren, eval. cbn [fst].
  rewrite forallb_forall in Hall.
  apply not_true_is_false. intros Hex. apply existsb_exists in Hex.
  destruct Hex as (c & Hin & Hc). specialize (Hall c Hin).
  apply negb_true_iff in Hall.
  destruct (decide (c < length (objects w))) as [Hlt | Hge].
  - destruct (Hk c (proj2 (list_elem_of_In _ _) Hin) Hlt) as [E | E];
      unfold stylesOf in Hc; rewrite E in Hc; simpl in Hc.
    + by rewrite (hasFlexProps_raw _ Hall) in Hc.
    + by rewrite Hall in Hc.
  - rewrite (node_out_of_range w c) in Hc by lia. discriminate Hc.
Qed.

(** ** The layout properties of a node after steps 1 and 2 *)

Lemma cached_stays (i : nat) (s : gmap string value) (j : nat) (w : World) :
  computedStyles (node w i) = Some s →
  computedStyles (node (exec (ensureStyles j) w) i) = Some s.
Proof.
  intros H. unfold ensureStyles, exec.
  destruct (computedStyles (node w j)) eqn:E; simpl; [exact H |].
  destruct (decide (j = i)) as [-> | Hne]; [congruence |].
  by rewrite node_update_ne.
Qed.

Lemma applyStyles_caches (i : nat) (s0 : gmap string value) (w : World) :
  i < length (objects w) →
  computedStyles (node (exec (applyStylesToInstance i s0) w) i)
  = Some (expandFlex s0).
Proof.
  intros Hi.
  apply (pres_applyStyles_from
           (λ w', computedStyles (node w' i) = Some (expandFlex s0))).
  - intros j g w' H. by rewrite (node_update_proj computedStyles).
  - intros j g w' H. by rewrite (node_update_proj computedStyles).
  - intros j w' H. by apply cached_stays.
  - by rewrite node_update_eq.
Qed.

Lemma expandFlex_empty : expandFlex ∅ = ∅.
Proof. reflexivity. Qed.

Lemma prepared_props (w0 w : World) (i : nat) :
  same_source w0 w →
  eval (getLayoutProperties i)
       (exec (applyStylesToInstance i (getInstanceStyles w i)) w)
  = layoutPropsOf (styleNow w0 i).
Proof.
  intros Hs. set (w1 := exec (applyStylesToInstance i _) w).
  unfold getLayoutProperties. rewrite eval_bind. cbv beta.
  rewrite eval_bind. cbv beta. unfold eval at 1. cbn [ret fst].
  unfold eval at 1, get_node. cbn [fst]. f_equal.
  destruct (decide (i < length (objects w))) as [Hlt | Hge].
  - pose proof (applyStyles_caches i (getInstanceStyles w i) w Hlt) as E.
    fold w1 in E. unfold stylesOf.
    rewrite (cached_stays i _ i w1 E). simpl.
    apply (styleNow_same w0 w i Hs).
  - assert (Hlen : length (objects (exec (ensureStyles i) w1))
                   = length (objects w)).
    { unfold w1.
      rewrite (frame_ensureStyles (λ w, length (objects w)))
        by (intros; apply length_update).
      apply (frame_applyStylesToInstance (λ w, length (objects w)));
        intros; apply length_update. }
    rewrite node_out_of_range by lia. unfold stylesOf, styleNow. simpl.
    rewrite (same_source_blank w0 w i Hs) by lia. reflexivity.
Qed.

Lemma now_same (w0 w : World) (c : nat) :
  same_source w0 w →
  inFlowNow w c = inFlowNow w0 c
  ∧ percentSizedNow w c = percentSizedNow w0 c.
Proof.
  intros H. unfold inFlowNow, percentSizedNow, takesPart.
  by rewrite (same_source_skipped w0 w), (same_source_styles w0 w).
Qed.

Lemma root_flow (w0 : World) (i : nat) :
  rootInFlow w0 i = true →
  flowAllowed
    (match parent (node w0 i) with
     | None => set_position (VStr "relative") (layoutPropsOf (styleNow w0 i))
     | Some _ => layoutPropsOf (styleNow w0 i)
     end)
  = flowAllowed (layoutPropsOf (styleNow w0 i)).
Proof.
  unfold rootInFlow. destruct (parent (node w0 i)); [done |].
  intros H. apply negb_true_iff in H.
  unfold flowAllowed, is_out_of_flow in *. cbn [lp_display lp_position
    set_position layoutPropsOf] in *.
  destruct (or_else (styleNow w0 i !! "position") (VStr "relative"))
    as [n | s]; simpl in *; [done |].
  apply orb_false_iff in H as [-> ->]. reflexivity.
Qed.

(** The generator and the pass compute the same store from every store
    that has the source of [w0]. *)
Lemma generator_is_pass (w0 : World) :
  (∀ j, agrees w0 j = true) →
  ∀ fuel i w, same_source w0 w →
    exec (finish (processInstanceStepByStep fuel i)) w
    = exec (processInstance fuel i) w.
Proof.
  intros Hag. induction fuel as [| fuel IH]; intros i w Hs; [reflexivity |].
  rewrite generator_phases, processInstance_phases. cbv zeta.
  rewrite prepare_exec, prepare_eval. cbv zeta.
  rewrite (prepared_props w0 w i Hs).
  set (w1 := exec (applyStylesToInstance i (getInstanceStyles w i)) w).
  set (w1' := exec (getLayoutProperties i) w1).
  set (lpg := layoutPropsOf (styleNow w0 i)).
  assert (S1 : same_source w0 w1').
  { unfold w1', w1. apply pres_getLayoutProperties; auto with inv.
    apply pres_applyStylesToInstance; auto with inv. }
  assert (Hattr : attrs (node w1' i) = attrs (node w0 i)) by apply S1.
  assert (Hpar : parent (node w1' i) = parent (node w0 i)).
  { unfold attrs in Hattr. by injection Hattr as _ _ Hp _ _ _ _. }
  assert (Hch : children (node w1' i) = children (node w0 i)).
  { unfold attrs in Hattr. by injection Hattr as _ _ _ Hc _ _ _. }
  rewrite Hpar.
  destruct (andb_prop _ _ (Hag i)) as [Hroot Hplain].
  pose proof (root_flow w0 i Hroot) as Hflow. fold lpg in Hflow.
  set (lp := match parent (node w0 i) with
             | None => set_position (VStr "relative") lpg
             | Some _ => lpg
             end) in *.
  assert (Hfit : lp_fitContent lp = lp_fitContent lpg)
    by (unfold lp; by destruct (parent (node w0 i))).
  assert (HaN : ∀ l, applyNormalFlowLayout i lp l
                     = applyNormalFlowLayout i lpg l)
    by (intros l; unfold lp; destruct (parent (node w0 i));
        [reflexivity | apply flow_position]).
  assert (HaF : applyFitContentSizing i lp = applyFitContentSizing i lpg)
    by (unfold lp; destruct (parent (node w0 i));
        [reflexivity | apply fit_position]).
  rewrite fitContentPhase_exec. cbv zeta. rewrite Hflow, Hfit, HaF, !HaN.
  rewrite Hch.
  destruct (partition_walk w0 (children (node w0 i)) (mkPartition [] [] [])
              w1' S1)
    as (p & w2 & Ep & H1 & _ & H3 & S2 & Hlen & Hcache).
  rewrite <- partitionChildren_loop in Ep.
  assert (Ee : eval (partitionChildren (children (node w0 i))) w1' = p)
    by (unfold eval; by rewrite Ep).
  assert (Ex : exec (partitionChildren (children (node w0 i))) w1' = w2)
    by (unfold exec; by rewrite Ep).
  rewrite Ee, Ex. cbn [inFlowChildren percentSizedChildren app] in H1, H3.
  (* the in-flow children *)
  assert (E3 : exec (forEach (inFlowChildren p)
                       (λ child, finish (processInstanceStepByStep fuel child)))
                    w2
               = exec (forEach (inFlowChildren p) (processInstance fuel)) w2).
  { apply (forEach_agree (same_source w0)); [| exact S2].
    intros c w' _ Hw'. split; [by apply IH |].
    by apply same_source_processInstance. }
  rewrite E3.
  set (w3 := exec (forEach (inFlowChildren p) (processInstance fuel)) w2).
  set (w4 := exec (when (flowAllowed lpg)
                     (applyNormalFlowLayout i lpg (inFlowChildren p))) w3).
  assert (C2 : stylesCached w0 (inFlowChildren p) w2).
  { split; [exact S2 |]. intros c Hin Hlt. left.
    apply Hcache; [lia |]. left. rewrite H1 in Hin.
    apply list_elem_of_In, filter_In in Hin as [Hin Hnow].
    split; [by apply list_elem_of_In |].
    unfold inFlowNow in Hnow. by apply andb_prop in Hnow as [-> _]. }
  assert (C3 : stylesCached w0 (inFlowChildren p) w3).
  { unfold w3. apply pres_forEach; [| exact C2].
    intros c. apply stylesCached_processInstance. }
  assert (C4 : stylesCached w0 (inFlowChildren p) w4).
  { unfold w4. apply pres_when; [| exact C3].
    apply pres_applyNormalFlowLayout; auto with inv. }
  (* the store after step 6 *)
  match goal with
  | |- exec ?f1 ?a = exec ?f2 ?b =>
      assert (E5 : a = b ∧ stylesCached w0 (inFlowChildren p) b)
  end.
  { destruct (lp_fitContent lpg) eqn:Ef; [| by split].
    assert (C41 : stylesCached w0 (inFlowChildren p)
                    (exec (applyFitContentSizing i lpg) w4)).
    { apply pres_applyFitContentSizing; auto with inv. }
    destruct (0 <? length (percentSizedChildren p))%nat eqn:El.
    - split; [reflexivity |].
      apply pres_when; [apply pres_applyNormalFlowLayout; auto with inv |].
      apply pres_forEach; [| exact C41].
      intros c. apply pres_applyPercentageSizing; auto with inv.
    - assert (Hno : eval (hasFlexChildren (inFlowChildren p))
                      (exec (applyFitContentSizing i lpg) w4) = false).
      { apply (hasFlexChildren_none w0); [exact C41 |].
        unfold fitsPlainly in Hplain. fold lpg in Hplain.
        rewrite Ef, <- H3, El, <- H1 in Hplain. exact Hplain. }
      rewrite Hno, andb_false_r. by split. }
  destruct E5 as [<- C5].
  (* the out-of-flow children *)
  apply (forEach_agree (same_source w0)); [| apply C5].
  intros c w' _ Hw'. rewrite !exec_bind. cbv beta.
  rewrite (IH c w' Hw'). split; [reflexivity |].
  apply pres_applyOutOfFlowLayout; auto with inv.
  by apply same_source_processInstance.
Qed.

(** A debug session stepped to its end leaves the store one pass of
    [processInstance] leaves, on a tree in which no node without a parent
    is styled out of the flow and every node that fits its content has a
    child sized in percent or no in-flow child with flex properties. *)
Theorem debug_session_agrees (fuel root : nat) (d0 : UILayoutDebug.t) :
  (∀ j, agrees (UILayoutDebug.layout d0) j = true) →
  ∃ n, ∀ m,
    let d := UILayoutDebug.runSteps (n + m)
               (UILayoutDebug.enableDebugMode fuel root d0) in
    UILayoutDebug.debugMode d = false
    ∧ UILayoutDebug.layout d
      = exec (processInstance fuel root) (UILayoutDebug.layout d0).
Proof.
  intros Hag. destruct (runSteps_enable fuel root d0) as (n & Hn).
  exists n. intros m. cbv zeta. destruct (Hn m) as (H1 & _ & H3).
  split; [exact H1 |]. rewrite H3.
  apply (generator_is_pass _ Hag). apply same_source_refl.
Qed.

Lemma debug_session_agrees_witness :
  (∀ j, agrees stack_world j = true)
  ∧ ∃ n, ∀ m,
      let d := UILayoutDebug.runSteps (n + m)
                 (UILayoutDebug.enableDebugMode 2 0
                    (UILayoutDebug.create stack_world)) in
      UILayoutDebug.debugMode d = false
      ∧ UILayoutDebug.layout d = exec (processInstance 2 0) stack_world.
Proof.
  assert (H : ∀ j, agrees stack_world j = true).
  { intros j. do 4 (destruct j as [| j]; [vm_compute; reflexivity |]).
    vm_compute. reflexivity. }
  split; [exact H |].
  exact (debug_session_agrees 2 0 (UILayoutDebug.create stack_world) H).
Defined.

(* ===================================================================== *)
(** * The tick handler and the debug session (main.js) *)
(* ===================================================================== *)

Lemma nextStep_debugMode (d : UILayoutDebug.t) :
  UILayoutDebug.debugMode (UILayoutDebug.nextStep d).2 = true →
  UILayoutDebug.debugMode d = true.
Proof.
  unfold UILayoutDebug.nextStep.
  destruct (UILayoutDebug.debugMode d) eqn:Em; [done |]. simpl.
  by rewrite Em.
Qed.

Lemma tickInstance_debugMode (fuel : nat) (d : UILayoutDebug.t) (i : nat) :
  UILayoutDebug.debugMode (App.tickInstance fuel d i)
  = UILayoutDebug.debugMode d.
Proof.
  unfold App.tickInstance, UILayoutDebug.processInstance.
  destruct (parent _); [done |].
  destruct (UILayoutDebug.debugMode d) eqn:E; simpl; rewrite ?E; done.
Qed.

Lemma tick_fold_debugMode (fuel : nat) (l : list nat) :
  ∀ d, UILayoutDebug.debugMode (fold_left (App.tickInstance fuel) l d)
       = UILayoutDebug.debugMode d.
Proof.
  induction l as [| i l IH]; intros d; [done |]. simpl.
  by rewrite IH, tickInstance_debugMode.
Qed.

(** The driver is in debug mode only while the script says so. *)
Lemma app_flags (a : App.t) :
  App.running a →
  UILayoutDebug.debugMode (App.layout a) = true →
  App.layoutDebugEnabled a = true.
Proof.
  induction 1 as [w panels | fuel tag a _ IH | a _ IH | a _ IH
                 | key a _ IH | fuel a _ IH]; simpl.
  - discriminate.
  - unfold App.startLayoutDebug. destruct (find _ _); [done | exact IH].
  - unfold App.nextLayoutStep.
    destruct (UILayoutDebug.nextStep (App.layout a)) as [r d] eqn:E.
    simpl. intros Hd. apply IH, nextStep_debugMode. by rewrite E.
  - discriminate.
  - unfold App.keydown.
    destruct (App.layoutDebugEnabled a) eqn:En; simpl.
    2: { intros Hd. rewrite En. exact (IH Hd). }
    destruct (String.eqb key "n"); [| by rewrite En].
    unfold App.nextLayoutStep.
    destruct (UILayoutDebug.nextStep (App.layout a)) as [r d]. simpl.
    by rewrite En.
  - unfold App.tick.
    destruct (App.layoutDebugEnabled a) eqn:En; simpl; [by rewrite En |].
    rewrite tick_fold_debugMode. exact IH.
Qed.

(** Outside debug mode the loop of the handler is the loop of passes. *)
Lemma tick_fold_pass (fuel : nat) (l : list nat) :
  ∀ d, UILayoutDebug.debugMode d = false →
       UILayoutDebug.layout (fold_left (App.tickInstance fuel) l d)
       = exec (tickPass fuel l) (UILayoutDebug.layout d).
Proof.
  induction l as [| i l IH]; intros d Hd; [done |].
  cbn [fold_left]. unfold tickPass. cbn [forEach]. rewrite exec_bind.
  cbv beta. fold (tickPass fuel l).
  rewrite IH by (by rewrite tickInstance_debugMode). f_equal.
  unfold App.tickInstance, UILayoutDebug.processInstance.
  rewrite exec_bind, Hd.
  change (eval (get_node i) (UILayoutDebug.layout d))
    with (node (UILayoutDebug.layout d) i).
  change (exec (get_node i) (UILayoutDebug.layout d))
    with (UILayoutDebug.layout d).
  destruct (parent (node (UILayoutDebug.layout d) i)); reflexivity.
Qed.

(** The tick handler of a script state.  While a debug session is on
    ([layoutDebugEnabled], from a successful [startLayoutDebug] until
    [stopLayoutDebug], also after the steps have run out) a tick changes
    nothing.  Otherwise the driver is not in debug mode, its override of
    [processInstance] does not swallow the calls, and the tick runs a
    pass on every panel without a parent. *)
Theorem tick_outside_debug (fuel : nat) (a : App.t) :
  App.running a →
  (App.layoutDebugEnabled a = true → App.tick fuel a = a)
  ∧ (App.layoutDebugEnabled a = false →
     UILayoutDebug.debugMode (App.layout a) = false
     ∧ UILayoutDebug.layout (App.layout (App.tick fuel a))
       = exec (tickPass fuel (App.panels a))
              (UILayoutDebug.layout (App.layout a))).
Proof.
  intros Hr. split; intros En; unfold App.tick; rewrite En; [done |].
  assert (Hd : UILayoutDebug.debugMode (App.layout a) = false).
  { destruct (UILayoutDebug.debugMode (App.layout a)) eqn:E; [| done].
    rewrite (app_flags a Hr E) in En. discriminate En. }
  split; [exact Hd |]. simpl. by apply tick_fold_pass.
Qed.

Lemma tick_outside_debug_witness :
  App.running (App.startup stack_world [0])
  ∧ UILayoutDebug.layout
      (App.layout (App.tick 2 (App.startup stack_world [0])))
    = exec (tickPass 2 (App.panels (App.startup stack_world [0])))
           (UILayoutDebug.layout
              (App.layout (App.startup stack_world [0]))).
Proof.
  assert (H : App.running (App.startup stack_world [0]))
    by apply App.reach_startup.
  split; [exact H |].
  exact (proj2 (proj2 (tick_outside_debug 2 _ H) eq_refl)).
Defined.

(* ===================================================================== *)
(** * The vertical flow stacks its children *)
(* ===================================================================== *)

Lemma finite_margins (s : gmap string value) :
  finiteKeys ["marginTop"; "marginBottom"; "margin"] s →
  is_fin (top (margin (boxModelOf s)))
  ∧ is_fin (bottom (margin (boxModelOf s))).
Proof.
  intros H. unfold boxModelOf. cbn [margin top bottom]. unfold nullish2.
  split.
  - destruct (s !! "marginTop") as [v |] eqn:E1.
    + destruct (H "marginTop" v) as (q & ->); [set_solver | done | done].
    + destruct (s !! "margin") as [v |] eqn:E2; [| done].
      destruct (H "margin" v) as (q & ->); [set_solver | done | done].
  - destruct (s !! "marginBottom") as [v |] eqn:E1.
    + destruct (H "marginBottom" v) as (q & ->); [set_solver | done | done].
    + destruct (s !! "margin") as [v |] eqn:E2; [| done].
      destruct (H "margin" v) as (q & ->); [set_solver | done | done].
Qed.

Lemma getBoxModel_cached (c : nat) (w : World) :
  is_Some (computedStyles (node w c)) →
  getBoxModel c w = (boxModelOf (stylesOf (node w c)), w).
Proof.
  intros [s Hs]. unfold getBoxModel, ensureStyles.
  unfold mbind, M_bind, bind, get_node, ret. by rewrite Hs.
Qed.

Lemma is_fin_val (n : num) : is_fin n → n = Fin (qval n).
Proof. by destruct n. Qed.

(** [positionVertical] as its two loops. *)
Lemma positionVertical_loops (container : nat) (lp : LayoutProps)
    (bm : BoxModel) (cw ch tg : num) (l : list nat) (w : World) :
  exec (positionVertical container lp bm cw ch tg l) w
  = let actual := eval (foldM l outerHeightStep (Fin 0)) w in
    let w1 := exec (foldM l outerHeightStep (Fin 0)) w in
    let sp := justifySpacing (justifyOf lp)
                (nmax (Fin 0) (ch - (actual + tg))%num) (length l) in
    let y0 := (top (padding bm) + top (border bm) + sp.1.1)%num in
    let y1 := if value_is (justifyOf lp) "space-around"
                 && (0 <? length l)%nat
              then (y0 + sp.2 / Fin 2)%num else y0 in
    exec (foldM l (placeVertical container lp bm cw (length l) sp.1.2 sp.2)
                (y1, 0%nat)) w1.
Proof.
  unfold positionVertical. cbv zeta. rewrite exec_bind. cbv beta.
  fold outerHeightStep.
  destruct (justifySpacing _ _ _) as [[s0 sb] sa]. cbn [fst snd].
  rewrite exec_bind. cbv beta. rewrite exec_ret. reflexivity.
Qed.

Lemma placeable_margins (w : World) (c : nat) :
  placeable w c →
  marginTopOf (node w c) = Fin (qval (marginTopOf (node w c)))
  ∧ marginBottomOf (node w c) = Fin (qval (marginBottomOf (node w c)))
  ∧ height (node w c) = Fin (qval (height (node w c))).
Proof.
  intros (_ & _ & Hk & Hh). destruct (finite_margins _ Hk) as [H1 H2].
  repeat split; by apply is_fin_val.
Qed.

(** The first loop reads the outer heights and writes nothing. *)
Lemma outerHeights_run (w : World) (l : list nat) :
  (∀ c, c ∈ l → placeable w c) →
  ∀ a : Q, ∃ T : Q, foldM l outerHeightStep (Fin a) w = (Fin T, w).
Proof.
  induction l as [| c l IH]; intros Hp a; [by exists a |].
  assert (Hc : placeable w c) by (apply Hp; by left).
  destruct (placeable_margins w c Hc) as (E1 & E2 & E3).
  destruct Hc as (_ & Hs & _ & _).
  cbn [foldM]. unfold mbind at 1, M_bind at 1, bind at 1.
  unfold outerHeightStep at 1.
  unfold mbind, M_bind, bind, get_node, ret.
  rewrite (getBoxModel_cached c w Hs).
  fold (marginTopOf (node w c)). fold (marginBottomOf (node w c)).
  rewrite E1, E2, E3. cbn [nadd].
  apply IH. intros c' Hc'. apply Hp. by right.
Qed.

(** One child of the second loop. *)
Lemma placeVertical_step (container : nat) (lp : LayoutProps)
    (bm : BoxModel) (cw : num) (n : nat) (sb sa g Y yc : Q) (idx a : nat)
    (w : World) :
  gapOf lp = Fin g → placeable w a → a ≠ container →
  y (node w container) = Fin yc →
  let mt := qval (marginTopOf (node w a)) in
  let h := qval (height (node w a)) in
  let mb := qval (marginBottomOf (node w a)) in
  ∃ X,
    placeVertical container lp bm cw n (Fin sb) (Fin sa) (Fin Y, idx) a w
    = ((Fin (if (idx <? n - 1)%nat then
               if value_is (justifyOf lp) "space-around"
               then Y + mt + (h + mb) + (g + sb) + sa
               else Y + mt + (h + mb) + (g + sb)
             else Y + mt + (h + mb)), S idx),
       update a (set_x X) (update a (set_y (Fin (yc + (Y + mt)))) w)).
Proof.
  intros Hg Hp Hne Hyc mt h mb.
  destruct (placeable_margins w a Hp) as (E1 & E2 & E3).
  destruct Hp as (Hlt & Hs & _ & _).
  unfold placeVertical. cbv zeta.
  unfold mbind, M_bind, bind, get_node, modify, ret.
  rewrite (getBoxModel_cached a w Hs).
  rewrite !(node_update_ne a container) by done.
  rewrite !node_update_eq by (rewrite ?length_update; done).
  cbn [height set_x set_y]. rewrite Hyc, Hg.
  fold (marginTopOf (node w a)). fold (marginBottomOf (node w a)).
  rewrite E1, E2, E3. fold mt h mb. cbn [nadd].
  eexists. f_equal. f_equal.
  destruct (idx <? n - 1)%nat; [| reflexivity].
  destruct (value_is (justifyOf lp) "space-around"); reflexivity.
Qed.

Lemma placed_node (a : nat) (X v : num) (w : World) (j : nat) :
  height (node (update a (set_x X) (update a (set_y v) w)) j)
  = height (node w j)
  ∧ computedStyles (node (update a (set_x X) (update a (set_y v) w)) j)
    = computedStyles (node w j).
Proof.
  split.
  - rewrite (node_update_proj height) by done.
    by rewrite (node_update_proj height).
  - rewrite (node_update_proj computedStyles) by done.
    by rewrite (node_update_proj computedStyles).
Qed.

Lemma same_margins (w w' : World) (j : nat) :
  computedStyles (node w' j) = computedStyles (node w j) →
  marginTopOf (node w' j) = marginTopOf (node w j)
  ∧ marginBottomOf (node w' j) = marginBottomOf (node w j).
Proof.
  intros H. unfold marginTopOf, marginBottomOf, stylesOf. by rewrite H.
Qed.

Lemma placeable_placed (a : nat) (X v : num) (w : World) (c : nat) :
  placeable w c →
  placeable (update a (set_x X) (update a (set_y v) w)) c.
Proof.
  intros (Hlt & Hs & Hk & Hh).
  destruct (placed_node a X v w c) as [Eh Ec].
  unfold placeable, stylesOf. rewrite !length_update, Eh, Ec. done.
Qed.

(** The second loop, from any child on: the positions on the vertical
    axis of the children it places. *)
Lemma place_walk (container : nat) (lp : LayoutProps) (bm : BoxModel)
    (cw : num) (n : nat) (sb sa g yc : Q) (l2 : list nat) :
  gapOf lp = Fin g →
  ∀ (Y : Q) (idx : nat) (w : World),
    NoDup l2 → container ∉ l2 → (∀ c, c ∈ l2 → placeable w c) →
    y (node w container) = Fin yc → idx + length l2 = n →
    let w' := exec (foldM l2 (placeVertical container lp bm cw n
                                (Fin sb) (Fin sa)) (Fin Y, idx)) w in
    let sep := (g + sb
                + (if value_is (justifyOf lp) "space-around"
                   then sa else 0))%Q in
    (∀ j, j ∉ l2 → y (node w' j) = y (node w j))
    ∧ (∀ j, height (node w' j) = height (node w j)
            ∧ computedStyles (node w' j) = computedStyles (node w j))
    ∧ (∀ a rest, l2 = a :: rest →
         y (node w' a) = Fin (yc + (Y + qval (marginTopOf (node w a)))))
    ∧ (∀ k a b, l2 !! k = Some a → l2 !! S k = Some b →
         ∃ ya yb,
           y (node w' a) = Fin ya ∧ y (node w' b) = Fin yb
           ∧ (yb - qval (marginTopOf (node w b))
              == ya + qval (height (node w a))
                 + qval (marginBottomOf (node w a)) + sep)%Q).
Proof.
  intros Hg. induction l2 as [| a rest IH];
    intros Y idx w Hnd Hc Hp Hyc Hn; cbv zeta.
  { cbn [foldM]. unfold exec, ret. cbn [snd].
    repeat split; done. }
  apply NoDup_cons in Hnd as [Ha Hnd].
  apply not_elem_of_cons in Hc as [Hca Hc].
  assert (Hpa : placeable w a) by (apply Hp; by left).
  destruct (placeVertical_step container lp bm cw n sb sa g Y yc idx a w
              Hg Hpa (not_eq_sym Hca) Hyc) as (X & Estep).
  cbv zeta in Estep.
  set (mt := qval (marginTopOf (node w a))) in *.
  set (h := qval (height (node w a))) in *.
  set (mb := qval (marginBottomOf (node w a))) in *.
  set (w1 := update a (set_x X) (update a (set_y (Fin (yc + (Y + mt)))) w))
    in *.
  match type of Estep with
  | _ = ((Fin ?q, _), _) => set (Y' := q) in *
  end.
  assert (Ee : eval (placeVertical container lp bm cw n (Fin sb) (Fin sa)
                       (Fin Y, idx) a) w = (Fin Y', S idx))
    by (unfold eval; by rewrite Estep).
  assert (Ex : exec (placeVertical container lp bm cw n (Fin sb) (Fin sa)
                       (Fin Y, idx) a) w = w1)
    by (unfold exec; by rewrite Estep).
  cbn [foldM]. rewrite exec_bind, Ee, Ex. cbv beta.
  assert (Hp1 : ∀ c, c ∈ rest → placeable w1 c).
  { intros c Hin. apply placeable_placed, Hp. by right. }
  assert (Hyc1 : y (node w1 container) = Fin yc).
  { unfold w1. rewrite !node_update_ne by done. exact Hyc. }
  assert (Hn1 : S idx + length rest = n) by (simpl in Hn; lia).
  specialize (IH Y' (S idx) w1 Hnd Hc Hp1 Hyc1 Hn1). cbv zeta in IH.
  destruct IH as (I1 & I2 & I3 & I4).
  set (w' := exec (foldM rest _ (Fin Y', S idx)) w1) in *.
  assert (Hya : y (node w' a) = Fin (yc + (Y + mt))).
  { rewrite (I1 a Ha). unfold w1.
    assert (Hlt : a < length (objects w)) by apply Hpa.
    rewrite !node_update_eq by (rewrite ?length_update; done). done. }
  assert (Hsame : ∀ j, height (node w' j) = height (node w j)
                       ∧ computedStyles (node w' j)
                         = computedStyles (node w j)).
  { intros j. destruct (I2 j) as [E1 E2].
    destruct (placed_node a X (Fin (yc + (Y + mt))) w j) as [F1 F2].
    fold w1 in F1, F2. split; congruence. }
  split; [| split; [exact Hsame | split]].
  - intros j Hj. apply not_elem_of_cons in Hj as [Hja Hj].
    rewrite (I1 j Hj). unfold w1. by rewrite !node_update_ne.
  - intros a' rest' [= <- <-]. exact Hya.
  - intros k a' b Hk Hk'. destruct k as [| k].
    + injection Hk as <-. destruct rest as [| b0 rest']; [done |].
      injection Hk' as <-.
      exists (yc + (Y + mt))%Q. eexists.
      split; [exact Hya |]. split; [exact (I3 b0 rest' eq_refl) |].
      destruct (placed_node a X (Fin (yc + (Y + mt))) w b0) as [_ F2].
      fold w1 in F2. destruct (same_margins w w1 b0 F2) as [-> _].
      unfold Y'.
      assert (Hidx : (idx <? n - 1)%nat = true)
        by (apply Nat.ltb_lt; simpl in Hn; lia).
      rewrite Hidx. fold mt h mb.
      destruct (value_is (justifyOf lp) "space-around"); ring.
    + cbn in Hk, Hk'.
      destruct (I4 k a' b Hk Hk') as (ya & yb & E1 & E2 & E3).
      exists ya, yb. split; [exact E1 |]. split; [exact E2 |].
      destruct (placed_node a X (Fin (yc + (Y + mt))) w a') as [G1 G2].
      destruct (placed_node a X (Fin (yc + (Y + mt))) w b) as [_ F2].
      fold w1 in G1, G2, F2.
      destruct (same_margins w w1 b F2) as [<- _].
      destruct (same_margins w w1 a' G2) as [_ <-].
      rewrite <- G1. exact E3.
Qed.

Lemma nat_num_pos (n : nat) :
  (0 < n)%nat →
  ∃ k, nat_num n = Fin k ∧ (0 < k)%Q.
Proof.
  intros H. exists (inject_Z (Z.of_nat n)). split; [reflexivity |].
  unfold Qlt. simpl. lia.
Qed.

(** The three spacings of [justifyContent] are finite and not negative
    when the remaining space is, and nothing under ["start"]. *)
Lemma justifySpacing_fin (j : value) (r : Q) (n : nat) :
  (0 <= r)%Q →
  ∃ s0 sb sa,
    justifySpacing j (Fin r) n = (Fin s0, Fin sb, Fin sa)
    ∧ (0 <= s0)%Q ∧ (0 <= sb)%Q ∧ (0 <= sa)%Q
    ∧ (value_is j "start" = true →
       (s0 == 0)%Q ∧ (sb == 0)%Q
       ∧ value_is j "space-around" = false).
Proof.
  intros Hr. unfold justifySpacing. cbv zeta.
  destruct (value_is j "start") eqn:E1.
  { exists 0%Q, 0%Q, 0%Q. repeat split; try done; try lra.
    destruct j as [q | s]; [done |]. simpl in *.
    apply String.eqb_eq in E1. by subst s. }
  destruct (value_is j "center").
  { exists (r / 2)%Q, 0%Q, 0%Q. repeat split; try done; try lra.
    apply Qdiv_nonneg; lra. }
  destruct (value_is j "end").
  { exists r, 0%Q, 0%Q. repeat split; try done; lra. }
  destruct (value_is j "space-between").
  { destruct (1 <? n)%nat eqn:En.
    - apply Nat.ltb_lt in En.
      destruct (nat_num_pos (n - 1)) as (k & -> & Hk); [lia |].
      exists 0%Q, (r / k)%Q, 0%Q. simpl ndiv. rewrite (Qeqb_pos k Hk).
      repeat split; try done; try lra. by apply Qdiv_nonneg.
    - exists 0%Q, 0%Q, 0%Q. repeat split; try done; lra. }
  destruct (value_is j "space-around").
  { destruct (0 <? n)%nat eqn:En.
    - apply Nat.ltb_lt in En.
      destruct (nat_num_pos n En) as (k & -> & Hk).
      exists 0%Q, 0%Q, (r / k)%Q. simpl ndiv. rewrite (Qeqb_pos k Hk).
      repeat split; try done; try lra. by apply Qdiv_nonneg.
    - exists 0%Q, 0%Q, 0%Q. repeat split; try done; lra. }
  exists 0%Q, 0%Q, 0%Q. repeat split; try done; lra.
Qed.

Lemma gapOf_fin (lp : LayoutProps) (g0 : Q) :
  lp_gap lp = VNum (Fin g0) → ∃ g, gapOf lp = Fin g ∧ (g == g0)%Q.
Proof.
  intros H. unfold gapOf. rewrite H. simpl.
  destruct (Qeqb g0 0) eqn:E; simpl.
  - exists 0%Q. split; [reflexivity |]. apply Qeq_bool_iff in E.
    by symmetry.
  - by exists g0.
Qed.

Lemma nmax_zero (x : Q) :
  ∃ r, nmax (Fin 0) (Fin x) = Fin r ∧ (0 <= r)%Q.
Proof.
  simpl. destruct (Qltb 0 x) eqn:E.
  - apply Qltb_lt in E. exists x. split; [done | lra].
  - exists 0%Q. split; [done | lra].
Qed.

Lemma stacked_placeable (c : nat) :
  c ∈ [1; 2; 3] → placeable stacked_world c.
Proof.
  intros Hc. apply list_elem_of_In in Hc. simpl in Hc.
  assert (Hone : ∀ c', c' = 1 ∨ c' = 2 ∨ c' = 3 →
                       placeable stacked_world c').
  { intros c' Hc'. unfold placeable. split; [| split; [| split]].
    - destruct Hc' as [-> | [-> | ->]]; vm_compute; lia.
    - destruct Hc' as [-> | [-> | ->]]; vm_compute; by eexists.
    - intros k v Hk Hv. apply list_elem_of_In in Hk. simpl in Hk.
      destruct Hc' as [-> | [-> | ->]];
        destruct Hk as [<- | [<- | [<- | []]]];
        vm_compute in Hv;
        first [ discriminate Hv
              | injection Hv as <-; eexists; reflexivity ].
    - destruct Hc' as [-> | [-> | ->]]; vm_compute; exact I. }
  apply Hone. destruct Hc as [<- | [<- | [<- | []]]]; auto.
Qed.

(** The positioning part of [layoutVertical] stacks the children.  The
    children are distinct nodes other than the container, each with a
    cached style whose vertical margins are finite numbers and with a
    finite height; the container's position, the content height, the gap
    and the top padding and border are finite numbers.  Then the heights
    stay as they are; the margin box of the first child starts at the top
    of the content box plus an offset that is not negative; and there is
    one separation, at least the gap, such that the margin box of every
    next child starts where the margin box of the child before it ends
    plus that separation.  With [justifyContent] at ["start"] the offset
    is zero and the separation is the gap. *)
Theorem vertical_flow_stacks (container : nat) (lp : LayoutProps)
    (bm : BoxModel) (cw ch tg : num) (l : list nat) (w : World) (g0 : Q) :
  NoDup l → container ∉ l → (∀ c, c ∈ l → placeable w c) →
  is_fin (y (node w container)) → is_fin ch → is_fin tg →
  lp_gap lp = VNum (Fin g0) →
  is_fin (top (padding bm)) → is_fin (top (border bm)) →
  let w' := exec (positionVertical container lp bm cw ch tg l) w in
  ∃ sep start : Q,
    (g0 <= sep)%Q ∧ (0 <= start)%Q
    ∧ (value_is (justifyOf lp) "start" = true →
       (sep == g0)%Q ∧ (start == 0)%Q)
    ∧ (∀ j, height (node w' j) = height (node w j))
    ∧ (∀ a, l !! 0%nat = Some a →
         ∃ ya, y (node w' a) = Fin ya
               ∧ (ya == qval (y (node w container))
                        + (qval (top (padding bm)) + qval (top (border bm))
                           + start)
                        + qval (marginTopOf (node w a)))%Q)
    ∧ (∀ k a b, l !! k = Some a → l !! S k = Some b →
         ∃ ya yb,
           y (node w' a) = Fin ya ∧ y (node w' b) = Fin yb
           ∧ (yb - qval (marginTopOf (node w b))
              == ya + qval (height (node w a))
                 + qval (marginBottomOf (node w a)) + sep)%Q).
Proof.
  intros Hnd Hc Hp Hy Hch Htg Hgap Hpt Hbt w'. subst w'.
  rewrite positionVertical_loops. cbv zeta.
  destruct (outerHeights_run w l Hp 0) as (T & ET).
  assert (Ee : eval (foldM l outerHeightStep (Fin 0)) w = Fin T)
    by (unfold eval; by rewrite ET).
  assert (Ex : exec (foldM l outerHeightStep (Fin 0)) w = w)
    by (unfold exec; by rewrite ET).
  rewrite Ee, Ex.
  destruct ch as [chq | | |]; try done. destruct tg as [tgq | | |]; try done.
  cbn [nadd nsub].
  destruct (nmax_zero (chq - (T + tgq))) as (r & -> & Hr).
  destruct (justifySpacing_fin (justifyOf lp) r (length l) Hr)
    as (s0 & sb & sa & -> & Hs0 & Hsb & Hsa & Hstart).
  cbn [fst snd].
  destruct (gapOf_fin lp g0 Hgap) as (g & Hg & Eg).
  set (pt := qval (top (padding bm))). set (bt := qval (top (border bm))).
  set (around := value_is (justifyOf lp) "space-around") in *.
  set (extra := if around && (0 <? length l)%nat then (sa / 2)%Q else 0%Q).
  assert (EY : (if around && (0 <? length l)%nat
                then (top (padding bm) + top (border bm) + Fin s0
                      + Fin sa / Fin 2)%num
                else (top (padding bm) + top (border bm) + Fin s0)%num)
               = Fin (if around && (0 <? length l)%nat
                      then pt + bt + s0 + sa / 2 else pt + bt + s0)).
  { unfold pt, bt.
    destruct (top (padding bm)) as [p1 | | |]; try done.
    destruct (top (border bm)) as [b1 | | |]; try done.
    destruct (around && (0 <? length l)%nat); reflexivity. }
  rewrite EY.
  set (Y1 := if around && (0 <? length l)%nat
             then (pt + bt + s0 + sa / 2)%Q else (pt + bt + s0)%Q).
  destruct (place_walk container lp bm cw (length l) sb sa g
              (qval (y (node w container))) l Hg Y1 0%nat w Hnd Hc Hp
              (is_fin_val _ Hy) eq_refl) as (_ & W2 & W3 & W4).
  fold around in W4.
  exists (g + sb + (if around then sa else 0))%Q, (s0 + extra)%Q.
  assert (Hextra : (0 <= extra)%Q).
  { unfold extra. destruct (around && (0 <? length l)%nat); [| lra].
    apply Qdiv_nonneg; lra. }
  split. { rewrite <- Eg. destruct around; lra. }
  split. { lra. }
  split.
  { intros Hst. destruct (Hstart Hst) as (Z0 & Zb & Za).
    fold around in Za. unfold extra. rewrite Za. simpl. split; lra. }
  split. { intros j. apply W2. }
  split.
  { intros a Ha. destruct l as [| a' rest]; [done |].
    injection Ha as ->. eexists. split; [exact (W3 a rest eq_refl) |].
    unfold extra, Y1. destruct (around && _); ring. }
  exact W4.
Qed.

Lemma vertical_flow_stacks_witness :
  let lp := layoutPropsOf (stylesOf (node stacked_world 0)) in
  let bm := boxModelOf (stylesOf (node stacked_world 0)) in
  let w' := exec (positionVertical 0 lp bm (Fin 0) (Fin 0) (Fin 20)
                    [1; 2; 3]) stacked_world in
  placeable stacked_world 1
  ∧ ∃ sep ya yb : Q,
      (10 <= sep)%Q
      ∧ y (node w' 1) = Fin ya ∧ y (node w' 2) = Fin yb
      ∧ (yb - qval (marginTopOf (node stacked_world 2))
         == ya + qval (height (node stacked_world 1))
            + qval (marginBottomOf (node stacked_world 1)) + sep)%Q.
Proof.
  intros lp bm w'.
  pose proof stacked_placeable as Hp.
  assert (H1 : NoDup [1; 2; 3])
    by (apply (bool_decide_unpack _); vm_compute; exact I).
  assert (H2 : 0 ∉ [1; 2; 3])
    by (apply (bool_decide_unpack _); vm_compute; exact I).
  assert (H3 : is_fin (y (node stacked_world 0))) by (vm_compute; exact I).
  assert (H4 : lp_gap lp = VNum (Fin 10)) by (vm_compute; reflexivity).
  assert (H5 : is_fin (top (padding bm))) by (vm_compute; exact I).
  assert (H6 : is_fin (top (border bm))) by (vm_compute; exact I).
  split; [apply Hp; by left |].
  destruct (vertical_flow_stacks 0 lp bm (Fin 0) (Fin 0) (Fin 20) [1; 2; 3]
              stacked_world 10 H1 H2 Hp H3 I I H4 H5 H6)
    as (sep & start & Hsep & _ & _ & _ & _ & Hadj).
  destruct (Hadj 0%nat 1 2 eq_refl eq_refl) as (ya & yb & E1 & E2 & E3).
  exists sep, ya, yb. split; [exact Hsep |]. split; [exact E1 |].
  split; [exact E2 | exact E3].
Defined.

(* ===================================================================== *)
(** * The horizontal flow lines its children up *)
(* ===================================================================== *)

Lemma finite_marginsH (s : gmap string value) :
  finiteKeys ["marginLeft"; "marginRight"; "margin"] s →
  is_fin (left (margin (boxModelOf s)))
  ∧ is_fin (right (margin (boxModelOf s))).
Proof.
  intros H. unfold boxModelOf. cbn [margin left right]. unfold nullish2.
  split.
  - destruct (s !! "marginLeft") as [v |] eqn:E1.
    + destruct (H "marginLeft" v) as (q & ->); [set_solver | done | done].
    + destruct (s !! "margin") as [v |] eqn:E2; [| done].
      destruct (H "margin" v) as (q & ->); [set_solver | done | done].
  - destruct (s !! "marginRight") as [v |] eqn:E1.
    + destruct (H "marginRight" v) as (q & ->); [set_solver | done | done].
    + destruct (s !! "margin") as [v |] eqn:E2; [| done].
      destruct (H "margin" v) as (q & ->); [set_solver | done | done].
Qed.

(** [positionHorizontal] as its two loops. *)
Lemma positionHorizontal_loops (container : nat) (lp : LayoutProps)
    (bm : BoxModel) (cw ch tg : num) (l : list nat) (w : World) :
  exec (positionHorizontal container lp bm cw ch tg l) w
  = let actual := eval (foldM l outerWidthStep (Fin 0)) w in
    let w1 := exec (foldM l outerWidthStep (Fin 0)) w in
    let sp := justifySpacing (justifyOf lp)
                (nmax (Fin 0) (cw - (actual + tg))%num) (length l) in
    let y0 := (left (padding bm) + left (border bm) + sp.1.1)%num in
    let y1 := if value_is (justifyOf lp) "space-around"
                 && (0 <? length l)%nat
              then (y0 + sp.2 / Fin 2)%num else y0 in
    exec (foldM l (placeHorizontal container lp bm ch (length l) sp.1.2 sp.2)
                (y1, 0%nat)) w1.
Proof.
  unfold positionHorizontal. cbv zeta. rewrite exec_bind. cbv beta.
  fold outerWidthStep.
  destruct (justifySpacing _ _ _) as [[s0 sb] sa]. cbn [fst snd].
  rewrite exec_bind. cbv beta. rewrite exec_ret. reflexivity.
Qed.

Lemma placeableH_margins (w : World) (c : nat) :
  placeableH w c →
  marginLeftOf (node w c) = Fin (qval (marginLeftOf (node w c)))
  ∧ marginRightOf (node w c) = Fin (qval (marginRightOf (node w c)))
  ∧ width (node w c) = Fin (qval (width (node w c))).
Proof.
  intros (_ & _ & Hk & Hh). destruct (finite_marginsH _ Hk) as [H1 H2].
  repeat split; by apply is_fin_val.
Qed.

(** The first loop reads the outer widths and writes nothing. *)
Lemma outerWidths_run (w : World) (l : list nat) :
  (∀ c, c ∈ l → placeableH w c) →
  ∀ a : Q, ∃ T : Q, foldM l outerWidthStep (Fin a) w = (Fin T, w).
Proof.
  induction l as [| c l IH]; intros Hp a; [by exists a |].
  assert (Hc : placeableH w c) by (apply Hp; by left).
  destruct (placeableH_margins w c Hc) as (E1 & E2 & E3).
  destruct Hc as (_ & Hs & _ & _).
  cbn [foldM]. unfold mbind at 1, M_bind at 1, bind at 1.
  unfold outerWidthStep at 1.
  unfold mbind, M_bind, bind, get_node, ret.
  rewrite (getBoxModel_cached c w Hs).
  fold (marginLeftOf (node w c)). fold (marginRightOf (node w c)).
  rewrite E1, E2, E3. cbn [nadd].
  apply IH. intros c' Hc'. apply Hp. by right.
Qed.

(** One child of the second loop. *)
Lemma placeHorizontal_step (container : nat) (lp : LayoutProps)
    (bm : BoxModel) (cw : num) (n : nat) (sb sa g Y yc : Q) (idx a : nat)
    (w : World) :
  gapOf lp = Fin g → placeableH w a → a ≠ container →
  x (node w container) = Fin yc →
  let mt := qval (marginLeftOf (node w a)) in
  let h := qval (width (node w a)) in
  let mb := qval (marginRightOf (node w a)) in
  ∃ X,
    placeHorizontal container lp bm cw n (Fin sb) (Fin sa) (Fin Y, idx) a w
    = ((Fin (if (idx <? n - 1)%nat then
               if value_is (justifyOf lp) "space-around"
               then Y + mt + (h + mb) + (g + sb) + sa
               else Y + mt + (h + mb) + (g + sb)
             else Y + mt + (h + mb)), S idx),
       update a (set_y X) (update a (set_x (Fin (yc + (Y + mt)))) w)).
Proof.
  intros Hg Hp Hne Hyc mt h mb.
  destruct (placeableH_margins w a Hp) as (E1 & E2 & E3).
  destruct Hp as (Hlt & Hs & _ & _).
  unfold placeHorizontal. cbv zeta.
  unfold mbind, M_bind, bind, get_node, modify, ret.
  rewrite (getBoxModel_cached a w Hs).
  rewrite !(node_update_ne a container) by done.
  rewrite !node_update_eq by (rewrite ?length_update; done).
  cbn [width set_y set_x]. rewrite Hyc, Hg.
  fold (marginLeftOf (node w a)). fold (marginRightOf (node w a)).
  rewrite E1, E2, E3. fold mt h mb. cbn [nadd].
  eexists. f_equal. f_equal.
  destruct (idx <? n - 1)%nat; [| reflexivity].
  destruct (value_is (justifyOf lp) "space-around"); reflexivity.
Qed.

Lemma placed_nodeH (a : nat) (X v : num) (w : World) (j : nat) :
  width (node (update a (set_y X) (update a (set_x v) w)) j)
  = width (node w j)
  ∧ computedStyles (node (update a (set_y X) (update a (set_x v) w)) j)
    = computedStyles (node w j).
Proof.
  split.
  - rewrite (node_update_proj width) by done.
    by rewrite (node_update_proj width).
  - rewrite (node_update_proj computedStyles) by done.
    by rewrite (node_update_proj computedStyles).
Qed.

Lemma same_marginsH (w w' : World) (j : nat) :
  computedStyles (node w' j) = computedStyles (node w j) →
  marginLeftOf (node w' j) = marginLeftOf (node w j)
  ∧ marginRightOf (node w' j) = marginRightOf (node w j).
Proof.
  intros H. unfold marginLeftOf, marginRightOf, stylesOf. by rewrite H.
Qed.

Lemma placeableH_placed (a : nat) (X v : num) (w : World) (c : nat) :
  placeableH w c →
  placeableH (update a (set_y X) (update a (set_x v) w)) c.
Proof.
  intros (Hlt & Hs & Hk & Hh).
  destruct (placed_nodeH a X v w c) as [Eh Ec].
  unfold placeableH, stylesOf. rewrite !length_update, Eh, Ec. done.
Qed.

(** The second loop, from any child on: the positions on the horizontal
    axis of the children it places. *)
Lemma place_walkH (container : nat) (lp : LayoutProps) (bm : BoxModel)
    (cw : num) (n : nat) (sb sa g yc : Q) (l2 : list nat) :
  gapOf lp = Fin g →
  ∀ (Y : Q) (idx : nat) (w : World),
    NoDup l2 → container ∉ l2 → (∀ c, c ∈ l2 → placeableH w c) →
    x (node w container) = Fin yc → idx + length l2 = n →
    let w' := exec (foldM l2 (placeHorizontal container lp bm cw n
                                (Fin sb) (Fin sa)) (Fin Y, idx)) w in
    let sep := (g + sb
                + (if value_is (justifyOf lp) "space-around"
                   then sa else 0))%Q in
    (∀ j, j ∉ l2 → x (node w' j) = x (node w j))
    ∧ (∀ j, width (node w' j) = width (node w j)
            ∧ computedStyles (node w' j) = computedStyles (node w j))
    ∧ (∀ a rest, l2 = a :: rest →
         x (node w' a) = Fin (yc + (Y + qval (marginLeftOf (node w a)))))
    ∧ (∀ k a b, l2 !! k = Some a → l2 !! S k = Some b →
         ∃ ya yb,
           x (node w' a) = Fin ya ∧ x (node w' b) = Fin yb
           ∧ (yb - qval (marginLeftOf (node w b))
              == ya + qval (width (node w a))
                 + qval (marginRightOf (node w a)) + sep)%Q).
Proof.
  intros Hg. induction l2 as [| a rest IH];
    intros Y idx w Hnd Hc Hp Hyc Hn; cbv zeta.
  { cbn [foldM]. unfold exec, ret. cbn [snd].
    repeat split; done. }
  apply NoDup_cons in Hnd as [Ha Hnd].
  apply not_elem_of_cons in Hc as [Hca Hc].
  assert (Hpa : placeableH w a) by (apply Hp; by left).
  destruct (placeHorizontal_step container lp bm cw n sb sa g Y yc idx a w
              Hg Hpa (not_eq_sym Hca) Hyc) as (X & Estep).
  cbv zeta in Estep.
  set (mt := qval (marginLeftOf (node w a))) in *.
  set (h := qval (width (node w a))) in *.
  set (mb := qval (marginRightOf (node w a))) in *.
  set (w1 := update a (set_y X) (update a (set_x (Fin (yc + (Y + mt)))) w))
    in *.
  match type of Estep with
  | _ = ((Fin ?q, _), _) => set (Y' := q) in *
  end.
  assert (Ee : eval (placeHorizontal container lp bm cw n (Fin sb) (Fin sa)
                       (Fin Y, idx) a) w = (Fin Y', S idx))
    by (unfold eval; by rewrite Estep).
  assert (Ex : exec (placeHorizontal container lp bm cw n (Fin sb) (Fin sa)
                       (Fin Y, idx) a) w = w1)
    by (unfold exec; by rewrite Estep).
  cbn [foldM]. rewrite exec_bind, Ee, Ex. cbv beta.
  assert (Hp1 : ∀ c, c ∈ rest → placeableH w1 c).
  { intros c Hin. apply placeableH_placed, Hp. by right. }
  assert (Hyc1 : x (node w1 container) = Fin yc).
  { unfold w1. rewrite !node_update_ne by done. exact Hyc. }
  assert (Hn1 : S idx + length rest = n) by (simpl in Hn; lia).
  specialize (IH Y' (S idx) w1 Hnd Hc Hp1 Hyc1 Hn1). cbv zeta in IH.
  destruct IH as (I1 & I2 & I3 & I4).
  set (w' := exec (foldM rest _ (Fin Y', S idx)) w1) in *.
  assert (Hya : x (node w' a) = Fin (yc + (Y + mt))).
  { rewrite (I1 a Ha). unfold w1.
    assert (Hlt : a < length (objects w)) by apply Hpa.
    rewrite !node_update_eq by (rewrite ?length_update; done). done. }
  assert (Hsame : ∀ j, width (node w' j) = width (node w j)
                       ∧ computedStyles (node w' j)
                         = computedStyles (node w j)).
  { intros j. destruct (I2 j) as [E1 E2].
    destruct (placed_nodeH a X (Fin (yc + (Y + mt))) w j) as [F1 F2].
    fold w1 in F1, F2. split; congruence. }
  split; [| split; [exact Hsame | split]].
  - intros j Hj. apply not_elem_of_cons in Hj as [Hja Hj].
    rewrite (I1 j Hj). unfold w1. by rewrite !node_update_ne.
  - intros a' rest' [= <- <-]. exact Hya.
  - intros k a' b Hk Hk'. destruct k as [| k].
    + injection Hk as <-. destruct rest as [| b0 rest']; [done |].
      injection Hk' as <-.
      exists (yc + (Y + mt))%Q. eexists.
      split; [exact Hya |]. split; [exact (I3 b0 rest' eq_refl) |].
      destruct (placed_nodeH a X (Fin (yc + (Y + mt))) w b0) as [_ F2].
      fold w1 in F2. destruct (same_marginsH w w1 b0 F2) as [-> _].
      unfold Y'.
      assert (Hidx : (idx <? n - 1)%nat = true)
        by (apply Nat.ltb_lt; simpl in Hn; lia).
      rewrite Hidx. fold mt h mb.
      destruct (value_is (justifyOf lp) "space-around"); ring.
    + cbn in Hk, Hk'.
      destruct (I4 k a' b Hk Hk') as (ya & yb & E1 & E2 & E3).
      exists ya, yb. split; [exact E1 |]. split; [exact E2 |].
      destruct (placed_nodeH a X (Fin (yc + (Y + mt))) w a') as [G1 G2].
      destruct (placed_nodeH a X (Fin (yc + (Y + mt))) w b) as [_ F2].
      fold w1 in G1, G2, F2.
      destruct (same_marginsH w w1 b F2) as [<- _].
      destruct (same_marginsH w w1 a' G2) as [_ <-].
      rewrite <- G1. exact E3.
Qed.

(** The positioning part of [layoutHorizontal] lines the children up.  The
    children are distinct nodes other than the container, each with a
    cached style whose horizontal margins are finite numbers and with a
    finite width; the container's position, the content width, the gap
    and the left padding and border are finite numbers.  Then the widths
    stay as they are; the margin box of the first child starts at the left
    of the content box plus an offset that is not negative; and there is
    one separation, at least the gap, such that the margin box of every
    next child starts where the margin box of the child before it ends
    plus that separation.  With [justifyContent] at ["start"] the offset
    is zero and the separation is the gap. *)
Theorem horizontal_flow_lines_up (container : nat) (lp : LayoutProps)
    (bm : BoxModel) (cw ch tg : num) (l : list nat) (w : World) (g0 : Q) :
  NoDup l → container ∉ l → (∀ c, c ∈ l → placeableH w c) →
  is_fin (x (node w container)) → is_fin cw → is_fin tg →
  lp_gap lp = VNum (Fin g0) →
  is_fin (left (padding bm)) → is_fin (left (border bm)) →
  let w' := exec (positionHorizontal container lp bm cw ch tg l) w in
  ∃ sep start : Q,
    (g0 <= sep)%Q ∧ (0 <= start)%Q
    ∧ (value_is (justifyOf lp) "start" = true →
       (sep == g0)%Q ∧ (start == 0)%Q)
    ∧ (∀ j, width (node w' j) = width (node w j))
    ∧ (∀ a, l !! 0%nat = Some a →
         ∃ ya, x (node w' a) = Fin ya
               ∧ (ya == qval (x (node w container))
                        + (qval (left (padding bm)) + qval (left (border bm))
                           + start)
                        + qval (marginLeftOf (node w a)))%Q)
    ∧ (∀ k a b, l !! k = Some a → l !! S k = Some b →
         ∃ ya yb,
           x (node w' a) = Fin ya ∧ x (node w' b) = Fin yb
           ∧ (yb - qval (marginLeftOf (node w b))
              == ya + qval (width (node w a))
                 + qval (marginRightOf (node w a)) + sep)%Q).
Proof.
  intros Hnd Hc Hp Hy Hch Htg Hgap Hpt Hbt w'. subst w'.
  rewrite positionHorizontal_loops. cbv zeta.
  destruct (outerWidths_run w l Hp 0) as (T & ET).
  assert (Ee : eval (foldM l outerWidthStep (Fin 0)) w = Fin T)
    by (unfold eval; by rewrite ET).
  assert (Ex : exec (foldM l outerWidthStep (Fin 0)) w = w)
    by (unfold exec; by rewrite ET).
  rewrite Ee, Ex.
  destruct cw as [cwq | | |]; try done. destruct tg as [tgq | | |]; try done.
  cbn [nadd nsub].
  destruct (nmax_zero (cwq - (T + tgq))) as (r & -> & Hr).
  destruct (justifySpacing_fin (justifyOf lp) r (length l) Hr)
    as (s0 & sb & sa & -> & Hs0 & Hsb & Hsa & Hstart).
  cbn [fst snd].
  destruct (gapOf_fin lp g0 Hgap) as (g & Hg & Eg).
  set (pt := qval (left (padding bm))). set (bt := qval (left (border bm))).
  set (around := value_is (justifyOf lp) "space-around") in *.
  set (extra := if around && (0 <? length l)%nat then (sa / 2)%Q else 0%Q).
  assert (EY : (if around && (0 <? length l)%nat
                then (left (padding bm) + left (border bm) + Fin s0
                      + Fin sa / Fin 2)%num
                else (left (padding bm) + left (border bm) + Fin s0)%num)
               = Fin (if around && (0 <? length l)%nat
                      then pt + bt + s0 + sa / 2 else pt + bt + s0)).
  { unfold pt, bt.
    destruct (left (padding bm)) as [p1 | | |]; try done.
    destruct (left (border bm)) as [b1 | | |]; try done.
    destruct (around && (0 <? length l)%nat); reflexivity. }
  rewrite EY.
  set (Y1 := if around && (0 <? length l)%nat
             then (pt + bt + s0 + sa / 2)%Q else (pt + bt + s0)%Q).
  destruct (place_walkH container lp bm ch (length l) sb sa g
              (qval (x (node w container))) l Hg Y1 0%nat w Hnd Hc Hp
              (is_fin_val _ Hy) eq_refl) as (_ & W2 & W3 & W4).
  fold around in W4.
  exists (g + sb + (if around then sa else 0))%Q, (s0 + extra)%Q.
  assert (Hextra : (0 <= extra)%Q).
  { unfold extra. destruct (around && (0 <? length l)%nat); [| lra].
    apply Qdiv_nonneg; lra. }
  split. { rewrite <- Eg. destruct around; lra. }
  split. { lra. }
  split.
  { intros Hst. destruct (Hstart Hst) as (Z0 & Zb & Za).
    fold around in Za. unfold extra. rewrite Za. simpl. split; lra. }
  split. { intros j. apply W2. }
  split.
  { intros a Ha. destruct l as [| a' rest]; [done |].
    injection Ha as ->. eexists. split; [exact (W3 a rest eq_refl) |].
    unfold extra, Y1. destruct (around && _); ring. }
  exact W4.
Qed.

Lemma horizontal_flow_lines_up_witness :
  let lp := layoutPropsOf (stylesOf (node stacked_world 0)) in
  let bm := boxModelOf (stylesOf (node stacked_world 0)) in
  let w' := exec (positionHorizontal 0 lp bm (Fin 0) (Fin 0) (Fin 20)
                    [1; 2; 3]) stacked_world in
  placeableH stacked_world 1
  ∧ ∃ sep ya yb : Q,
      (10 <= sep)%Q
      ∧ x (node w' 1) = Fin ya ∧ x (node w' 2) = Fin yb
      ∧ (yb - qval (marginLeftOf (node stacked_world 2))
         == ya + qval (width (node stacked_world 1))
            + qval (marginRightOf (node stacked_world 1)) + sep)%Q.
Proof.
  intros lp bm w'.
  assert (Hp : ∀ c, c ∈ [1; 2; 3] → placeableH stacked_world c).
  { intros c Hc. apply list_elem_of_In in Hc. simpl in Hc.
    assert (Hone : ∀ c', c' = 1 ∨ c' = 2 ∨ c' = 3 →
                         placeableH stacked_world c').
    { intros c' Hc'. unfold placeableH. split; [| split; [| split]].
      - destruct Hc' as [-> | [-> | ->]]; vm_compute; lia.
      - destruct Hc' as [-> | [-> | ->]]; vm_compute; by eexists.
      - intros k v Hk Hv. apply list_elem_of_In in Hk. simpl in Hk.
        destruct Hc' as [-> | [-> | ->]];
          destruct Hk as [<- | [<- | [<- | []]]];
          vm_compute in Hv;
          first [ discriminate Hv
                | injection Hv as <-; eexists; reflexivity ].
      - destruct Hc' as [-> | [-> | ->]]; vm_compute; exact I. }
    apply Hone. destruct Hc as [<- | [<- | [<- | []]]]; auto. }
  assert (H1 : NoDup [1; 2; 3])
    by (apply (bool_decide_unpack _); vm_compute; exact I).
  assert (H2 : 0 ∉ [1; 2; 3])
    by (apply (bool_decide_unpack _); vm_compute; exact I).
  assert (H3 : is_fin (x (node stacked_world 0))) by (vm_compute; exact I).
  assert (H4 : lp_gap lp = VNum (Fin 10)) by (vm_compute; reflexivity).
  assert (H5 : is_fin (left (padding bm))) by (vm_compute; exact I).
  assert (H6 : is_fin (left (border bm))) by (vm_compute; exact I).
  split; [apply Hp; by left |].
  destruct (horizontal_flow_lines_up 0 lp bm (Fin 0) (Fin 0) (Fin 20) [1; 2; 3]
              stacked_world 10 H1 H2 Hp H3 I I H4 H5 H6)
    as (sep & start & Hsep & _ & _ & _ & _ & Hadj).
  destruct (Hadj 0%nat 1 2 eq_refl eq_refl) as (ya & yb & E1 & E2 & E3).
  exists sep, ya, yb. split; [exact Hsep |]. split; [exact E1 |].
  split; [exact E2 | exact E3].
Defined.

(* ===================================================================== *)
(** * A container that fits its content wraps its stack *)
(* ===================================================================== *)

Lemma outerHeightSum_same (w w' : World) (l : list nat) :
  (∀ j, height (node w' j) = height (node w j)
        ∧ computedStyles (node w' j) = computedStyles (node w j)) →
  outerHeightSum w' l = outerHeightSum w l.
Proof.
  intros H. induction l as [| c l IH]; [done |]. simpl. rewrite IH.
  destruct (H c) as [Eh Ec]. destruct (same_margins w w' c Ec) as [-> ->].
  by rewrite Eh.
Qed.

(** The end of the margin box of the last child the second loop of the
    positioning places. *)
Lemma place_walk_last (container : nat) (lp : LayoutProps) (bm : BoxModel)
    (cw : num) (n : nat) (sb sa g yc : Q) (l2 : list nat) :
  gapOf lp = Fin g →
  ∀ (Y : Q) (idx : nat) (w : World),
    NoDup l2 → container ∉ l2 → (∀ c, c ∈ l2 → placeable w c) →
    y (node w container) = Fin yc → idx + length l2 = n →
    let w' := exec (foldM l2 (placeVertical container lp bm cw n
                                (Fin sb) (Fin sa)) (Fin Y, idx)) w in
    let sep := (g + sb
                + (if value_is (justifyOf lp) "space-around"
                   then sa else 0))%Q in
    ∀ c, last l2 = Some c →
      ∃ yl, y (node w' c) = Fin yl
            ∧ (yl + qval (height (node w c))
               + qval (marginBottomOf (node w c))
               == yc + Y + outerHeightSum w l2
                  + inject_Z (Z.of_nat (length l2 - 1)) * sep)%Q.
Proof.
  intros Hg. induction l2 as [| a rest IH];
    intros Y idx w Hnd Hc Hp Hyc Hn; cbv zeta; [done |].
  intros c Hlast.
  destruct (place_walk container lp bm cw n sb sa g yc (a :: rest) Hg
              Y idx w Hnd Hc Hp Hyc Hn) as (_ & _ & Hhead & _).
  specialize (Hhead a rest eq_refl). cbv zeta in Hhead.
  destruct rest as [| b rest'].
  { injection Hlast as <-. eexists. split; [exact Hhead |].
    simpl. ring. }
  apply NoDup_cons in Hnd as [Ha Hnd].
  apply not_elem_of_cons in Hc as [Hca Hc].
  assert (Hpa : placeable w a) by (apply Hp; by left).
  destruct (placeVertical_step container lp bm cw n sb sa g Y yc idx a w
              Hg Hpa (not_eq_sym Hca) Hyc) as (X & Estep).
  cbv zeta in Estep.
  set (mt := qval (marginTopOf (node w a))) in *.
  set (h := qval (height (node w a))) in *.
  set (mb := qval (marginBottomOf (node w a))) in *.
  set (w1 := update a (set_x X) (update a (set_y (Fin (yc + (Y + mt)))) w))
    in *.
  match type of Estep with
  | _ = ((Fin ?q, _), _) => set (Y' := q) in *
  end.
  assert (Ee : eval (placeVertical container lp bm cw n (Fin sb) (Fin sa)
                       (Fin Y, idx) a) w = (Fin Y', S idx))
    by (unfold eval; by rewrite Estep).
  assert (Ex : exec (placeVertical container lp bm cw n (Fin sb) (Fin sa)
                       (Fin Y, idx) a) w = w1)
    by (unfold exec; by rewrite Estep).
  cbn [foldM]. rewrite exec_bind, Ee, Ex. cbv beta.
  assert (Hp1 : ∀ c, c ∈ b :: rest' → placeable w1 c).
  { intros c' Hin. apply placeable_placed, Hp. by right. }
  assert (Hyc1 : y (node w1 container) = Fin yc).
  { unfold w1. rewrite !node_update_ne by done. exact Hyc. }
  assert (Hn1 : S idx + length (b :: rest') = n) by (simpl in *; lia).
  destruct (IH Y' (S idx) w1 Hnd Hc Hp1 Hyc1 Hn1 c Hlast)
    as (yl & Eyl & El).
  exists yl. split; [exact Eyl |].
  assert (Hsame : ∀ j, height (node w1 j) = height (node w j)
                       ∧ computedStyles (node w1 j)
                         = computedStyles (node w j))
    by (intros j; apply placed_node).
  rewrite (outerHeightSum_same w w1 _ Hsame) in El.
  destruct (Hsame c) as [Eh Ec].
  destruct (same_margins w w1 c Ec) as [_ Emb].
  rewrite Eh, Emb in El. rewrite El.
  assert (Hidx : (idx <? n - 1)%nat = true)
    by (apply Nat.ltb_lt; simpl in Hn; lia).
  unfold Y'. rewrite Hidx.
  change (outerHeightSum w (a :: b :: rest'))
    with (mt + h + mb + outerHeightSum w (b :: rest'))%Q.
  replace (length (a :: b :: rest') - 1) with (S (length (b :: rest') - 1))
    by (simpl; lia).
  rewrite Nat2Z.inj_succ. unfold Z.succ. rewrite inject_Z_plus.
  destruct (value_is (justifyOf lp) "space-around"); simpl inject_Z; ring.
Qed.

(** [getLayoutChildren] on a node whose children carry their styles:
    the children filtered, and nothing written. *)
Lemma getLayoutChildren_walk (w : World) (l : list nat) :
  (∀ c, c ∈ l → skipped (node w c) = false →
        is_Some (computedStyles (node w c))) →
  ∀ acc, foldM l layoutChildStep acc w
         = (acc ++ List.filter (inFlowCached w) l, w).
Proof.
  induction l as [| c l IH]; intros Hc acc.
  { simpl. by rewrite app_nil_r. }
  assert (Hl : ∀ c', c' ∈ l → skipped (node w c') = false →
                     is_Some (computedStyles (node w c')))
    by (intros c' Hin; apply Hc; by right).
  cbn [foldM List.filter]. unfold mbind at 1, M_bind at 1, bind at 1.
  unfold layoutChildStep at 1.
  unfold mbind at 1, M_bind at 1, bind at 1, get_node at 1.
  unfold inFlowCached at 1. unfold skipped at 1.
  destruct (bool_decide (doLayout (node w c) = Some false)) eqn:Ed.
  { rewrite orb_true_r. cbn [negb andb]. unfold ret at 1. by apply IH. }
  destruct (isVisible (node w c)) eqn:Ev; cbn [negb orb andb].
  2: { unfold ret at 1. by apply IH. }
  assert (Hs : is_Some (computedStyles (node w c))).
  { apply Hc; [by left |]. unfold skipped. by rewrite Ed, Ev. }
  unfold mbind at 1, M_bind at 1, bind at 1.
  assert (He : ensureStyles c w = (tt, w)).
  { unfold ensureStyles. by destruct Hs as [s ->]. }
  rewrite He. unfold mbind at 1, M_bind at 1, bind at 1, get_node at 1.
  destruct (is_out_of_flow (stylesOf (node w c))); cbn [negb];
    unfold ret at 1; rewrite (IH Hl); [done |].
  by rewrite <- app_assoc.
Qed.

Lemma getOuterHeight_cached (c : nat) (w : World) :
  is_Some (computedStyles (node w c)) →
  getOuterHeight c w
  = ((height (node w c) + marginTopOf (node w c)
      + marginBottomOf (node w c))%num, w).
Proof.
  intros Hs. unfold getOuterHeight.
  unfold mbind, M_bind, bind, get_node, ret.
  by rewrite (getBoxModel_cached c w Hs).
Qed.

Lemma getOuterWidth_cached (c : nat) (w : World) :
  is_Some (computedStyles (node w c)) →
  ∃ ow, getOuterWidth c w = (ow, w).
Proof.
  intros Hs. unfold getOuterWidth.
  unfold mbind, M_bind, bind, get_node, ret.
  rewrite (getBoxModel_cached c w Hs). by eexists.
Qed.

(** The loop of the vertical case of [applyFitContentSizing]. *)
Lemma fitVertical_run (n : nat) (g : Q) (w : World) (l2 : list nat) :
  (∀ c, c ∈ l2 → placeable w c) →
  ∀ (idx : nat) (t : Q) (mw : num),
    idx + length l2 = n →
    ∃ t' mw',
      foldM l2 (fitVerticalStep n (Fin g)) (Fin t, mw, idx) w
      = ((Fin t', mw', n), w)
      ∧ (t' == t + outerHeightSum w l2
               + inject_Z (Z.of_nat (length l2 - 1)) * g)%Q.
Proof.
  induction l2 as [| a rest IH]; intros Hp idx t mw Hn.
  { exists t, mw. simpl in *. replace idx with n by lia.
    split; [reflexivity | ring]. }
  assert (Hpa : placeable w a) by (apply Hp; by left).
  destruct (placeable_margins w a Hpa) as (E1 & E2 & E3).
  assert (Hs : is_Some (computedStyles (node w a))) by apply Hpa.
  destruct (getOuterWidth_cached a w Hs) as (ow & Eow).
  cbn [foldM]. unfold mbind at 1, M_bind at 1, bind at 1.
  unfold fitVerticalStep at 1.
  unfold mbind, M_bind, bind, ret.
  rewrite (getOuterHeight_cached a w Hs), Eow, E1, E2, E3. cbn [nadd].
  assert (Hrest : ∀ c, c ∈ rest → placeable w c)
    by (intros c Hin; apply Hp; by right).
  assert (Hn1 : S idx + length rest = n) by (simpl in Hn; lia).
  set (mt := qval (marginTopOf (node w a))) in *.
  set (h := qval (height (node w a))) in *.
  set (mb := qval (marginBottomOf (node w a))) in *.
  destruct (idx <? n - 1)%nat eqn:Ei.
  - apply Nat.ltb_lt in Ei.
    destruct (IH Hrest (S idx) (t + (h + mt + mb) + g)%Q (nmax mw ow) Hn1)
      as (t' & mw' & E & Et).
    exists t', mw'. cbn [nadd]. split; [exact E |]. rewrite Et.
    change (outerHeightSum w (a :: rest))
      with (mt + h + mb + outerHeightSum w rest)%Q.
    destruct rest as [| b rest']; [simpl in *; lia |].
    replace (length (a :: b :: rest') - 1)
      with (S (length (b :: rest') - 1)) by (simpl; lia).
    rewrite Nat2Z.inj_succ. unfold Z.succ. rewrite inject_Z_plus.
    simpl inject_Z. ring.
  - apply Nat.ltb_ge in Ei.
    destruct (IH Hrest (S idx) (t + (h + mt + mb))%Q (nmax mw ow) Hn1)
      as (t' & mw' & E & Et).
    exists t', mw'. split; [exact E |]. rewrite Et.
    change (outerHeightSum w (a :: rest))
      with (mt + h + mb + outerHeightSum w rest)%Q.
    destruct rest as [| b rest']; [simpl; ring | simpl in *; lia].
Qed.

(** The vertical case of [applyFitContentSizing] on a container whose
    layout children are [l]: the store it leaves, and the height it
    gives the container. *)
Lemma fit_vertical_height (i : nat) (lp : LayoutProps) (w : World)
    (g0 : Q) (l : list nat) :
  i < length (objects w) → is_Some (computedStyles (node w i)) →
  getLayoutChildren i w = (l, w) →
  (∀ c, c ∈ l → placeable w c) →
  value_is (lp_display lp) "vertical" = true →
  lp_gap lp = VNum (Fin g0) →
  finiteBoxV (boxModelOf (stylesOf (node w i))) →
  let bm := boxModelOf (stylesOf (node w i)) in
  ∃ (H : Q) (W : num),
    exec (applyFitContentSizing i lp) w
    = update i (set_width W) (update i (set_height (Fin H)) w)
    ∧ (H == qval (top (padding bm)) + qval (bottom (padding bm))
            + outerHeightSum w l
            + inject_Z (Z.of_nat (length l - 1)) * g0
            + qval (top (border bm)) + qval (bottom (border bm)))%Q.
Proof.
  intros Hi Hs Hl Hp Hd Hg (F1 & F2 & F3 & F4) bm. subst bm.
  unfold applyFitContentSizing.
  unfold mbind at 1, M_bind at 1, bind at 1, exec. rewrite Hl.
  unfold mbind at 1, M_bind at 1, bind at 1.
  rewrite (getBoxModel_cached i w Hs). cbv zeta. rewrite Hd, Hg.
  cbn [toNumber].
  rewrite (is_fin_val _ F1), (is_fin_val _ F2). cbn [nadd].
  destruct (fitVertical_run (length l) g0 w l Hp 0
              (qval (top (padding (boxModelOf (stylesOf (node w i)))))
               + qval (bottom (padding (boxModelOf (stylesOf (node w i))))))%Q
              (Fin 0) eq_refl) as (t' & mw' & E & Et).
  unfold fitVerticalStep in E.
  unfold mbind at 1, M_bind at 1, bind at 1.
  rewrite E. unfold mbind, M_bind, bind, modify. cbn [snd].
  rewrite (is_fin_val _ F3), (is_fin_val _ F4). cbn [nadd].
  eexists _, _. split; [reflexivity |].
  cbn [qval]. rewrite Et. ring.
Qed.

(** With [justifyContent] at ["start"] the positioning is its second
    loop, entered at the top of the content box with no extra space
    between the children. *)
Lemma positionVertical_start (container : nat) (lp : LayoutProps)
    (bm : BoxModel) (cw ch tg : num) (l : list nat) (w : World) :
  (∀ c, c ∈ l → placeable w c) → is_fin ch → is_fin tg →
  is_fin (top (padding bm)) → is_fin (top (border bm)) →
  value_is (justifyOf lp) "start" = true →
  ∃ s0 sb sa : Q,
    (s0 == 0)%Q ∧ (sb == 0)%Q
    ∧ value_is (justifyOf lp) "space-around" = false
    ∧ exec (positionVertical container lp bm cw ch tg l) w
      = exec (foldM l (placeVertical container lp bm cw (length l)
                         (Fin sb) (Fin sa))
                (Fin (qval (top (padding bm)) + qval (top (border bm))
                      + s0), 0%nat)) w.
Proof.
  intros Hp Hch Htg Hpt Hbt Hst.
  rewrite positionVertical_loops. cbv zeta.
  destruct (outerHeights_run w l Hp 0) as (T & ET).
  assert (Ee : eval (foldM l outerHeightStep (Fin 0)) w = Fin T)
    by (unfold eval; by rewrite ET).
  assert (Ex : exec (foldM l outerHeightStep (Fin 0)) w = w)
    by (unfold exec; by rewrite ET).
  rewrite Ee, Ex.
  destruct ch as [chq | | |]; try done. destruct tg as [tgq | | |]; try done.
  cbn [nadd nsub].
  destruct (nmax_zero (chq - (T + tgq))) as (r & -> & Hr).
  destruct (justifySpacing_fin (justifyOf lp) r (length l) Hr)
    as (s0 & sb & sa & -> & _ & _ & _ & Hstart).
  destruct (Hstart Hst) as (Z0 & Zb & Za).
  cbn [fst snd]. rewrite Za. cbn [andb].
  exists s0, sb, sa. split; [exact Z0 |]. split; [exact Zb |].
  split; [reflexivity |].
  destruct (top (padding bm)) as [p1 | | |]; try done.
  destruct (top (border bm)) as [b1 | | |]; try done.
Qed.

Lemma inFlowCached_same (w w' : World) (c : nat) :
  attrs (node w' c) = attrs (node w c) →
  computedStyles (node w' c) = computedStyles (node w c) →
  skipped (node w' c) = skipped (node w c)
  ∧ inFlowCached w' c = inFlowCached w c.
Proof.
  intros Ha Hc. unfold attrs in Ha. injection Ha as Hv _ _ _ _ _ Hd.
  unfold inFlowCached, skipped, stylesOf. by rewrite Hv, Hd, Hc.
Qed.

Lemma filter_same {A} (f g : A → bool) (l : list A) :
  (∀ a, f a = g a) → List.filter f l = List.filter g l.
Proof.
  intros H. induction l as [| a l IH]; [done |]. simpl.
  by rewrite H, IH.
Qed.

(** A container that fits its content wraps its stack.  Take a vertical
    container with [justifyContent] at ["start"], a cached style and
    finite numbers for its position, gap, padding and border, whose
    children that take part in layout carry their styles and whose
    in-flow children are distinct nodes other than the container, with
    finite heights and vertical margins.  After the positioning part of
    [layoutVertical] and [applyFitContentSizing] (steps 5 and 6 of the
    pass) the margin box of the last in-flow child ends exactly at the
    bottom of the content box of the container: at the container's
    position plus its height less its bottom padding and border. *)
Theorem fit_content_wraps_stack (i : nat) (lp : LayoutProps)
    (cw ch tg : num) (w : World) (g0 : Q) :
  let bm := boxModelOf (stylesOf (node w i)) in
  let l := List.filter (inFlowCached w) (children (node w i)) in
  i < length (objects w) → is_Some (computedStyles (node w i)) →
  (∀ c, c ∈ children (node w i) → skipped (node w c) = false →
        is_Some (computedStyles (node w c))) →
  NoDup l → i ∉ l → (∀ c, c ∈ l → placeable w c) →
  is_fin (y (node w i)) → is_fin ch → is_fin tg →
  lp_gap lp = VNum (Fin g0) → finiteBoxV bm →
  value_is (lp_display lp) "vertical" = true →
  value_is (justifyOf lp) "start" = true →
  let w1 := exec (positionVertical i lp bm cw ch tg l) w in
  let w2 := exec (applyFitContentSizing i lp) w1 in
  ∀ c, last l = Some c →
    ∃ yl H : Q,
      y (node w2 c) = Fin yl ∧ height (node w2 i) = Fin H
      ∧ height (node w2 c) = height (node w c)
      ∧ y (node w2 i) = y (node w i)
      ∧ (yl + qval (height (node w c)) + qval (marginBottomOf (node w c))
         == qval (y (node w i)) + H
            - qval (bottom (padding bm)) - qval (bottom (border bm)))%Q.
Proof.
  intros bm l Hi Hs Hcs Hnd Hil Hp Hy Hch Htg Hgap Hbox Hd Hst w1 w2 c Hlast.
  pose proof Hbox as (F1 & F2 & F3 & F4).
  destruct (positionVertical_start i lp bm cw ch tg l w Hp Hch Htg F1 F3 Hst)
    as (s0 & sb & sa & Z0 & Zb & Za & Erun).
  destruct (gapOf_fin lp g0 Hgap) as (g & Hg & Eg).
  set (yc := qval (y (node w i))).
  set (Y1 := (qval (top (padding bm)) + qval (top (border bm)) + s0)%Q)
    in *.
  destruct (place_walk i lp bm cw (length l) sb sa g yc l Hg Y1 0%nat w
              Hnd Hil Hp (is_fin_val _ Hy) eq_refl)
    as (W1 & W2 & _ & _).
  destruct (place_walk_last i lp bm cw (length l) sb sa g yc l Hg Y1 0%nat w
              Hnd Hil Hp (is_fin_val _ Hy) eq_refl c Hlast)
    as (yl & Eyl & El).
  rewrite <- Erun in W1, W2, Eyl. fold w1 in W1, W2, Eyl.
  rewrite Za in El.
  (* the store after the positioning, seen from [getLayoutChildren] *)
  assert (Hlen : length (objects w1) = length (objects w)).
  { apply (frame_positionVertical (λ w, length (objects w)));
      intros; apply length_update. }
  assert (Hattr : ∀ j, attrs (node w1 j) = attrs (node w j)).
  { intros j. apply (frame_positionVertical (λ w, attrs (node w j)));
      intros; by apply node_update_proj. }
  assert (Hch1 : children (node w1 i) = children (node w i)).
  { specialize (Hattr i). unfold attrs in Hattr.
    by injection Hattr as _ _ _ Hc _ _ _. }
  assert (Hl1 : getLayoutChildren i w1 = (l, w1)).
  { rewrite getLayoutChildren_loop, Hch1.
    rewrite (getLayoutChildren_walk w1 (children (node w i))).
    - cbn [app]. f_equal. apply filter_same. intros a.
      apply inFlowCached_same; [apply Hattr | apply W2].
    - intros a Ha Hsk.
      destruct (inFlowCached_same w w1 a (Hattr a) (proj2 (W2 a)))
        as [Esk _].
      rewrite (proj2 (W2 a)). apply Hcs; [exact Ha | congruence]. }
  assert (Hp1 : ∀ a, a ∈ l → placeable w1 a).
  { intros a Ha. destruct (Hp a Ha) as (P1 & P2 & P3 & P4).
    destruct (W2 a) as [Eh Ec]. unfold placeable, stylesOf.
    rewrite Hlen, Eh, Ec. done. }
  assert (Hbm1 : boxModelOf (stylesOf (node w1 i)) = bm).
  { unfold bm, stylesOf. by rewrite (proj2 (W2 i)). }
  destruct (fit_vertical_height i lp w1 g0 l) as (H & W & Ew2 & EH);
    [lia | by rewrite (proj2 (W2 i)) | exact Hl1 | exact Hp1 | exact Hd
    | exact Hgap | by rewrite Hbm1 |].
  rewrite Hbm1 in EH. rewrite (outerHeightSum_same w w1 l W2) in EH.
  fold w2 in Ew2.
  assert (Hci : c ≠ i).
  { intros ->. apply Hil. apply last_Some_elem_of in Hlast. exact Hlast. }
  exists yl, H.
  split. { rewrite Ew2, !node_update_ne by done. exact Eyl. }
  split. { rewrite Ew2, !node_update_eq by (rewrite ?length_update; lia).
           reflexivity. }
  split. { rewrite Ew2, !node_update_ne by done. apply W2. }
  split. { rewrite Ew2, !(node_update_proj y) by done. by apply W1. }
  rewrite El, EH. unfold Y1. fold yc. rewrite Z0, Zb, Eg. ring.
Qed.

Lemma fit_content_wraps_stack_witness :
  let lp := layoutPropsOf (stylesOf (node stacked_world 0)) in
  let bm := boxModelOf (stylesOf (node stacked_world 0)) in
  let w1 := exec (positionVertical 0 lp bm (Fin 0) (Fin 0) (Fin 20)
                    [1; 2; 3]) stacked_world in
  let w2 := exec (applyFitContentSizing 0 lp) w1 in
  placeable stacked_world 3
  ∧ ∃ yl H : Q,
      y (node w2 3) = Fin yl ∧ height (node w2 0) = Fin H
      ∧ (yl + qval (height (node stacked_world 3))
            + qval (marginBottomOf (node stacked_world 3))
         == qval (y (node stacked_world 0)) + H
            - qval (bottom (padding bm)) - qval (bottom (border bm)))%Q.
Proof.
  intros lp bm w1 w2.
  assert (El : List.filter (inFlowCached stacked_world)
                 (children (node stacked_world 0)) = [1; 2; 3])
    by (vm_compute; reflexivity).
  assert (H1 : 0 < length (objects stacked_world)) by (vm_compute; lia).
  assert (H2 : is_Some (computedStyles (node stacked_world 0)))
    by (vm_compute; by eexists).
  assert (H3 : ∀ c, c ∈ children (node stacked_world 0) →
                 skipped (node stacked_world c) = false →
                 is_Some (computedStyles (node stacked_world c))).
  { intros c Hc _.
    assert (Ec : children (node stacked_world 0) = [1; 2; 3])
      by (vm_compute; reflexivity).
    rewrite Ec in Hc. exact (proj1 (proj2 (stacked_placeable c Hc))). }
  assert (H4 : NoDup [1; 2; 3])
    by (apply (bool_decide_unpack _); vm_compute; exact I).
  assert (H5 : 0 ∉ [1; 2; 3])
    by (apply (bool_decide_unpack _); vm_compute; exact I).
  assert (H6 : is_fin (y (node stacked_world 0))) by (vm_compute; exact I).
  assert (H7 : lp_gap lp = VNum (Fin 10)) by (vm_compute; reflexivity).
  assert (H8 : finiteBoxV bm) by (vm_compute; tauto).
  assert (H9 : value_is (lp_display lp) "vertical" = true)
    by (vm_compute; reflexivity).
  assert (H10 : value_is (justifyOf lp) "start" = true)
    by (vm_compute; reflexivity).
  split; [apply stacked_placeable; by right; right; left |].
  pose proof (fit_content_wraps_stack 0 lp (Fin 0) (Fin 0) (Fin 20)
                stacked_world 10) as T.
  cbv zeta in T. rewrite El in T.
  destruct (T H1 H2 H3 H4 H5 stacked_placeable H6 I I H7 H8 H9 H10 3 eq_refl)
    as (yl & H & E1 & E2 & _ & _ & E3).
  exists yl, H. split; [exact E1 |]. split; [exact E2 |]. exact E3.
Defined.
